(** * GraphAlgorithms: a shallow embedding of [visualisation/algorithm_runner.py]

    The six routines of [AlgorithmRunner] (Dijkstra, nearest-neighbour TSP,
    Kruskal, DFS connectivity, greedy colouring, greedy k-centres) and the
    dispatcher [run_algorithm] are transcribed as Rocq functions, and the
    properties stated about them in the specification are proved (or refuted)
    on these functions.

    Modelling conventions.
    - Vertex identifiers are Python [int]s: [Z].
    - Weights and distances are Python numbers.  They are modelled as exact
      rationals extended with [+infinity] ([num]); binary rounding error of
      IEEE doubles is outside the model.
    - A Python [dict] is a [gmap], a Python [set] a [gset].
    - A failed subscription [d[k]] raises [KeyError k]; this is the only
      exception the routines can raise on graphs whose edges are 2- or
      3-tuples, and it is modelled by [Raise].
    - Loops and recursion that Python runs unboundedly take a fuel argument;
      [NoFuel] marks exhaustion and every theorem that states a result
      proves that the fuel given by the top-level routine is enough. *)

From Stdlib Require Import ZArith QArith Lqa Lia.
From stdpp Require Import gmap strings pretty list sorting.

Local Open Scope Z_scope.

(** ** Numbers *)

Inductive num : Type :=
| Fin (q : Q)
| Inf.

Definition num_add (a b : num) : num :=
  match a, b with
  | Fin x, Fin y => Fin (x + y)
  | _, _ => Inf
  end.

Definition Qltb (x y : Q) : bool := negb (Qle_bool y x).

(** [a < b] on Python numbers. *)
Definition num_ltb (a b : num) : bool :=
  match a, b with
  | Fin x, Fin y => Qltb x y
  | Fin _, Inf => true
  | Inf, _ => false
  end.

(** [a == b] on Python numbers. *)
Definition num_eqb (a b : num) : bool :=
  match a, b with
  | Fin x, Fin y => Qeq_bool x y
  | Inf, Inf => true
  | _, _ => false
  end.

(** Propositional order on [num], used in statements. *)
Definition num_le (a b : num) : Prop :=
  match a, b with
  | Fin x, Fin y => (x <= y)%Q
  | _, Inf => True
  | Inf, Fin _ => False
  end.

(** Nearest integer, ties to even: the rounding rule of Python's [round]. *)
Definition round_half_even (q : Q) : Z :=
  let n := Qnum q in
  let d := Z.pos (Qden q) in
  let f := n / d in
  let r := n mod d in
  match 2 * r ?= d with
  | Lt => f
  | Gt => f + 1
  | Eq => if Z.even f then f else f + 1
  end.

(** [round(x, 2)] on a finite number. *)
Definition round2Q (q : Q) : Q := round_half_even (q * 100) # 100.

(** [round(x, 2)]; [round(float('inf'), 2)] is [inf]. *)
Definition round2 (x : num) : num :=
  match x with
  | Fin q => Fin (round2Q q)
  | Inf => Inf
  end.

(** ** Graphs *)

(** An edge is a 2-tuple [(v1, v2)] or a 3-tuple [(v1, v2, weight)]. *)
Inductive edge : Type :=
| E2 (v1 v2 : Z)
| E3 (v1 v2 : Z) (weight : Q).

(** [graph_data]: the keys ['vertices'] and ['edges'] of the input dict. *)
Record graph : Type := Graph {
  vertices : list Z;
  edges : list edge
}.

(** The unpacking every routine that reads weights performs:
    [if len(edge) == 3: v1, v2, weight = edge  else: v1, v2 = edge; weight = 1.0]. *)
Definition unpack (e : edge) : Z * Z * Q :=
  match e with
  | E3 v1 v2 w => (v1, v2, w)
  | E2 v1 v2 => (v1, v2, 1%Q)
  end.

(** [edge[0], edge[1]]. *)
Definition endpoints (e : edge) : Z * Z :=
  match e with
  | E3 v1 v2 _ => (v1, v2)
  | E2 v1 v2 => (v1, v2)
  end.

(** ** Outcomes: a value, a raised exception, or fuel exhaustion *)

Inductive exn : Type :=
| KeyError (k : Z).

Inductive res (A : Type) : Type :=
| Ok (a : A)
| Raise (e : exn)
| NoFuel.
Arguments Ok {A} a.
Arguments Raise {A} e.
Arguments NoFuel {A}.

Global Instance res_ret : MRet res := λ A a, Ok a.
Global Instance res_bind : MBind res := λ A B f m,
  match m with
  | Ok a => f a
  | Raise e => Raise e
  | NoFuel => NoFuel
  end.

(** [d[k]] on a dict with integer keys. *)
Definition subscript {V : Type} (d : gmap Z V) (k : Z) : res V :=
  match d !! k with
  | Some v => Ok v
  | None => Raise (KeyError k)
  end.

(** [{v: f(v) for v in vs}]: later occurrences of a key overwrite earlier ones. *)
Definition dict_of {K V : Type} `{Countable K} (key : Z → K) (f : Z → V) (vs : list Z) : gmap K V :=
  foldl (λ m v, <[key v := f v]> m) ∅ vs.

(** [for x in xs: st = body(x, st)] with exceptions propagated. *)
Fixpoint for_each {A S : Type} (body : A → S → res S) (xs : list A) (st : S) : res S :=
  match xs with
  | [] => Ok st
  | x :: rest => st' ← body x st; for_each body rest st'
  end.

(** Keys of result dicts: Python [int] or [str]. *)
Abbreviation pykey := (Z + string)%type (only parsing).

(** [str(v)] for an [int]. *)
Definition str (v : Z) : string := pretty v.

(** ** Results *)

Inductive result : Type :=
| ErrorResult (error : string) (success : option bool)
| DijkstraResult (algorithm : string) (distances : gmap pykey num)
    (parent : gmap pykey Z) (start : Z) (success : bool)
| TspResult (algorithm : string) (tour : list Z) (total_distance : num)
    (vertices_visited : Z) (success : bool)
| MstResult (algorithm : string) (mst_edges : list (Z * Z * Q)) (total_weight : Q)
    (num_edges : nat) (is_connected : bool) (success : bool)
| ConnectivityResult (algorithm : string) (components : list (list Z))
    (num_components : nat) (is_connected : bool) (largest_component_size : nat)
    (success : bool)
| ColoringResult (algorithm : string) (coloring : gmap Z Z) (chromatic_number : Z)
    (colors_used : list Z) (success : bool)
| HotelResult (algorithm : string) (centers : list Z) (num_centers : nat)
    (assignment : gmap Z Z) (max_distance : num) (success : bool).

Definition empty_graph_error : result := ErrorResult "Empty graph" (Some false).

(** ** Dijkstra *)

Module Dijkstra.

Abbreviation adjacency := (gmap Z (list (Z * Q))) (only parsing).

(** [adj[v1].append((v2, weight)); adj[v2].append((v1, weight))]. *)
Definition add_edge (e : edge) (adj : adjacency) : res adjacency :=
  let '(v1, v2, w) := unpack e in
  l1 ← subscript adj v1;
  let adj1 := <[v1 := l1 ++ [(v2, w)]]> adj in
  l2 ← subscript adj1 v2;
  Ok (<[v2 := l2 ++ [(v1, w)]]> adj1).

Definition build_adj (g : graph) : res adjacency :=
  for_each add_edge (edges g) (dict_of id (λ _, []) (vertices g)).

(** Tuple order on queue entries [(dist, vertex)]. *)
Definition entry_ltb (a b : num * Z) : bool :=
  if num_eqb a.1 b.1 then a.2 <? b.2 else num_ltb a.1 b.1.

(** [heapq.heappush]. The queue is kept as the bag of its entries:
    [run_dijkstra] observes the heap only through [heappop], which returns
    the least entry whatever the array layout. *)
Definition heappush (pq : list (num * Z)) (x : num * Z) : list (num * Z) := x :: pq.

(** [heapq.heappop]: the least entry and the remaining bag. *)
Fixpoint heappop (pq : list (num * Z)) : option ((num * Z) * list (num * Z)) :=
  match pq with
  | [] => None
  | x :: rest =>
      match heappop rest with
      | None => Some (x, [])
      | Some (m, rest') =>
          if entry_ltb m x then Some (m, x :: rest') else Some (x, rest)
      end
  end.

Record state : Type := State {
  dist : gmap Z num;
  par : gmap Z Z;
  pq : list (num * Z);
  visited : gset Z
}.

(** One iteration of [for v, weight in adj[u]]. *)
Definition relax (u : Z) (vw : Z * Q) (st : state) : res state :=
  let '(v, w) := vw in
  if decide (v ∈ visited st) then Ok st
  else
    du ← subscript (dist st) u;
    dv ← subscript (dist st) v;
    if num_ltb (num_add du (Fin w)) dv then
      let d' := num_add du (Fin w) in
      Ok (State (<[v := d']> (dist st)) (<[v := u]> (par st))
                (heappush (pq st) (d', v)) (visited st))
    else Ok st.

(** [while pq: ...]. *)
Fixpoint loop (fuel : nat) (adj : adjacency) (st : state) : res state :=
  match heappop (pq st) with
  | None => Ok st
  | Some ((_, u), pq') =>
      match fuel with
      | O => NoFuel
      | S fuel' =>
          if decide (u ∈ visited st) then
            loop fuel' adj (State (dist st) (par st) pq' (visited st))
          else
            nbrs ← subscript adj u;
            st' ← for_each (relax u) nbrs
                    (State (dist st) (par st) pq' ({[u]} ∪ visited st));
            loop fuel' adj st'
      end
  end.

(** [if not vertices or start not in vertices: start = vertices[0] if vertices else 0]. *)
Definition choose_start (vs : list Z) (start : Z) : Z :=
  if bool_decide (vs = []) || negb (bool_decide (start ∈ vs))
  then match vs with v0 :: _ => v0 | [] => 0 end
  else start.

Definition init (vs : list Z) (start : Z) : state :=
  State (<[start := Fin 0]> (dict_of id (λ _, Inf) vs))
        (dict_of id (λ _, -1) vs)
        [(Fin 0, start)]
        ∅.

(** Every pop but the first is matched by one earlier push, and every push
    by one adjacency entry of a vertex visited once. *)
Definition fuel_of (g : graph) : nat := S (2 * length (edges g)).

(** One entry of [{str(v): d[v] for v in vertices}]. *)
Definition export_entry {V : Type} (d : gmap Z V) (v : Z) (m : gmap pykey V)
    : res (gmap pykey V) :=
  x ← subscript d v; Ok (<[inr (str v) := x]> m).

(** [{str(v): d[v] for v in vertices}]. *)
Definition export {V : Type} (d : gmap Z V) (vs : list Z) : res (gmap pykey V) :=
  for_each (export_entry d) vs ∅.

Definition run_dijkstra (g : graph) (start : Z) : res result :=
  let vs := vertices g in
  let start := choose_start vs start in
  adj ← build_adj g;
  st ← loop (fuel_of g) adj (init vs start);
  ds ← export (dist st) vs;
  ps ← export (par st) vs;
  Ok (DijkstraResult "Dijkstra" ds ps start true).

End Dijkstra.

(** ** Nearest-neighbour TSP *)

Module Tsp.

Abbreviation matrix := (gmap Z (gmap Z num)) (only parsing).

(** [adj[v1][v2] = weight; adj[v2][v1] = weight]. *)
Definition add_edge (e : edge) (adj : matrix) : res matrix :=
  let '(v1, v2, w) := unpack e in
  r1 ← subscript adj v1;
  let adj1 := <[v1 := <[v2 := Fin w]> r1]> adj in
  r2 ← subscript adj1 v2;
  Ok (<[v2 := <[v1 := Fin w]> r2]> adj1).

Definition build_adj (g : graph) : res matrix :=
  let vs := vertices g in
  for_each add_edge (edges g) (dict_of id (λ _, dict_of id (λ _, Inf) vs) vs).

(** [adj[a][b]]. *)
Definition entry (adj : matrix) (a b : Z) : res num :=
  row ← subscript adj a; subscript row b.

(** One iteration of [for v in vertices] in the search for the nearest
    unvisited vertex; the accumulator is [(nearest, min_dist)]. *)
Definition scan (adj : matrix) (seen : gset Z) (current : Z) (v : Z)
    (acc : Z * num) : res (Z * num) :=
  if decide (v ∈ seen) then Ok acc
  else
    d ← entry adj current v;
    if num_ltb d acc.2 then Ok (v, d) else Ok acc.

Record state : Type := State {
  tour : list Z;
  seen : gset Z;
  current : Z;
  total : num
}.

(** [while len(visited) < len(vertices): ...]. *)
Fixpoint loop (fuel : nat) (adj : matrix) (vs : list Z) (st : state) : res state :=
  if Z.of_nat (size (seen st)) <? Z.of_nat (length vs) then
    match fuel with
    | O => NoFuel
    | S fuel' =>
        acc ← for_each (scan adj (seen st) (current st)) vs (-1, Inf);
        let '(nearest, min_dist) := acc in
        if nearest =? -1 then Ok st
        else loop fuel' adj vs
               (State (tour st ++ [nearest]) ({[nearest]} ∪ seen st) nearest
                      (num_add (total st) min_dist))
    end
  else Ok st.

(** The parameter [start] is overwritten by [vertices[0]] before use. *)
Definition run_tsp (g : graph) (start : Z) : res result :=
  match vertices g with
  | [] => Ok empty_graph_error
  | v0 :: _ =>
      let vs := vertices g in
      let start := v0 in
      adj ← build_adj g;
      st ← loop (length vs) adj vs (State [start] {[start]} start (Fin 0));
      st' ← (if Z.of_nat (length (tour st)) =? Z.of_nat (length vs) then
               d ← entry adj (current st) start;
               Ok (State (tour st ++ [start]) (seen st) (current st)
                         (num_add (total st) d))
             else Ok st);
      Ok (TspResult "TSP (Nearest Neighbor)" (tour st') (round2 (total st'))
            (Z.of_nat (length (tour st')) - 1) true)
  end.

End Tsp.

(** ** Kruskal with union-find *)

Module Mst.

Record uf : Type := UF {
  parent : gmap Z Z;
  rank : gmap Z Z
}.

(** [find(x)] with path compression.  The recursion follows parent links;
    [fuel] bounds its depth. *)
Fixpoint find (fuel : nat) (p : gmap Z Z) (x : Z) : res (Z * gmap Z Z) :=
  px ← subscript p x;
  if bool_decide (px ≠ x) then
    match fuel with
    | O => NoFuel
    | S fuel' =>
        px' ← subscript p x;
        '(r, p') ← find fuel' p px';
        let p'' := <[x := r]> p' in
        r' ← subscript p'' x;
        Ok (r', p'')
    end
  else
    r ← subscript p x; Ok (r, p).

(** [union(x, y)]: the boolean result and the updated structure. *)
Definition union (fuel : nat) (s : uf) (x y : Z) : res (bool * uf) :=
  '(px, p1) ← find fuel (parent s) x;
  '(py, p2) ← find fuel p1 y;
  if bool_decide (px = py) then Ok (false, UF p2 (rank s))
  else
    rx ← subscript (rank s) px;
    ry ← subscript (rank s) py;
    let '(px, py) := if rx <? ry then (py, px) else (px, py) in
    let p3 := <[py := px]> p2 in
    rx ← subscript (rank s) px;
    ry ← subscript (rank s) py;
    if rx =? ry then
      rx' ← subscript (rank s) px;
      Ok (true, UF p3 (<[px := rx' + 1]> (rank s)))
    else Ok (true, UF p3 (rank s)).

(** Python's order on the tuples [(weight, v1, v2)]. *)
Definition tuple_leb (a b : Q * Z * Z) : bool :=
  let '(wa, ua, va) := a in
  let '(wb, ub, vb) := b in
  if Qeq_bool wa wb then
    if ua =? ub then va <=? vb else ua <? ub
  else Qltb wa wb.

Fixpoint insert (x : Q * Z * Z) (l : list (Q * Z * Z)) : list (Q * Z * Z) :=
  match l with
  | [] => [x]
  | y :: r => if tuple_leb x y then x :: l else y :: insert x r
  end.

(** [list.sort()]: a stable sort. *)
Fixpoint sort (l : list (Q * Z * Z)) : list (Q * Z * Z) :=
  match l with
  | [] => []
  | x :: r => insert x (sort r)
  end.

Definition key_of (e : edge) : Q * Z * Z :=
  let '(v1, v2, w) := unpack e in (w, v1, v2).

Record acc : Type := Acc {
  sets : uf;
  mst_edges : list (Z * Z * Q);
  total_weight : Q
}.

(** One iteration of [for weight, u, v in sorted_edges]. *)
Definition step (fuel : nat) (t : Q * Z * Z) (a : acc) : res acc :=
  let '(w, u, v) := t in
  r ← union fuel (sets a) u v;
  let '(joined, s') := r in
  if joined : bool then Ok (Acc s' (mst_edges a ++ [(u, v, w)]) (total_weight a + w)%Q)
  else Ok (Acc s' (mst_edges a) (total_weight a)).

(** Ranks grow by at most one per accepted edge and strictly increase along
    parent links, so no chain of links is longer than the edge list. *)
Definition fuel_of (g : graph) : nat := length (edges g).

Definition run_mst (g : graph) : res result :=
  match vertices g with
  | [] => Ok empty_graph_error
  | _ :: _ =>
      let vs := vertices g in
      let s0 := UF (dict_of id id vs) (dict_of id (λ _, 0) vs) in
      let sorted_edges := sort (key_of <$> edges g) in
      a ← for_each (step (fuel_of g)) sorted_edges (Acc s0 [] 0%Q);
      Ok (MstResult "MST (Kruskal)" (mst_edges a) (round2Q (total_weight a))
            (length (mst_edges a))
            (bool_decide (Z.of_nat (length (mst_edges a)) = Z.of_nat (length vs) - 1))
            true)
  end.

End Mst.

(** ** Adjacency lists without weights (connectivity, k-centres) *)

Abbreviation neighbours := (gmap Z (list Z)) (only parsing).

(** [v1, v2 = edge[0], edge[1]; adj[v1].append(v2); adj[v2].append(v1)]. *)
Definition add_neighbours (e : edge) (adj : neighbours) : res neighbours :=
  let '(v1, v2) := endpoints e in
  l1 ← subscript adj v1;
  let adj1 := <[v1 := l1 ++ [v2]]> adj in
  l2 ← subscript adj1 v2;
  Ok (<[v2 := l2 ++ [v1]]> adj1).

Definition build_neighbours (g : graph) : res neighbours :=
  for_each add_neighbours (edges g) (dict_of id (λ _, []) (vertices g)).

(** ** Connected components by DFS *)

Module Connectivity.

(** [dfs(v, component)]; the state is [(visited, component)] and [fuel]
    bounds the recursion depth. *)
Fixpoint dfs (fuel : nat) (adj : neighbours) (v : Z) (st : gset Z * list Z)
    : res (gset Z * list Z) :=
  match fuel with
  | O => NoFuel
  | S fuel' =>
      let st1 := ({[v]} ∪ st.1, st.2 ++ [v]) in
      nbrs ← subscript adj v;
      for_each (λ u st, if decide (u ∈ st.1) then Ok st else dfs fuel' adj u st)
               nbrs st1
  end.

(** One iteration of [for v in vertices]; the state is [(visited, components)]. *)
Definition visit (fuel : nat) (adj : neighbours) (v : Z)
    (st : gset Z * list (list Z)) : res (gset Z * list (list Z)) :=
  if decide (v ∈ st.1) then Ok st
  else
    r ← dfs fuel adj v (st.1, []);
    Ok (r.1, st.2 ++ [merge_sort Z.le r.2]).

(** [max(len(c) for c in components) if components else 0]. *)
Definition largest (components : list (list Z)) : nat :=
  match components with
  | [] => O
  | c :: cs => foldl Nat.max (length c) (length <$> cs)
  end.

(** A call [dfs] nests at most once per vertex not yet visited. *)
Definition fuel_of (g : graph) : nat := length (vertices g).

Definition run_connectivity (g : graph) : res result :=
  match vertices g with
  | [] => Ok empty_graph_error
  | _ :: _ =>
      adj ← build_neighbours g;
      st ← for_each (visit (fuel_of g) adj) (vertices g) (∅, []);
      let components := st.2 in
      Ok (ConnectivityResult "Connectivity (DFS)" components (length components)
            (bool_decide (length components = 1%nat)) (largest components) true)
  end.

End Connectivity.

(** ** Greedy colouring *)

Module Coloring.

Abbreviation adjacency := (gmap Z (gset Z)) (only parsing).

(** [adj[v1].add(v2); adj[v2].add(v1)]. *)
Definition add_edge (e : edge) (adj : adjacency) : res adjacency :=
  let '(v1, v2) := endpoints e in
  s1 ← subscript adj v1;
  let adj1 := <[v1 := {[v2]} ∪ s1]> adj in
  s2 ← subscript adj1 v2;
  Ok (<[v2 := {[v1]} ∪ s2]> adj1).

Definition build_adj (g : graph) : res adjacency :=
  for_each add_edge (edges g) (dict_of id (λ _, ∅) (vertices g)).

(** [{coloring[u] for u in adj[v] if coloring[u] != -1}]. *)
Definition neighbor_colors (coloring : gmap Z Z) (nbrs : gset Z) : res (gset Z) :=
  for_each (λ u acc, c ← subscript coloring u;
                     if c =? -1 then Ok acc else Ok ({[c]} ∪ acc))
           (elements nbrs) ∅.

(** [while color in neighbor_colors: color += 1]. *)
Fixpoint first_free (fuel : nat) (used : gset Z) (color : Z) : res Z :=
  if decide (color ∈ used) then
    match fuel with
    | O => NoFuel
    | S fuel' => first_free fuel' used (color + 1)
    end
  else Ok color.

(** One iteration of [for v in vertices]. *)
Definition paint (adj : adjacency) (v : Z) (coloring : gmap Z Z) : res (gmap Z Z) :=
  nbrs ← subscript adj v;
  used ← neighbor_colors coloring nbrs;
  color ← first_free (size used) used 0;
  Ok (<[v := color]> coloring).

(** [max(xs)] on a non-empty list ([0] stands for the [ValueError] on an
    empty one, which [run_coloring] guards against). *)
Definition max_list (xs : list Z) : Z :=
  match xs with
  | [] => 0
  | x :: r => foldl Z.max x r
  end.

Definition run_coloring (g : graph) : res result :=
  match vertices g with
  | [] => Ok empty_graph_error
  | _ :: _ =>
      adj ← build_adj g;
      coloring ← for_each (paint adj) (vertices g) (dict_of id (λ _, -1) (vertices g));
      let chromatic_number :=
        if decide (coloring = ∅) then 0
        else max_list ((map_to_list coloring).*2) + 1 in
      Ok (ColoringResult "Graph Coloring (Greedy)" coloring chromatic_number
            (seqZ 0 chromatic_number) true)
  end.

End Coloring.

(** ** Greedy k-centres over BFS distances *)

Module Hotel.

(** The body of [for v in adj[u]] in [bfs_distance]: [inl d] is the early
    [return dist + 1], [inr] the state carried to the next dequeue. *)
Fixpoint scan (target : Z) (d : Z) (nbrs : list Z) (st : gset Z * list (Z * Z))
    : Z + (gset Z * list (Z * Z)) :=
  match nbrs with
  | [] => inr st
  | v :: rest =>
      if decide (v = target) then inl (d + 1)
      else if decide (v ∈ st.1) then scan target d rest st
      else scan target d rest ({[v]} ∪ st.1, st.2 ++ [(v, d + 1)])
  end.

(** [while q: ...] of [bfs_distance]. *)
Fixpoint bfs_loop (fuel : nat) (adj : neighbours) (target : Z)
    (seen : gset Z) (q : list (Z * Z)) : res num :=
  match q with
  | [] => Ok Inf
  | (u, d) :: q' =>
      match fuel with
      | O => NoFuel
      | S fuel' =>
          nbrs ← subscript adj u;
          match scan target d nbrs (seen, q') with
          | inl r => Ok (Fin (inject_Z r))
          | inr (seen', q'') => bfs_loop fuel' adj target seen' q''
          end
      end
  end.

Definition bfs_distance (fuel : nat) (adj : neighbours) (start target : Z) : res num :=
  if decide (start = target) then Ok (Fin 0)
  else bfs_loop fuel adj target {[start]} [(start, 0)].

(** [min(f(c) for c in cs)] over values already computed: first least. *)
Definition min_list (x : num) (xs : list num) : num :=
  foldl (λ m y, if num_ltb y m then y else m) x xs.

(** [max(a, b)]. *)
Definition num_max (a b : num) : num := if num_ltb a b then b else a.

(** [bfs_distance(v, c) for c in centers]. *)
Definition distances_to (fuel : nat) (adj : neighbours) (v : Z) (centers : list Z)
    : res (list num) :=
  for_each (λ c acc, d ← bfs_distance fuel adj v c; Ok (acc ++ [d])) centers [].

(** One iteration of the inner [for v in vertices] of the centre selection;
    the accumulator is [(farthest, max_min_dist)]. *)
Definition consider (fuel : nat) (adj : neighbours) (centers : list Z) (v : Z)
    (acc : Z * num) : res (Z * num) :=
  if decide (v ∈ centers) then Ok acc
  else
    ds ← distances_to fuel adj v centers;
    match ds with
    | [] => Ok acc
    | d0 :: ds' =>
        let min_dist := min_list d0 ds' in
        if num_ltb acc.2 min_dist then Ok (v, min_dist) else Ok acc
    end.

(** One iteration of [for _ in range(min(k - 1, len(vertices) - 1))]. *)
Definition grow (fuel : nat) (adj : neighbours) (vs : list Z) (_ : nat)
    (centers : list Z) : res (list Z) :=
  acc ← for_each (consider fuel adj centers) vs (-1, Fin (-1));
  if acc.1 =? -1 then Ok centers else Ok (centers ++ [acc.1]).

(** [min(centers, key=lambda c: bfs_distance(v, c))]: the first centre of
    least key, returned with its key. *)
Definition nearest_center (fuel : nat) (adj : neighbours) (v : Z) (centers : list Z)
    : res (option (Z * num)) :=
  for_each (λ c best,
              d ← bfs_distance fuel adj v c;
              match best with
              | None => Ok (Some (c, d))
              | Some (b, db) => if num_ltb d db then Ok (Some (c, d)) else Ok best
              end)
           centers None.

(** One iteration of the assignment loop; the state is [(assignment, max_dist)]. *)
Definition assign (fuel : nat) (adj : neighbours) (centers : list Z) (v : Z)
    (st : gmap Z Z * num) : res (gmap Z Z * num) :=
  best ← nearest_center fuel adj v centers;
  match best with
  | None => Ok st
  | Some (nearest, _) =>
      d ← bfs_distance fuel adj v nearest;
      Ok (<[v := nearest]> st.1, num_max st.2 d)
  end.

(** [k = max(1, len(vertices) // 3 + 1)]. *)
Definition k_of (vs : list Z) : Z := Z.max 1 (Z.of_nat (length vs) / 3 + 1).

(** A vertex enters the BFS queue at most once. *)
Definition fuel_of (g : graph) : nat := length (vertices g).

Definition run_hotel_optimization (g : graph) : res result :=
  match vertices g with
  | [] => Ok empty_graph_error
  | v0 :: _ =>
      let vs := vertices g in
      let fuel := fuel_of g in
      adj ← build_neighbours g;
      let rounds := Z.to_nat (Z.min (k_of vs - 1) (Z.of_nat (length vs) - 1)) in
      centers ← for_each (grow fuel adj vs) (seq 0 rounds) [v0];
      st ← for_each (assign fuel adj centers) vs (∅, Fin 0);
      Ok (HotelResult "Hotel Optimization (K-Centers)" centers (length centers)
            st.1 st.2 true)
  end.

End Hotel.

(** ** Dispatch *)

(** [run_algorithm(algorithm_name, graph_data)]; [run_dijkstra] and [run_tsp]
    are called with their default [start = 0]. *)
Definition run_algorithm (algorithm_name : string) (g : graph) : res result :=
  if String.eqb algorithm_name "dijkstra" then Dijkstra.run_dijkstra g 0
  else if String.eqb algorithm_name "tsp" then Tsp.run_tsp g 0
  else if String.eqb algorithm_name "mst" then Mst.run_mst g
  else if String.eqb algorithm_name "connectivity" then Connectivity.run_connectivity g
  else if String.eqb algorithm_name "coloring" then Coloring.run_coloring g
  else if String.eqb algorithm_name "hotel" then Hotel.run_hotel_optimization g
  else Ok (ErrorResult ("Unknown algorithm: " +:+ algorithm_name) None).

(** The identifiers [run_algorithm] dispatches on. *)
Definition known_algorithms : list string :=
  ["dijkstra"; "tsp"; "mst"; "connectivity"; "coloring"; "hotel"].

(** ** Sample graphs *)

(** The path [0 - 1 - 2 - 3] with unit weights. *)
Definition path4 : graph :=
  Graph [0; 1; 2; 3] [E3 0 1 1; E3 1 2 1; E3 2 3 1].

(** [{vertices: [], edges: []}]. *)
Definition no_vertices : graph := Graph [] [].

(** ** Edge orientation *)

(** [(u, v, w)] turned into [(v, u, w)]. *)
Definition reverse_edge (e : edge) : edge :=
  match e with
  | E2 v1 v2 => E2 v2 v1
  | E3 v1 v2 w => E3 v2 v1 w
  end.

(** The graph whose [i]-th edge is replaced by its reversed form. *)
Definition reverse_at (i : nat) (g : graph) : graph :=
  Graph (vertices g) (alter reverse_edge i (edges g)).

(** Two runs agree: the same value, or an exception in both. *)
Definition same_outcome {A : Type} (r1 r2 : res A) : Prop :=
  match r1, r2 with
  | Ok a, Ok b => a = b
  | Raise _, Raise _ => True
  | NoFuel, NoFuel => True
  | _, _ => False
  end.

(** The triangle with unit weights. *)
Definition triangle : graph :=
  Graph [0; 1; 2] [E3 0 1 1; E3 0 2 1; E3 1 2 1].

(** ** Weights of edges and walks *)

(** Whether [e] joins [a] and [b], in either orientation. *)
Definition joins (e : edge) (a b : Z) : bool :=
  let '(v1, v2) := endpoints e in
  (v1 =? a) && (v2 =? b) || (v1 =? b) && (v2 =? a).

(** The weight the edge list gives to the pair [a], [b]: that of the last
    edge joining them, [+infinity] when there is none. *)
Definition edge_weight (es : list edge) (a b : Z) : num :=
  foldl (λ acc e, if joins e a b then Fin (unpack e).2 else acc) Inf es.

(** The summed weight of the steps of a walk, added from its first step on. *)
Fixpoint walk_from (es : list edge) (acc : num) (cur : Z) (rest : list Z) : num :=
  match rest with
  | [] => acc
  | v :: rest' => walk_from es (num_add acc (edge_weight es cur v)) v rest'
  end.

Definition walk_weight (es : list edge) (walk : list Z) : num :=
  match walk with
  | [] => Fin 0
  | v :: rest => walk_from es (Fin 0) v rest
  end.

(** Every edge has both endpoints in the vertex list: the obligation the
    input contract puts on the producer of the graph. *)
Definition endpoints_in (g : graph) : Prop :=
  ∀ e, e ∈ edges g → (endpoints e).1 ∈ vertices g ∧ (endpoints e).2 ∈ vertices g.

(** The tour and summed weight [run_tsp] reports for the walk [t] its loop
    has built: closed through the first vertex when [t] has as many entries
    as the vertex list, [t] itself otherwise. *)
Definition closed_if_complete (g : graph) (v0 : Z) (t : list Z) : list Z :=
  if bool_decide (length t = length (vertices g)) then t ++ [v0] else t.

(** [adj] holds, at every pair of listed vertices, the weight [W] gives. *)
Definition tsp_represents (vs : list Z) (adj : Tsp.matrix) (W : Z → Z → num) : Prop :=
  ∀ a b, a ∈ vs → b ∈ vs → Tsp.entry adj a b = Ok (W a b).

(** What the tour-building loop maintains. *)
Record tsp_inv (g : graph) (v0 : Z) (st : Tsp.state) : Prop := TspInv {
  inv_head : head (Tsp.tour st) = Some v0;
  inv_last : last (Tsp.tour st) = Some (Tsp.current st);
  inv_nodup : NoDup (Tsp.tour st);
  inv_seen : Tsp.seen st = list_to_set (Tsp.tour st);
  inv_in : ∀ x, x ∈ Tsp.tour st → x ∈ vertices g;
  inv_total : Tsp.total st = walk_weight (edges g) (Tsp.tour st)
}.

(** ** Order on numbers *)

Definition num_lt (a b : num) : Prop := num_ltb a b = true.

(** ** Reachability in the undirected graph *)

(** Some edge joins [a] and [b]. *)
Definition adjacent (g : graph) (a b : Z) : Prop :=
  ∃ e, e ∈ edges g ∧ (endpoints e = (a, b) ∨ endpoints e = (b, a)).

(** [a] and [b] are joined by a chain of edges. *)
Definition connected (g : graph) : relation Z := rtc (adjacent g).

(** ** What the adjacency lists hold *)

(** [adj] has an entry for every listed vertex and for no other key, and the
    entry of [u] lists exactly the vertices adjacent to [u]. *)
Record neighbours_of (g : graph) (adj : neighbours) : Prop := NeighboursOf {
  nb_dom : ∀ u, is_Some (adj !! u) ↔ u ∈ vertices g;
  nb_adjacent : ∀ u l v, adj !! u = Some l → v ∈ l ↔ adjacent g u v
}.

(** ** k-centres: the first nearest centre *)

(** [c] is the first entry of [centers] whose distance is least. *)
Definition first_nearest (dist : Z → num) (centers : list Z) (c : Z) : Prop :=
  ∃ l1 l2, centers = l1 ++ c :: l2 ∧
           (∀ c', c' ∈ l1 → num_lt (dist c) (dist c')) ∧
           (∀ c', c' ∈ l2 → num_le (dist c) (dist c')).

(** The distance [bfs_distance(v, c)] reports inside [run_hotel_optimization]
    ([+infinity] also stands for a failed call, which the properties below
    exclude between listed vertices). *)
Definition hops (g : graph) (v c : Z) : num :=
  match build_neighbours g with
  | Ok adj =>
      match Hotel.bfs_distance (Hotel.fuel_of g) adj v c with
      | Ok d => d
      | _ => Inf
      end
  | _ => Inf
  end.

(** The structure of a graph without its weights. *)
Definition skeleton (g : graph) : list Z * list (Z * Z) :=
  (vertices g, endpoints <$> edges g).

(** What the assignment loop has established for the vertices in [done_]. *)
Definition assigned (dist : Z → Z → num) (centers : list Z) (done_ : list Z)
    (st : gmap Z Z * num) : Prop :=
  (∀ v, v ∈ done_ → ∃ c, st.1 !! v = Some c ∧ first_nearest (dist v) centers c ∧
                          num_le (dist v c) st.2) ∧
  (st.2 = Fin 0 ∨ ∃ v c, v ∈ done_ ∧ st.1 !! v = Some c ∧ st.2 = dist v c).

(** ** Building adjacency containers *)

(** The shape shared by the adjacency builders: [x1] is put into the
    container of [v1], then [x2] into the container of [v2]. *)
Definition insert_both {E V : Type} (ins : E → V → V) (v1 v2 : Z) (x1 x2 : E)
    (adj : gmap Z V) : res (gmap Z V) :=
  l1 ← subscript adj v1;
  let adj1 := <[v1 := ins x1 l1]> adj in
  l2 ← subscript adj1 v2;
  Ok (<[v2 := ins x2 l2]> adj1).

(** ** Greedy colouring: invariants *)

(** [adj] has an entry for every listed vertex and for no other key, and the
    entry of [u] is the set of vertices adjacent to [u]. *)
Record neighbour_sets_of (g : graph) (adj : gmap Z (gset Z)) : Prop := NeighbourSetsOf {
  ns_dom : ∀ u, is_Some (adj !! u) ↔ u ∈ vertices g;
  ns_adjacent : ∀ u s v, adj !! u = Some s → v ∈ s ↔ adjacent g u v
}.

(** The colouring is proper on the vertices painted so far: [-1] marks an
    unpainted vertex. *)
Record proper_inv (g : graph) (col : gmap Z Z) : Prop := ProperInv {
  pi_dom : ∀ v, is_Some (col !! v) ↔ v ∈ vertices g;
  pi_range : ∀ v c, col !! v = Some c → c = -1 ∨ 0 ≤ c;
  pi_proper : ∀ u v cu cv, adjacent g u v → u ≠ v →
      col !! u = Some cu → col !! v = Some cv → 0 ≤ cu → 0 ≤ cv → cu ≠ cv
}.

(** Exactly the vertices [done_] are painted, and every painted vertex sees
    each smaller colour on one of its neighbours. *)
Record saturated_inv (g : graph) (done_ : list Z) (col : gmap Z Z) : Prop := SaturatedInv {
  si_done : ∀ v, v ∈ done_ → ∃ c, col !! v = Some c ∧ 0 ≤ c;
  si_todo : ∀ v c, col !! v = Some c → 0 ≤ c → v ∈ done_;
  si_saturated : ∀ v c j, col !! v = Some c → 0 ≤ j < c →
      ∃ u, adjacent g v u ∧ col !! u = Some j
}.

(** No edge joins a vertex to itself. *)
Definition loop_free (g : graph) : Prop :=
  ∀ e, e ∈ edges g → (endpoints e).1 ≠ (endpoints e).2.

(** A graph with a single vertex and a loop on it, as
    [generate_cycle_graph(1)] produces. *)
Definition one_loop : graph := Graph [0] [E3 0 0 1].

(** ** Connected components: invariants *)

(** Every neighbour of a vertex of [xs] is in [V]. *)
Definition finished (g : graph) (xs : list Z) (V : gset Z) : Prop :=
  ∀ x y, x ∈ xs → adjacent g x y → y ∈ V.

(** [V] contains the neighbours of its members. *)
Definition closed_set (g : graph) (V : gset Z) : Prop :=
  ∀ x y, x ∈ V → adjacent g x y → y ∈ V.

(** What a call [dfs(root, component)] started with visited set [V] has
    appended to the component. *)
Definition dfs_new (g : graph) (root : Z) (V : gset Z) (new : list Z) : Prop :=
  NoDup new ∧
  (∀ x, x ∈ new → x ∉ V ∧ x ∈ vertices g ∧ connected g root x) ∧
  finished g new (V ∪ list_to_set new).

(** The specification of [dfs] with recursion depth [fuel]. *)
Definition dfs_ok (g : graph) (adj : neighbours) (fuel : nat) : Prop :=
  ∀ v V comp, v ∈ vertices g → v ∉ V → (size (dom adj ∖ V) ≤ fuel)%nat →
    ∃ new, Connectivity.dfs fuel adj v (V, comp) = Ok (V ∪ list_to_set new, comp ++ new) ∧
           v ∈ new ∧ dfs_new g v V new.

(** What the loop over the vertex list maintains once [done_] is processed. *)
Record components_inv (g : graph) (done_ : list Z) (st : gset Z * list (list Z)) : Prop :=
  ComponentsInv {
    cv_closed : closed_set g st.1;
    cv_seen : ∀ v, v ∈ st.1 ↔ v ∈ concat st.2;
    cv_nodup : NoDup (concat st.2);
    cv_in : ∀ v, v ∈ st.1 → v ∈ vertices g;
    cv_done : ∀ v, v ∈ done_ → v ∈ st.1;
    cv_sorted : ∀ c, c ∈ st.2 → c ≠ [] ∧ StronglySorted Z.le c;
    cv_class : ∀ c x y, c ∈ st.2 → x ∈ c → y ∈ c ↔ connected g x y
  }.

(** ** Union-find: roots and invariants *)

(** [r] is the representative [find] reaches from [x] along parent links. *)
Inductive root_of (p : gmap Z Z) : Z → Z → Prop :=
| root_here x : p !! x = Some x → root_of p x x
| root_step x y r : p !! x = Some y → y ≠ x → root_of p y r → root_of p x r.

(** [x] and [y] are in the same set. *)
Definition same_set (p : gmap Z Z) (x y : Z) : Prop :=
  ∃ r, root_of p x r ∧ root_of p y r.

(** The representatives. *)
Definition roots (p : gmap Z Z) : gset Z :=
  filter (λ x, p !! x = Some x) (dom p).

(** The union-find structure is well formed over the vertices [vs]: links
    stay inside [vs], ranks are at most [K] and strictly increase along
    links. *)
Record uf_inv (vs : list Z) (K : Z) (p rk : gmap Z Z) : Prop := UfInv {
  uf_dom_parent : ∀ x, is_Some (p !! x) ↔ x ∈ vs;
  uf_dom_rank : ∀ x, is_Some (rk !! x) ↔ x ∈ vs;
  uf_closed : ∀ x y, p !! x = Some y → y ∈ vs;
  uf_rank_bound : ∀ x k, rk !! x = Some k → 0 ≤ k ≤ K;
  uf_rank_step : ∀ x y kx ky, p !! x = Some y → y ≠ x →
      rk !! x = Some kx → rk !! y = Some ky → kx < ky
}.

(** ** Kruskal: invariants *)

(** [a] and [b] are the two ends of one of the pairs [ps]. *)
Definition linked (ps : list (Z * Z)) (a b : Z) : Prop := (a, b) ∈ ps ∨ (b, a) ∈ ps.

(** [a] and [b] are joined by a chain of the pairs [ps]. *)
Definition conn (ps : list (Z * Z)) : relation Z := rtc (linked ps).

(** The ends of the chosen edges [(u, v, weight)]. *)
Definition chosen_pairs (mst : list (Z * Z * Q)) : list (Z * Z) := (λ t, t.1) <$> mst.

(** The ends of the sort keys [(weight, u, v)]. *)
Definition key_pairs (ts : list (Q * Z * Z)) : list (Z * Z) := (λ t, (t.1.2, t.2)) <$> ts.

(** [total_weight += weight] over the chosen edges, from [0.0]. *)
Definition sum_weights (mst : list (Z * Z * Q)) : Q :=
  foldl (λ acc t, (acc + t.2)%Q) 0%Q mst.

(** What the loop over the sorted edges maintains once [done_] is processed. *)
Record kruskal_inv (vs : list Z) (done_ : list (Q * Z * Z)) (a : Mst.acc) : Prop :=
  KruskalInv {
    ki_uf : uf_inv vs (Z.of_nat (length (Mst.mst_edges a)))
              (Mst.parent (Mst.sets a)) (Mst.rank (Mst.sets a));
    ki_total : Mst.total_weight a = sum_weights (Mst.mst_edges a);
    ki_chosen : ∀ u v w, (u, v, w) ∈ Mst.mst_edges a → (w, u, v) ∈ done_;
    ki_length : (length (Mst.mst_edges a) ≤ length done_)%nat;
    ki_sets : ∀ x y, x ∈ vs → y ∈ vs →
        same_set (Mst.parent (Mst.sets a)) x y ↔ conn (chosen_pairs (Mst.mst_edges a)) x y;
    ki_span : ∀ x y, conn (key_pairs done_) x y → conn (chosen_pairs (Mst.mst_edges a)) x y;
    ki_roots : (size (roots (Mst.parent (Mst.sets a))) + length (Mst.mst_edges a))%nat
               = size (list_to_set vs : gset Z)
  }.

(** [comps] lists the connected components of [g]: a partition of the listed
    vertices into the classes of [connected g]. *)
Definition components_of (g : graph) (comps : list (list Z)) : Prop :=
  NoDup (concat comps) ∧
  (∀ v, v ∈ concat comps ↔ v ∈ vertices g) ∧
  (∀ c, c ∈ comps → c ≠ []) ∧
  (∀ c x y, c ∈ comps → x ∈ c → y ∈ c ↔ connected g x y).

(** ** Weighted walks *)

(** An edge of weight [w] joins [a] and [b], in either orientation. *)
Definition arc (g : graph) (a b : Z) (w : Q) : Prop :=
  ∃ e, e ∈ edges g ∧ (unpack e = (a, b, w) ∨ unpack e = (b, a, w)).

(** [walk g s steps v]: starting at [s], the steps [(vertex, weight)] follow
    edges of [g] and end at [v]. *)
Inductive walk (g : graph) (s : Z) : list (Z * Q) → Z → Prop :=
| walk_nil : walk g s [] s
| walk_snoc steps u v w :
    walk g s steps u → arc g u v w → walk g s (steps ++ [(v, w)]) v.

(** The summed weight of a walk, added from its first step on. *)
Definition walk_cost (steps : list (Z * Q)) : Q :=
  foldl (λ acc step, (acc + step.2)%Q) 0%Q steps.

(** No edge has a negative weight. *)
Definition nonneg_weights (g : graph) : Prop :=
  ∀ e, e ∈ edges g → (0 <= (unpack e).2)%Q.

(** The walk [steps] from [s] to [v] is the one that following [par] back
    from [v] traces: each step enters a vertex, other than [s], from its
    parent, and the vertices it leaves are in [V]. *)
Inductive traced (par : gmap Z Z) (s : Z) (V : gset Z) : list (Z * Q) → Z → Prop :=
| traced_nil : traced par s V [] s
| traced_snoc steps u v w :
    traced par s V steps u → u ∈ V → par !! v = Some u → v ≠ s →
    traced par s V (steps ++ [(v, w)]) v.

(** How many endpoints of the edges [es] satisfy [P]. *)
Definition incidences (es : list edge) (P : Z → Prop) `{∀ x, Decision (P x)} : nat :=
  length (filter (λ e, P (endpoints e).1) es) + length (filter (λ e, P (endpoints e).2) es).

(** [adj] has an entry for every listed vertex and for no other key; the
    entry of [u] lists [(v, w)] exactly for the edges of weight [w] joining
    [u] and [v], once per endpoint of an edge at [u]. *)
Record weighted_adjacency_of (g : graph) (adj : gmap Z (list (Z * Q))) : Prop :=
  WeightedAdjacencyOf {
    wa_dom : ∀ u, is_Some (adj !! u) ↔ u ∈ vertices g;
    wa_arc : ∀ u l v w, adj !! u = Some l → (v, w) ∈ l ↔ arc g u v w;
    wa_length : ∀ u l, adj !! u = Some l → length l = incidences (edges g) (λ x, x = u)
  }.

(** ** Dijkstra: the parent pointers of a result *)

(** [parent_trace ps s steps v]: in the exported map [ps], the vertex of
    every step of [steps] has the vertex before it as its parent, the walk
    starts at [s] and never re-enters it, and ends at [v]; read backwards,
    this is following the parent pointers from [v] back to [s]. *)
Inductive parent_trace (ps : gmap pykey Z) (s : Z) : list (Z * Q) → Z → Prop :=
| parent_trace_nil : parent_trace ps s [] s
| parent_trace_snoc steps u v w :
    parent_trace ps s steps u → ps !! inr (str v) = Some u → v ≠ s →
    parent_trace ps s (steps ++ [(v, w)]) v.

(** ** Dijkstra: the loop invariant *)

(** What the main loop of [run_dijkstra] maintains.  [R u v w] holds of the
    adjacency entries [(v, w)] of [u] that have been relaxed. *)
Record dijkstra_inv (g : graph) (s : Z) (R : Z → Z → Q → Prop) (st : Dijkstra.state)
    : Prop := DijkstraInv {
  di_dist_dom : ∀ v, is_Some (Dijkstra.dist st !! v) ↔ v ∈ vertices g;
  di_par_dom : ∀ v, is_Some (Dijkstra.par st !! v) ↔ v ∈ vertices g;
  di_visited : ∀ v, v ∈ Dijkstra.visited st → ∃ d, Dijkstra.dist st !! v = Some (Fin d);
  di_start : Dijkstra.dist st !! s = Some (Fin 0) ∧ Dijkstra.par st !! s = Some (-1);
  di_path : ∀ v d, Dijkstra.dist st !! v = Some (Fin d) →
      ∃ steps, walk g s steps v ∧ d = walk_cost steps ∧
               traced (Dijkstra.par st) s (Dijkstra.visited st) steps v;
  di_unreached : ∀ v, Dijkstra.dist st !! v = Some Inf → Dijkstra.par st !! v = Some (-1);
  di_queued : ∀ v d, v ∉ Dijkstra.visited st → Dijkstra.dist st !! v = Some (Fin d) →
      (Fin d, v) ∈ Dijkstra.pq st;
  di_keys : ∀ d v, (d, v) ∈ Dijkstra.pq st →
      ∃ dv, Dijkstra.dist st !! v = Some dv ∧ num_le dv d;
  di_finite : ∀ d v, (d, v) ∈ Dijkstra.pq st → d ≠ Inf;
  di_order : ∀ x dx d v, x ∈ Dijkstra.visited st → Dijkstra.dist st !! x = Some dx →
      (d, v) ∈ Dijkstra.pq st → num_le dx d;
  di_source : ∀ u v w, R u v w → u ∈ Dijkstra.visited st;
  di_relaxed : ∀ u v w du dv, R u v w →
      Dijkstra.dist st !! u = Some du → Dijkstra.dist st !! v = Some dv →
      num_le dv (num_add du (Fin w))
}.



(** ** Graph generators ([visualisation/graph_generator.py]) *)

Module GraphGenerator.

(** The dict a generator returns: the keys ['vertices'], ['edges'],
    ['num_vertices'] and ['num_edges']. *)
Record generated : Type := Generated {
  gen_vertices : list Z;
  gen_edges : list edge;
  num_vertices : Z;
  num_edges : Z
}.

(** What [run_algorithm] reads of such a dict: ['vertices'] and ['edges']. *)
Definition graph_data (d : generated) : graph := Graph (gen_vertices d) (gen_edges d).

(** [range(n)]: empty when [n <= 0]. *)
Definition range (n : Z) : list Z := seqZ 0 n.

(** [range(a, b)]: empty when [b <= a]. *)
Definition range_from (a b : Z) : list Z := seqZ a (b - a).

(** [generate_path_graph(num_vertices, edge_weight)]. *)
Definition generate_path_graph (n : Z) (edge_weight : Q) : generated :=
  let vertices := range n in
  let edges := (λ i, E3 i (i + 1) edge_weight) <$> range (n - 1) in
  Generated vertices edges n (Z.of_nat (length edges)).

(** [generate_cycle_graph(num_vertices, edge_weight)]. *)
Definition generate_cycle_graph (n : Z) (edge_weight : Q) : generated :=
  let vertices := range n in
  let edges := (λ i, let next_v := (i + 1) `mod` n in E3 i next_v edge_weight) <$> range n in
  Generated vertices edges n (Z.of_nat (length edges)).

(** [generate_complete_graph(num_vertices, edge_weight)]. *)
Definition generate_complete_graph (n : Z) (edge_weight : Q) : generated :=
  let vertices := range n in
  let edges :=
    v1 ← range n; (λ v2, E3 v1 v2 edge_weight) <$> range_from (v1 + 1) n in
  Generated vertices edges n (Z.of_nat (length edges)).

(** The edges [generate_grid_graph] appends at row [r], column [c]: one to
    the right unless in the last column, one downwards unless in the last
    row. *)
Definition grid_cell (rows cols : Z) (edge_weight : Q) (r c : Z) : list edge :=
  let v := r * cols + c in
  (if c <? cols - 1 then [E3 v (v + 1) edge_weight] else []) ++
  (if r <? rows - 1 then [E3 v (v + cols) edge_weight] else []).

(** [generate_grid_graph(rows, cols, edge_weight)]. *)
Definition generate_grid_graph (rows cols : Z) (edge_weight : Q) : generated :=
  let vertices := range (rows * cols) in
  let edges := r ← range rows; c ← range cols; grid_cell rows cols edge_weight r c in
  Generated vertices edges (Z.of_nat (length vertices)) (Z.of_nat (length edges)).

End GraphGenerator.

(** ** Generated graphs: the steps of a grid *)

(** In a grid with [cols] columns, [b] is the right or the lower neighbour
    of the cell [a] at row [r], column [c]. *)
Definition grid_step (rows cols a b : Z) : Prop :=
  ∃ r c, 0 ≤ r < rows ∧ 0 ≤ c < cols ∧ a = r * cols + c ∧
         ((c + 1 < cols ∧ b = a + 1) ∨ (r + 1 < rows ∧ b = a + cols)).

(** ** Dijkstra on arbitrary weights: the loop invariant *)

(** What the main loop of [run_dijkstra] maintains whatever the sign of the
    weights.  [R u v w] holds of the adjacency entries [(v, w)] of [u] that
    have been relaxed. *)
Record dijkstra_reach (g : graph) (s : Z) (R : Z → Z → Q → Prop) (st : Dijkstra.state)
    : Prop := DijkstraReach {
  dr_dist_dom : ∀ v, is_Some (Dijkstra.dist st !! v) ↔ v ∈ vertices g;
  dr_par_dom : ∀ v, is_Some (Dijkstra.par st !! v) ↔ v ∈ vertices g;
  dr_visited : ∀ v, v ∈ Dijkstra.visited st → ∃ d, Dijkstra.dist st !! v = Some (Fin d);
  dr_start : Dijkstra.dist st !! s = Some (Fin 0) ∧ Dijkstra.par st !! s = Some (-1) ∧
      (s ∈ Dijkstra.visited st ∨
       (Dijkstra.visited st = ∅ ∧ Dijkstra.pq st = [(Fin 0, s)]));
  dr_path : ∀ v d, Dijkstra.dist st !! v = Some (Fin d) →
      ∃ steps, walk g s steps v ∧ d = walk_cost steps ∧
               traced (Dijkstra.par st) s (Dijkstra.visited st) steps v;
  dr_unreached : ∀ v, Dijkstra.dist st !! v = Some Inf → Dijkstra.par st !! v = Some (-1);
  dr_queued : ∀ v d, v ∉ Dijkstra.visited st → Dijkstra.dist st !! v = Some (Fin d) →
      (Fin d, v) ∈ Dijkstra.pq st;
  dr_keys : ∀ d v, (d, v) ∈ Dijkstra.pq st → ∃ q, Dijkstra.dist st !! v = Some (Fin q);
  dr_source : ∀ u v w, R u v w → u ∈ Dijkstra.visited st;
  dr_relaxed : ∀ u v w, R u v w → ∃ q, Dijkstra.dist st !! v = Some (Fin q)
}.

(** ** Results: error or success *)

(** Whether a result is an error dict (it carries the key ['error']). *)
Definition is_error (r : result) : bool :=
  match r with
  | ErrorResult _ _ => true
  | _ => false
  end.

(** ** Edges that leave the vertex list *)

(** The first end of a pair of [ends], first component before second, that
    is not in [vs]. *)
Fixpoint first_unlisted (vs : list Z) (ends : list (Z * Z)) : option Z :=
  match ends with
  | [] => None
  | (v1, v2) :: rest =>
      if decide (v1 ∈ vs) then
        if decide (v2 ∈ vs) then first_unlisted vs rest else Some v2
      else Some v1
  end.

(** ** Degrees *)

(** The ends opposite to [v] of the edges at [v], one per edge end at [v]
    (a loop at [v] contributes [v] twice). *)
Definition other_ends (es : list edge) (v : Z) : list Z :=
  es ≫= λ e,
    (if decide ((endpoints e).1 = v) then [(endpoints e).2] else []) ++
    (if decide ((endpoints e).2 = v) then [(endpoints e).1] else []).

(** The degree of [v]: the number of edge ends at [v]. *)
Definition degree (g : graph) (v : Z) : nat := incidences (edges g) (λ x, x = v).

(** ** Breadth-first distances: least numbers of edges *)

(** [d] is the least number of edges of a chain from [s] to [t]. *)
Definition shortest (g : graph) (s t : Z) (d : Z) : Prop :=
  0 ≤ d ∧ nsteps (adjacent g) (Z.to_nat d) s t ∧
  ∀ m, nsteps (adjacent g) m s t → d ≤ Z.of_nat m.

(** What a BFS distance says about [s] and [t]. *)
Definition hop_answer (g : graph) (s t : Z) (r : num) : Prop :=
  match r with
  | Fin x => ∃ d, x = inject_Z d ∧ shortest g s t d
  | Inf => ¬ connected g s t
  end.

(** Chains of [j] edges from [s] none of whose vertices is [t]. *)
Inductive avoiding (g : graph) (t s : Z) : nat → Z → Prop :=
| avoiding_nil : avoiding g t s 0 s
| avoiding_snoc j y x :
    avoiding g t s j y → adjacent g y x → x ≠ t → avoiding g t s (S j) x.

(** What the loop of [bfs_distance] maintains.  [D] records the distance
    with which a vertex entered the queue, [P] the vertices whose adjacency
    list has been read, [cur] the vertex whose list is being read, and
    [level] the distance of the vertex dequeued last. *)
Record bfs_inv (g : graph) (s target : Z) (D : gmap Z Z) (P : gset Z) (level : Z)
    (cur : option Z) (seen : gset Z) (q : list (Z * Z)) : Prop := BfsInv {
  b_dom : ∀ x, is_Some (D !! x) ↔ x ∈ seen;
  b_sound : ∀ x d, D !! x = Some d → 0 ≤ d ∧ nsteps (adjacent g) (Z.to_nat d) s x;
  b_start : D !! s = Some 0;
  b_level : ∀ x d, D !! x = Some d → d ≤ level + 1;
  b_queue : ∀ x d, (x, d) ∈ q → D !! x = Some d ∧ x ∉ P ∧ level ≤ d;
  b_queued : ∀ x d, D !! x = Some d → x ∉ P → (x, d) ∈ q ∨ cur = Some x;
  b_cur : ∀ u, cur = Some u → D !! u = Some level ∧ u ∉ P ∧ u ∉ q.*1;
  b_sorted : StronglySorted Z.le (q.*2);
  b_nodup : NoDup (q.*1);
  b_processed : ∀ p, p ∈ P → ∃ dp, D !! p = Some dp ∧ dp ≤ level ∧
      ∀ y, adjacent g p y → y ≠ target ∧ ∃ dy, D !! y = Some dy ∧ dy ≤ dp + 1;
  b_target : target ∉ seen
}.

(** ** k-centres: the distance to the nearest centre *)

(** [min(bfs_distance(v, c) for c in centers)], with [dist] standing for
    [bfs_distance(v, _)]. *)
Definition nearest_dist (dist : Z → num) (centers : list Z) : num :=
  match centers with
  | [] => Inf
  | c0 :: cs => Hotel.min_list (dist c0) (dist <$> cs)
  end.

(** What the search for the farthest vertex has found among [done_]. *)
Definition farthest_inv (dist : Z → Z → num) (centers done_ : list Z) (acc : Z * num) : Prop :=
  (acc = (-1, Fin (-1)) ∧ ∀ v, v ∈ done_ → v ∈ centers) ∨
  ((acc.1 ∈ done_) ∧ (acc.1 ∉ centers) ∧ acc.2 = nearest_dist (dist acc.1) centers ∧
   ∀ v, v ∈ done_ → v ∉ centers →
        num_le (nearest_dist (dist v) centers) acc.2).

(** Every centre after the first was, among the vertices that were not yet
    centres, one whose nearest earlier centre is farthest. *)
Definition farthest_first (dist : Z → Z → num) (vs centers : list Z) : Prop :=
  ∀ pre c post, centers = pre ++ c :: post → pre ≠ [] →
    (c ∈ vs) ∧ (c ∉ pre) ∧
    ∀ v, v ∈ vs → v ∉ pre →
         num_le (nearest_dist (dist v) pre) (nearest_dist (dist c) pre).

(** ** Nearest-neighbour tour: the choice of the next vertex *)

(** What the search for the nearest unvisited vertex from [c] has found among
    [done_]. *)
Definition nearest_inv (W : Z → Z → num) (seen : gset Z) (c : Z) (done_ : list Z)
    (acc : Z * num) : Prop :=
  (acc = (-1, Inf) ∧ ∀ v, v ∈ done_ → v ∉ seen → W c v = Inf) ∨
  ((acc.1 ∈ done_) ∧ (acc.1 ∉ seen) ∧ acc.2 = W c acc.1 ∧ acc.2 ≠ Inf ∧
   ∀ v, v ∈ done_ → v ∉ seen → num_le acc.2 (W c v)).

(** Every step of the walk [t] follows an edge to a vertex that, among the
    vertices of [vs] not visited before, is nearest to the one it leaves. *)
Definition nearest_steps (W : Z → Z → num) (vs : list Z) (t : list Z) : Prop :=
  ∀ pre a b post, t = pre ++ a :: b :: post →
    W a b ≠ Inf ∧ ∀ v, v ∈ vs → v ∉ pre ++ [a] → num_le (W a b) (W a v).



(** ** The path drawn for a Dijkstra result ([visualisation/ui_visualizer.py]) *)

Module Ui.

(** [while current != -1: path.append(current); current = parent.get(str(current), -1)]
    of [draw_graph]; [fuel] bounds the number of iterations. *)
Fixpoint follow_parents (fuel : nat) (parent : gmap pykey Z) (current : Z) (path : list Z)
    : res (list Z) :=
  if decide (current ≠ -1) then
    match fuel with
    | O => NoFuel
    | S fuel' =>
        follow_parents fuel' parent (default (-1) (parent !! inr (str current)))
          (path ++ [current])
    end
  else Ok path.

(** [[(path[i], path[i+1]) for i in range(len(path)-1)]]. *)
Fixpoint path_edges (path : list Z) : list (Z * Z) :=
  match path with
  | a :: (b :: _) as rest => (a, b) :: path_edges rest
  | _ => []
  end.

(** The path [draw_graph] highlights for a Dijkstra result with parent map
    [parent]: the parent pointers followed from the last listed vertex, in
    reverse, provided the list has more than one vertex and the path starts
    at the first listed vertex; [None] when nothing is highlighted. *)
Definition dijkstra_path (fuel : nat) (vertices : list Z) (parent : gmap pykey Z)
    : res (option (list Z)) :=
  if bool_decide (1 < length vertices)%nat then
    match last vertices, head vertices with
    | Some end_vertex, Some first =>
        path ← follow_parents fuel parent end_vertex [];
        let path := reverse path in
        match path with
        | p0 :: _ => if bool_decide (p0 = first) then Ok (Some path) else Ok None
        | [] => Ok None
        end
    | _, _ => Ok None
    end
  else Ok None.

End Ui.

(** ** Forests *)

(** The pairs [ps] form a forest: no pair joins two vertices that the other
    pairs already join by a chain. *)
Definition forest (ps : list (Z * Z)) : Prop :=
  ∀ l1 a b l2, ps = l1 ++ (a, b) :: l2 → ¬ conn (l1 ++ l2) a b.

(** The same, one pair at a time: no pair of [ps] joins two vertices that
    [base] and the pairs after it already join. *)
Fixpoint indep (base ps : list (Z * Z)) : Prop :=
  match ps with
  | [] => True
  | (a, b) :: ps' => ¬ conn (base ++ ps') a b ∧ indep base ps'
  end.

(** What the loop of [run_mst] keeps beside [kruskal_inv]: the chosen edges
    form a forest, and fewer than [i + 1] edges of a forest taken from the
    processed edges are lighter than the [i]-th chosen edge. *)
Record kruskal_min (done_ : list (Q * Z * Z)) (mst : list (Z * Z * Q)) : Prop :=
  KruskalMin {
    km_indep : indep [] (reverse (chosen_pairs mst));
    km_light : ∀ (i : nat) u v w ps,
        mst !! i = Some (u, v, w) → indep [] ps →
        (∀ a b, (a, b) ∈ ps → ∃ w', (w', a, b) ∈ done_ ∧ (w' < w)%Q) →
        (length ps ≤ i)%nat
  }.

(** The order of [sorted_edges] seen through the weights alone. *)
Definition lighter (a b : Q * Z * Z) : Prop := (a.1.1 <= b.1.1)%Q.

(** The triangle with weights 1, 2 and 3. *)
Definition scalene : graph :=
  Graph [0; 1; 2] [E3 0 1 1; E3 1 2 2; E3 0 2 3].

(** Its two heavier edges: a spanning tree that is not the lightest. *)
Definition scalene_detour : list (Z * Z * Q) := [(1, 2, 2%Q); (0, 2, 3%Q)].

(** * Properties *)

(** ** The outcome monad *)

Lemma bind_Ok {A B : Type} (m : res A) (f : A → res B) (b : B) :
  m ≫= f = Ok b ↔ ∃ a, m = Ok a ∧ f a = Ok b.
Proof.
  destruct m as [a| |]; simpl; split.
  - intros Hf. exists a. done.
  - intros (a' & Ha & Hf). congruence.
  - discriminate.
  - intros (a' & Ha & _). discriminate.
  - discriminate.
  - intros (a' & Ha & _). discriminate.
Qed.

Lemma subscript_Ok {V : Type} (d : gmap Z V) (k : Z) (v : V) :
  subscript d k = Ok v ↔ d !! k = Some v.
Proof.
  unfold subscript. destruct (d !! k); split; intros Hx; congruence.
Qed.

Lemma subscript_is_Some {V : Type} (d : gmap Z V) (k : Z) :
  is_Some (d !! k) → ∃ v, subscript d k = Ok v ∧ d !! k = Some v.
Proof.
  intros [v Hv]. exists v. split; [by apply subscript_Ok | done].
Qed.

(** Inversion of a successful monadic step in hypothesis [H]. *)
Ltac ok_inv H :=
  let a := fresh "a" in
  let Ha := fresh "Ha" in
  apply bind_Ok in H; destruct H as (a & Ha & H).

Lemma for_each_app {A S : Type} (body : A → S → res S) (xs ys : list A) (st : S) :
  for_each body (xs ++ ys) st = for_each body xs st ≫= for_each body ys.
Proof.
  revert st. induction xs as [|x xs IH]; intros st; simpl; [done|].
  destruct (body x st); simpl; auto.
Qed.

(** An invariant of a loop body that cannot fail is kept by the loop. *)
Lemma for_each_invariant {A S : Type} (P : S → Prop) (body : A → S → res S)
    (xs : list A) (st st' : S) :
  (∀ x s s', x ∈ xs → P s → body x s = Ok s' → P s') →
  P st → for_each body xs st = Ok st' → P st'.
Proof.
  revert st. induction xs as [|x xs IH]; intros st Hbody HP Hrun; simpl in Hrun.
  - congruence.
  - ok_inv Hrun. eapply IH; [| |exact Hrun].
    + intros y s s' Hy. apply Hbody. by apply list_elem_of_further.
    + eapply Hbody; [apply list_elem_of_here|exact HP|exact Ha].
Qed.

(** A loop whose body succeeds on every state satisfying an invariant succeeds. *)
Lemma for_each_total {A S : Type} (P : S → Prop) (body : A → S → res S)
    (xs : list A) (st : S) :
  (∀ x s, x ∈ xs → P s → ∃ s', body x s = Ok s' ∧ P s') →
  P st → ∃ st', for_each body xs st = Ok st' ∧ P st'.
Proof.
  revert st. induction xs as [|x xs IH]; intros st Hbody HP; simpl.
  - by exists st.
  - destruct (Hbody x st) as (s' & Hs' & HP'); [apply list_elem_of_here|done|].
    rewrite Hs'. simpl. apply IH; [|done].
    intros y s Hy. apply Hbody. by apply list_elem_of_further.
Qed.

(** ** Dictionary comprehensions *)

Lemma dict_of_snoc {K V : Type} `{Countable K} (key : Z → K) (f : Z → V)
    (vs : list Z) (v : Z) :
  dict_of key f (vs ++ [v]) = <[key v := f v]> (dict_of key f vs).
Proof. unfold dict_of. by rewrite foldl_app. Qed.

Lemma dict_of_lookup_id {V : Type} (f : Z → V) (vs : list Z) (k : Z) :
  dict_of id f vs !! k = if decide (k ∈ vs) then Some (f k) else None.
Proof.
  induction vs as [|v vs IH] using rev_ind.
  - destruct (decide (k ∈ [])) as [Hin|_]; [by apply elem_of_nil in Hin|].
    apply lookup_empty.
  - rewrite dict_of_snoc. unfold id at 1.
    destruct (decide (v = k)) as [->|Hne].
    + rewrite lookup_insert_eq.
      destruct (decide (k ∈ vs ++ [k])) as [_|Hn]; [done|].
      exfalso. apply Hn. set_solver.
    + rewrite lookup_insert_ne by done. rewrite IH.
      destruct (decide (k ∈ vs)) as [Hk|Hk], (decide (k ∈ vs ++ [v])) as [Hk'|Hk'];
        [done| | |done].
      * exfalso. apply Hk'. set_solver.
      * exfalso. apply Hk. set_solver.
Qed.

Lemma dict_of_dom_id {V : Type} (f : Z → V) (vs : list Z) :
  dom (dict_of id f vs) = list_to_set vs.
Proof.
  apply set_eq. intros k. rewrite elem_of_dom, dict_of_lookup_id, elem_of_list_to_set.
  destruct (decide (k ∈ vs)); split; intros Hx; try done.
Qed.

(** ** Dispatch and the empty graph *)

Lemma eqb_ne (a b : string) : a ≠ b → String.eqb a b = false.
Proof. intros Hne. by apply String.eqb_neq. Qed.

(** [C3] [run_algorithm] answers an unknown name with a result that carries
    only the string [error: "Unknown algorithm: <name>"] and no [success]
    field, and each of tsp, mst, connectivity, coloring and hotel answers a
    graph with zero vertices with [{error: "Empty graph", success: false}];
    in both cases a result is returned and nothing is raised. *)
Theorem run_algorithm_errors (name : string) (g : graph) :
  (name ∉ known_algorithms →
     run_algorithm name g = Ok (ErrorResult ("Unknown algorithm: " +:+ name) None)) ∧
  (vertices g = [] → name ∈ ["tsp"; "mst"; "connectivity"; "coloring"; "hotel"] →
     run_algorithm name g = Ok (ErrorResult "Empty graph" (Some false))).
Proof.
  split.
  - intros Hname. unfold run_algorithm, known_algorithms in *.
    repeat rewrite eqb_ne; [done|..]; intros ->; apply Hname; set_solver.
  - intros Hvs Hname. destruct g as [vs es]. simpl in Hvs. subst vs.
    unfold run_algorithm.
    repeat (apply elem_of_cons in Hname; destruct Hname as [->|Hname]); try done.
    by apply elem_of_nil in Hname.
Qed.

Lemma run_algorithm_errors_witness :
  run_algorithm "prim" path4 = Ok (ErrorResult "Unknown algorithm: prim" None) ∧
  run_algorithm "mst" no_vertices = Ok (ErrorResult "Empty graph" (Some false)).
Proof.
  split.
  - apply (run_algorithm_errors "prim" path4).
    unfold known_algorithms. intros Hin.
    repeat (apply elem_of_cons in Hin; destruct Hin as [Hin|Hin]; [discriminate|]).
    by apply elem_of_nil in Hin.
  - apply (run_algorithm_errors "mst" no_vertices); [reflexivity|].
    apply list_elem_of_further, list_elem_of_here.
Defined.

(** [C2] On the graph with no vertices and no edges, [run("dijkstra", g)]
    defaults [start] to [0], seeds the queue with [(0, 0)] and raises
    [KeyError 0] at [adj[u]] in the first iteration: no result is returned. *)
Theorem dijkstra_empty_graph_raises :
  run_algorithm "dijkstra" no_vertices = Raise (KeyError 0).
Proof. reflexivity. Qed.

Lemma str_inj : Inj (=) (=) str.
Proof. unfold str. apply _. Qed.

Section export.
Context {V : Type} (d : gmap Z V).

Lemma export_from_lookup (vs : list Z) (m0 m : gmap pykey V) :
  for_each (Dijkstra.export_entry d) vs m0 = Ok m →
  (∀ z : Z, m !! inl z = m0 !! inl z) ∧
  (∀ v : Z, m !! inr (str v) = if decide (v ∈ vs) then d !! v else m0 !! inr (str v)) ∧
  (∀ s : string, is_Some (m !! inr s) → is_Some (m0 !! inr s) ∨ ∃ v, v ∈ vs ∧ s = str v) ∧
  (∀ v : Z, v ∈ vs → is_Some (d !! v)).
Proof.
  revert m0. induction vs as [|v vs IH]; intros m0 Hrun; simpl in Hrun.
  - injection Hrun as <-. split; [done|]. split; [|split].
    + intros v. destruct (decide (v ∈ [])) as [Hin|_]; [by apply elem_of_nil in Hin|done].
    + intros s Hs. by left.
    + intros v Hin. by apply elem_of_nil in Hin.
  - ok_inv Hrun. unfold Dijkstra.export_entry in Ha. ok_inv Ha. apply subscript_Ok in Ha0.
    injection Ha as <-.
    destruct (IH _ Hrun) as (Hl & Hr & Hdom & Hd). split; [|split; [|split]].
    + intros z. by rewrite Hl, lookup_insert_ne.
    + intros u. rewrite Hr.
      destruct (decide (u ∈ vs)) as [Hu|Hu].
      * rewrite decide_True; [done|]. by apply list_elem_of_further.
      * destruct (decide (u = v)) as [->|Hne].
        -- rewrite lookup_insert_eq, decide_True; [done|]. apply list_elem_of_here.
        -- rewrite lookup_insert_ne by (intros [= Heq]; by apply str_inj in Heq).
           rewrite decide_False; [done|].
           intros Hin. apply elem_of_cons in Hin. tauto.
    + intros s Hs. destruct (Hdom s Hs) as [H0|(u & Hu & ->)].
      * destruct (decide (s = str v)) as [->|Hne].
        -- right. exists v. split; [apply list_elem_of_here|done].
        -- left. rewrite lookup_insert_ne in H0; [done|congruence].
      * right. exists u. split; [by apply list_elem_of_further|done].
    + intros u Hu. apply elem_of_cons in Hu. destruct Hu as [->|Hu]; [by eexists|auto].
Qed.

Lemma export_lookup_int (vs : list Z) (m : gmap pykey V) (z : Z) :
  Dijkstra.export d vs = Ok m → m !! inl z = None.
Proof.
  intros Hrun. apply export_from_lookup in Hrun. destruct Hrun as (Hl & _).
  by rewrite Hl, lookup_empty.
Qed.

Lemma export_lookup_str (vs : list Z) (m : gmap pykey V) (v : Z) :
  Dijkstra.export d vs = Ok m → v ∈ vs → m !! inr (str v) = d !! v ∧ is_Some (d !! v).
Proof.
  intros Hrun Hv. apply export_from_lookup in Hrun. destruct Hrun as (_ & Hr & _ & Hd).
  rewrite Hr, decide_True by done. auto.
Qed.

Lemma export_keys (vs : list Z) (m : gmap pykey V) (k : pykey) :
  Dijkstra.export d vs = Ok m →
  is_Some (m !! k) ↔ ∃ v, v ∈ vs ∧ k = inr (str v).
Proof.
  intros Hrun. pose proof (export_from_lookup _ _ _ Hrun) as (Hl & Hr & Hdom & Hd). split.
  - destruct k as [z|s].
    + rewrite Hl, lookup_empty. by intros [? ?].
    + intros Hs. destruct (Hdom s Hs) as [H0|(v & Hv & ->)].
      * rewrite lookup_empty in H0. by destruct H0.
      * by exists v.
  - intros (v & Hv & ->). rewrite Hr, decide_True by done. auto.
Qed.

Lemma export_total (vs : list Z) :
  (∀ v, v ∈ vs → is_Some (d !! v)) → ∃ m, Dijkstra.export d vs = Ok m.
Proof.
  intros Hd. unfold Dijkstra.export.
  destruct (for_each_total (λ _, True) (Dijkstra.export_entry d) vs ∅) as (m & Hm & _); [|done|by exists m].
  intros v m Hv _. destruct (Hd v Hv) as [x Hx]. exists (<[inr (str v) := x]> m).
  split; [|done]. unfold Dijkstra.export_entry. apply subscript_Ok in Hx. by rewrite Hx.
Qed.
End export.

(** [C10] A successful [run_dijkstra] keys the [distances] and [parent] maps
    by [str(v)] for the vertices [v] of the graph and by nothing else: no
    integer key is present.  The parent values and [start] are integers. *)
Theorem dijkstra_result_keyed_by_str (g : graph) (start : Z) (r : result) :
  Dijkstra.run_dijkstra g start = Ok r →
  ∃ (ds : gmap pykey num) (ps : gmap pykey Z) (s : Z),
    r = DijkstraResult "Dijkstra" ds ps s true ∧
    (∀ k, is_Some (ds !! k) ↔ ∃ v, v ∈ vertices g ∧ k = inr (str v)) ∧
    (∀ k, is_Some (ps !! k) ↔ ∃ v, v ∈ vertices g ∧ k = inr (str v)) ∧
    (∀ v : Z, ds !! inl v = None ∧ ps !! inl v = None).
Proof.
  intros Hrun. unfold Dijkstra.run_dijkstra in Hrun.
  ok_inv Hrun. ok_inv Hrun. ok_inv Hrun. ok_inv Hrun. injection Hrun as <-.
  eexists _, _, _. split; [reflexivity|]. repeat split.
  - by apply (export_keys _ _ _ _ Ha1).
  - by apply (export_keys _ _ _ _ Ha1).
  - by apply (export_keys _ _ _ _ Ha2).
  - by apply (export_keys _ _ _ _ Ha2).
  - by apply (export_lookup_int _ _ _ _ Ha1).
  - by apply (export_lookup_int _ _ _ _ Ha2).
Qed.

Lemma dijkstra_result_keyed_by_str_witness :
  ∃ r, Dijkstra.run_dijkstra path4 0 = Ok r ∧
  ∃ (ds : gmap pykey num) (ps : gmap pykey Z) (s : Z),
    r = DijkstraResult "Dijkstra" ds ps s true ∧
    (∀ k, is_Some (ds !! k) ↔ ∃ v, v ∈ vertices path4 ∧ k = inr (str v)) ∧
    (∀ k, is_Some (ps !! k) ↔ ∃ v, v ∈ vertices path4 ∧ k = inr (str v)) ∧
    (∀ v : Z, ds !! inl v = None ∧ ps !! inl v = None).
Proof.
  eexists. split; [vm_compute; reflexivity|].
  apply (dijkstra_result_keyed_by_str path4 0). vm_compute. reflexivity.
Defined.

(** ** Reversing an edge *)

Lemma same_outcome_refl {A : Type} (r : res A) : same_outcome r r.
Proof. by destruct r. Qed.

Lemma same_outcome_bind {A B : Type} (m1 m2 : res A) (f : A → res B) :
  same_outcome m1 m2 → same_outcome (m1 ≫= f) (m2 ≫= f).
Proof.
  destruct m1, m2; simpl; try done.
  intros ->. apply same_outcome_refl.
Qed.

Lemma for_each_alter {A S : Type} (body : A → S → res S) (f : A → A)
    (i : nat) (xs : list A) (st : S) :
  (∀ x s, same_outcome (body (f x) s) (body x s)) →
  same_outcome (for_each body (alter f i xs) st) (for_each body xs st).
Proof.
  intros Hbody. revert i st. induction xs as [|x xs IH]; intros i st.
  - destruct i; apply same_outcome_refl.
  - destruct i as [|i]; simpl.
    + by apply same_outcome_bind.
    + destruct (body x st); simpl; [apply IH|done..].
Qed.

Lemma length_reverse_at (i : nat) (g : graph) :
  length (edges (reverse_at i g)) = length (edges g).
Proof. unfold reverse_at. simpl. apply length_alter. Qed.

(** Both insertions of an edge into a dictionary of per-vertex containers
    commute: the shape shared by the four adjacency builders. *)
Lemma symmetric_insert {V : Type} (adj : gmap Z V) (f g : V → V) (v1 v2 : Z) :
  (v1 = v2 → f = g) →
  same_outcome
    (l2 ← subscript adj v2;
     let adj1 := <[v2 := g l2]> adj in
     l1 ← subscript adj1 v1; Ok (<[v1 := f l1]> adj1))
    (l1 ← subscript adj v1;
     let adj1 := <[v1 := f l1]> adj in
     l2 ← subscript adj1 v2; Ok (<[v2 := g l2]> adj1)).
Proof.
  intros Hfg. destruct (decide (v1 = v2)) as [->|Hne].
  - rewrite (Hfg eq_refl). apply same_outcome_refl.
  - unfold subscript.
    destruct (adj !! v1) as [l1|] eqn:H1, (adj !! v2) as [l2|] eqn:H2; simpl.
    + rewrite !lookup_insert_ne by done. rewrite H1, H2. simpl.
      by rewrite insert_insert_ne.
    + by rewrite lookup_insert_ne, H2 by done.
    + by rewrite lookup_insert_ne, H1 by done.
    + done.
Qed.

Lemma dijkstra_add_edge_reverse (e : edge) (adj : Dijkstra.adjacency) :
  same_outcome (Dijkstra.add_edge (reverse_edge e) adj) (Dijkstra.add_edge e adj).
Proof.
  unfold Dijkstra.add_edge.
  destruct e as [v1 v2|v1 v2 w]; simpl;
    apply (symmetric_insert adj (λ l, l ++ [(v2, _)]) (λ l, l ++ [(v1, _)]));
    by intros ->.
Qed.

Lemma tsp_add_edge_reverse (e : edge) (adj : Tsp.matrix) :
  same_outcome (Tsp.add_edge (reverse_edge e) adj) (Tsp.add_edge e adj).
Proof.
  unfold Tsp.add_edge.
  destruct e as [v1 v2|v1 v2 w]; simpl;
    apply (symmetric_insert adj (λ r, <[v2 := _]> r) (λ r, <[v1 := _]> r));
    by intros ->.
Qed.

Lemma add_neighbours_reverse (e : edge) (adj : neighbours) :
  same_outcome (add_neighbours (reverse_edge e) adj) (add_neighbours e adj).
Proof.
  unfold add_neighbours.
  destruct e as [v1 v2|v1 v2 w]; simpl;
    apply (symmetric_insert adj (λ l, l ++ [v2]) (λ l, l ++ [v1]));
    by intros ->.
Qed.

Lemma coloring_add_edge_reverse (e : edge) (adj : Coloring.adjacency) :
  same_outcome (Coloring.add_edge (reverse_edge e) adj) (Coloring.add_edge e adj).
Proof.
  unfold Coloring.add_edge.
  destruct e as [v1 v2|v1 v2 w]; simpl;
    apply (symmetric_insert adj (λ s, {[v2]} ∪ s) (λ s, {[v1]} ∪ s));
    by intros ->.
Qed.

Lemma build_neighbours_reverse (i : nat) (g : graph) :
  same_outcome (build_neighbours (reverse_at i g)) (build_neighbours g).
Proof. apply for_each_alter, add_neighbours_reverse. Qed.

Lemma run_dijkstra_reverse (i : nat) (g : graph) (start : Z) :
  same_outcome (Dijkstra.run_dijkstra (reverse_at i g) start) (Dijkstra.run_dijkstra g start).
Proof.
  unfold Dijkstra.run_dijkstra, Dijkstra.fuel_of. rewrite length_reverse_at.
  apply same_outcome_bind. apply for_each_alter, dijkstra_add_edge_reverse.
Qed.

Lemma run_tsp_reverse (i : nat) (g : graph) (start : Z) :
  same_outcome (Tsp.run_tsp (reverse_at i g) start) (Tsp.run_tsp g start).
Proof.
  unfold Tsp.run_tsp. simpl. destruct (vertices g) as [|v0 vs] eqn:Hvs; [done|].
  apply same_outcome_bind. unfold Tsp.build_adj. simpl. rewrite Hvs.
  apply for_each_alter, tsp_add_edge_reverse.
Qed.

Lemma run_connectivity_reverse (i : nat) (g : graph) :
  same_outcome (Connectivity.run_connectivity (reverse_at i g)) (Connectivity.run_connectivity g).
Proof.
  unfold Connectivity.run_connectivity. simpl. destruct (vertices g) as [|v0 vs] eqn:Hvs; [done|].
  apply same_outcome_bind, build_neighbours_reverse.
Qed.

Lemma run_coloring_reverse (i : nat) (g : graph) :
  same_outcome (Coloring.run_coloring (reverse_at i g)) (Coloring.run_coloring g).
Proof.
  unfold Coloring.run_coloring. simpl. destruct (vertices g) as [|v0 vs] eqn:Hvs; [done|].
  apply same_outcome_bind. unfold Coloring.build_adj. simpl. rewrite Hvs.
  apply for_each_alter, coloring_add_edge_reverse.
Qed.

Lemma run_hotel_reverse (i : nat) (g : graph) :
  same_outcome (Hotel.run_hotel_optimization (reverse_at i g)) (Hotel.run_hotel_optimization g).
Proof.
  unfold Hotel.run_hotel_optimization. simpl. destruct (vertices g) as [|v0 vs] eqn:Hvs; [done|].
  apply same_outcome_bind, build_neighbours_reverse.
Qed.



(** ** Nearest-neighbour tour *)

Lemma endpoints_unpack (e : edge) :
  endpoints e = ((unpack e).1.1, (unpack e).1.2).
Proof. by destruct e. Qed.

Lemma walk_from_snoc (es : list edge) (acc : num) (cur : Z) (rest : list Z) (v : Z) :
  walk_from es acc cur (rest ++ [v]) =
  num_add (walk_from es acc cur rest) (edge_weight es (default cur (last rest)) v).
Proof.
  revert acc cur. induction rest as [|x rest IH]; intros acc cur; simpl; [done|].
  rewrite IH. f_equal. f_equal. rewrite last_cons. by destruct (last rest).
Qed.

Lemma walk_weight_snoc (es : list edge) (walk : list Z) (c v : Z) :
  last walk = Some c →
  walk_weight es (walk ++ [v]) = num_add (walk_weight es walk) (edge_weight es c v).
Proof.
  destruct walk as [|x rest]; [done|]. intros Hlast. simpl.
  rewrite walk_from_snoc. f_equal. f_equal.
  rewrite last_cons in Hlast. destruct (last rest); simpl; congruence.
Qed.

Lemma tsp_entry_Ok (adj : Tsp.matrix) (a b : Z) (x : num) :
  Tsp.entry adj a b = Ok x ↔ ∃ row, adj !! a = Some row ∧ row !! b = Some x.
Proof.
  unfold Tsp.entry. rewrite bind_Ok. setoid_rewrite subscript_Ok. done.
Qed.

Lemma tsp_build_empty (vs : list Z) :
  tsp_represents vs (dict_of id (λ _, dict_of id (λ _, Inf) vs) vs) (λ _ _, Inf).
Proof.
  intros a b Ha Hb. apply tsp_entry_Ok. eexists. split.
  - rewrite dict_of_lookup_id. by rewrite decide_True.
  - rewrite dict_of_lookup_id. by rewrite decide_True.
Qed.

Lemma joins_spec (e : edge) (a b : Z) :
  joins e a b = true ↔
  ((unpack e).1.1 = a ∧ (unpack e).1.2 = b) ∨ ((unpack e).1.1 = b ∧ (unpack e).1.2 = a).
Proof.
  unfold joins. rewrite endpoints_unpack.
  rewrite orb_true_iff, !andb_true_iff, !Z.eqb_eq. done.
Qed.

Lemma tsp_add_edge_represents (vs : list Z) (adj : Tsp.matrix) (W : Z → Z → num) (e : edge) :
  (endpoints e).1 ∈ vs → (endpoints e).2 ∈ vs →
  tsp_represents vs adj W →
  ∃ adj', Tsp.add_edge e adj = Ok adj' ∧
          tsp_represents vs adj' (λ a b, if joins e a b then Fin (unpack e).2 else W a b).
Proof.
  intros H1 H2 Hrep. rewrite endpoints_unpack in H1, H2. simpl in H1, H2.
  unfold Tsp.add_edge. pose proof (joins_spec e) as Hj.
  destruct (unpack e) as [[v1 v2] w]. simpl in *.
  destruct (proj1 (tsp_entry_Ok _ _ _ _) (Hrep v1 v1 H1 H1)) as (r1 & Hr1 & _).
  apply subscript_Ok in Hr1 as Hs1. rewrite Hs1. simpl.
  set (adj1 := <[v1 := <[v2 := Fin w]> r1]> adj).
  assert (∃ r2, adj1 !! v2 = Some r2) as (r2 & Hr2).
  { unfold adj1. destruct (decide (v1 = v2)) as [->|Hne].
    - rewrite lookup_insert_eq. by eexists.
    - rewrite lookup_insert_ne by done.
      destruct (proj1 (tsp_entry_Ok _ _ _ _) (Hrep v2 v2 H2 H2)) as (r2 & Hr2 & _). by eexists. }
  apply subscript_Ok in Hr2 as Hs2. rewrite Hs2. simpl.
  eexists. split; [done|].
  intros a b Ha Hb. apply tsp_entry_Ok.
  destruct (proj1 (tsp_entry_Ok _ _ _ _) (Hrep a b Ha Hb)) as (row & Hrow & Hx).
  specialize (Hj a b).
  destruct (decide (a = v2)) as [->|Ha2].
  - rewrite lookup_insert_eq. eexists. split; [done|].
    destruct (decide (b = v1)) as [->|Hb1].
    + rewrite lookup_insert_eq. destruct (joins e v2 v1); [done|].
      exfalso. assert (false = true) by (apply Hj; auto). done.
    + rewrite lookup_insert_ne by done.
      unfold adj1 in Hr2. destruct (decide (v1 = v2)) as [->|Hne].
      * rewrite lookup_insert_eq in Hr2. injection Hr2 as <-.
        destruct (decide (b = v2)) as [->|Hb2].
        -- rewrite lookup_insert_eq. destruct (joins e v2 v2); [done|].
           exfalso. assert (false = true) by (apply Hj; auto). done.
        -- rewrite lookup_insert_ne by done.
           destruct (joins e v2 b) eqn:Hjb.
           ++ exfalso. destruct Hj as [Hj _]. destruct (Hj eq_refl) as [[_ ?]|[? _]]; congruence.
           ++ congruence.
      * rewrite lookup_insert_ne in Hr2 by done.
        destruct (joins e v2 b) eqn:Hjb.
        -- exfalso. destruct Hj as [Hj _]. destruct (Hj eq_refl) as [[? _]|[? _]]; congruence.
        -- congruence.
  - rewrite lookup_insert_ne by done. unfold adj1.
    destruct (decide (a = v1)) as [->|Ha1].
    + rewrite lookup_insert_eq. eexists. split; [done|].
      destruct (decide (b = v2)) as [->|Hb2].
      * rewrite lookup_insert_eq. destruct (joins e v1 v2); [done|].
        exfalso. assert (false = true) by (apply Hj; auto). done.
      * rewrite lookup_insert_ne by done.
        destruct (joins e v1 b) eqn:Hjb.
        -- exfalso. destruct Hj as [Hj _]. destruct (Hj eq_refl) as [[_ ?]|[_ ?]]; congruence.
        -- congruence.
    + rewrite lookup_insert_ne by done. exists row. split; [done|].
      destruct (joins e a b) eqn:Hjb; [|done].
      exfalso. destruct Hj as [Hj _]. destruct (Hj eq_refl) as [[? _]|[_ ?]]; congruence.
Qed.

Lemma tsp_build_from (vs : list Z) (es : list edge) (adj : Tsp.matrix) (W : Z → Z → num) :
  (∀ e, e ∈ es → (endpoints e).1 ∈ vs ∧ (endpoints e).2 ∈ vs) →
  tsp_represents vs adj W →
  ∃ adj', for_each Tsp.add_edge es adj = Ok adj' ∧
          tsp_represents vs adj'
            (λ a b, foldl (λ acc e, if joins e a b then Fin (unpack e).2 else acc) (W a b) es).
Proof.
  revert adj W. induction es as [|e es IH]; intros adj W Hes Hrep; simpl.
  - by exists adj.
  - destruct (tsp_add_edge_represents vs adj W e) as (adj1 & Hadd & Hrep1);
      [apply Hes, list_elem_of_here..|done|].
    rewrite Hadd. simpl.
    destruct (IH adj1 _ (λ e' He', Hes e' (list_elem_of_further _ _ _ He')) Hrep1)
      as (adj' & Hrun & Hrep').
    by exists adj'.
Qed.

Lemma tsp_build_adj_represents (g : graph) :
  endpoints_in g →
  ∃ adj, Tsp.build_adj g = Ok adj ∧ tsp_represents (vertices g) adj (edge_weight (edges g)).
Proof.
  intros Hg. unfold Tsp.build_adj.
  destruct (tsp_build_from (vertices g) (edges g) _ _ Hg (tsp_build_empty (vertices g)))
    as (adj & Hrun & Hrep).
  by exists adj.
Qed.



Lemma tsp_scan_result (g : graph) (adj : Tsp.matrix) (seen : gset Z) (c : Z) (vs : list Z)
    (acc : Z * num) :
  tsp_represents (vertices g) adj (edge_weight (edges g)) →
  c ∈ vertices g → (∀ v, v ∈ vs → v ∈ vertices g) →
  acc = (-1, Inf) ∨
    (fst acc ∈ vertices g ∧ (fst acc ∉ seen) ∧ snd acc = edge_weight (edges g) c (fst acc)) →
  ∃ acc', for_each (Tsp.scan adj seen c) vs acc = Ok acc' ∧
    (acc' = (-1, Inf) ∨
     (fst acc' ∈ vertices g ∧ (fst acc' ∉ seen) ∧ snd acc' = edge_weight (edges g) c (fst acc'))).
Proof.
  intros Hrep Hc Hvs Hacc.
  apply (for_each_total
           (λ acc, acc = (-1, Inf) ∨
              (fst acc ∈ vertices g ∧ (fst acc ∉ seen) ∧ snd acc = edge_weight (edges g) c (fst acc))));
    [|done].
  intros v a Hv Ha. unfold Tsp.scan.
  destruct (decide (v ∈ seen)) as [Hin|Hnin]; [by exists a|].
  rewrite (Hrep c v Hc (Hvs v Hv)). simpl.
  destruct (num_ltb (edge_weight (edges g) c v) a.2).
  - eexists. split; [done|]. right. simpl. auto.
  - by exists a.
Qed.

Lemma size_list_to_set_NoDup (l : list Z) :
  NoDup l → size (list_to_set l : gset Z) = length l.
Proof. intros Hnd. by apply size_list_to_set. Qed.

Lemma tsp_loop_result (g : graph) (adj : Tsp.matrix) (v0 : Z) (fuel : nat) (st : Tsp.state) :
  tsp_represents (vertices g) adj (edge_weight (edges g)) →
  tsp_inv g v0 st →
  (length (vertices g) - length (Tsp.tour st) ≤ fuel)%nat →
  ∃ st', Tsp.loop fuel adj (vertices g) st = Ok st' ∧ tsp_inv g v0 st'.
Proof.
  intros Hrep. revert st. induction fuel as [|fuel IH]; intros st Hinv Hfuel.
  - simpl. destruct Hinv as [inv_head0 inv_last0 inv_nodup0 inv_seen0 inv_in0 inv_total0]. rewrite inv_seen0, size_list_to_set_NoDup by done.
    destruct (Z.ltb_spec (Z.of_nat (length (Tsp.tour st))) (Z.of_nat (length (vertices g))));
      [lia|].
    exists st. by split.
  - simpl. pose proof Hinv as Hinv'. destruct Hinv as [inv_head0 inv_last0 inv_nodup0 inv_seen0 inv_in0 inv_total0].
    rewrite inv_seen0, size_list_to_set_NoDup by done.
    destruct (Z.ltb_spec (Z.of_nat (length (Tsp.tour st))) (Z.of_nat (length (vertices g))))
      as [Hlt|Hge]; [|by exists st].
    assert (Tsp.current st ∈ vertices g) as Hc.
    { apply inv_in0. apply last_Some in inv_last0 as [l' ->]. set_solver. }
    destruct (tsp_scan_result g adj (list_to_set (Tsp.tour st)) (Tsp.current st) (vertices g)
                (-1, Inf) Hrep Hc (λ v H, H) (or_introl eq_refl))
      as ([n d] & Hscan & Hres).
    rewrite Hscan. simpl.
    destruct (Z.eqb_spec n (-1)) as [->|Hn]; [by exists st|].
    destruct Hres as [[= -> ->]|(Hn1 & Hn2 & Hd)]; [done|]. simpl in *.
    apply IH.
    + constructor; simpl.
      * destruct (Tsp.tour st); [done|]. done.
      * by rewrite last_snoc.
      * apply NoDup_app. split; [done|]. split.
        -- intros x Hx Hx'. apply list_elem_of_singleton in Hx' as ->.
           apply Hn2. by apply elem_of_list_to_set.
        -- apply NoDup_singleton.
      * rewrite list_to_set_app_L. simpl. set_solver.
      * intros x Hx. apply elem_of_app in Hx as [Hx|Hx]; [auto|].
        by apply list_elem_of_singleton in Hx as ->.
      * rewrite (walk_weight_snoc _ _ _ _ inv_last0). by rewrite inv_total0, Hd.
    + simpl. rewrite length_app. simpl. lia.
Qed.




(** ** Order on numbers *)

Lemma Qltb_true (x y : Q) : Qltb x y = true ↔ (x < y)%Q.
Proof.
  unfold Qltb. rewrite negb_true_iff, <- not_true_iff_false, Qle_bool_iff.
  split; [apply Qnot_le_lt|apply Qlt_not_le].
Qed.

Lemma Qltb_false (x y : Q) : Qltb x y = false ↔ (y <= x)%Q.
Proof.
  unfold Qltb. rewrite negb_false_iff, Qle_bool_iff. done.
Qed.

Lemma num_ltb_false (a b : num) : num_ltb a b = false ↔ num_le b a.
Proof.
  destruct a as [x|], b as [y|]; simpl; try rewrite Qltb_false; try done.
Qed.

Lemma num_lt_le (a b : num) : num_lt a b → num_le a b.
Proof.
  unfold num_lt. destruct a as [x|], b as [y|]; simpl; try done.
  rewrite Qltb_true. apply Qlt_le_weak.
Qed.

Lemma num_le_refl (a : num) : num_le a a.
Proof. destruct a; simpl; [apply Qle_refl|done]. Qed.

Lemma num_le_trans (a b c : num) : num_le a b → num_le b c → num_le a c.
Proof.
  destruct a, b, c; simpl; try done. apply Qle_trans.
Qed.

Lemma num_lt_le_trans (a b c : num) : num_lt a b → num_le b c → num_lt a c.
Proof.
  unfold num_lt. destruct a, b, c; simpl; try done.
  rewrite !Qltb_true. apply Qlt_le_trans.
Qed.

Lemma num_le_Inf (a : num) : num_le Inf a → a = Inf.
Proof. by destruct a. Qed.

Lemma num_ltb_total (a b : num) : num_ltb a b = true ∨ num_le b a.
Proof.
  destruct (num_ltb a b) eqn:Hlt; [by left|right]. by apply num_ltb_false.
Qed.

(** ** Reachability *)

Lemma adjacent_sym (g : graph) (a b : Z) : adjacent g a b → adjacent g b a.
Proof. intros (e & He & Hab). exists e. tauto. Qed.

Lemma connected_sym (g : graph) (a b : Z) : connected g a b → connected g b a.
Proof.
  intros Hab. induction Hab as [|a b c Hab Hbc IH]; [apply rtc_refl|].
  eapply rtc_r; [exact IH|]. by apply adjacent_sym.
Qed.

Lemma connected_trans (g : graph) (a b c : Z) :
  connected g a b → connected g b c → connected g a c.
Proof. apply rtc_trans. Qed.

(** ** Adjacency lists *)

Lemma add_neighbours_spec (adj : neighbours) (e : edge) (P : Z → Z → Prop) :
  is_Some (adj !! (endpoints e).1) → is_Some (adj !! (endpoints e).2) →
  (∀ u l v, adj !! u = Some l → v ∈ l ↔ P u v) →
  ∃ adj', add_neighbours e adj = Ok adj' ∧
    (∀ u, is_Some (adj' !! u) ↔ is_Some (adj !! u)) ∧
    (∀ u l v, adj' !! u = Some l →
       v ∈ l ↔ (P u v ∨ (endpoints e = (u, v) ∨ endpoints e = (v, u)))).
Proof.
  intros [l1 H1] H2 HP. unfold add_neighbours.
  destruct (endpoints e) as [v1 v2]. simpl in *.
  apply subscript_Ok in H1 as Hs1. rewrite Hs1. simpl.
  assert (is_Some (<[v1 := l1 ++ [v2]]> adj !! v2)) as [l2 Hl2].
  { rewrite lookup_insert_is_Some. destruct (decide (v1 = v2)); auto. }
  apply subscript_Ok in Hl2 as Hs2. rewrite Hs2. simpl.
  eexists. split; [done|]. split.
  - intros u. rewrite !lookup_insert_is_Some.
    split; [intros [->|[_ [->|[_ ?]]]]; eauto|].
    intros Hu. destruct (decide (v2 = u)); [by left|]. right. split; [done|].
    destruct (decide (v1 = u)); [by left|]. by right.
  - intros u l v Hl.
    destruct (decide (v2 = u)) as [<-|Hne2].
    + rewrite lookup_insert_eq in Hl. injection Hl as <-.
      rewrite elem_of_app, list_elem_of_singleton.
      destruct (decide (v1 = v2)) as [->|Hne1].
      * rewrite lookup_insert_eq in Hl2. injection Hl2 as <-.
        rewrite elem_of_app, list_elem_of_singleton, (HP v2 l1 v H1). naive_solver.
      * rewrite lookup_insert_ne in Hl2 by done. rewrite (HP v2 l2 v Hl2). naive_solver.
    + rewrite lookup_insert_ne in Hl by done.
      destruct (decide (v1 = u)) as [<-|Hne1].
      * rewrite lookup_insert_eq in Hl. injection Hl as <-.
        rewrite elem_of_app, list_elem_of_singleton, (HP v1 l1 v H1). naive_solver.
      * rewrite lookup_insert_ne in Hl by done. rewrite (HP u l v Hl). naive_solver.
Qed.

Lemma build_neighbours_from (vs : list Z) (es : list edge) (adj : neighbours)
    (P : Z → Z → Prop) :
  (∀ e, e ∈ es → (endpoints e).1 ∈ vs ∧ (endpoints e).2 ∈ vs) →
  (∀ u, is_Some (adj !! u) ↔ u ∈ vs) →
  (∀ u l v, adj !! u = Some l → v ∈ l ↔ P u v) →
  ∃ adj', for_each add_neighbours es adj = Ok adj' ∧
    (∀ u, is_Some (adj' !! u) ↔ u ∈ vs) ∧
    (∀ u l v, adj' !! u = Some l →
       v ∈ l ↔ (P u v ∨ ∃ e, e ∈ es ∧ (endpoints e = (u, v) ∨ endpoints e = (v, u)))).
Proof.
  revert adj P. induction es as [|e es IH]; intros adj P Hes Hdom HP; simpl.
  - exists adj. split; [done|]. split; [done|].
    intros u l v Hl. rewrite (HP u l v Hl). split; [auto|].
    intros [?|(e & He & _)]; [done|]. by apply elem_of_nil in He.
  - destruct (Hes e (list_elem_of_here _ _)) as [He1 He2].
    destruct (add_neighbours_spec adj e P) as (adj1 & Hadd & Hdom1 & HP1);
      [by apply Hdom..|done|].
    rewrite Hadd. simpl.
    destruct (IH adj1 _ (λ e' He', Hes e' (list_elem_of_further _ _ _ He'))
                (λ u, transitivity (Hdom1 u) (Hdom u)) HP1)
      as (adj' & Hrun & Hdom' & HP').
    exists adj'. split; [done|]. split; [done|].
    intros u l v Hl. rewrite (HP' u l v Hl). split.
    + intros [[?|?]|(e' & He' & ?)]; [by left| |].
      * right. exists e. split; [apply list_elem_of_here|done].
      * right. exists e'. split; [by apply list_elem_of_further|done].
    + intros [?|(e' & He' & ?)]; [by left; left|].
      apply elem_of_cons in He' as [->|He']; [by left; right|].
      right. by exists e'.
Qed.

Lemma build_neighbours_spec (g : graph) :
  endpoints_in g → ∃ adj, build_neighbours g = Ok adj ∧ neighbours_of g adj.
Proof.
  intros Hg. unfold build_neighbours.
  destruct (build_neighbours_from (vertices g) (edges g)
              (dict_of id (λ _, []) (vertices g)) (λ _ _, False) Hg)
    as (adj & Hrun & Hdom & Hadj).
  - intros u. rewrite dict_of_lookup_id. destruct (decide (u ∈ vertices g)); [by split; eauto|].
    split; [by intros [? ?]|done].
  - intros u l v. rewrite dict_of_lookup_id.
    destruct (decide (u ∈ vertices g)); [|done]. intros [= <-].
    split; [by intros ?%elem_of_nil|done].
  - exists adj. split; [done|]. split; [done|].
    intros u l v Hl. rewrite (Hadj u l v Hl). unfold adjacent. naive_solver.
Qed.

Lemma adjacent_in_vertices (g : graph) (a b : Z) :
  endpoints_in g → adjacent g a b → a ∈ vertices g ∧ b ∈ vertices g.
Proof.
  intros Hg (e & He & Hab). destruct (Hg e He) as [H1 H2].
  destruct Hab as [Hab|Hab]; rewrite Hab in H1, H2; simpl in *; auto.
Qed.

(** ** Breadth-first distances *)

Lemma size_list_to_set_le (l : list Z) : (size (list_to_set l : gset Z) ≤ length l)%nat.
Proof.
  induction l as [|x l IH].
  { rewrite list_to_set_nil, size_empty. simpl. lia. }
  rewrite list_to_set_cons. simpl length.
  rewrite size_union_alt, size_singleton.
  assert (size (list_to_set l ∖ {[x]} : gset Z) ≤ size (list_to_set l : gset Z))%nat.
  { apply subseteq_size. set_solver. }
  lia.
Qed.

Lemma size_difference_insert (D seen : gset Z) (v : Z) :
  v ∈ D → v ∉ seen → (S (size (D ∖ ({[v]} ∪ seen))) = size (D ∖ seen))%nat.
Proof.
  intros HD Hseen.
  assert (D ∖ seen = {[v]} ∪ (D ∖ ({[v]} ∪ seen))) as Heq.
  { apply set_eq. intros x. rewrite elem_of_union, !elem_of_difference, elem_of_union,
      elem_of_singleton.
    destruct (decide (x = v)) as [->|]; naive_solver. }
  trans (size ({[v]} ∪ (D ∖ ({[v]} ∪ seen)))).
  - rewrite (size_union {[v]} (D ∖ ({[v]} ∪ seen))) by set_solver.
    by rewrite size_singleton.
  - f_equal. by symmetry.
Qed.

Section bfs.
Context (g : graph) (adj : neighbours).
Hypothesis Hg : endpoints_in g.
Hypothesis Hadj : neighbours_of g adj.

Lemma neighbours_closed (u v : Z) (l : list Z) :
  adj !! u = Some l → v ∈ l → is_Some (adj !! v).
Proof.
  intros Hl Hv. apply (nb_dom g adj Hadj).
  apply (nb_adjacent g adj Hadj u l v Hl) in Hv.
  by destruct (adjacent_in_vertices g u v Hg Hv).
Qed.

Lemma scan_measure (target d : Z) (nbrs : list Z) (seen : gset Z) (q : list (Z * Z)) :
  (∀ v, v ∈ nbrs → is_Some (adj !! v)) →
  match Hotel.scan target d nbrs (seen, q) with
  | inl r => target ∈ nbrs
  | inr (seen', q') =>
      (length q' + size (dom adj ∖ seen') ≤ length q + size (dom adj ∖ seen))%nat ∧
      (∀ p, p ∈ q' → p ∈ q ∨ p.1 ∈ nbrs)
  end.
Proof.
  revert seen q. induction nbrs as [|v nbrs IH]; intros seen q Hn; simpl.
  - split; [done|auto].
  - assert (∀ v', v' ∈ nbrs → is_Some (adj !! v')) as Hn'.
    { intros v' Hv'. apply Hn. by apply list_elem_of_further. }
    destruct (decide (v = target)) as [->|Hne]; [apply list_elem_of_here|].
    destruct (decide (v ∈ seen)) as [Hin|Hnin].
    + specialize (IH seen q Hn').
      destruct (Hotel.scan target d nbrs (seen, q)) as [r|[seen' q']].
      * by apply list_elem_of_further.
      * destruct IH as [Hm Hq]. split; [done|].
        intros p Hp. destruct (Hq p Hp); [by left|right]. by apply list_elem_of_further.
    + specialize (IH ({[v]} ∪ seen) (q ++ [(v, d + 1)]) Hn').
      destruct (Hotel.scan target d nbrs ({[v]} ∪ seen, q ++ [(v, d + 1)])) as [r|[seen' q']].
      * by apply list_elem_of_further.
      * destruct IH as [Hm Hq]. split.
        -- rewrite length_app in Hm. simpl in Hm.
           assert (v ∈ dom adj) as HD by (apply elem_of_dom, Hn, list_elem_of_here).
           pose proof (size_difference_insert (dom adj) seen v HD Hnin). lia.
        -- intros p Hp. destruct (Hq p Hp) as [Hp'|Hp'].
           ++ apply elem_of_app in Hp' as [?|Hp']; [by left|right].
              apply list_elem_of_singleton in Hp' as ->. apply list_elem_of_here.
           ++ right. by apply list_elem_of_further.
Qed.

Lemma bfs_loop_total (target : Z) (fuel : nat) (seen : gset Z) (q : list (Z * Z)) :
  (∀ p, p ∈ q → is_Some (adj !! p.1)) →
  (length q + size (dom adj ∖ seen) ≤ fuel)%nat →
  ∃ r, Hotel.bfs_loop fuel adj target seen q = Ok r.
Proof.
  revert seen q. induction fuel as [|fuel IH]; intros seen q Hq Hfuel.
  - destruct q as [|p q]; [by exists Inf|simpl in Hfuel; lia].
  - destruct q as [|[u d] q]; [by exists Inf|]. simpl.
    destruct (Hq (u, d) (list_elem_of_here _ _)) as [nbrs Hn]. simpl in Hn.
    apply subscript_Ok in Hn as Hs. rewrite Hs. simpl.
    pose proof (scan_measure target d nbrs seen q
                  (λ v Hv, neighbours_closed u v nbrs Hn Hv)) as Hscan.
    destruct (Hotel.scan target d nbrs (seen, q)) as [r|[seen' q']]; [by eexists|].
    destruct Hscan as [Hm Hq']. apply IH.
    + intros p Hp. destruct (Hq' p Hp) as [Hp'|Hp'].
      * apply Hq. by apply list_elem_of_further.
      * by apply (neighbours_closed u _ nbrs Hn).
    + simpl in Hfuel. lia.
Qed.

Lemma bfs_loop_sound (start target : Z) (fuel : nat) (seen : gset Z) (q : list (Z * Z))
    (r : Q) :
  (∀ p, p ∈ q → connected g start p.1) →
  Hotel.bfs_loop fuel adj target seen q = Ok (Fin r) →
  connected g start target.
Proof.
  revert seen q. induction fuel as [|fuel IH]; intros seen q Hq Hrun.
  - destruct q as [|[u d] q]; simpl in Hrun; discriminate.
  - destruct q as [|[u d] q]; simpl in Hrun; [discriminate|].
    ok_inv Hrun. apply subscript_Ok in Ha.
    pose proof (scan_measure target d a seen q
                  (λ v Hv, neighbours_closed u v a Ha Hv)) as Hscan.
    assert (connected g start u) as Hu by apply (Hq (u, d)), list_elem_of_here.
    destruct (Hotel.scan target d a (seen, q)) as [r'|[seen' q']].
    + eapply rtc_r; [exact Hu|]. by apply (nb_adjacent g adj Hadj u a).
    + destruct Hscan as [_ Hq']. apply (IH seen' q'); [|done].
      intros p Hp. destruct (Hq' p Hp) as [Hp'|Hp'].
      * apply Hq. by apply list_elem_of_further.
      * eapply rtc_r; [exact Hu|]. by apply (nb_adjacent g adj Hadj u a).
Qed.

Lemma bfs_distance_total (start target : Z) :
  start ∈ vertices g →
  ∃ d, Hotel.bfs_distance (Hotel.fuel_of g) adj start target = Ok d.
Proof.
  intros Hs. unfold Hotel.bfs_distance.
  destruct (decide (start = target)); [by eexists|].
  apply bfs_loop_total.
  - intros p Hp. apply list_elem_of_singleton in Hp as ->. simpl.
    by apply (nb_dom g adj Hadj).
  - simpl. assert (start ∈ dom adj) as HD by by apply elem_of_dom, (nb_dom g adj Hadj).
    assert (dom adj = list_to_set (vertices g)) as Hdom.
    { apply set_eq. intros x. rewrite elem_of_dom, elem_of_list_to_set.
      apply (nb_dom g adj Hadj). }
    assert (S (size (dom adj ∖ {[start]})) = size (dom adj)) as Hsz.
    { pose proof (size_difference_insert (dom adj) ∅ start HD) as Hsz.
      assert (dom adj ∖ ({[start]} ∪ ∅) = dom adj ∖ {[start]}) as Heq1 by set_solver.
      assert (dom adj ∖ ∅ = dom adj) as Heq2 by set_solver.
      rewrite Heq1, Heq2 in Hsz. apply Hsz. set_solver. }
    pose proof (size_list_to_set_le (vertices g)) as Hle. rewrite <- Hdom in Hle.
    unfold Hotel.fuel_of. lia.
Qed.

Lemma bfs_distance_sound (start target : Z) (r : Q) :
  Hotel.bfs_distance (Hotel.fuel_of g) adj start target = Ok (Fin r) →
  connected g start target.
Proof.
  unfold Hotel.bfs_distance. destruct (decide (start = target)) as [->|Hne].
  - intros _. apply rtc_refl.
  - apply bfs_loop_sound. intros p Hp. apply list_elem_of_singleton in Hp as ->. apply rtc_refl.
Qed.

End bfs.

(** ** Greedy k-centres *)

Lemma num_max_l (a b : num) : num_le a (Hotel.num_max a b).
Proof.
  unfold Hotel.num_max. destruct (num_ltb a b) eqn:Hlt; [|apply num_le_refl].
  by apply num_lt_le.
Qed.

Lemma num_max_r (a b : num) : num_le b (Hotel.num_max a b).
Proof.
  unfold Hotel.num_max. destruct (num_ltb a b) eqn:Hlt; [apply num_le_refl|].
  by apply num_ltb_false.
Qed.

Lemma num_max_cases (a b : num) : Hotel.num_max a b = a ∨ Hotel.num_max a b = b.
Proof. unfold Hotel.num_max. destruct (num_ltb a b); auto. Qed.

Lemma add_neighbours_endpoints (e e' : edge) (adj : neighbours) :
  endpoints e = endpoints e' → add_neighbours e adj = add_neighbours e' adj.
Proof. unfold add_neighbours. by intros ->. Qed.

Lemma build_neighbours_skeleton (g g' : graph) :
  skeleton g' = skeleton g → build_neighbours g' = build_neighbours g.
Proof.
  unfold skeleton, build_neighbours. intros [= Hvs Hes]. rewrite Hvs.
  generalize (dict_of id (λ _ : Z, @nil Z) (vertices g)).
  revert Hes. generalize (edges g) (edges g'). clear.
  intros es. induction es as [|e es IH]; intros [|e' es'] Hes adj; try done.
  simpl in *. injection Hes as He Hes.
  rewrite (add_neighbours_endpoints e' e adj He).
  destruct (add_neighbours e adj); simpl; auto.
Qed.

Lemma run_hotel_skeleton (g g' : graph) :
  skeleton g' = skeleton g →
  Hotel.run_hotel_optimization g' = Hotel.run_hotel_optimization g.
Proof.
  intros Hsk. unfold Hotel.run_hotel_optimization, Hotel.fuel_of.
  rewrite (build_neighbours_skeleton g g' Hsk).
  injection Hsk as -> _. done.
Qed.

Lemma first_nearest_in (d : Z → num) (centers : list Z) (c : Z) :
  first_nearest d centers c → c ∈ centers.
Proof. intros (l1 & l2 & -> & _). apply elem_of_app. right. apply list_elem_of_here. Qed.

Lemma num_lt_not_le (a b : num) : num_lt a b → num_le b a → False.
Proof.
  unfold num_lt. intros Hlt Hle. apply num_ltb_false in Hle. congruence.
Qed.

Lemma first_nearest_unique (d : Z → num) (centers : list Z) (c c' : Z) :
  first_nearest d centers c → first_nearest d centers c' → c = c'.
Proof.
  intros (l1 & l2 & -> & H1 & H2) (l1' & l2' & Heq & H1' & H2').
  revert l1' Heq H1 H1'. induction l1 as [|x l1 IH]; intros [|x' l1'] Heq H1 H1'; simpl in *.
  - congruence.
  - injection Heq as <- ->. exfalso.
    apply (num_lt_not_le (d c') (d c)).
    + apply H1', list_elem_of_here.
    + apply H2. apply elem_of_app. right. apply list_elem_of_here.
  - injection Heq as -> <-. exfalso.
    apply (num_lt_not_le (d c) (d c')).
    + apply H1, list_elem_of_here.
    + apply H2'. apply elem_of_app. right. apply list_elem_of_here.
  - injection Heq as <- Heq. apply (IH l1' Heq).
    + intros y Hy. apply H1. by apply list_elem_of_further.
    + intros y Hy. apply H1'. by apply list_elem_of_further.
Qed.

Section hotel.
Context (g : graph) (adj : neighbours) (fuel : nat) (dist : Z → Z → num).
Hypothesis Hdist : ∀ v c, v ∈ vertices g → c ∈ vertices g →
  Hotel.bfs_distance fuel adj v c = Ok (dist v c).

Lemma distances_to_total (v : Z) (centers : list Z) (acc : list num) :
  v ∈ vertices g → (∀ c, c ∈ centers → c ∈ vertices g) →
  for_each (λ c acc, d ← Hotel.bfs_distance fuel adj v c; Ok (acc ++ [d])) centers acc
  = Ok (acc ++ (dist v <$> centers)).
Proof.
  intros Hv. revert acc. induction centers as [|c cs IH]; intros acc Hcs; simpl.
  - by rewrite app_nil_r.
  - rewrite Hdist by (auto using list_elem_of_here). simpl.
    rewrite IH by (intros c' Hc'; apply Hcs; by apply list_elem_of_further).
    by rewrite <- app_assoc.
Qed.

Lemma consider_total (centers : list Z) (v : Z) (acc : Z * num) :
  v ∈ vertices g → (∀ c, c ∈ centers → c ∈ vertices g) →
  ∃ acc', Hotel.consider fuel adj centers v acc = Ok acc' ∧
          (acc' = acc ∨ acc'.1 = v).
Proof.
  intros Hv Hcs. unfold Hotel.consider.
  destruct (decide (v ∈ centers)); [by exists acc; auto|].
  unfold Hotel.distances_to. rewrite (distances_to_total v centers [] Hv Hcs). simpl.
  destruct (dist v <$> centers) as [|d0 ds]; [by exists acc; auto|].
  destruct (num_ltb acc.2 (Hotel.min_list d0 ds)); eexists; split; eauto.
Qed.

Lemma grow_total (centers : list Z) (i : nat) :
  (∀ c, c ∈ centers → c ∈ vertices g) →
  ∃ centers', Hotel.grow fuel adj (vertices g) i centers = Ok centers' ∧
    (∀ c, c ∈ centers' → c ∈ vertices g) ∧ head centers' = head (centers ++ centers').
Proof.
  intros Hcs. unfold Hotel.grow.
  destruct (for_each_total (λ acc : Z * num, acc.1 = -1 ∨ acc.1 ∈ vertices g)
              (Hotel.consider fuel adj centers) (vertices g) (-1, Fin (-1)))
    as ([far d] & Hrun & Hacc).
  - intros v acc Hv Hacc. destruct (consider_total centers v acc Hv Hcs) as (acc' & Hc & Hres).
    exists acc'. split; [done|]. destruct Hres as [->| ->]; auto.
  - by left.
  - rewrite Hrun. simpl in *. destruct (Z.eqb_spec far (-1)) as [->|Hne].
    + exists centers. split; [done|]. split; [done|]. by destruct centers.
    + exists (centers ++ [far]). split; [done|]. split.
      * intros c Hc. apply elem_of_app in Hc as [Hc|Hc]; [auto|].
        apply list_elem_of_singleton in Hc as ->. by destruct Hacc.
      * by destruct centers.
Qed.

Lemma centers_total (rounds : list nat) (centers : list Z) (v0 : Z) :
  (∀ c, c ∈ centers → c ∈ vertices g) → head centers = Some v0 →
  ∃ centers', for_each (Hotel.grow fuel adj (vertices g)) rounds centers = Ok centers' ∧
    (∀ c, c ∈ centers' → c ∈ vertices g) ∧ head centers' = Some v0.
Proof.
  revert centers. induction rounds as [|i rounds IH]; intros centers Hcs Hhd; simpl.
  - by exists centers.
  - destruct (grow_total centers i Hcs) as (centers1 & Hgrow & Hcs1 & Hhd1).
    rewrite Hgrow. simpl. apply IH; [done|].
    rewrite Hhd1. destruct centers; [done|]. done.
Qed.

Lemma nearest_center_from (v : Z) (l1 l2 : list Z) (b : Z) :
  v ∈ vertices g → (∀ c, c ∈ l2 → c ∈ vertices g) →
  first_nearest (dist v) l1 b →
  ∃ c, for_each (λ c best,
                   d ← Hotel.bfs_distance fuel adj v c;
                   match best with
                   | None => Ok (Some (c, d))
                   | Some (b, db) => if num_ltb d db then Ok (Some (c, d)) else Ok best
                   end) l2 (Some (b, dist v b)) = Ok (Some (c, dist v c)) ∧
       first_nearest (dist v) (l1 ++ l2) c.
Proof.
  intros Hv. revert l1 b. induction l2 as [|c' l2 IH]; intros l1 b Hl2 Hb; simpl.
  - exists b. by rewrite app_nil_r.
  - rewrite Hdist by (auto using list_elem_of_here). simpl.
    assert (∀ c, c ∈ l2 → c ∈ vertices g) as Hl2'.
    { intros c Hc. apply Hl2. by apply list_elem_of_further. }
    destruct (num_ltb (dist v c') (dist v b)) eqn:Hlt.
    + destruct (IH (l1 ++ [c']) c' Hl2') as (c & Hrun & Hc).
      * exists l1, []. split; [done|]. split; [|by intros ? ?%elem_of_nil].
        intros x Hx. destruct Hb as (p & s & -> & Hp & Hs).
        apply elem_of_app in Hx as [Hx|Hx].
        -- unfold num_lt. eapply num_lt_le_trans; [exact Hlt|].
           by apply num_lt_le, Hp.
        -- apply elem_of_cons in Hx as [->|Hx]; [done|].
           eapply num_lt_le_trans; [exact Hlt|]. by apply Hs.
      * exists c. by rewrite <- app_assoc in Hc.
    + destruct (IH (l1 ++ [c']) b Hl2') as (c & Hrun & Hc).
      * destruct Hb as (p & s & -> & Hp & Hs). exists p, (s ++ [c']). split.
        -- by rewrite <- app_assoc.
        -- split; [done|]. intros x Hx. apply elem_of_app in Hx as [Hx|Hx]; [auto|].
           apply list_elem_of_singleton in Hx as ->. by apply num_ltb_false.
      * exists c. by rewrite <- app_assoc in Hc.
Qed.

Lemma nearest_center_spec (v c0 : Z) (centers : list Z) :
  v ∈ vertices g → (∀ c, c ∈ c0 :: centers → c ∈ vertices g) →
  ∃ c, Hotel.nearest_center fuel adj v (c0 :: centers) = Ok (Some (c, dist v c)) ∧
       first_nearest (dist v) (c0 :: centers) c.
Proof.
  intros Hv Hcs. unfold Hotel.nearest_center. simpl.
  rewrite Hdist by (auto using list_elem_of_here). simpl.
  apply (nearest_center_from v [c0] centers c0 Hv).
  - intros c Hc. apply Hcs. by apply list_elem_of_further.
  - exists [], []. split; [done|]. split; by intros ? ?%elem_of_nil.
Qed.

Lemma assign_spec (c0 : Z) (centers done_ : list Z) (v : Z) (st : gmap Z Z * num) :
  v ∈ vertices g → (∀ c, c ∈ c0 :: centers → c ∈ vertices g) →
  assigned dist (c0 :: centers) done_ st →
  ∃ st', Hotel.assign fuel adj (c0 :: centers) v st = Ok st' ∧
         assigned dist (c0 :: centers) (done_ ++ [v]) st'.
Proof.
  intros Hv Hcs [Hall Hmax]. unfold Hotel.assign.
  destruct (nearest_center_spec v c0 centers Hv Hcs) as (c & Hrun & Hc).
  rewrite Hrun. simpl.
  assert (c ∈ vertices g) as Hcv by (eapply Hcs, first_nearest_in; exact Hc).
  rewrite (Hdist v c Hv Hcv). simpl.
  eexists. split; [done|]. split; simpl.
  - intros u Hu. destruct (decide (u = v)) as [->|Hne].
    + exists c. rewrite lookup_insert_eq. split; [done|]. split; [done|]. apply num_max_r.
    + apply elem_of_app in Hu as [Hu|Hu]; [|by apply list_elem_of_singleton in Hu].
      destruct (Hall u Hu) as (cu & Hcu & Hfn & Hle). exists cu.
      rewrite lookup_insert_ne by done. split; [done|]. split; [done|].
      eapply num_le_trans; [exact Hle|apply num_max_l].
  - destruct (num_max_cases st.2 (dist v c)) as [->| ->].
    + destruct Hmax as [?|(u & cu & Hu & Hcu & Heq)]; [by left|].
      right. destruct (decide (u = v)) as [->|Hne].
      * exists v, c. rewrite lookup_insert_eq. split; [|split; [done|]].
        -- apply elem_of_app. by left.
        -- destruct (Hall v Hu) as (cv & Hcv' & Hfn & _).
           rewrite Heq. f_equal.
           rewrite Hcu in Hcv'. injection Hcv' as <-.
           eapply first_nearest_unique; [exact Hfn|exact Hc].
      * exists u, cu. rewrite lookup_insert_ne by done.
        split; [apply elem_of_app; by left|done].
    + right. exists v, c. rewrite lookup_insert_eq. split; [|done].
      apply elem_of_app. right. apply list_elem_of_here.
Qed.

Lemma assign_total (c0 : Z) (centers vs : list Z) (done_ : list Z) (st : gmap Z Z * num) :
  (∀ v, v ∈ vs → v ∈ vertices g) → (∀ c, c ∈ c0 :: centers → c ∈ vertices g) →
  assigned dist (c0 :: centers) done_ st →
  ∃ st', for_each (Hotel.assign fuel adj (c0 :: centers)) vs st = Ok st' ∧
         assigned dist (c0 :: centers) (done_ ++ vs) st'.
Proof.
  revert done_ st. induction vs as [|v vs IH]; intros done_ st Hvs Hcs Hst; simpl.
  - exists st. by rewrite app_nil_r.
  - destruct (assign_spec c0 centers done_ v st) as (st1 & Hrun & Hst1);
      [apply Hvs, list_elem_of_here|done..|].
    rewrite Hrun. simpl.
    destruct (IH (done_ ++ [v]) st1) as (st' & Hrun' & Hst'); [|done..|].
    + intros u Hu. apply Hvs. by apply list_elem_of_further.
    + exists st'. by rewrite <- app_assoc in Hst'.
Qed.

End hotel.

Lemma hops_computed (g : graph) (adj : neighbours) (v c : Z) :
  endpoints_in g → build_neighbours g = Ok adj → neighbours_of g adj →
  v ∈ vertices g →
  Hotel.bfs_distance (Hotel.fuel_of g) adj v c = Ok (hops g v c).
Proof.
  intros Hg Hbuild Hadj Hv.
  destruct (bfs_distance_total g adj Hg Hadj v c Hv) as [d Hd].
  unfold hops. by rewrite Hbuild, Hd.
Qed.

Lemma hops_finite_connected (g : graph) (v c : Z) :
  endpoints_in g → v ∈ vertices g → hops g v c ≠ Inf → connected g v c.
Proof.
  intros Hg Hv Hfin.
  destruct (build_neighbours_spec g Hg) as (adj & Hbuild & Hadj).
  pose proof (hops_computed g adj v c Hg Hbuild Hadj Hv) as Hd.
  destruct (hops g v c) as [r|]; [|done].
  by apply (bfs_distance_sound g adj Hg Hadj v c r).
Qed.



(** ** Building adjacency containers *)

Section insert_both.
Context {E V : Type} (mem : E → V → Prop) (ins : E → V → V).
Hypothesis mem_ins : ∀ x y s, mem x (ins y s) ↔ x = y ∨ mem x s.

Lemma insert_both_spec (v1 v2 : Z) (x1 x2 : E) (adj : gmap Z V) (P : Z → E → Prop) :
  is_Some (adj !! v1) → is_Some (adj !! v2) →
  (∀ u l x, adj !! u = Some l → mem x l ↔ P u x) →
  ∃ adj', insert_both ins v1 v2 x1 x2 adj = Ok adj' ∧
    (∀ u, is_Some (adj' !! u) ↔ is_Some (adj !! u)) ∧
    (∀ u l x, adj' !! u = Some l →
       mem x l ↔ (P u x ∨ (u = v1 ∧ x = x1) ∨ (u = v2 ∧ x = x2))).
Proof.
  intros [l1 H1] H2 HP. unfold insert_both.
  apply subscript_Ok in H1 as Hs1. rewrite Hs1. simpl.
  assert (is_Some (<[v1 := ins x1 l1]> adj !! v2)) as [l2 Hl2].
  { rewrite lookup_insert_is_Some. destruct (decide (v1 = v2)); auto. }
  apply subscript_Ok in Hl2 as Hs2. rewrite Hs2. simpl.
  eexists. split; [done|]. split.
  - intros u. rewrite !lookup_insert_is_Some.
    split; [intros [->|[_ [->|[_ ?]]]]; eauto|].
    intros Hu. destruct (decide (v2 = u)); [by left|]. right. split; [done|].
    destruct (decide (v1 = u)); [by left|]. by right.
  - intros u l x Hl.
    destruct (decide (v2 = u)) as [<-|Hne2].
    + rewrite lookup_insert_eq in Hl. injection Hl as <-. rewrite mem_ins.
      destruct (decide (v1 = v2)) as [->|Hne1].
      * rewrite lookup_insert_eq in Hl2. injection Hl2 as <-.
        rewrite mem_ins, (HP v2 l1 x H1). naive_solver.
      * rewrite lookup_insert_ne in Hl2 by done. rewrite (HP v2 l2 x Hl2). naive_solver.
    + rewrite lookup_insert_ne in Hl by done.
      destruct (decide (v1 = u)) as [<-|Hne1].
      * rewrite lookup_insert_eq in Hl. injection Hl as <-.
        rewrite mem_ins, (HP v1 l1 x H1). naive_solver.
      * rewrite lookup_insert_ne in Hl by done. rewrite (HP u l x Hl). naive_solver.
Qed.
End insert_both.

(** ** Greedy colouring *)

Lemma mem_set_insert (x y : Z) (s : gset Z) : x ∈ {[y]} ∪ s ↔ x = y ∨ x ∈ s.
Proof. by rewrite elem_of_union, elem_of_singleton. Qed.

Lemma coloring_add_edge_insert_both (e : edge) (adj : gmap Z (gset Z)) :
  Coloring.add_edge e adj =
  insert_both (λ x s, {[x]} ∪ s) (endpoints e).1 (endpoints e).2
              (endpoints e).2 (endpoints e).1 adj.
Proof. unfold Coloring.add_edge, insert_both. by destruct (endpoints e). Qed.

Lemma coloring_build_from (vs : list Z) (es : list edge) (adj : gmap Z (gset Z))
    (P : Z → Z → Prop) :
  (∀ e, e ∈ es → (endpoints e).1 ∈ vs ∧ (endpoints e).2 ∈ vs) →
  (∀ u, is_Some (adj !! u) ↔ u ∈ vs) →
  (∀ u s v, adj !! u = Some s → v ∈ s ↔ P u v) →
  ∃ adj', for_each Coloring.add_edge es adj = Ok adj' ∧
    (∀ u, is_Some (adj' !! u) ↔ u ∈ vs) ∧
    (∀ u s v, adj' !! u = Some s →
       v ∈ s ↔ (P u v ∨ ∃ e, e ∈ es ∧ (endpoints e = (u, v) ∨ endpoints e = (v, u)))).
Proof.
  revert adj P. induction es as [|e es IH]; intros adj P Hes Hdom HP; simpl.
  - exists adj. split; [done|]. split; [done|].
    intros u l v Hl. rewrite (HP u l v Hl). split; [auto|].
    intros [?|(e & He & _)]; [done|]. by apply elem_of_nil in He.
  - destruct (Hes e (list_elem_of_here _ _)) as [He1 He2].
    rewrite coloring_add_edge_insert_both.
    destruct (insert_both_spec (λ (x : Z) (s : gset Z), x ∈ s) (λ x s, {[x]} ∪ s)
                mem_set_insert
                (endpoints e).1 (endpoints e).2 (endpoints e).2 (endpoints e).1 adj P)
      as (adj1 & Hadd & Hdom1 & HP1); [by apply Hdom..|done|].
    rewrite Hadd. simpl.
    destruct (IH adj1 _ (λ e' He', Hes e' (list_elem_of_further _ _ _ He'))
                (λ u, transitivity (Hdom1 u) (Hdom u)) HP1)
      as (adj' & Hrun & Hdom' & HP').
    exists adj'. split; [done|]. split; [done|].
    intros u l v Hl. rewrite (HP' u l v Hl). destruct (endpoints e) as [a b] eqn:Hab.
    simpl. split.
    + intros [[?|[[-> ->]|[-> ->]]]|(e' & He' & ?)]; [by left| | |].
      * right. exists e. split; [apply list_elem_of_here|by left].
      * right. exists e. split; [apply list_elem_of_here|by right].
      * right. exists e'. split; [by apply list_elem_of_further|done].
    + intros [?|(e' & He' & He'')]; [by left; left|].
      apply elem_of_cons in He' as [->|He'].
      * left. right. rewrite Hab in He''. destruct He'' as [[= -> ->]|[= -> ->]]; auto.
      * right. by exists e'.
Qed.

Lemma coloring_build_adj_spec (g : graph) :
  endpoints_in g → ∃ adj, Coloring.build_adj g = Ok adj ∧ neighbour_sets_of g adj.
Proof.
  intros Hg. unfold Coloring.build_adj.
  destruct (coloring_build_from (vertices g) (edges g)
              (dict_of id (λ _, ∅) (vertices g)) (λ _ _, False) Hg)
    as (adj & Hrun & Hdom & Hadj).
  - intros u. rewrite dict_of_lookup_id. destruct (decide (u ∈ vertices g)); [by split; eauto|].
    split; [by intros [? ?]|done].
  - intros u l v. rewrite dict_of_lookup_id.
    destruct (decide (u ∈ vertices g)); [|done]. intros [= <-].
    split; [by intros ?%elem_of_empty|done].
  - exists adj. split; [done|]. split; [done|].
    intros u l v Hl. rewrite (Hadj u l v Hl). unfold adjacent. naive_solver.
Qed.

Lemma neighbor_colors_from (col : gmap Z Z) (l : list Z) (acc : gset Z) :
  (∀ u, u ∈ l → is_Some (col !! u)) →
  ∃ used,
    for_each (λ u acc, c ← subscript col u;
                       if c =? -1 then Ok acc else Ok ({[c]} ∪ acc)) l acc = Ok used ∧
    ∀ c, c ∈ used ↔ c ∈ acc ∨ ∃ u, u ∈ l ∧ col !! u = Some c ∧ c ≠ -1.
Proof.
  revert acc. induction l as [|u l IH]; intros acc Hl; simpl.
  - exists acc. split; [done|]. intros c. split; [auto|].
    intros [?|(u & Hu & _)]; [done|]. by apply elem_of_nil in Hu.
  - destruct (Hl u (list_elem_of_here _ _)) as [cu Hcu].
    apply subscript_Ok in Hcu as Hs. rewrite Hs. simpl.
    assert (∀ u', u' ∈ l → is_Some (col !! u')) as Hl'.
    { intros u' Hu'. apply Hl. by apply list_elem_of_further. }
    destruct (Z.eqb_spec cu (-1)) as [->|Hne].
    + destruct (IH acc Hl') as (used & Hrun & Hused). exists used. split; [done|].
      intros c. rewrite Hused. split.
      * intros [?|(u' & Hu' & ?)]; [by left|right]. exists u'.
        split; [by apply list_elem_of_further|done].
      * intros [?|(u' & Hu' & Hc & Hc')]; [by left|].
        apply elem_of_cons in Hu' as [->|Hu']; [congruence|]. right. by exists u'.
    + destruct (IH ({[cu]} ∪ acc) Hl') as (used & Hrun & Hused). exists used. split; [done|].
      intros c. rewrite Hused, mem_set_insert. split.
      * intros [[->|?]|(u' & Hu' & ?)]; [right|by left|right].
        -- exists u. split; [apply list_elem_of_here|done].
        -- exists u'. split; [by apply list_elem_of_further|done].
      * intros [?|(u' & Hu' & Hc & Hc')]; [by left; right|].
        apply elem_of_cons in Hu' as [->|Hu']; [left; left; congruence|]. right. by exists u'.
Qed.

Lemma neighbor_colors_spec (col : gmap Z Z) (nbrs : gset Z) :
  (∀ u, u ∈ nbrs → is_Some (col !! u)) →
  ∃ used, Coloring.neighbor_colors col nbrs = Ok used ∧
    ∀ c, c ∈ used ↔ ∃ u, u ∈ nbrs ∧ col !! u = Some c ∧ c ≠ -1.
Proof.
  intros Hn. unfold Coloring.neighbor_colors.
  destruct (neighbor_colors_from col (elements nbrs) ∅) as (used & Hrun & Hused).
  - intros u Hu. apply Hn. by apply elem_of_elements.
  - exists used. split; [done|]. intros c. rewrite Hused. split.
    + intros [?%elem_of_empty|(u & Hu & ?)]; [done|]. exists u.
      split; [by apply elem_of_elements|done].
    + intros (u & Hu & ?). right. exists u. split; [by apply elem_of_elements|done].
Qed.

Lemma first_free_spec (used : gset Z) (fuel : nat) (color : Z) :
  (size (filter (λ x, (color ≤ x)%Z) used) ≤ fuel)%nat →
  ∃ c, Coloring.first_free fuel used color = Ok c ∧
       color ≤ c ∧ c ∉ used ∧ ∀ j, color ≤ j < c → j ∈ used.
Proof.
  revert color. induction fuel as [|fuel IH]; intros color Hfuel; simpl.
  - destruct (decide (color ∈ used)) as [Hin|Hnin].
    + exfalso.
      assert (size (filter (λ x, color ≤ x) used) = 0%nat) as Hempty by lia.
      apply size_empty_inv in Hempty.
      apply (not_elem_of_empty (C := gset Z) color), Hempty, elem_of_filter.
      split; [lia|done].
    + exists color. split; [done|]. split; [lia|]. split; [done|]. intros j Hj. lia.
  - destruct (decide (color ∈ used)) as [Hin|Hnin].
    + destruct (IH (color + 1)) as (c & Hrun & Hle & Hc & Hall).
      * assert (filter (λ x, color + 1 ≤ x) used ⊂ filter (λ x, color ≤ x) used) as Hsub.
        { split.
          - intros x. rewrite !elem_of_filter. intros [? ?]. split; [lia|done].
          - intros Hsub. specialize (Hsub color). rewrite !elem_of_filter in Hsub.
            destruct Hsub; [split; [lia|done]|lia]. }
        apply subset_size in Hsub. lia.
      * exists c. split; [done|]. split; [lia|]. split; [done|].
        intros j Hj. destruct (decide (j = color)) as [->|?]; [done|]. apply Hall. lia.
    + exists color. split; [done|]. split; [lia|]. split; [done|]. intros j Hj. lia.
Qed.

Lemma adjacent_vertices (g : graph) (a b : Z) :
  endpoints_in g → adjacent g a b → b ∈ vertices g.
Proof. intros Hg Hab. by destruct (adjacent_in_vertices g a b Hg Hab). Qed.

(** The colour [paint] gives to [v]: the least one carried by no painted
    neighbour. *)
Lemma paint_color (g : graph) (adj : gmap Z (gset Z)) (col : gmap Z Z) (v : Z) :
  endpoints_in g → neighbour_sets_of g adj → proper_inv g col → v ∈ vertices g →
  ∃ c, Coloring.paint adj v col = Ok (<[v := c]> col) ∧ 0 ≤ c ∧
    (∀ w cw, adjacent g v w → col !! w = Some cw → cw ≠ -1 → c ≠ cw) ∧
    (∀ j, 0 ≤ j < c → ∃ w, adjacent g v w ∧ col !! w = Some j).
Proof.
  intros Hg Hadj Hcol Hv. unfold Coloring.paint.
  destruct (proj2 (ns_dom g adj Hadj v) Hv) as [nbrs Hn].
  apply subscript_Ok in Hn as Hs. rewrite Hs. simpl.
  destruct (neighbor_colors_spec col nbrs) as (used & Hrun & Hused).
  { intros u Hu. apply (pi_dom g col Hcol).
    apply (adjacent_vertices g v u Hg). by apply (ns_adjacent g adj Hadj v nbrs). }
  rewrite Hrun. simpl.
  destruct (first_free_spec used (size used) 0) as (c & Hfree & Hle & Hc & Hall).
  { apply subseteq_size. intros x. rewrite elem_of_filter. tauto. }
  rewrite Hfree. simpl. exists c. split; [done|]. split; [done|]. split.
  - intros w cw Hw Hcw Hne ->. apply Hc, Hused. exists w.
    split; [by apply (ns_adjacent g adj Hadj v nbrs)|done].
  - intros j Hj. destruct (proj1 (Hused j) (Hall j Hj)) as (w & Hw & Hcw & _).
    exists w. split; [by apply (ns_adjacent g adj Hadj v nbrs)|done].
Qed.

Lemma paint_proper (g : graph) (col : gmap Z Z) (v c : Z) :
  proper_inv g col → v ∈ vertices g → 0 ≤ c →
  (∀ w cw, adjacent g v w → col !! w = Some cw → cw ≠ -1 → c ≠ cw) →
  proper_inv g (<[v := c]> col).
Proof.
  intros [Hdom Hrange Hproper] Hv Hc Hfresh. split.
  - intros u. rewrite lookup_insert_is_Some. rewrite Hdom.
    destruct (decide (v = u)) as [->|?]; naive_solver.
  - intros u cu. destruct (decide (v = u)) as [->|Hne].
    + rewrite lookup_insert_eq. intros [= <-]. by right.
    + rewrite lookup_insert_ne by done. apply Hrange.
  - intros u w cu cw Huw Hne.
    destruct (decide (v = u)) as [Hu|Hu], (decide (v = w)) as [Hw|Hw]; [congruence|..].
    + subst u. rewrite lookup_insert_eq, lookup_insert_ne by done.
      intros [= <-] Hcw _ Hcw0. apply (Hfresh w cw Huw Hcw). lia.
    + subst w. rewrite lookup_insert_ne, lookup_insert_eq by done.
      intros Hcu [= <-] Hcu0 _ Heq. apply adjacent_sym in Huw.
      apply (Hfresh u cu Huw Hcu); [lia|done].
    + rewrite !lookup_insert_ne by done. by apply Hproper.
Qed.

Lemma paint_saturated (g : graph) (done_ : list Z) (col : gmap Z Z) (v c : Z) :
  proper_inv g col → saturated_inv g done_ col → 0 ≤ c →
  col !! v = Some (-1) ∨ ¬ adjacent g v v →
  is_Some (col !! v) →
  (∀ w cw, adjacent g v w → col !! w = Some cw → cw ≠ -1 → c ≠ cw) →
  (∀ j, 0 ≤ j < c → ∃ w, adjacent g v w ∧ col !! w = Some j) →
  saturated_inv g (done_ ++ [v]) (<[v := c]> col).
Proof.
  intros [Hdom Hrange Hproper] [Hdone Htodo Hsat] Hc Hside [k Hk] Hfresh Hleast.
  destruct (decide (k = -1)) as [->|Hk1].
  - (* [v] is painted for the first time *)
    split.
    + intros u Hu. destruct (decide (v = u)) as [->|Hne].
      * exists c. by rewrite lookup_insert_eq.
      * rewrite lookup_insert_ne by done. apply Hdone.
        apply elem_of_app in Hu as [?|Hu]; [done|].
        apply list_elem_of_singleton in Hu. congruence.
    + intros u cu. destruct (decide (v = u)) as [->|Hne].
      * intros _ _. apply elem_of_app. right. apply list_elem_of_here.
      * rewrite lookup_insert_ne by done. intros Hcu Hcu0.
        apply elem_of_app. left. by apply (Htodo u cu).
    + intros u cu j. destruct (decide (v = u)) as [->|Hne].
      * rewrite lookup_insert_eq. intros [= <-] Hj.
        destruct (Hleast j Hj) as (w & Hw & Hcw). exists w. split; [done|].
        rewrite lookup_insert_ne; [done|]. intros ->. rewrite Hk in Hcw. injection Hcw as <-. lia.
      * rewrite lookup_insert_ne by done. intros Hcu Hj.
        destruct (Hsat u cu j Hcu Hj) as (w & Hw & Hcw). exists w. split; [done|].
        rewrite lookup_insert_ne; [done|]. intros ->. rewrite Hk in Hcw. injection Hcw as <-. lia.
  - (* [v] was painted before and has no loop: its colour does not change *)
    destruct Hside as [Hside|Hloop]; [congruence|].
    assert (0 ≤ k) as Hk0 by (destruct (Hrange v k Hk); [done|lia]).
    assert (c = k) as ->.
    { destruct (Z.lt_trichotomy c k) as [Hlt|[?|Hgt]]; [|done|].
      - exfalso. destruct (Hsat v k c Hk) as (w & Hw & Hcw); [lia|].
        apply (Hfresh w c Hw Hcw); [lia|done].
      - exfalso. destruct (Hleast k) as (w & Hw & Hcw); [lia|].
        assert (v ≠ w) as Hne by (intros ->; by apply Hloop).
        by apply (Hproper v w k k Hw Hne Hk Hcw). }
    rewrite insert_id by done.
    assert (v ∈ done_) as Hvd by by apply (Htodo v k).
    split.
    + intros u Hu. apply Hdone. apply elem_of_app in Hu as [?|Hu]; [done|].
      by apply list_elem_of_singleton in Hu as ->.
    + intros u cu Hcu Hcu0. apply elem_of_app. left. by apply (Htodo u cu).
    + done.
Qed.

Lemma paint_all (g : graph) (adj : gmap Z (gset Z)) (todo done_ : list Z) (col : gmap Z Z) :
  endpoints_in g → neighbour_sets_of g adj →
  (∀ v, v ∈ todo → v ∈ vertices g) →
  proper_inv g col →
  ∃ col', for_each (Coloring.paint adj) todo col = Ok col' ∧ proper_inv g col' ∧
    (NoDup (done_ ++ todo) ∨ loop_free g →
     saturated_inv g done_ col → saturated_inv g (done_ ++ todo) col').
Proof.
  intros Hg Hadj. revert done_ col. induction todo as [|v todo IH]; intros done_ col Htodo Hcol.
  - exists col. split; [done|]. split; [done|]. by rewrite app_nil_r.
  - assert (v ∈ vertices g) as Hv by apply Htodo, list_elem_of_here.
    destruct (paint_color g adj col v Hg Hadj Hcol Hv) as (c & Hpaint & Hc & Hfresh & Hleast).
    simpl. rewrite Hpaint. simpl.
    pose proof (paint_proper g col v c Hcol Hv Hc Hfresh) as Hcol1.
    destruct (IH (done_ ++ [v]) (<[v := c]> col)) as (col' & Hrun & Hcol' & Hsat'); [|done|].
    { intros u Hu. apply Htodo. by apply list_elem_of_further. }
    exists col'. split; [done|]. split; [done|].
    intros Hside Hsat. rewrite (cons_middle v done_ todo), app_assoc in *.
    apply Hsat'; [done|].
    apply (paint_saturated g done_ col v c Hcol Hsat Hc); [|by apply (pi_dom g col Hcol)|done..].
    destruct Hside as [Hnd|Hloop].
    + left. destruct (proj2 (pi_dom g col Hcol v) Hv) as [k Hk].
      destruct (pi_range g col Hcol v k Hk) as [->|Hk0]; [done|].
      exfalso. pose proof (si_todo g done_ col Hsat v k Hk Hk0) as Hvd.
      rewrite <- app_assoc in Hnd. apply NoDup_app in Hnd as (_ & Hnd & _).
      apply (Hnd v Hvd). apply list_elem_of_here.
    + right. intros (e & He & Hvv). apply (Hloop e He).
      destruct Hvv as [-> | ->]; done.
Qed.

Lemma max_list_spec (x : Z) (l : list Z) :
  Coloring.max_list (x :: l) ∈ x :: l ∧ ∀ y, y ∈ x :: l → y ≤ Coloring.max_list (x :: l).
Proof.
  unfold Coloring.max_list. revert x. induction l as [|z l IH]; intros x; simpl.
  - split; [apply list_elem_of_here|]. intros y Hy. apply list_elem_of_singleton in Hy. lia.
  - destruct (IH (Z.max x z)) as [Hin Hmax]. split.
    + apply elem_of_cons in Hin as [Heq|Hin].
      * rewrite Heq. destruct (Z.max_spec x z) as [[_ ->]|[_ ->]].
        -- apply list_elem_of_further, list_elem_of_here.
        -- apply list_elem_of_here.
      * by do 2 apply list_elem_of_further.
    + intros y Hy. apply elem_of_cons in Hy as [->|Hy].
      * specialize (Hmax (Z.max x z) (list_elem_of_here _ _)). lia.
      * apply elem_of_cons in Hy as [->|Hy].
        -- specialize (Hmax (Z.max x z) (list_elem_of_here _ _)). lia.
        -- apply Hmax. by apply list_elem_of_further.
Qed.

Lemma max_list_nonempty (l : list Z) :
  l ≠ [] → Coloring.max_list l ∈ l ∧ ∀ y, y ∈ l → y ≤ Coloring.max_list l.
Proof. destruct l as [|x l]; [done|]. intros _. apply max_list_spec. Qed.

Lemma map_values_elem (col : gmap Z Z) (c : Z) :
  c ∈ (map_to_list col).*2 ↔ ∃ v, col !! v = Some c.
Proof.
  rewrite list_elem_of_fmap. split.
  - intros ([v c'] & -> & Hin). exists v. by apply elem_of_map_to_list.
  - intros (v & Hv). exists (v, c). split; [done|]. by apply elem_of_map_to_list.
Qed.

Lemma initial_proper (g : graph) : proper_inv g (dict_of id (λ _, -1) (vertices g)).
Proof.
  split.
  - intros v. rewrite dict_of_lookup_id. destruct (decide (v ∈ vertices g)); [by split; eauto|].
    split; [by intros [? ?]|done].
  - intros v c. rewrite dict_of_lookup_id. destruct (decide (v ∈ vertices g)); [|done].
    intros [= <-]. by left.
  - intros u v cu cv _ _. rewrite dict_of_lookup_id.
    destruct (decide (u ∈ vertices g)); [|done]. intros [= <-]. lia.
Qed.

Lemma initial_saturated (g : graph) : saturated_inv g [] (dict_of id (λ _, -1) (vertices g)).
Proof.
  split.
  - by intros v ?%elem_of_nil.
  - intros v c. rewrite dict_of_lookup_id. destruct (decide (v ∈ vertices g)); [|done].
    intros [= <-]. lia.
  - intros v c j. rewrite dict_of_lookup_id. destruct (decide (v ∈ vertices g)); [|done].
    intros [= <-]. lia.
Qed.


Lemma path4_endpoints_in : endpoints_in path4.
Proof.
  intros e He. unfold path4 in *. simpl in *.
  repeat (apply elem_of_cons in He; destruct He as [->|He];
          [simpl; split; repeat (apply list_elem_of_here || apply list_elem_of_further)|]).
  by apply elem_of_nil in He.
Qed.



(** ** Depth-first search *)

Lemma closed_set_connected (g : graph) (V : gset Z) (x y : Z) :
  closed_set g V → x ∈ V → connected g x y → y ∈ V.
Proof.
  intros Hclosed Hx Hxy. induction Hxy as [|x y z Hxy Hyz IH]; [done|].
  apply IH. by apply (Hclosed x y).
Qed.

Section dfs.
Context (g : graph) (adj : neighbours).
Hypothesis Hg : endpoints_in g.
Hypothesis Hadj : neighbours_of g adj.

Lemma dom_adj_vertices (v : Z) : v ∈ dom adj ↔ v ∈ vertices g.
Proof. rewrite elem_of_dom. apply (nb_dom g adj Hadj). Qed.

Lemma size_unvisited_mono (V V' : gset Z) :
  V ⊆ V' → (size (dom adj ∖ V') ≤ size (dom adj ∖ V))%nat.
Proof. intros Hsub. apply subseteq_size. set_solver. Qed.

Lemma dfs_children (f : nat) (root : Z) (nbrs : list Z) (V : gset Z) (comp : list Z) :
  dfs_ok g adj f →
  (∀ u, u ∈ nbrs → adjacent g root u) →
  (size (dom adj ∖ V) ≤ f)%nat →
  ∃ new,
    for_each (λ u st, if decide (u ∈ st.1) then Ok st else Connectivity.dfs f adj u st)
             nbrs (V, comp) = Ok (V ∪ list_to_set new, comp ++ new) ∧
    dfs_new g root V new ∧ ∀ u, u ∈ nbrs → u ∈ V ∪ list_to_set new.
Proof.
  intros Hf. revert V comp. induction nbrs as [|u nbrs IH]; intros V comp Hn Hsize.
  - exists []. simpl. rewrite app_nil_r, union_empty_r_L. split; [done|]. split.
    + split; [apply NoDup_nil_2|]. split; [by intros x ?%elem_of_nil|].
      by intros x y ?%elem_of_nil.
    + by intros u ?%elem_of_nil.
  - assert (∀ u', u' ∈ nbrs → adjacent g root u') as Hn'.
    { intros u' Hu'. apply Hn. by apply list_elem_of_further. }
    assert (adjacent g root u) as Hru by apply Hn, list_elem_of_here.
    simpl. destruct (decide (u ∈ V)) as [HuV|HuV].
    + destruct (IH V comp Hn' Hsize) as (new & Hrun & Hnew & Hall).
      exists new. split; [done|]. split; [done|].
      intros u' Hu'. apply elem_of_cons in Hu' as [->|Hu']; [set_solver|auto].
    + destruct (Hf u V comp) as (new1 & Hdfs & Hu1 & Hnd1 & Hprop1 & Hfin1);
        [by apply (adjacent_vertices g root u)|done..|].
      rewrite Hdfs. simpl.
      destruct (IH (V ∪ list_to_set new1) (comp ++ new1) Hn') as (new2 & Hrun & Hnew2 & Hall).
      { etrans; [apply size_unvisited_mono|exact Hsize]. set_solver. }
      destruct Hnew2 as (Hnd2 & Hprop2 & Hfin2).
      exists (new1 ++ new2).
      rewrite list_to_set_app_L, (assoc_L (∪)), (assoc (++)). split; [done|]. split.
      * split.
        { apply NoDup_app. split; [done|]. split; [|done].
          intros x Hx1 Hx2. destruct (Hprop2 x Hx2) as [Hx _]. apply Hx.
          apply elem_of_union. right. by apply elem_of_list_to_set. }
        split.
        { intros x Hx. apply elem_of_app in Hx as [Hx|Hx].
          - destruct (Hprop1 x Hx) as (? & ? & Hux). split; [done|]. split; [done|].
            eapply rtc_l; [exact Hru|exact Hux].
          - destruct (Hprop2 x Hx) as (HxV & ? & ?). split; [|done].
            intros HxV'. apply HxV. apply elem_of_union. by left. }
        intros x y Hx Hxy. apply elem_of_app in Hx as [Hx|Hx].
        -- pose proof (Hfin1 x y Hx Hxy). set_solver.
        -- pose proof (Hfin2 x y Hx Hxy). set_solver.
      * intros u' Hu'. apply elem_of_cons in Hu' as [->|Hu'].
        -- set_solver.
        -- specialize (Hall u' Hu'). set_solver.
Qed.

Lemma dfs_spec (fuel : nat) : dfs_ok g adj fuel.
Proof.
  induction fuel as [|f IH]; intros v V comp Hv HvV Hsize.
  - exfalso. assert (size (dom adj ∖ V) = 0%nat) as Hempty by lia.
    apply size_empty_inv in Hempty.
    apply (not_elem_of_empty (C := gset Z) v), Hempty, elem_of_difference.
    split; [by apply dom_adj_vertices|done].
  - simpl. destruct (proj2 (nb_dom g adj Hadj v) Hv) as [nbrs Hn].
    apply subscript_Ok in Hn as Hs. rewrite Hs. simpl.
    destruct (dfs_children f v nbrs ({[v]} ∪ V) (comp ++ [v]) IH) as (new & Hrun & Hnew & Hall).
    { intros u Hu. by apply (nb_adjacent g adj Hadj v nbrs u Hn). }
    { assert (v ∈ dom adj) as HD by by apply dom_adj_vertices.
      pose proof (size_difference_insert (dom adj) V v HD HvV). lia. }
    destruct Hnew as (Hnd & Hprop & Hfin).
    exists (v :: new). split; [|split; [apply list_elem_of_here|]].
    + rewrite Hrun. f_equal. f_equal.
      * rewrite list_to_set_cons. set_solver.
      * by rewrite <- app_assoc.
    + assert (({[v]} ∪ V) ∪ list_to_set new = V ∪ list_to_set (v :: new) :> gset Z) as Heq.
      { rewrite list_to_set_cons. set_solver. }
      split; [|split].
      * apply NoDup_cons. split; [|done]. intros Hin. destruct (Hprop v Hin) as [Hnot _].
        apply Hnot. set_solver.
      * intros x Hx. apply elem_of_cons in Hx as [->|Hx].
        -- split; [done|]. split; [done|]. apply rtc_refl.
        -- destruct (Hprop x Hx) as (HxV & ? & ?). split; [|done].
           intros HxV'. apply HxV. set_solver.
      * intros x y Hx Hxy. rewrite <- Heq. apply elem_of_cons in Hx as [->|Hx].
        -- apply Hall. by apply (nb_adjacent g adj Hadj v nbrs y Hn).
        -- by apply (Hfin x y).
Qed.

Lemma visit_spec (done_ : list Z) (v : Z) (st : gset Z * list (list Z)) :
  v ∈ vertices g →
  components_inv g done_ st →
  ∃ st', Connectivity.visit (Connectivity.fuel_of g) adj v st = Ok st' ∧
         components_inv g (done_ ++ [v]) st'.
Proof.
  intros Hv Hinv. unfold Connectivity.visit.
  destruct st as [V comps]. destruct Hinv as [Hclosed Hseen Hnd Hin Hdone Hsorted Hclass].
  simpl in *.
  destruct (decide (v ∈ V)) as [HvV|HvV].
  - exists (V, comps). split; [done|]. split; try done. simpl.
    intros u Hu. apply elem_of_app in Hu as [?|Hu]; [auto|].
    by apply list_elem_of_singleton in Hu as ->.
  - destruct (dfs_spec (Connectivity.fuel_of g) v V [] Hv HvV)
      as (new & Hdfs & Hvnew & Hndnew & Hprop & Hfin).
    { etrans; [apply subseteq_size, subseteq_difference_l; reflexivity|].
      assert (dom adj = list_to_set (vertices g)) as ->.
      { apply set_eq. intros x. rewrite dom_adj_vertices, elem_of_list_to_set. done. }
      apply size_list_to_set_le. }
    rewrite Hdfs. simpl.
    pose proof (merge_sort_Permutation Z.le new) as Hperm.
    assert (∀ x, x ∈ merge_sort Z.le new ↔ x ∈ new) as Hmem.
    { intros x. by rewrite Hperm. }
    eexists. split; [done|]. split; simpl.
    + intros x y Hx Hxy. apply elem_of_union in Hx as [Hx|Hx].
      * apply elem_of_union. left. by apply (Hclosed x y).
      * apply (Hfin x y); [|done]. by apply elem_of_list_to_set in Hx.
    + intros x. rewrite concat_app, elem_of_app, elem_of_union, elem_of_list_to_set, Hseen.
      simpl. rewrite app_nil_r, Hmem. done.
    + rewrite concat_app. simpl. rewrite app_nil_r. apply NoDup_app. split; [done|]. split.
      * intros x Hx Hx'. apply Hmem in Hx'. destruct (Hprop x Hx') as [HxV _].
        apply HxV. by apply Hseen.
      * by rewrite Hperm.
    + intros x Hx. apply elem_of_union in Hx as [Hx|Hx]; [auto|].
      apply elem_of_list_to_set in Hx. by destruct (Hprop x Hx) as (_ & ? & _).
    + intros u Hu. apply elem_of_union. apply elem_of_app in Hu as [Hu|Hu]; [left; auto|].
      apply list_elem_of_singleton in Hu as ->. right. by apply elem_of_list_to_set.
    + intros c Hc. apply elem_of_app in Hc as [Hc|Hc]; [auto|].
      apply list_elem_of_singleton in Hc as ->. split.
      * intros Hnil. apply (proj2 (Hmem v)) in Hvnew. rewrite Hnil in Hvnew.
        by apply elem_of_nil in Hvnew.
      * apply StronglySorted_merge_sort; apply _.
    + intros c x y Hc Hx. apply elem_of_app in Hc as [Hc|Hc]; [by apply Hclass|].
      apply list_elem_of_singleton in Hc as ->. rewrite Hmem in Hx |- *.
      destruct (Hprop x Hx) as (HxV & _ & Hvx). split.
      * intros Hy. destruct (Hprop y Hy) as (_ & _ & Hvy).
        eapply connected_trans; [apply connected_sym; exact Hvx|exact Hvy].
      * intros Hxy.
        assert (closed_set g (V ∪ list_to_set new)) as Hclosed'.
        { intros a b Ha Hab. apply elem_of_union in Ha as [Ha|Ha].
          - apply elem_of_union. left. by apply (Hclosed a b).
          - apply (Hfin a b); [|done]. by apply elem_of_list_to_set in Ha. }
        assert (y ∈ V ∪ list_to_set new) as Hy.
        { apply (closed_set_connected g _ x y Hclosed'); [|done].
          apply elem_of_union. right. by apply elem_of_list_to_set. }
        apply elem_of_union in Hy as [Hy|Hy]; [|by apply elem_of_list_to_set in Hy].
        exfalso. apply HxV.
        apply (closed_set_connected g V y x Hclosed Hy). by apply connected_sym.
Qed.

Lemma visit_all (todo done_ : list Z) (st : gset Z * list (list Z)) :
  (∀ v, v ∈ todo → v ∈ vertices g) →
  components_inv g done_ st →
  ∃ st', for_each (Connectivity.visit (Connectivity.fuel_of g) adj) todo st = Ok st' ∧
         components_inv g (done_ ++ todo) st'.
Proof.
  revert done_ st. induction todo as [|v todo IH]; intros done_ st Htodo Hinv; simpl.
  - exists st. by rewrite app_nil_r.
  - destruct (visit_spec done_ v st) as (st1 & Hvisit & Hinv1);
      [apply Htodo, list_elem_of_here|done|].
    rewrite Hvisit. simpl.
    destruct (IH (done_ ++ [v]) st1) as (st' & Hrun & Hinv'); [|done|].
    + intros u Hu. apply Htodo. by apply list_elem_of_further.
    + exists st'. by rewrite <- app_assoc in Hinv'.
Qed.

End dfs.

Lemma foldl_max_spec (x : nat) (l : list nat) :
  foldl Nat.max x l ∈ x :: l ∧ ∀ y, y ∈ x :: l → (y ≤ foldl Nat.max x l)%nat.
Proof.
  revert x. induction l as [|z l IH]; intros x; simpl.
  - split; [apply list_elem_of_here|]. intros y Hy. apply list_elem_of_singleton in Hy. lia.
  - destruct (IH (Nat.max x z)) as [Hin Hmax]. split.
    + apply elem_of_cons in Hin as [Heq|Hin].
      * rewrite Heq. destruct (Nat.max_spec x z) as [[_ ->]|[_ ->]].
        -- apply list_elem_of_further, list_elem_of_here.
        -- apply list_elem_of_here.
      * by do 2 apply list_elem_of_further.
    + intros y Hy. apply elem_of_cons in Hy as [->|Hy].
      * specialize (Hmax (Nat.max x z) (list_elem_of_here _ _)). lia.
      * apply elem_of_cons in Hy as [->|Hy].
        -- specialize (Hmax (Nat.max x z) (list_elem_of_here _ _)). lia.
        -- apply Hmax. by apply list_elem_of_further.
Qed.

Lemma largest_spec (components : list (list Z)) :
  components ≠ [] →
  (∃ c, c ∈ components ∧ length c = Connectivity.largest components) ∧
  ∀ c, c ∈ components → (length c ≤ Connectivity.largest components)%nat.
Proof.
  destruct components as [|c0 cs]; [done|]. intros _. unfold Connectivity.largest.
  destruct (foldl_max_spec (length c0) (length <$> cs)) as [Hin Hmax]. split.
  - change (length c0 :: (length <$> cs)) with (length <$> (c0 :: cs)) in Hin.
    apply list_elem_of_fmap in Hin as (c & Hc & Hin). by exists c.
  - intros c Hc. apply Hmax.
    change (length c0 :: (length <$> cs)) with (length <$> (c0 :: cs)).
    apply list_elem_of_fmap. by exists c.
Qed.



(** ** Union-find *)

Lemma root_of_fun (p : gmap Z Z) (x r r' : Z) :
  root_of p x r → root_of p x r' → r = r'.
Proof.
  intros Hr. revert r'. induction Hr as [x Hx|x y r Hx Hne Hr IH]; intros r' Hr'.
  - inversion Hr' as [? Hx'|? y' ? Hx' Hne' Hy']; subst; [done|congruence].
  - inversion Hr' as [? Hx'|? y' ? Hx' Hne' Hy']; subst; [congruence|].
    apply IH. congruence.
Qed.

Lemma root_of_root (p : gmap Z Z) (x r : Z) : root_of p x r → p !! r = Some r.
Proof. induction 1; auto. Qed.

Lemma root_of_self (p : gmap Z Z) (x : Z) : root_of p x x ↔ p !! x = Some x.
Proof.
  split; [apply root_of_root|apply root_here].
Qed.

Lemma root_of_dom (p : gmap Z Z) (x r : Z) : root_of p x r → is_Some (p !! x).
Proof. destruct 1; by eexists. Qed.

Section uf.
Context (vs : list Z) (K : Z) (p rk : gmap Z Z).
Hypothesis Hinv : uf_inv vs K p rk.

Lemma uf_rank_of (x : Z) : x ∈ vs → ∃ k, rk !! x = Some k ∧ 0 ≤ k ≤ K.
Proof.
  intros Hx. destruct (proj2 (uf_dom_rank vs K p rk Hinv x) Hx) as [k Hk].
  exists k. split; [done|]. by apply (uf_rank_bound vs K p rk Hinv x).
Qed.

Lemma root_of_in (x r : Z) : x ∈ vs → root_of p x r → r ∈ vs.
Proof.
  intros Hx Hr. induction Hr as [x Hp|x y r Hp Hne Hr IH]; [done|].
  apply IH. by apply (uf_closed vs K p rk Hinv x y).
Qed.

Lemma root_of_rank (x r kx kr : Z) :
  root_of p x r → rk !! x = Some kx → rk !! r = Some kr →
  kx ≤ kr ∧ (x ≠ r → kx < kr).
Proof.
  intros Hr. revert kx. induction Hr as [x Hp|x y r Hp Hne Hr IH]; intros kx Hkx Hkr.
  - split; [|done]. assert (kx = kr) by congruence. lia.
  - assert (y ∈ vs) as Hy by by apply (uf_closed vs K p rk Hinv x y).
    destruct (uf_rank_of y Hy) as (ky & Hky & _).
    pose proof (uf_rank_step vs K p rk Hinv x y kx ky Hp Hne Hkx Hky).
    destruct (IH ky Hky Hkr). split; [lia|]. intros _. lia.
Qed.

Lemma root_of_total_aux (n : nat) (x kx : Z) :
  x ∈ vs → rk !! x = Some kx → (Z.to_nat (K - kx) ≤ n)%nat → ∃ r, root_of p x r.
Proof.
  revert x kx. induction n as [|n IH]; intros x kx Hx Hkx Hn.
  - destruct (proj2 (uf_dom_parent vs K p rk Hinv x) Hx) as [y Hy].
    destruct (decide (y = x)) as [->|Hne]; [exists x; by apply root_here|].
    exfalso. assert (y ∈ vs) as Hyv by by apply (uf_closed vs K p rk Hinv x y).
    destruct (uf_rank_of y Hyv) as (ky & Hky & Hb).
    pose proof (uf_rank_step vs K p rk Hinv x y kx ky Hy Hne Hkx Hky). lia.
  - destruct (proj2 (uf_dom_parent vs K p rk Hinv x) Hx) as [y Hy].
    destruct (decide (y = x)) as [->|Hne]; [exists x; by apply root_here|].
    assert (y ∈ vs) as Hyv by by apply (uf_closed vs K p rk Hinv x y).
    destruct (uf_rank_of y Hyv) as (ky & Hky & Hb).
    pose proof (uf_rank_step vs K p rk Hinv x y kx ky Hy Hne Hkx Hky).
    destruct (IH y ky Hyv Hky) as [r Hr]; [lia|].
    exists r. by apply (root_step p x y r).
Qed.

Lemma root_of_total (x : Z) : x ∈ vs → ∃ r, root_of p x r.
Proof.
  intros Hx. destruct (uf_rank_of x Hx) as (kx & Hkx & _).
  by apply (root_of_total_aux (Z.to_nat (K - kx)) x kx).
Qed.

(** Path compression: pointing [x] at its root changes no representative. *)
Lemma compress_root_of (x r y ry : Z) :
  root_of p x r → root_of p y ry → root_of (<[x := r]> p) y ry.
Proof.
  intros Hx Hy. induction Hy as [y Hp|y z ry Hp Hne Hz IH].
  - apply root_here. destruct (decide (x = y)) as [->|Hxy].
    + rewrite lookup_insert_eq. f_equal. apply (root_of_fun p y); [done|by apply root_here].
    + by rewrite lookup_insert_ne.
  - destruct (decide (x = y)) as [->|Hxy].
    + assert (r = ry) as -> by (apply (root_of_fun p y); [done|by apply (root_step p y z)]).
      pose proof (root_of_root p z ry Hz) as Hroot.
      assert (ry ≠ y) as Hry by congruence.
      apply (root_step _ y ry ry); [by rewrite lookup_insert_eq|done|].
      apply root_here. by rewrite lookup_insert_ne.
    + apply (root_step _ y z ry); [by rewrite lookup_insert_ne|done|done].
Qed.

Lemma compress_inv (x r : Z) :
  x ∈ vs → root_of p x r → uf_inv vs K (<[x := r]> p) rk.
Proof.
  intros Hx Hr. destruct Hinv as [Hdp Hdr Hcl Hb Hstep]. split; try done.
  - intros y. rewrite lookup_insert_is_Some, Hdp.
    destruct (decide (x = y)) as [->|?]; naive_solver.
  - intros y z. destruct (decide (x = y)) as [->|Hne].
    + rewrite lookup_insert_eq. intros [= <-]. by apply (root_of_in y).
    + rewrite lookup_insert_ne by done. apply Hcl.
  - intros y z ky kz. destruct (decide (x = y)) as [->|Hne].
    + rewrite lookup_insert_eq. intros [= <-] Hne Hky Hkz.
      destruct (root_of_rank y r ky kz Hr Hky Hkz) as [_ Hlt]. apply Hlt. congruence.
    + rewrite lookup_insert_ne by done. apply Hstep.
Qed.

End uf.

(** A map that keeps every representative of [p] has the same sets. *)
Lemma root_of_preserved_inv (vs : list Z) (K K' : Z) (p p' rk rk' : gmap Z Z) (y ry : Z) :
  uf_inv vs K p rk → uf_inv vs K' p' rk' →
  (∀ z rz, root_of p z rz → root_of p' z rz) →
  root_of p' y ry → root_of p y ry.
Proof.
  intros Hinv Hinv' Hpres Hy.
  assert (y ∈ vs) as Hyv.
  { apply (uf_dom_parent vs K' p' rk' Hinv'). by apply (root_of_dom p' y ry). }
  destruct (root_of_total vs K p rk Hinv y Hyv) as [r0 Hr0].
  by rewrite (root_of_fun p' y ry r0 Hy (Hpres y r0 Hr0)).
Qed.

Lemma find_spec (vs : list Z) (K : Z) (rk : gmap Z Z) (fuel : nat) (p : gmap Z Z) (x kx : Z) :
  uf_inv vs K p rk → x ∈ vs → rk !! x = Some kx → (Z.to_nat (K - kx) ≤ fuel)%nat →
  ∃ r p', Mst.find fuel p x = Ok (r, p') ∧ root_of p x r ∧ uf_inv vs K p' rk ∧
          ∀ z rz, root_of p z rz → root_of p' z rz.
Proof.
  revert p x kx. induction fuel as [|fuel IH]; intros p x kx Hinv Hx Hkx Hfuel.
  - destruct (proj2 (uf_dom_parent vs K p rk Hinv x) Hx) as [y Hy].
    apply subscript_Ok in Hy as Hs. simpl. rewrite Hs. simpl.
    destruct (decide (y = x)) as [->|Hne].
    + rewrite bool_decide_eq_false_2 by (intros ?; done). simpl.
      exists x, p. split; [done|]. split; [by apply root_here|]. by split.
    + exfalso. assert (y ∈ vs) as Hyv by by apply (uf_closed vs K p rk Hinv x y).
      destruct (uf_rank_of vs K p rk Hinv y Hyv) as (ky & Hky & Hb).
      pose proof (uf_rank_step vs K p rk Hinv x y kx ky Hy Hne Hkx Hky). lia.
  - destruct (proj2 (uf_dom_parent vs K p rk Hinv x) Hx) as [y Hy].
    apply subscript_Ok in Hy as Hs. simpl. rewrite Hs. simpl.
    destruct (decide (y = x)) as [->|Hne].
    + rewrite bool_decide_eq_false_2 by (intros ?; done). simpl.
      exists x, p. split; [done|]. split; [by apply root_here|]. by split.
    + rewrite bool_decide_eq_true_2 by done.
      assert (y ∈ vs) as Hyv by by apply (uf_closed vs K p rk Hinv x y).
      destruct (uf_rank_of vs K p rk Hinv y Hyv) as (ky & Hky & Hb).
      pose proof (uf_rank_step vs K p rk Hinv x y kx ky Hy Hne Hkx Hky).
      destruct (IH p y ky Hinv Hyv Hky) as (r & p' & Hfind & Hr & Hinv' & Hpres); [lia|].
      rewrite Hfind. simpl. unfold subscript. rewrite lookup_insert_eq.
      assert (root_of p x r) as Hxr by by apply (root_step p x y r).
      exists r, (<[x := r]> p'). split; [done|]. split; [done|]. split.
      * apply (compress_inv vs K p' rk Hinv' x r Hx). by apply Hpres.
      * intros z rz Hz. apply compress_root_of; by apply Hpres.
Qed.

Lemma uf_inv_weaken (vs : list Z) (K K' : Z) (p rk : gmap Z Z) :
  K ≤ K' → uf_inv vs K p rk → uf_inv vs K' p rk.
Proof.
  intros HK [Hdp Hdr Hcl Hb Hstep]. split; try done.
  intros x k Hk. specialize (Hb x k Hk). lia.
Qed.

(** Linking the root [b] below the root [a] sends the members of [b]'s set
    to [a] and leaves the other representatives alone. *)
Lemma link_root_of (p : gmap Z Z) (a b z rz : Z) :
  p !! a = Some a → p !! b = Some b → a ≠ b → root_of p z rz →
  root_of (<[b := a]> p) z (if decide (rz = b) then a else rz).
Proof.
  intros Ha Hb Hab Hz. induction Hz as [z Hp|z y rz Hp Hne Hy IH].
  - destruct (decide (z = b)) as [->|Hzb].
    + apply (root_step _ b a a); [by rewrite lookup_insert_eq|done|].
      apply root_here. by rewrite lookup_insert_ne.
    + apply root_here. by rewrite lookup_insert_ne.
  - apply (root_step _ z y); [|done|done].
    rewrite lookup_insert_ne; [done|]. intros <-. congruence.
Qed.

Lemma link_inv (vs : list Z) (K : Z) (p rk : gmap Z Z) (a b ka kb : Z) :
  uf_inv vs K p rk → p !! a = Some a → p !! b = Some b → a ≠ b →
  rk !! a = Some ka → rk !! b = Some kb → kb ≤ ka →
  uf_inv vs (K + 1) (<[b := a]> p) (if ka =? kb then <[a := ka + 1]> rk else rk).
Proof.
  intros [Hdp Hdr Hcl Hbd Hstep] Ha Hb Hab Hka Hkb Hle.
  assert (a ∈ vs) as Hav by (apply Hdp; by eexists).
  assert (b ∈ vs) as Hbv by (apply Hdp; by eexists).
  assert (∀ x k, (if ka =? kb then <[a := ka + 1]> rk else rk) !! x = Some k →
            ∃ k0, rk !! x = Some k0 ∧ k0 ≤ k ∧ k ≤ k0 + 1 ∧ (x ≠ a → k = k0) ∧
                  (x = a → ka = kb → k = ka + 1)) as Hrk.
  { intros x k. destruct (Z.eqb_spec ka kb) as [Heq|Hne].
    - destruct (decide (a = x)) as [<-|Hax].
      + rewrite lookup_insert_eq. intros [= <-]. exists ka. repeat split; try lia; done.
      + rewrite lookup_insert_ne by done. intros Hk. exists k. repeat split; try lia; done.
    - intros Hk. exists k. repeat split; try lia; try done. }
  split.
  - intros x. rewrite lookup_insert_is_Some, Hdp.
    destruct (decide (b = x)) as [->|?]; naive_solver.
  - intros x. rewrite <- Hdr. destruct (Z.eqb_spec ka kb); [|done].
    rewrite lookup_insert_is_Some. destruct (decide (a = x)) as [<-|?]; [|naive_solver].
    split; [by eexists|auto].
  - intros x y. destruct (decide (b = x)) as [->|Hne].
    + rewrite lookup_insert_eq. by intros [= <-].
    + rewrite lookup_insert_ne by done. apply Hcl.
  - intros x k Hk. destruct (Hrk x k Hk) as (k0 & Hk0 & ? & ? & _).
    specialize (Hbd x k0 Hk0). lia.
  - intros x y kx ky Hxy Hne Hkx Hky.
    destruct (Hrk x kx Hkx) as (kx0 & Hkx0 & ? & ? & Hxa & _).
    destruct (Hrk y ky Hky) as (ky0 & Hky0 & ? & ? & Hya & Hya').
    destruct (decide (b = x)) as [<-|Hbx].
    + rewrite lookup_insert_eq in Hxy. injection Hxy as <-.
      assert (kx0 = kb) by congruence. assert (ky0 = ka) by congruence.
      assert (kx = kx0) by (apply Hxa; congruence).
      destruct (decide (ka = kb)) as [Heq|Hneq]; [specialize (Hya' eq_refl Heq)|]; lia.
    + rewrite lookup_insert_ne in Hxy by done.
      assert (x ≠ a) as Hxa' by (intros ->; congruence).
      specialize (Hstep x y kx0 ky0 Hxy Hne Hkx0 Hky0). specialize (Hxa Hxa'). lia.
Qed.

Lemma union_spec (vs : list Z) (K : Z) (p rk : gmap Z Z) (fuel : nat) (x y : Z) :
  uf_inv vs K p rk → x ∈ vs → y ∈ vs → (Z.to_nat K ≤ fuel)%nat →
  ∃ (joined : bool) p' rk' rx ry,
    Mst.union fuel (Mst.UF p rk) x y = Ok (joined, Mst.UF p' rk') ∧
    root_of p x rx ∧ root_of p y ry ∧
    if joined then
      rx ≠ ry ∧ uf_inv vs (K + 1) p' rk' ∧
      ∃ a b, ((a = rx ∧ b = ry) ∨ (a = ry ∧ b = rx)) ∧
        p' !! b = Some a ∧
        ∀ z rz, root_of p z rz → root_of p' z (if decide (rz = b) then a else rz)
    else
      rx = ry ∧ uf_inv vs K p' rk' ∧ ∀ z rz, root_of p z rz → root_of p' z rz.
Proof.
  intros Hinv Hx Hy Hfuel. unfold Mst.union. simpl.
  destruct (uf_rank_of vs K p rk Hinv x Hx) as (kx & Hkx & Hkxb).
  destruct (find_spec vs K rk fuel p x kx Hinv Hx Hkx) as (rx & p1 & Hf1 & Hrx & Hinv1 & Hpres1);
    [lia|].
  rewrite Hf1. simpl.
  destruct (uf_rank_of vs K p1 rk Hinv1 y Hy) as (ky & Hky & Hkyb).
  destruct (find_spec vs K rk fuel p1 y ky Hinv1 Hy Hky) as (ry & p2 & Hf2 & Hry & Hinv2 & Hpres2);
    [lia|].
  rewrite Hf2. simpl.
  assert (root_of p y ry) as Hry0 by by apply (root_of_preserved_inv vs K K p p1 rk rk y ry).
  assert (∀ z rz, root_of p z rz → root_of p2 z rz) as Hpres by (intros z rz Hz; auto).
  destruct (decide (rx = ry)) as [Heq|Hne].
  - rewrite bool_decide_eq_true_2 by done.
    exists false, p2, rk, rx, ry. split; [done|]. split; [done|]. split; [done|]. by split.
  - rewrite bool_decide_eq_false_2 by done.
    assert (rx ∈ vs) as Hrxv by by apply (root_of_in vs K p rk Hinv x).
    assert (ry ∈ vs) as Hryv by by apply (root_of_in vs K p rk Hinv y).
    destruct (uf_rank_of vs K p rk Hinv rx Hrxv) as (krx & Hkrx & _).
    destruct (uf_rank_of vs K p rk Hinv ry Hryv) as (kry & Hkry & _).
    apply subscript_Ok in Hkrx as Hsx. apply subscript_Ok in Hkry as Hsy.
    rewrite Hsx. simpl. rewrite Hsy. simpl.
    pose proof (root_of_root p2 x rx (Hpres x rx Hrx)) as Hrootx.
    pose proof (root_of_root p2 y ry (Hpres y ry Hry0)) as Hrooty.
    destruct (Z.ltb_spec krx kry) as [Hlt|Hge].
    + (* [ry] becomes the parent of [rx] *)
      simpl. rewrite Hsy. simpl. rewrite Hsx. simpl.
      pose proof (link_inv vs K p2 rk ry rx kry krx Hinv2 Hrooty Hrootx) as Hlink.
      destruct (Z.eqb_spec kry krx) as [Heq|Hneq]; [lia|].
      exists true, (<[rx := ry]> p2), rk, rx, ry.
      split; [done|]. split; [done|]. split; [done|]. split; [done|].
      split; [apply Hlink; [congruence|done|done|lia]|].
      exists ry, rx. split; [by right|]. split; [by rewrite lookup_insert_eq|].
      intros z rz Hz. apply link_root_of; [done|done|congruence|auto].
    + simpl. rewrite Hsx. simpl. rewrite Hsy. simpl.
      pose proof (link_inv vs K p2 rk rx ry krx kry Hinv2 Hrootx Hrooty Hne Hkrx Hkry) as Hlink.
      destruct (Z.eqb_spec krx kry) as [Heq|Hneq].
      * simpl.
        exists true, (<[ry := rx]> p2), (<[rx := krx + 1]> rk), rx, ry.
        split; [done|]. split; [done|]. split; [done|]. split; [done|].
        split; [apply Hlink; lia|].
        exists rx, ry. split; [by left|]. split; [by rewrite lookup_insert_eq|].
        intros z rz Hz. apply link_root_of; auto.
      * exists true, (<[ry := rx]> p2), rk, rx, ry.
        split; [done|]. split; [done|]. split; [done|]. split; [done|].
        split; [apply Hlink; lia|].
        exists rx, ry. split; [by left|]. split; [by rewrite lookup_insert_eq|].
        intros z rz Hz. apply link_root_of; auto.
Qed.

(** ** Chains of pairs *)

Lemma conn_mono (ps ps' : list (Z * Z)) (x y : Z) :
  (∀ q, q ∈ ps → q ∈ ps') → conn ps x y → conn ps' x y.
Proof.
  intros Hsub Hxy. induction Hxy as [|x m y Hxm Hmy IH]; [apply rtc_refl|].
  eapply rtc_l; [|exact IH]. destruct Hxm as [Hin|Hin]; [left|right]; auto.
Qed.

Lemma conn_in (vs : list Z) (ps : list (Z * Z)) (x y : Z) :
  (∀ a b, (a, b) ∈ ps → a ∈ vs ∧ b ∈ vs) → x ∈ vs → conn ps x y → y ∈ vs.
Proof.
  intros Hps Hx Hxy. induction Hxy as [|x m y Hxm Hmy IH]; [done|].
  apply IH. destruct Hxm as [Hin|Hin]; by destruct (Hps _ _ Hin).
Qed.

Lemma conn_sym (ps : list (Z * Z)) (x y : Z) : conn ps x y → conn ps y x.
Proof.
  intros Hxy. induction Hxy as [|x m y Hxm Hmy IH]; [apply rtc_refl|].
  eapply rtc_r; [exact IH|]. destruct Hxm; [by right|by left].
Qed.

Lemma conn_nil (x y : Z) : conn [] x y ↔ x = y.
Proof.
  split; [|intros ->; apply rtc_refl].
  intros Hxy. destruct Hxy as [|x m y [Hin|Hin] _]; [done|by apply elem_of_nil in Hin..].
Qed.

(** A relation that contains the links and is an equivalence on [vs]
    contains the chains. *)
Lemma conn_ind_vs (vs : list Z) (ps : list (Z * Z)) (R : relation Z) (x y : Z) :
  (∀ a b, (a, b) ∈ ps → a ∈ vs ∧ b ∈ vs) →
  (∀ a, a ∈ vs → R a a) →
  (∀ a b c, R a b → R b c → R a c) →
  (∀ a b, linked ps a b → R a b) →
  x ∈ vs → conn ps x y → R x y.
Proof.
  intros Hps Hrefl Htrans Hlink Hx Hxy. induction Hxy as [|x m y Hxm Hmy IH]; [auto|].
  apply (Htrans x m y); [auto|]. apply IH.
  destruct Hxm as [Hin|Hin]; by destruct (Hps _ _ Hin).
Qed.

(** ** Sets of the union-find structure *)

Lemma same_set_refl (vs : list Z) (K : Z) (p rk : gmap Z Z) (x : Z) :
  uf_inv vs K p rk → x ∈ vs → same_set p x x.
Proof.
  intros Hinv Hx. destruct (root_of_total vs K p rk Hinv x Hx) as [r Hr]. by exists r.
Qed.

Lemma same_set_sym (p : gmap Z Z) (x y : Z) : same_set p x y → same_set p y x.
Proof. intros (r & Hx & Hy). by exists r. Qed.

Lemma same_set_trans (p : gmap Z Z) (x y z : Z) :
  same_set p x y → same_set p y z → same_set p x z.
Proof.
  intros (r & Hx & Hy) (r' & Hy' & Hz). rewrite (root_of_fun p y r r' Hy Hy') in Hx.
  by exists r'.
Qed.

Lemma roots_elem (p : gmap Z Z) (x : Z) : x ∈ roots p ↔ p !! x = Some x.
Proof.
  unfold roots. rewrite elem_of_filter, elem_of_dom. split; [tauto|].
  intros Hx. split; [done|by eexists].
Qed.

Lemma roots_preserved (vs : list Z) (K K' : Z) (p p' rk rk' : gmap Z Z) :
  uf_inv vs K p rk → uf_inv vs K' p' rk' →
  (∀ z rz, root_of p z rz → root_of p' z rz) →
  roots p' = roots p.
Proof.
  intros Hinv Hinv' Hpres. apply set_eq. intros x. rewrite !roots_elem, <- !root_of_self.
  split; [|apply Hpres]. by apply (root_of_preserved_inv vs K K' p p' rk rk').
Qed.

Lemma size_remove (X : gset Z) (b : Z) : b ∈ X → S (size (X ∖ {[b]})) = size X.
Proof.
  intros Hb. pose proof (size_difference_insert X ∅ b Hb (not_elem_of_empty b)) as Hsz.
  assert (X ∖ ({[b]} ∪ ∅) = X ∖ {[b]}) as Heq1 by set_solver.
  assert (X ∖ ∅ = X) as Heq2 by set_solver.
  by rewrite Heq1, Heq2 in Hsz.
Qed.

Lemma roots_after_link (vs : list Z) (K K' : Z) (p p' rk rk' : gmap Z Z) (a b : Z) :
  uf_inv vs K p rk → uf_inv vs K' p' rk' →
  p !! a = Some a → p !! b = Some b → a ≠ b →
  (∀ z rz, root_of p z rz → root_of p' z (if decide (rz = b) then a else rz)) →
  roots p' = roots p ∖ {[b]}.
Proof.
  intros Hinv Hinv' Ha Hb Hab Hlink. apply set_eq. intros x.
  rewrite elem_of_difference, elem_of_singleton, !roots_elem, <- !root_of_self. split.
  - intros Hx.
    assert (x ∈ vs) as Hxv.
    { apply (uf_dom_parent vs K' p' rk' Hinv'). by apply (root_of_dom p' x x). }
    destruct (root_of_total vs K p rk Hinv x Hxv) as [r Hr].
    pose proof (Hlink x r Hr) as Hr'.
    pose proof (root_of_fun p' x _ _ Hx Hr') as Heq.
    destruct (decide (r = b)) as [->|Hrb].
    + subst x. exfalso. apply Hab.
      apply (root_of_fun p a); [by apply root_here|done].
    + subst r. split; [done|]. intros ->. done.
  - intros [Hx Hxb]. pose proof (Hlink x x Hx) as Hx'.
    by destruct (decide (x = b)).
Qed.

Lemma same_set_link (vs : list Z) (K K' : Z) (p p' rk rk' : gmap Z Z)
    (x y rx ry a b z1 z2 : Z) :
  uf_inv vs K p rk → uf_inv vs K' p' rk' →
  root_of p x rx → root_of p y ry → rx ≠ ry →
  (a = rx ∧ b = ry) ∨ (a = ry ∧ b = rx) →
  (∀ z rz, root_of p z rz → root_of p' z (if decide (rz = b) then a else rz)) →
  z1 ∈ vs → z2 ∈ vs →
  same_set p' z1 z2 ↔
    same_set p z1 z2 ∨ (same_set p z1 x ∧ same_set p z2 y) ∨
    (same_set p z1 y ∧ same_set p z2 x).
Proof.
  intros Hinv Hinv' Hrx Hry Hne Hab Hlink Hz1 Hz2.
  destruct (root_of_total vs K p rk Hinv z1 Hz1) as [r1 Hr1].
  destruct (root_of_total vs K p rk Hinv z2 Hz2) as [r2 Hr2].
  assert (a ≠ b) as Hab' by (destruct Hab as [[-> ->]|[-> ->]]; congruence).
  split.
  - intros (r' & H1 & H2).
    pose proof (root_of_fun p' z1 _ _ H1 (Hlink z1 r1 Hr1)) as E1.
    pose proof (root_of_fun p' z2 _ _ H2 (Hlink z2 r2 Hr2)) as E2.
    destruct (decide (r1 = r2)) as [->|Hne12]; [left; by exists r2|right].
    assert ((r1 = b ∧ r2 = a) ∨ (r1 = a ∧ r2 = b)) as Hcases.
    { destruct (decide (r1 = b)), (decide (r2 = b)); subst; try congruence; auto. }
    destruct Hcases as [[-> ->]|[-> ->]], Hab as [[-> ->]|[-> ->]].
    + right. split; [by exists ry|by exists rx].
    + left. split; [by exists rx|by exists ry].
    + left. split; [by exists rx|by exists ry].
    + right. split; [by exists ry|by exists rx].
  - assert (∀ r, r = rx ∨ r = ry → (if decide (r = b) then a else r) = a) as Hf.
    { intros r Hr. destruct (decide (r = b)); [done|].
      destruct Hr as [->| ->], Hab as [[-> ->]|[-> ->]]; congruence. }
    intros [(r & H1 & H2)|[[(ra & H1 & H1') (rb & H2 & H2')]|[(ra & H1 & H1') (rb & H2 & H2')]]].
    + eexists. split; by apply Hlink.
    + exists a. split.
      * rewrite <- (Hf ra); [by apply Hlink|]. left. by apply (root_of_fun p x).
      * rewrite <- (Hf rb); [by apply Hlink|]. right. by apply (root_of_fun p y).
    + exists a. split.
      * rewrite <- (Hf ra); [by apply Hlink|]. right. by apply (root_of_fun p y).
      * rewrite <- (Hf rb); [by apply Hlink|]. left. by apply (root_of_fun p x).
Qed.

Lemma sum_weights_snoc (mst : list (Z * Z * Q)) (t : Z * Z * Q) :
  sum_weights (mst ++ [t]) = (sum_weights mst + t.2)%Q.
Proof. unfold sum_weights. by rewrite foldl_app. Qed.

Lemma chosen_pairs_elem (mst : list (Z * Z * Q)) (a b : Z) :
  (a, b) ∈ chosen_pairs mst ↔ ∃ w, (a, b, w) ∈ mst.
Proof.
  unfold chosen_pairs. rewrite list_elem_of_fmap. split.
  - intros ([[a' b'] w] & [= -> ->] & Hin). by exists w.
  - intros (w & Hin). by exists (a, b, w).
Qed.

Lemma key_pairs_elem (ts : list (Q * Z * Z)) (a b : Z) :
  (a, b) ∈ key_pairs ts ↔ ∃ w, (w, a, b) ∈ ts.
Proof.
  unfold key_pairs. rewrite list_elem_of_fmap. split.
  - intros ([[w a'] b'] & [= -> ->] & Hin). by exists w.
  - intros (w & Hin). by exists (w, a, b).
Qed.

Lemma kruskal_step (vs : list Z) (done_ : list (Q * Z * Z)) (a : Mst.acc) (fuel : nat)
    (w : Q) (u v : Z) :
  kruskal_inv vs done_ a → u ∈ vs → v ∈ vs →
  (∀ w' u' v', (w', u', v') ∈ done_ → u' ∈ vs ∧ v' ∈ vs) →
  (length done_ ≤ fuel)%nat →
  ∃ a', Mst.step fuel (w, u, v) a = Ok a' ∧ kruskal_inv vs (done_ ++ [(w, u, v)]) a'.
Proof.
  intros Hinv Hu Hv Hdone Hfuel. destruct a as [[p rk] mst total].
  destruct Hinv as [Huf Htotal Hchosen Hlen Hsets Hspan Hroots]. simpl in *.
  assert (∀ a b, (a, b) ∈ chosen_pairs mst → a ∈ vs ∧ b ∈ vs) as Hpairs.
  { intros a b Hab. apply chosen_pairs_elem in Hab as (w' & Hin).
    by apply (Hdone w' a b), Hchosen. }
  destruct (union_spec vs (Z.of_nat (length mst)) p rk fuel u v Huf Hu Hv)
    as (joined & p' & rk' & rx & ry & Hunion & Hrx & Hry & Hres); [lia|].
  unfold Mst.step. simpl. rewrite Hunion. simpl. destruct joined.
  - destruct Hres as (Hne & Huf' & a0 & b0 & Hab & Hb0 & Hlink).
    eexists. split; [done|].
    assert (p !! rx = Some rx) as Hrootx by by apply (root_of_root p u).
    assert (p !! ry = Some ry) as Hrooty by by apply (root_of_root p v).
    assert (∀ z1 z2, z1 ∈ vs → z2 ∈ vs →
              same_set p' z1 z2 ↔ conn (chosen_pairs mst ++ [(u, v)]) z1 z2) as Hsets'.
    { intros z1 z2 Hz1 Hz2. split.
      - intros Hs.
        apply (same_set_link vs (Z.of_nat (length mst)) ((Z.of_nat (length mst)) + 1) p p' rk rk' u v rx ry a0 b0 z1 z2) in Hs; try done.
        assert (∀ c d, c ∈ vs → d ∈ vs → same_set p c d →
                  conn (chosen_pairs mst ++ [(u, v)]) c d) as Hold.
        { intros c d Hc Hd Hcd. apply (conn_mono (chosen_pairs mst)).
          - intros q Hq. apply elem_of_app. by left.
          - by apply Hsets. }
        assert (conn (chosen_pairs mst ++ [(u, v)]) u v) as Huv.
        { apply rtc_once. left. apply elem_of_app. right. apply list_elem_of_here. }
        destruct Hs as [Hs|[[H1 H2]|[H1 H2]]].
        + by apply Hold.
        + apply (rtc_trans z1 u z2); [by apply Hold|].
          apply (rtc_trans u v z2); [exact Huv|].
          apply conn_sym. by apply Hold.
        + apply (rtc_trans z1 v z2); [by apply Hold|].
          apply (rtc_trans v u z2); [by apply conn_sym|].
          apply conn_sym. by apply Hold.
      - apply (conn_ind_vs vs); try done.
        + intros c d Hcd. apply elem_of_app in Hcd as [Hcd|Hcd]; [by apply Hpairs|].
          apply list_elem_of_singleton in Hcd. by injection Hcd as -> ->.
        + intros c Hc. by apply (same_set_refl vs ((Z.of_nat (length mst)) + 1) p' rk').
        + apply same_set_trans.
        + assert (∀ c d, c ∈ vs → d ∈ vs → (c, d) ∈ chosen_pairs mst ++ [(u, v)] →
                    same_set p' c d) as Hone.
          { intros c d Hc Hd Hcd.
            apply (same_set_link vs (Z.of_nat (length mst)) ((Z.of_nat (length mst)) + 1) p p' rk rk' u v rx ry a0 b0 c d); try done.
            apply elem_of_app in Hcd as [Hcd|Hcd].
            - left. apply Hsets; [done..|]. apply rtc_once. by left.
            - apply list_elem_of_singleton in Hcd. injection Hcd as -> ->.
              right. left. split; by apply (same_set_refl vs (Z.of_nat (length mst)) p rk). }
          assert (∀ c d, (c, d) ∈ chosen_pairs mst ++ [(u, v)] → c ∈ vs ∧ d ∈ vs) as Hin.
          { intros c d Hcd. apply elem_of_app in Hcd as [Hcd|Hcd]; [by apply Hpairs|].
            apply list_elem_of_singleton in Hcd. by injection Hcd as -> ->. }
          intros c d [Hcd|Hcd]; destruct (Hin _ _ Hcd).
          * by apply Hone.
          * apply same_set_sym. by apply Hone. }
    split; simpl.
    + rewrite length_app. simpl. by replace (Z.of_nat (length mst + 1)) with (Z.of_nat (length mst) + 1) by lia.
    + rewrite sum_weights_snoc. simpl. by rewrite Htotal.
    + intros u' v' w' Hin. apply elem_of_app in Hin as [Hin|Hin].
      * apply elem_of_app. left. by apply Hchosen.
      * apply list_elem_of_singleton in Hin. injection Hin as -> -> ->.
        apply elem_of_app. right. apply list_elem_of_here.
    + rewrite !length_app. simpl. lia.
    + unfold chosen_pairs. rewrite fmap_app. simpl. apply Hsets'.
    + unfold chosen_pairs, key_pairs. rewrite !fmap_app. simpl.
      intros x y Hxy. induction Hxy as [|x m y Hxm Hmy IH]; [apply rtc_refl|].
      apply (rtc_trans x m y); [|exact IH].
      assert (∀ c d, (c, d) ∈ key_pairs done_ ++ [(u, v)] →
                conn (chosen_pairs mst ++ [(u, v)]) c d) as Hone.
      { intros c d Hcd. apply elem_of_app in Hcd as [Hcd|Hcd].
        - apply (conn_mono (chosen_pairs mst)).
          + intros q Hq. apply elem_of_app. by left.
          + apply Hspan. apply rtc_once. by left.
        - apply rtc_once. left. apply elem_of_app. by right. }
      destruct Hxm as [Hin|Hin]; [by apply Hone|]. apply conn_sym. by apply Hone.
    + assert (roots p' = roots p ∖ {[b0]}) as ->.
      { apply (roots_after_link vs (Z.of_nat (length mst)) ((Z.of_nat (length mst)) + 1) p p' rk rk' a0 b0); try done.
        - destruct Hab as [[-> ->]|[-> ->]]; done.
        - destruct Hab as [[-> ->]|[-> ->]]; done.
        - destruct Hab as [[-> ->]|[-> ->]]; congruence. }
      assert (b0 ∈ roots p) as Hb0r.
      { apply roots_elem. destruct Hab as [[-> ->]|[-> ->]]; done. }
      pose proof (size_remove (roots p) b0 Hb0r). rewrite length_app. simpl. lia.
  - destruct Hres as (Heq & Huf' & Hpres). subst ry.
    eexists. split; [done|].
    assert (∀ z1 z2, same_set p' z1 z2 ↔ same_set p z1 z2) as Hsame.
    { intros z1 z2. split.
      - intros (r & H1 & H2). exists r.
        split; by apply (root_of_preserved_inv vs (Z.of_nat (length mst)) (Z.of_nat (length mst)) p p' rk rk').
      - intros (r & H1 & H2). exists r. split; by apply Hpres. }
    split; simpl; try done.
    + intros u' v' w' Hin. apply elem_of_app. left. by apply Hchosen.
    + rewrite length_app. simpl. lia.
    + intros x y Hx Hy. rewrite Hsame. by apply Hsets.
    + unfold key_pairs. rewrite fmap_app. simpl.
      intros x y Hxy. induction Hxy as [|x m y Hxm Hmy IH]; [apply rtc_refl|].
      apply (rtc_trans x m y); [|exact IH].
      assert (∀ c d, (c, d) ∈ key_pairs done_ ++ [(u, v)] →
                conn (chosen_pairs mst) c d) as Hone.
      { intros c d Hcd. apply elem_of_app in Hcd as [Hcd|Hcd].
        - apply Hspan. apply rtc_once. by left.
        - apply list_elem_of_singleton in Hcd. injection Hcd as -> ->.
          apply Hsets; [done..|]. by exists rx. }
      destruct Hxm as [Hin|Hin]; [by apply Hone|]. apply conn_sym. by apply Hone.
    + by rewrite (roots_preserved vs (Z.of_nat (length mst)) (Z.of_nat (length mst)) p p' rk rk' Huf Huf' Hpres).
Qed.

(** ** Kruskal *)

Lemma kruskal_all (vs : list Z) (fuel : nat) (todo done_ : list (Q * Z * Z)) (a : Mst.acc) :
  kruskal_inv vs done_ a →
  (∀ w u v, (w, u, v) ∈ done_ ++ todo → u ∈ vs ∧ v ∈ vs) →
  (length (done_ ++ todo) ≤ fuel)%nat →
  ∃ a', for_each (Mst.step fuel) todo a = Ok a' ∧ kruskal_inv vs (done_ ++ todo) a'.
Proof.
  revert done_ a. induction todo as [|[[w u] v] todo IH]; intros done_ a Hinv Hin Hfuel.
  - exists a. by rewrite app_nil_r.
  - destruct (Hin w u v) as [Hu Hv].
    { apply elem_of_app. right. apply list_elem_of_here. }
    destruct (kruskal_step vs done_ a fuel w u v Hinv Hu Hv) as (a1 & Hstep & Hinv1).
    { intros w' u' v' H'. apply (Hin w' u' v'). apply elem_of_app. by left. }
    { rewrite length_app in Hfuel. lia. }
    cbn [for_each]. rewrite Hstep. simpl.
    destruct (IH (done_ ++ [(w, u, v)]) a1 Hinv1) as (a' & Hrun & Hinv').
    + intros w' u' v' H'. apply (Hin w' u' v'). by rewrite <- app_assoc in H'.
    + by rewrite <- app_assoc.
    + exists a'. by rewrite <- app_assoc in Hinv'.
Qed.

Lemma roots_initial (vs : list Z) : roots (dict_of id id vs) = list_to_set vs.
Proof.
  apply set_eq. intros x. rewrite roots_elem, dict_of_lookup_id, elem_of_list_to_set.
  destruct (decide (x ∈ vs)); split; try done.
Qed.

Lemma kruskal_initial (vs : list Z) :
  kruskal_inv vs [] (Mst.Acc (Mst.UF (dict_of id id vs) (dict_of id (λ _, 0) vs)) [] 0%Q).
Proof.
  assert (uf_inv vs 0 (dict_of id id vs) (dict_of id (λ _, 0) vs)) as Huf.
  { split.
    - intros x. rewrite dict_of_lookup_id. destruct (decide (x ∈ vs)); [by split; eauto|].
      split; [by intros [? ?]|done].
    - intros x. rewrite dict_of_lookup_id. destruct (decide (x ∈ vs)); [by split; eauto|].
      split; [by intros [? ?]|done].
    - intros x y. rewrite dict_of_lookup_id. destruct (decide (x ∈ vs)); [|done].
      by intros [= <-].
    - intros x k. rewrite dict_of_lookup_id. destruct (decide (x ∈ vs)); [|done].
      intros [= <-]. lia.
    - intros x y kx ky. rewrite dict_of_lookup_id. destruct (decide (x ∈ vs)); [|done].
      by intros [= <-]. }
  split; simpl; try done.
  - by intros u v w ?%elem_of_nil.
  - intros x y Hx Hy. unfold chosen_pairs. simpl. rewrite conn_nil. split.
    + intros (r & H1 & H2).
      assert (∀ z rz, root_of (dict_of id id vs) z rz → z = rz) as Hid.
      { intros z rz Hz. destruct Hz as [z Hp|z z' rz Hp Hne _]; [done|].
        rewrite dict_of_lookup_id in Hp. destruct (decide (z ∈ vs)); [|done].
        injection Hp as <-. done. }
      rewrite (Hid x r H1). by rewrite (Hid y r H2).
    + intros ->. by apply (same_set_refl vs 0 _ (dict_of id (λ _, 0) vs)).
  - rewrite roots_initial. lia.
Qed.

Lemma insert_Permutation (x : Q * Z * Z) (l : list (Q * Z * Z)) :
  Mst.insert x l ≡ₚ x :: l.
Proof.
  induction l as [|y l IH]; simpl; [done|].
  destruct (Mst.tuple_leb x y); [done|]. rewrite IH. apply Permutation_swap.
Qed.

Lemma sort_Permutation (l : list (Q * Z * Z)) : Mst.sort l ≡ₚ l.
Proof.
  induction l as [|x l IH]; simpl; [done|]. by rewrite insert_Permutation, IH.
Qed.

Lemma key_pairs_key_of (es : list edge) : key_pairs (Mst.key_of <$> es) = endpoints <$> es.
Proof.
  unfold key_pairs. rewrite <- list_fmap_compose. apply list_fmap_ext.
  intros i e _. by destruct e.
Qed.

Lemma linked_adjacent (g : graph) (a b : Z) :
  linked (endpoints <$> edges g) a b ↔ adjacent g a b.
Proof.
  unfold linked, adjacent. rewrite !list_elem_of_fmap. split.
  - intros [(e & He & Hin)|(e & He & Hin)]; exists e; auto.
  - intros (e & Hin & [He|He]); [left|right]; by exists e.
Qed.

Lemma conn_connected (g : graph) (ps : list (Z * Z)) (x y : Z) :
  (∀ q, q ∈ ps ↔ q ∈ endpoints <$> edges g) →
  conn ps x y ↔ connected g x y.
Proof.
  intros Hps. split.
  - intros Hxy. induction Hxy as [|x m y Hxm Hmy IH]; [apply rtc_refl|].
    eapply rtc_l; [|exact IH]. apply linked_adjacent.
    destruct Hxm as [Hin|Hin]; [left|right]; by apply Hps.
  - intros Hxy. induction Hxy as [|x m y Hxm Hmy IH]; [apply rtc_refl|].
    eapply rtc_l; [|exact IH]. apply linked_adjacent in Hxm.
    destruct Hxm as [Hin|Hin]; [left|right]; by apply Hps.
Qed.

(** ** Counting representatives *)

Lemma filter_one (P : Z → Prop) `{∀ x, Decision (P x)} (l : list Z) :
  NoDup l → (∃ r, r ∈ l ∧ P r) → (∀ x y, x ∈ l → y ∈ l → P x → P y → x = y) →
  length (filter P l) = 1%nat.
Proof.
  intros Hnd (r & Hr & HPr) Huniq.
  assert (r ∈ filter P l) as Hrf by by apply list_elem_of_filter.
  assert (NoDup (filter P l)) as Hndf by by apply NoDup_filter.
  destruct (filter P l) as [|a [|b t]] eqn:Hf; [by apply elem_of_nil in Hrf|done|].
  exfalso.
  assert (a ∈ filter P l) as Ha by (rewrite Hf; apply list_elem_of_here).
  assert (b ∈ filter P l) as Hb by (rewrite Hf; apply list_elem_of_further, list_elem_of_here).
  apply list_elem_of_filter in Ha as [HPa Ha]. apply list_elem_of_filter in Hb as [HPb Hb].
  assert (a = b) as -> by by apply Huniq.
  apply NoDup_cons in Hndf as [Hnot _]. apply Hnot, list_elem_of_here.
Qed.

Lemma length_filter_concat (P : Z → Prop) `{∀ x, Decision (P x)} (comps : list (list Z)) :
  (∀ c, c ∈ comps → length (filter P c) = 1%nat) →
  length (filter P (concat comps)) = length comps.
Proof.
  induction comps as [|c comps IH]; intros Hone; simpl; [done|].
  rewrite filter_app, length_app, (Hone c) by apply list_elem_of_here.
  rewrite IH; [done|]. intros c' Hc'. apply Hone. by apply list_elem_of_further.
Qed.

Lemma sizes_sum (comps : list (list Z)) :
  (∀ c, c ∈ comps → c ≠ []) →
  (sum_list ((λ c, length c - 1) <$> comps) + length comps)%nat = length (concat comps).
Proof.
  induction comps as [|c comps IH]; intros Hne; [done|].
  assert (c ≠ []) as Hc by apply Hne, list_elem_of_here.
  assert (∀ c', c' ∈ comps → c' ≠ []) as Hne'.
  { intros c' Hc'. apply Hne. by apply list_elem_of_further. }
  specialize (IH Hne'). cbn [fmap list_fmap sum_list sum_list_with concat length].
  rewrite length_app. destruct c as [|x c]; [done|].
  cbn [length]. change (list_fmap _ _ ?f ?l) with (f <$> l).
  unfold sum_list, id in *. lia.
Qed.

Lemma NoDup_concat_elem (comps : list (list Z)) (c : list Z) :
  NoDup (concat comps) → c ∈ comps → NoDup c.
Proof.
  induction comps as [|c' comps IH]; intros Hnd Hc; [by apply elem_of_nil in Hc|].
  simpl in Hnd. apply NoDup_app in Hnd as (Hc' & _ & Hrest).
  apply elem_of_cons in Hc as [->|Hc]; auto.
Qed.

Lemma elem_of_concat_elem (comps : list (list Z)) (c : list Z) (x : Z) :
  c ∈ comps → x ∈ c → x ∈ concat comps.
Proof.
  intros Hc Hx. apply list_elem_of_In, in_concat. exists c.
  split; by apply list_elem_of_In.
Qed.

(** One representative per component. *)
Lemma roots_count (g : graph) (K : Z) (p rk : gmap Z Z) (comps : list (list Z)) :
  uf_inv (vertices g) K p rk →
  (∀ x y, x ∈ vertices g → y ∈ vertices g → same_set p x y ↔ connected g x y) →
  components_of g comps →
  size (roots p) = length comps ∧
  size (list_to_set (vertices g) : gset Z) = length (concat comps).
Proof.
  intros Hinv Hsets (Hnd & Hmem & Hne & Hclass).
  assert (roots p = list_to_set (filter (λ x, p !! x = Some x) (concat comps))) as Hroots.
  { apply set_eq. intros x. rewrite roots_elem, elem_of_list_to_set, list_elem_of_filter.
    split; [|tauto]. intros Hx. split; [done|]. apply Hmem.
    apply (uf_dom_parent (vertices g) K p rk Hinv). by eexists. }
  split.
  - rewrite Hroots, size_list_to_set by by apply NoDup_filter.
    apply length_filter_concat. intros c Hc.
    assert (∀ x, x ∈ c → x ∈ vertices g) as Hcv.
    { intros x Hx. apply Hmem. by apply (elem_of_concat_elem comps c). }
    apply filter_one.
    + by apply (NoDup_concat_elem comps).
    + destruct c as [|x c'] eqn:Hceq; [by destruct (Hne [] Hc)|]. rewrite <- Hceq in *.
      assert (x ∈ c) as Hx by (rewrite Hceq; apply list_elem_of_here).
      destruct (root_of_total (vertices g) K p rk Hinv x (Hcv x Hx)) as [r Hr].
      exists r. split; [|by apply (root_of_root p x)].
      apply (Hclass c x r Hc Hx). apply Hsets; [auto| |].
      * exact (root_of_in (vertices g) K p rk Hinv x r (Hcv x Hx) Hr).
      * exists r. split; [done|]. apply root_here. by apply (root_of_root p x).
    + intros x y Hx Hy Hpx Hpy.
      assert (same_set p x y) as (r & H1 & H2).
      { apply Hsets; [auto..|]. by apply (Hclass c x y Hc Hx). }
      trans r.
      * exact (root_of_fun p x x r (root_here p x Hpx) H1).
      * symmetry. exact (root_of_fun p y y r (root_here p y Hpy) H2).
  - assert (list_to_set (vertices g) = (list_to_set (concat comps) : gset Z)) as ->.
    { apply set_eq. intros x. by rewrite !elem_of_list_to_set, Hmem. }
    by apply size_list_to_set.
Qed.

Lemma key_of_unpack (e : edge) (w : Q) (u v : Z) :
  Mst.key_of e = (w, u, v) ↔ unpack e = (u, v, w).
Proof.
  unfold Mst.key_of. destruct (unpack e) as [[a b] c]. split; intros [= -> -> ->]; done.
Qed.

Lemma components_exist (g : graph) (v0 : Z) (rest : list Z) :
  vertices g = v0 :: rest → endpoints_in g → ∃ comps, components_of g comps.
Proof.
  intros Hvs Hg.
  destruct (build_neighbours_spec g Hg) as (adj & Hbuild & Hadj).
  destruct (visit_all g adj Hg Hadj (vertices g) [] (∅, [])) as ([V comps] & Hrun & Hinv).
  { done. }
  { split; simpl.
    - by intros x y ?%elem_of_empty.
    - intros v. split; [by intros ?%elem_of_empty|by intros ?%elem_of_nil].
    - apply NoDup_nil_2.
    - by intros v ?%elem_of_empty.
    - by intros v ?%elem_of_nil.
    - by intros c ?%elem_of_nil.
    - by intros c x y ?%elem_of_nil. }
  destruct Hinv as [Hclosed Hseen Hnd Hin Hdone Hsorted Hclass]. simpl in *.
  exists comps. split; [done|]. split.
  { intros v. rewrite <- Hseen. split; [apply Hin|apply Hdone]. }
  split; [|done]. intros c Hc. by destruct (Hsorted c Hc).
Qed.



(** ** Arithmetic on numbers *)

Lemma num_add_mono (a b c : num) : num_le a b → num_le (num_add a c) (num_add b c).
Proof.
  destruct a as [x|], b as [y|], c as [z|]; simpl; try done.
  intros Hxy. by apply Qplus_le_compat; [|apply Qle_refl].
Qed.

Lemma num_add_nonneg (a : num) (w : Q) : (0 <= w)%Q → num_le a (num_add a (Fin w)).
Proof.
  intros Hw. destruct a as [x|]; simpl; [|done].
  rewrite <- (Qplus_0_r x) at 1. by apply Qplus_le_compat; [apply Qle_refl|].
Qed.

Lemma num_ltb_Fin (a b : num) : num_ltb a b = true → ∃ q, a = Fin q.
Proof. destruct a as [q|]; [by exists q|done]. Qed.

Lemma num_eqb_le (a b : num) : num_eqb a b = true → num_le b a.
Proof.
  destruct a as [x|], b as [y|]; simpl; try done.
  intros Heq. apply Qeq_bool_iff in Heq. rewrite Heq. apply Qle_refl.
Qed.

Lemma entry_ltb_le (a b : num * Z) : Dijkstra.entry_ltb a b = true → num_le a.1 b.1.
Proof.
  unfold Dijkstra.entry_ltb. destruct (num_eqb a.1 b.1) eqn:Heq.
  - intros _. destruct a as [[x|] ?], b as [[y|] ?]; simpl in *; try done.
    apply Qeq_bool_iff in Heq. rewrite Heq. apply Qle_refl.
  - apply num_lt_le.
Qed.

Lemma entry_not_ltb_le (a b : num * Z) : Dijkstra.entry_ltb a b = false → num_le b.1 a.1.
Proof.
  unfold Dijkstra.entry_ltb. destruct (num_eqb a.1 b.1) eqn:Heq.
  - intros _. by apply num_eqb_le.
  - apply num_ltb_false.
Qed.

Lemma heappop_None (pq : list (num * Z)) : Dijkstra.heappop pq = None → pq = [].
Proof.
  destruct pq as [|x rest]; [done|]. simpl.
  by destruct (Dijkstra.heappop rest) as [[m0 rest']|]; [destruct (Dijkstra.entry_ltb m0 x)|].
Qed.

(** [heappop] returns an entry of least distance and leaves the others. *)
Lemma heappop_spec (pq pq' : list (num * Z)) (m : num * Z) :
  Dijkstra.heappop pq = Some (m, pq') →
  pq ≡ₚ m :: pq' ∧ ∀ y, y ∈ pq → num_le m.1 y.1.
Proof.
  revert pq' m. induction pq as [|x rest IH]; intros pq' m Hpop; simpl in Hpop; [done|].
  destruct (Dijkstra.heappop rest) as [[m0 rest']|] eqn:Hrest.
  - destruct (IH rest' m0 eq_refl) as [Hperm Hmin].
    destruct (Dijkstra.entry_ltb m0 x) eqn:Hlt; injection Hpop as <- <-.
    + split; [by rewrite Hperm, Permutation_swap|].
      intros y Hy. apply elem_of_cons in Hy as [->|Hy]; [by apply entry_ltb_le|auto].
    + split; [done|]. intros y Hy. apply elem_of_cons in Hy as [->|Hy]; [apply num_le_refl|].
      eapply num_le_trans; [by apply entry_not_ltb_le|auto].
  - injection Hpop as <- <-. apply heappop_None in Hrest as ->.
    split; [done|]. intros y Hy. apply list_elem_of_singleton in Hy as ->. apply num_le_refl.
Qed.

(** ** Walks *)

Lemma walk_cost_snoc (steps : list (Z * Q)) (v : Z) (w : Q) :
  walk_cost (steps ++ [(v, w)]) = (walk_cost steps + w)%Q.
Proof. unfold walk_cost. by rewrite foldl_app. Qed.

Lemma arc_sym (g : graph) (a b : Z) (w : Q) : arc g a b w → arc g b a w.
Proof. intros (e & He & Hab). exists e. tauto. Qed.

Lemma arc_adjacent (g : graph) (a b : Z) (w : Q) : arc g a b w → adjacent g a b.
Proof.
  intros (e & He & Hab). exists e. split; [done|]. rewrite endpoints_unpack.
  destruct Hab as [-> | ->]; auto.
Qed.

Lemma adjacent_arc (g : graph) (a b : Z) : adjacent g a b → ∃ w, arc g a b w.
Proof.
  intros (e & He & Hab). rewrite endpoints_unpack in Hab.
  destruct (unpack e) as [[x y] w] eqn:Hun. simpl in Hab. exists w, e.
  split; [done|]. rewrite Hun. destruct Hab as [[= -> ->]|[= -> ->]]; auto.
Qed.

Lemma arc_nonneg (g : graph) (a b : Z) (w : Q) : nonneg_weights g → arc g a b w → (0 <= w)%Q.
Proof.
  intros Hg (e & He & Hab). specialize (Hg e He).
  destruct Hab as [Hab|Hab]; by rewrite Hab in Hg.
Qed.

Lemma walk_connected (g : graph) (s v : Z) (steps : list (Z * Q)) :
  walk g s steps v → connected g s v.
Proof.
  induction 1 as [|steps u v w Hwalk IH Harc]; [apply rtc_refl|].
  eapply rtc_r; [exact IH|]. by apply (arc_adjacent g u v w).
Qed.

Lemma connected_walk (g : graph) (s v : Z) :
  connected g s v → ∃ steps, walk g s steps v.
Proof.
  intros Hsv. apply rtc_nsteps in Hsv as [n Hsv]. revert v Hsv.
  induction n as [|n IH]; intros v Hsv.
  - inversion Hsv; subst. exists []. constructor.
  - apply nsteps_inv_r in Hsv as (u & Hsu & Huv).
    destruct (IH u Hsu) as [steps Hsteps]. destruct (adjacent_arc g u v Huv) as [w Hw].
    exists (steps ++ [(v, w)]). by apply (walk_snoc g s steps u).
Qed.

Lemma walk_cost_nonneg (g : graph) (s v : Z) (steps : list (Z * Q)) :
  nonneg_weights g → walk g s steps v → (0 <= walk_cost steps)%Q.
Proof.
  intros Hg. induction 1 as [|steps u v w Hwalk IH Harc]; [apply Qle_refl|].
  rewrite walk_cost_snoc. pose proof (arc_nonneg g u v w Hg Harc).
  rewrite <- (Qplus_0_r 0). by apply Qplus_le_compat.
Qed.

Lemma traced_mono (par par' : gmap Z Z) (s : Z) (V V' : gset Z) (steps : list (Z * Q))
    (v : Z) :
  V ⊆ V' → (∀ x, x ∈ V → par' !! x = par !! x) → par' !! v = par !! v →
  traced par s V steps v → traced par' s V' steps v.
Proof.
  intros Hsub Hsame Hv Htr. revert Hv.
  induction Htr as [|steps u v w Htr IH Hu Hpar Hne]; intros Hv; [constructor|].
  apply (traced_snoc par' s V' steps u); [|by apply Hsub|congruence|done].
  apply IH. by apply Hsame.
Qed.

(** ** Weighted adjacency lists *)

Lemma incidences_cons (e : edge) (es : list edge) (P : Z → Prop) `{∀ x, Decision (P x)} :
  incidences (e :: es) P =
  ((if decide (P (endpoints e).1) then 1 else 0) +
   (if decide (P (endpoints e).2) then 1 else 0) + incidences es P)%nat.
Proof.
  unfold incidences. rewrite !filter_cons.
  destruct (decide (P (endpoints e).1)), (decide (P (endpoints e).2)); simpl; lia.
Qed.

Lemma incidences_all (es : list edge) (V : gset Z) :
  V = ∅ → incidences es (λ x, x ∉ V) = (2 * length es)%nat.
Proof.
  intros ->. induction es as [|e es IH]; [done|].
  rewrite incidences_cons, IH.
  rewrite !decide_True by apply not_elem_of_empty. simpl. lia.
Qed.

Lemma incidences_visit (es : list edge) (V : gset Z) (u : Z) :
  u ∉ V →
  incidences es (λ x, x ∉ V) =
  (incidences es (λ x, x ∉ {[u]} ∪ V) + incidences es (λ x, x = u))%nat.
Proof.
  intros Hu. induction es as [|e es IH]; [done|].
  rewrite !incidences_cons, IH.
  assert (∀ x, (if decide (x ∉ V) then 1 else 0) =
               (if decide (x ∉ {[u]} ∪ V) then 1 else 0) + (if decide (x = u) then 1 else 0))%nat
    as Hx.
  { intros x. destruct (decide (x ∉ V)) as [H1|H1], (decide (x ∉ {[u]} ∪ V)) as [H2|H2],
      (decide (x = u)) as [H3|H3]; try lia; exfalso; set_solver. }
  rewrite (Hx (endpoints e).1), (Hx (endpoints e).2). lia.
Qed.

Lemma mem_snoc (x y : Z * Q) (l : list (Z * Q)) : x ∈ l ++ [y] ↔ x = y ∨ x ∈ l.
Proof. rewrite elem_of_app, list_elem_of_singleton. tauto. Qed.

Lemma dijkstra_add_edge_insert_both (e : edge) (adj : gmap Z (list (Z * Q))) :
  Dijkstra.add_edge e adj =
  insert_both (λ x l, l ++ [x]) (unpack e).1.1 (unpack e).1.2
              ((unpack e).1.2, (unpack e).2) ((unpack e).1.1, (unpack e).2) adj.
Proof. unfold Dijkstra.add_edge, insert_both. by destruct (unpack e) as [[v1 v2] w]. Qed.

Lemma insert_both_snoc_length {E : Type} (v1 v2 : Z) (x1 x2 : E) (adj adj' : gmap Z (list E))
    (u : Z) (l' : list E) :
  insert_both (λ x l, l ++ [x]) v1 v2 x1 x2 adj = Ok adj' →
  adj' !! u = Some l' →
  ∃ l, adj !! u = Some l ∧
       length l' = (length l + (if decide (v1 = u) then 1 else 0) +
                    (if decide (v2 = u) then 1 else 0))%nat.
Proof.
  unfold insert_both. intros Hrun Hl'.
  apply bind_Ok in Hrun as (l1 & H1 & Hrun). apply subscript_Ok in H1.
  apply bind_Ok in Hrun as (l2 & H2 & Hrun). apply subscript_Ok in H2.
  injection Hrun as <-.
  destruct (decide (v2 = u)) as [->|Hne2].
  - rewrite lookup_insert_eq in Hl'. injection Hl' as <-.
    destruct (decide (v1 = u)) as [->|Hne1].
    + rewrite lookup_insert_eq in H2. injection H2 as <-.
      exists l1. split; [done|]. rewrite !length_app. simpl. lia.
    + rewrite lookup_insert_ne in H2 by done.
      exists l2. split; [done|]. rewrite length_app. simpl. lia.
  - rewrite lookup_insert_ne in Hl' by done.
    destruct (decide (v1 = u)) as [->|Hne1].
    + rewrite lookup_insert_eq in Hl'. injection Hl' as <-.
      exists l1. split; [done|]. rewrite length_app. simpl. lia.
    + rewrite lookup_insert_ne in Hl' by done. exists l'. split; [done|]. lia.
Qed.

Lemma dijkstra_build_from (vs : list Z) (es : list edge) (adj : gmap Z (list (Z * Q)))
    (P : Z → Z * Q → Prop) :
  (∀ e, e ∈ es → (endpoints e).1 ∈ vs ∧ (endpoints e).2 ∈ vs) →
  (∀ u, is_Some (adj !! u) ↔ u ∈ vs) →
  (∀ u l x, adj !! u = Some l → x ∈ l ↔ P u x) →
  ∃ adj', for_each Dijkstra.add_edge es adj = Ok adj' ∧
    (∀ u, is_Some (adj' !! u) ↔ u ∈ vs) ∧
    (∀ u l x, adj' !! u = Some l →
       x ∈ l ↔ (P u x ∨ ∃ e, e ∈ es ∧ (unpack e = (u, x.1, x.2) ∨ unpack e = (x.1, u, x.2)))) ∧
    (∀ u l', adj' !! u = Some l' →
       ∃ l, adj !! u = Some l ∧ length l' = (length l + incidences es (λ x, x = u))%nat).
Proof.
  revert adj P. induction es as [|e es IH]; intros adj P Hes Hdom HP; simpl.
  - exists adj. split; [done|]. split; [done|]. split.
    + intros u l x Hl. rewrite (HP u l x Hl). split; [auto|].
      intros [?|(e & He & _)]; [done|]. by apply elem_of_nil in He.
    + intros u l' Hl'. exists l'. split; [done|]. unfold incidences. simpl. lia.
  - destruct (Hes e (list_elem_of_here _ _)) as [He1 He2].
    rewrite endpoints_unpack in He1, He2. simpl in He1, He2.
    rewrite dijkstra_add_edge_insert_both.
    destruct (insert_both_spec (λ (x : Z * Q) (l : list (Z * Q)), x ∈ l) (λ x l, l ++ [x])
                mem_snoc (unpack e).1.1 (unpack e).1.2
                ((unpack e).1.2, (unpack e).2) ((unpack e).1.1, (unpack e).2) adj P)
      as (adj1 & Hadd & Hdom1 & HP1); [by apply Hdom..|done|].
    rewrite Hadd. simpl.
    destruct (IH adj1 _ (λ e' He', Hes e' (list_elem_of_further _ _ _ He'))
                (λ u, transitivity (Hdom1 u) (Hdom u)) HP1)
      as (adj' & Hrun & Hdom' & HP' & Hlen').
    exists adj'. split; [done|]. split; [done|]. split.
    + intros u l [v w] Hl. rewrite (HP' u l (v, w) Hl).
      destruct (unpack e) as [[a b] c] eqn:Hab. simpl. split.
      * intros [[?|[[-> [= -> ->]]|[-> [= -> ->]]]]|(e' & He' & ?)]; [by left| | |].
        -- right. exists e. split; [apply list_elem_of_here|by left].
        -- right. exists e. split; [apply list_elem_of_here|by right].
        -- right. exists e'. split; [by apply list_elem_of_further|done].
      * intros [?|(e' & He' & He'')]; [by left; left|].
        apply elem_of_cons in He' as [->|He'].
        -- left. right. rewrite Hab in He''. destruct He'' as [[= -> -> ->]|[= -> -> ->]]; auto.
        -- right. by exists e'.
    + intros u l' Hl'. destruct (Hlen' u l' Hl') as (l1 & Hl1 & Hlen1).
      destruct (insert_both_snoc_length _ _ _ _ adj adj1 u l1 Hadd Hl1) as (l & Hl & Hlen).
      exists l. split; [done|]. rewrite incidences_cons, endpoints_unpack. simpl.
      rewrite Hlen1, Hlen.
      destruct (decide ((unpack e).1.1 = u)), (decide ((unpack e).1.2 = u)); lia.
Qed.

Lemma dijkstra_build_adj_spec (g : graph) :
  endpoints_in g → ∃ adj, Dijkstra.build_adj g = Ok adj ∧ weighted_adjacency_of g adj.
Proof.
  intros Hg. unfold Dijkstra.build_adj.
  destruct (dijkstra_build_from (vertices g) (edges g)
              (dict_of id (λ _, []) (vertices g)) (λ _ _, False) Hg)
    as (adj & Hrun & Hdom & Harc & Hlen).
  - intros u. rewrite dict_of_lookup_id. destruct (decide (u ∈ vertices g)); [by split; eauto|].
    split; [by intros [? ?]|done].
  - intros u l x. rewrite dict_of_lookup_id.
    destruct (decide (u ∈ vertices g)); [|done]. intros [= <-].
    split; [by intros ?%elem_of_nil|done].
  - exists adj. split; [done|]. split; [done| |].
    + intros u l v w Hl. rewrite (Harc u l (v, w) Hl). unfold arc. simpl. naive_solver.
    + intros u l Hl. destruct (Hlen u l Hl) as (l0 & Hl0 & Hlen0).
      rewrite dict_of_lookup_id in Hl0. destruct (decide (u ∈ vertices g)); [|done].
      injection Hl0 as <-. simpl in Hlen0. lia.
Qed.

(** ** Dijkstra: relaxing the edges of a vertex *)

Lemma dijkstra_inv_weaken (g : graph) (s : Z) (R R' : Z → Z → Q → Prop)
    (st : Dijkstra.state) :
  (∀ a b c, R' a b c → R a b c) → dijkstra_inv g s R st → dijkstra_inv g s R' st.
Proof.
  intros Hsub [H1 H2 H3 H4 H5 H6 H7 H8 Hf H9 H10 H11]. split; try done.
  - intros u v w HR. by apply (H10 u v w), Hsub.
  - intros u v w du dv HR. by apply H11, Hsub.
Qed.

Lemma relax_step (g : graph) (s : Z) (R : Z → Z → Q → Prop) (u : Z) (du : Q) (v : Z) (w : Q)
    (st : Dijkstra.state) :
  endpoints_in g → nonneg_weights g →
  dijkstra_inv g s R st →
  u ∈ Dijkstra.visited st → Dijkstra.dist st !! u = Some (Fin du) → arc g u v w →
  (∀ x dx, x ∈ Dijkstra.visited st → Dijkstra.dist st !! x = Some dx → num_le dx (Fin du)) →
  ∃ st', Dijkstra.relax u (v, w) st = Ok st' ∧
    dijkstra_inv g s (λ a b c, R a b c ∨ (a = u ∧ b = v ∧ c = w)) st' ∧
    Dijkstra.visited st' = Dijkstra.visited st ∧
    (∀ x, x ∈ Dijkstra.visited st → Dijkstra.dist st' !! x = Dijkstra.dist st !! x) ∧
    (length (Dijkstra.pq st') ≤ S (length (Dijkstra.pq st)))%nat.
Proof.
  intros Hg Hnn Hinv Hu Hdu Harc Hfar.
  pose proof (arc_nonneg g u v w Hnn Harc) as Hw.
  destruct Hinv as [Hdd Hpd Hvis Hstart Hpath Hunr Hqueued Hkeys Hfin Horder Hsrc Hrel].
  assert (v ∈ vertices g) as Hv.
  { apply (adjacent_vertices g u v Hg). by apply (arc_adjacent g u v w). }
  unfold Dijkstra.relax. destruct (decide (v ∈ Dijkstra.visited st)) as [HvV|HvV].
  - (* [v] was extracted before [u]: its distance is no larger *)
    exists st. split; [done|]. split; [|by repeat split; auto].
    split; try done.
    + intros a b c [HR|(-> & _ & _)]; [by apply (Hsrc a b c)|done].
    + intros a b c da db [HR|(-> & -> & ->)] Ha Hb; [by apply (Hrel a b c)|].
      assert (da = Fin du) as -> by congruence.
      eapply num_le_trans; [by apply (Hfar v db)|]. by apply num_add_nonneg.
  - destruct (proj2 (Hdd v) Hv) as [dv Hdv].
    apply subscript_Ok in Hdu as Hsu. apply subscript_Ok in Hdv as Hsv.
    rewrite Hsu. simpl. rewrite Hsv. simpl.
    change (match dv with Fin y => Qltb (du + w) y | Inf => true end)
      with (num_ltb (Fin (du + w)) dv).
    destruct (num_ltb (Fin (du + w)) dv) eqn:Hlt.
    + (* the entry of [v] improves *)
      assert (u ≠ v) as Huv by (intros ->; done).
      destruct (Hpath u du Hdu) as (steps & Hwalk & Hcost & Htraced).
      assert (v ≠ s) as Hvs.
      { intros ->. destruct Hstart as [Hs _]. rewrite Hs in Hdv. injection Hdv as <-.
        simpl in Hlt. apply Qltb_true in Hlt.
        pose proof (walk_cost_nonneg g s u steps Hnn Hwalk) as Hc. rewrite <- Hcost in Hc.
        apply (Qlt_not_le _ _ Hlt). rewrite <- (Qplus_0_r 0). by apply Qplus_le_compat. }
      assert (num_le (Fin (du + w)) dv) as Hle by by apply num_lt_le.
      eexists. split; [done|]. split.
      2:{ split; [done|]. split; [|simpl; lia].
          intros x Hx. simpl. rewrite lookup_insert_ne; [done|]. by intros ->. }
      split; simpl.
      * intros x. rewrite lookup_insert_is_Some, Hdd.
        destruct (decide (v = x)) as [->|?]; naive_solver.
      * intros x. rewrite lookup_insert_is_Some, Hpd.
        destruct (decide (v = x)) as [->|?]; naive_solver.
      * intros x Hx. rewrite lookup_insert_ne by (intros ->; done). by apply Hvis.
      * by rewrite !lookup_insert_ne.
      * intros x d. destruct (decide (v = x)) as [<-|Hne].
        -- rewrite lookup_insert_eq. intros [= <-].
           exists (steps ++ [(v, w)]). split; [by apply (walk_snoc g s steps u)|].
           split; [by rewrite walk_cost_snoc, Hcost|].
           apply (traced_snoc _ s _ steps u); [|done|by rewrite lookup_insert_eq|done].
           apply (traced_mono (Dijkstra.par st) _ s (Dijkstra.visited st));
             [done| |by rewrite lookup_insert_ne|done].
           intros y Hy. rewrite lookup_insert_ne; [done|]. by intros ->.
        -- rewrite lookup_insert_ne by done. intros Hx.
           destruct (Hpath x d Hx) as (steps' & Hwalk' & Hcost' & Htraced').
           exists steps'. split; [done|]. split; [done|].
           apply (traced_mono (Dijkstra.par st) _ s (Dijkstra.visited st));
             [done| |by rewrite lookup_insert_ne|done].
           intros y Hy. rewrite lookup_insert_ne; [done|]. by intros ->.
      * intros x. destruct (decide (v = x)) as [<-|Hne].
        -- by rewrite lookup_insert_eq.
        -- rewrite !lookup_insert_ne by done. apply Hunr.
      * intros x d Hx. destruct (decide (v = x)) as [<-|Hne].
        -- rewrite lookup_insert_eq. intros [= <-]. apply list_elem_of_here.
        -- rewrite lookup_insert_ne by done. intros Hd.
           apply list_elem_of_further. by apply Hqueued.
      * intros d x Hin. apply elem_of_cons in Hin as [[= -> ->]|Hin].
        -- exists (Fin (du + w)). rewrite lookup_insert_eq. split; [done|apply num_le_refl].
        -- destruct (Hkeys d x Hin) as (dx & Hdx & Hle').
           destruct (decide (v = x)) as [<-|Hne].
           ++ exists (Fin (du + w)). rewrite lookup_insert_eq. split; [done|].
              assert (dx = dv) as -> by congruence.
              eapply num_le_trans; [exact Hle|exact Hle'].
           ++ exists dx. by rewrite lookup_insert_ne.
      * intros d x Hin. apply elem_of_cons in Hin as [[= -> ->]|Hin]; [done|].
        by apply (Hfin d x).
      * intros x dx d y Hx. rewrite lookup_insert_ne by (intros ->; done).
        intros Hdx Hin. apply elem_of_cons in Hin as [[= -> ->]|Hin].
        -- eapply num_le_trans; [by apply (Hfar x dx)|].
           apply (num_add_nonneg (Fin du) w Hw).
        -- by apply (Horder x dx d y).
      * intros a b c [HR|(-> & _ & _)]; [by apply (Hsrc a b c)|done].
      * intros a b c da db [HR|(-> & -> & ->)].
        -- assert (a ≠ v) as Hav by (intros ->; by apply HvV, (Hsrc v b c)).
           rewrite (lookup_insert_ne _ v a) by done. intros Ha.
           destruct (decide (v = b)) as [<-|Hne].
           ++ rewrite lookup_insert_eq. intros [= <-].
              eapply num_le_trans; [exact Hle|]. by apply (Hrel a v c).
           ++ rewrite lookup_insert_ne by done. by apply (Hrel a b c).
        -- rewrite lookup_insert_ne, lookup_insert_eq by done.
           intros Ha [= <-]. assert (da = Fin du) as -> by congruence. apply num_le_refl.
    + (* no improvement *)
      exists st. split; [done|]. split; [|by repeat split; auto].
      split; try done.
      * intros a b c [HR|(-> & _ & _)]; [by apply (Hsrc a b c)|done].
      * intros a b c da db [HR|(-> & -> & ->)] Ha Hb; [by apply (Hrel a b c)|].
        assert (da = Fin du) as -> by congruence. assert (db = dv) as -> by congruence.
        by apply num_ltb_false.
Qed.

Lemma relax_all (g : graph) (s : Z) (u : Z) (du : Q) (l : list (Z * Q)) :
  endpoints_in g → nonneg_weights g →
  ∀ (R : Z → Z → Q → Prop) (st : Dijkstra.state),
  (∀ v w, (v, w) ∈ l → arc g u v w) →
  dijkstra_inv g s R st →
  u ∈ Dijkstra.visited st → Dijkstra.dist st !! u = Some (Fin du) →
  (∀ x dx, x ∈ Dijkstra.visited st → Dijkstra.dist st !! x = Some dx → num_le dx (Fin du)) →
  ∃ st', for_each (Dijkstra.relax u) l st = Ok st' ∧
    dijkstra_inv g s (λ a b c, R a b c ∨ (a = u ∧ (b, c) ∈ l)) st' ∧
    Dijkstra.visited st' = Dijkstra.visited st ∧
    (length (Dijkstra.pq st') ≤ length (Dijkstra.pq st) + length l)%nat.
Proof.
  intros Hg Hnn. induction l as [|[v w] l IH]; intros R st Harcs Hinv Hu Hdu Hfar.
  - exists st. split; [done|]. split; [|split; [done|simpl; lia]].
    apply (dijkstra_inv_weaken g s R); [|done].
    intros a b c [HR|[_ Hin]]; [done|]. by apply elem_of_nil in Hin.
  - destruct (relax_step g s R u du v w st Hg Hnn Hinv Hu Hdu) as
      (st1 & Hstep & Hinv1 & Hvis1 & Hsame1 & Hlen1); [|done|].
    { apply Harcs, list_elem_of_here. }
    destruct (IH (λ a b c, R a b c ∨ (a = u ∧ b = v ∧ c = w)) st1) as
      (st' & Hrun & Hinv' & Hvis' & Hlen'); [| |by rewrite Hvis1| | |].
    + intros v' w' Hin. by apply Harcs, list_elem_of_further.
    + done.
    + rewrite Hsame1; done.
    + intros x dx. rewrite Hvis1. intros Hx. rewrite Hsame1 by done. by apply Hfar.
    + exists st'. cbn [for_each]. rewrite Hstep. simpl. split; [done|].
      split; [|split; [congruence|simpl; lia]].
      eapply dijkstra_inv_weaken; [|exact Hinv'].
      intros a b c [HR|[-> Hin]]; [by left; left|].
      apply elem_of_cons in Hin as [[= -> ->]|Hin]; [left; right; done|by right].
Qed.

(** ** Dijkstra: the main loop *)

(** The loop ends within its fuel: every iteration removes a queue entry,
    and the entries it adds are paid for by the adjacency list of a vertex
    that is extracted for the first time. *)
Lemma dijkstra_loop (g : graph) (s : Z) (adj : gmap Z (list (Z * Q))) :
  endpoints_in g → nonneg_weights g → weighted_adjacency_of g adj →
  ∀ (fuel : nat) (st : Dijkstra.state),
  dijkstra_inv g s (λ u v w, u ∈ Dijkstra.visited st ∧ arc g u v w) st →
  (length (Dijkstra.pq st) + incidences (edges g) (λ x, x ∉ Dijkstra.visited st) ≤ fuel)%nat →
  ∃ st', Dijkstra.loop fuel adj st = Ok st' ∧
    dijkstra_inv g s (λ u v w, u ∈ Dijkstra.visited st' ∧ arc g u v w) st' ∧
    Dijkstra.pq st' = [].
Proof.
  intros Hg Hnn Hadj fuel. induction fuel as [|fuel IH]; intros st Hinv Hfuel.
  - destruct (Dijkstra.pq st) as [|x q] eqn:Hpq; [|simpl in Hfuel; lia].
    exists st. simpl. rewrite Hpq. done.
  - cbn [Dijkstra.loop].
    destruct (Dijkstra.heappop (Dijkstra.pq st)) as [[[d u] pq']|] eqn:Hpop.
    2:{ exists st. split; [done|]. split; [done|]. by apply heappop_None. }
    apply heappop_spec in Hpop as [Hperm Hmin].
    assert (length (Dijkstra.pq st) = S (length pq')) as Hlen by by rewrite Hperm.
    assert (∀ y, y ∈ pq' → y ∈ Dijkstra.pq st) as Hsub.
    { intros y Hy. rewrite Hperm. by apply list_elem_of_further. }
    assert ((d, u) ∈ Dijkstra.pq st) as Hhead by (rewrite Hperm; apply list_elem_of_here).
    destruct Hinv as [Hdd Hpd Hvis Hstart Hpath Hunr Hqueued Hkeys Hfin Horder Hsrc Hrel].
    destruct (decide (u ∈ Dijkstra.visited st)) as [Hu|Hu].
    + (* a stale entry *)
      apply IH; [|simpl; lia]. split; simpl; try done.
      * intros v dv Hv Hdv. pose proof (Hqueued v dv Hv Hdv) as Hin.
        rewrite Hperm in Hin. apply elem_of_cons in Hin as [[= _ ->]|Hin]; done.
      * intros d' v Hin. by apply Hkeys, Hsub.
      * intros d' v Hin. by apply (Hfin d' v), Hsub.
      * intros x dx d' v Hx Hdx Hin. by apply (Horder x dx d' v), Hsub.
    + (* [u] is extracted for the first time *)
      destruct (Hkeys d u Hhead) as (dv & Hdu & Hle).
      destruct d as [q|]; [|by destruct (Hfin Inf u Hhead)].
      destruct dv as [du|]; [|done].
      assert (num_le (Fin q) (Fin du)) as Hge.
      { apply (Hmin (Fin du, u)). by apply Hqueued. }
      assert (u ∈ vertices g) as Huv by (apply Hdd; eauto).
      destruct (proj2 (wa_dom g adj Hadj u) Huv) as [nbrs Hnbrs].
      apply subscript_Ok in Hnbrs as Hsub_adj. rewrite Hsub_adj. simpl.
      destruct (relax_all g s u du nbrs Hg Hnn
                  (λ a b c, a ∈ Dijkstra.visited st ∧ arc g a b c)
                  (Dijkstra.State (Dijkstra.dist st) (Dijkstra.par st) pq'
                                  ({[u]} ∪ Dijkstra.visited st)))
        as (st' & Hrun & Hinv' & Hvis' & Hlen'); simpl.
      * intros v w Hin. by apply (wa_arc g adj Hadj u nbrs).
      * split; simpl; try done.
        -- intros v Hv. apply elem_of_union in Hv as [Hv|Hv]; [|by apply Hvis].
           apply elem_of_singleton in Hv as ->. eauto.
        -- intros v dv Hdv. destruct (Hpath v dv Hdv) as (steps & Hwalk & Hcost & Htr).
           exists steps. split; [done|]. split; [done|].
           apply (traced_mono (Dijkstra.par st) _ s (Dijkstra.visited st)); [|done|done|done].
           apply union_subseteq_r.
        -- intros v dv Hv Hdv. assert (v ≠ u) as Hne by set_solver.
           assert (v ∉ Dijkstra.visited st) as Hv' by set_solver.
           pose proof (Hqueued v dv Hv' Hdv) as Hin.
           rewrite Hperm in Hin. apply elem_of_cons in Hin as [[= _ ->]|Hin]; done.
        -- intros d' v Hin. by apply Hkeys, Hsub.
        -- intros d' v Hin. by apply (Hfin d' v), Hsub.
        -- intros x dx d' v Hx Hdx Hin. apply elem_of_union in Hx as [Hx|Hx].
           ++ apply elem_of_singleton in Hx as ->. assert (dx = Fin du) as -> by congruence.
              eapply num_le_trans; [exact Hle|]. apply (Hmin (d', v)). by apply Hsub.
           ++ by apply (Horder x dx d' v), Hsub.
        -- intros a b c [Ha _]. by apply elem_of_union_r.
      * apply elem_of_union_l, elem_of_singleton. done.
      * done.
      * intros x dx Hx Hdx. apply elem_of_union in Hx as [Hx|Hx].
        -- apply elem_of_singleton in Hx as ->. assert (dx = Fin du) as -> by congruence.
           apply num_le_refl.
        -- eapply num_le_trans; [|exact Hge]. by apply (Horder x dx (Fin q) u).
      * simpl in Hrun, Hvis', Hlen'. rewrite Hrun. simpl. apply IH.
        -- eapply dijkstra_inv_weaken; [|exact Hinv'].
           intros a b c [Ha Harc]. simpl. rewrite Hvis' in Ha.
           apply elem_of_union in Ha as [Ha|Ha]; [|by left].
           apply elem_of_singleton in Ha as ->. right. split; [done|].
           by apply (wa_arc g adj Hadj u nbrs).
        -- rewrite Hvis'.
           pose proof (incidences_visit (edges g) (Dijkstra.visited st) u Hu) as Hinc.
           rewrite (wa_length g adj Hadj u nbrs Hnbrs) in Hlen'. lia.
Qed.

(** ** Dijkstra: before and after the loop *)

Lemma choose_start_in (v0 : Z) (rest : list Z) (start : Z) :
  Dijkstra.choose_start (v0 :: rest) start ∈ v0 :: rest.
Proof.
  unfold Dijkstra.choose_start. rewrite bool_decide_eq_false_2 by done. simpl.
  destruct (bool_decide (start ∈ v0 :: rest)) eqn:Hin; simpl.
  - by apply bool_decide_eq_true in Hin.
  - apply list_elem_of_here.
Qed.

Lemma dijkstra_init_inv (g : graph) (s : Z) :
  s ∈ vertices g →
  dijkstra_inv g s (λ u v w, u ∈ Dijkstra.visited (Dijkstra.init (vertices g) s) ∧ arc g u v w)
    (Dijkstra.init (vertices g) s).
Proof.
  intros Hs. unfold Dijkstra.init. split; simpl.
  - intros v. rewrite lookup_insert_is_Some, dict_of_lookup_id.
    destruct (decide (v ∈ vertices g)) as [Hv|Hv].
    + split; [done|]. intros _. destruct (decide (s = v)); [by left|right]. split; [done|eauto].
    + split; [|done]. intros [->|[_ [x Hx]]]; done.
  - intros v. rewrite dict_of_lookup_id.
    destruct (decide (v ∈ vertices g)) as [Hv|Hv]; [by split; eauto|].
    split; [by intros [x Hx]|done].
  - intros v Hv. by apply not_elem_of_empty in Hv.
  - rewrite lookup_insert_eq, dict_of_lookup_id, decide_True by done. done.
  - intros v d. destruct (decide (s = v)) as [<-|Hne].
    + rewrite lookup_insert_eq. intros [= <-]. exists []. repeat split; constructor.
    + rewrite lookup_insert_ne, dict_of_lookup_id by done.
      by destruct (decide (v ∈ vertices g)).
  - intros v. destruct (decide (s = v)) as [<-|Hne].
    + by rewrite lookup_insert_eq.
    + rewrite lookup_insert_ne, !dict_of_lookup_id by done.
      by destruct (decide (v ∈ vertices g)).
  - intros v d _. destruct (decide (s = v)) as [<-|Hne].
    + rewrite lookup_insert_eq. intros [= <-]. apply list_elem_of_here.
    + rewrite lookup_insert_ne, dict_of_lookup_id by done.
      by destruct (decide (v ∈ vertices g)).
  - intros d v Hin. apply list_elem_of_singleton in Hin as [= -> ->].
    exists (Fin 0). rewrite lookup_insert_eq. split; [done|apply num_le_refl].
  - intros d v Hin. by apply list_elem_of_singleton in Hin as [= -> ->].
  - intros x dx d v Hx. by apply not_elem_of_empty in Hx.
  - intros u v w [Hu _]. done.
  - intros u v w du dv [Hu _]. by apply not_elem_of_empty in Hu.
Qed.

Section dijkstra_final.
Context (g : graph) (s : Z) (st : Dijkstra.state).
Context (Hinv : dijkstra_inv g s (λ u v w, u ∈ Dijkstra.visited st ∧ arc g u v w) st).
Context (Hempty : Dijkstra.pq st = []).

(** When the queue is empty every vertex with a finite entry has been
    extracted. *)
Lemma final_visited (v : Z) (d : Q) :
  Dijkstra.dist st !! v = Some (Fin d) → v ∈ Dijkstra.visited st.
Proof.
  intros Hd. destruct (decide (v ∈ Dijkstra.visited st)) as [|Hv]; [done|].
  pose proof (di_queued _ _ _ _ Hinv v d Hv Hd) as Hin.
  rewrite Hempty in Hin. by apply elem_of_nil in Hin.
Qed.

(** No walk from the start is cheaper than the entry of its end vertex. *)
Lemma final_lower_bound (steps : list (Z * Q)) (v : Z) :
  endpoints_in g → walk g s steps v →
  ∃ d, Dijkstra.dist st !! v = Some (Fin d) ∧ (d <= walk_cost steps)%Q.
Proof.
  intros Hg. induction 1 as [|steps u v w Hwalk IH Harc].
  - exists 0%Q. split; [apply (di_start _ _ _ _ Hinv)|apply Qle_refl].
  - destruct IH as (du & Hdu & Hle).
    assert (v ∈ vertices g) as Hv.
    { apply (adjacent_vertices g u v Hg). by apply (arc_adjacent g u v w). }
    apply (di_dist_dom _ _ _ _ Hinv) in Hv as [dv Hdv].
    pose proof (di_relaxed _ _ _ _ Hinv u v w (Fin du) dv
                  (conj (final_visited u du Hdu) Harc) Hdu Hdv) as Hrel.
    destruct dv as [d|]; [|done]. exists d. split; [done|].
    rewrite walk_cost_snoc. simpl in Hrel.
    eapply Qle_trans; [exact Hrel|]. apply Qplus_le_compat; [done|apply Qle_refl].
Qed.

Lemma final_unreached (v : Z) :
  v ∈ vertices g → ¬ connected g s v →
  Dijkstra.dist st !! v = Some Inf ∧ Dijkstra.par st !! v = Some (-1).
Proof.
  intros Hv Hnot. apply (di_dist_dom _ _ _ _ Hinv) in Hv as [[d|] Hd].
  - destruct (di_path _ _ _ _ Hinv v d Hd) as (steps & Hwalk & _).
    destruct Hnot. by apply (walk_connected g s v steps).
  - split; [done|]. by apply (di_unreached _ _ _ _ Hinv).
Qed.

(** The trace kept in the loop's parent map is the trace in the exported
    map. *)
Lemma traced_exported (ps : gmap pykey Z) (steps : list (Z * Q)) (v : Z) :
  Dijkstra.export (Dijkstra.par st) (vertices g) = Ok ps →
  traced (Dijkstra.par st) s (Dijkstra.visited st) steps v → parent_trace ps s steps v.
Proof.
  intros Hexp. induction 1 as [|steps u v w Htr IH Hu Hpar Hne]; [constructor|].
  apply (parent_trace_snoc ps s steps u); [done| |done].
  assert (v ∈ vertices g) as Hv by (apply (di_par_dom _ _ _ _ Hinv); eauto).
  destruct (export_lookup_str _ _ _ _ Hexp Hv) as [-> _]. done.
Qed.
End dijkstra_final.

(** ** Dijkstra: shortest paths *)


Lemma path4_nonneg_weights : nonneg_weights path4.
Proof.
  intros e He. unfold path4 in *. simpl in *.
  repeat (apply elem_of_cons in He; destruct He as [->|He]; [done|]).
  by apply elem_of_nil in He.
Qed.


(** ** Generated graphs *)

Lemma range_elem (n x : Z) : x ∈ GraphGenerator.range n ↔ 0 ≤ x < n.
Proof. unfold GraphGenerator.range. rewrite elem_of_seqZ. lia. Qed.

Lemma range_from_elem (a b x : Z) : x ∈ GraphGenerator.range_from a b ↔ a ≤ x < b.
Proof. unfold GraphGenerator.range_from. rewrite elem_of_seqZ. lia. Qed.

(** Consecutive integers that are adjacent make every two of them connected. *)
Lemma chain_connected (g : graph) (n : Z) :
  (∀ i, 0 ≤ i → i + 1 < n → adjacent g i (i + 1)) →
  ∀ a b, 0 ≤ a < n → 0 ≤ b < n → connected g a b.
Proof.
  intros Hstep.
  assert (∀ k : nat, ∀ a, 0 ≤ a → a + Z.of_nat k < n → connected g a (a + Z.of_nat k)) as Hup.
  { induction k as [|k IH]; intros a Ha Hk.
    - replace (a + Z.of_nat 0) with a by lia. apply rtc_refl.
    - eapply rtc_r; [apply (IH a Ha); lia|].
      replace (a + Z.of_nat (S k)) with (a + Z.of_nat k + 1) by lia.
      apply Hstep; lia. }
  intros a b Ha Hb. destruct (decide (a ≤ b)) as [Hle|Hgt].
  - replace b with (a + Z.of_nat (Z.to_nat (b - a))) by lia. apply Hup; lia.
  - apply connected_sym.
    replace a with (b + Z.of_nat (Z.to_nat (a - b))) by lia. apply Hup; lia.
Qed.

Lemma path_graph_arc (n : Z) (w : Q) (a b : Z) (w' : Q) :
  arc (GraphGenerator.graph_data (GraphGenerator.generate_path_graph n w)) a b w' ↔
  w' = w ∧ ((0 ≤ a ∧ b = a + 1 ∧ b < n) ∨ (0 ≤ b ∧ a = b + 1 ∧ a < n)).
Proof.
  unfold arc. simpl. split.
  - intros (e & He & Hab). apply list_elem_of_fmap in He as (i & -> & Hi).
    apply range_elem in Hi. simpl in Hab.
    destruct Hab as [[= <- <- <-]|[= <- <- <-]]; (split; [done|lia]).
  - intros [-> [(Ha & -> & Hb)|(Hb & -> & Ha)]].
    + exists (E3 a (a + 1) w). split; [|by left].
      apply list_elem_of_fmap. exists a. split; [done|]. apply range_elem. lia.
    + exists (E3 b (b + 1) w). split; [|by right].
      apply list_elem_of_fmap. exists b. split; [done|]. apply range_elem. lia.
Qed.

Lemma path_graph_connected (n : Z) (w : Q) (a b : Z) :
  a ∈ GraphGenerator.range n → b ∈ GraphGenerator.range n →
  connected (GraphGenerator.graph_data (GraphGenerator.generate_path_graph n w)) a b.
Proof.
  intros Ha Hb. apply range_elem in Ha, Hb.
  apply (chain_connected _ n); [|done|done].
  intros i Hi Hn. apply (arc_adjacent _ i (i + 1) w), path_graph_arc.
  split; [done|]. left. lia.
Qed.

(** [X1] [generate_path_graph(n, w)] lists the vertices [0 .. n-1] once each
    and has [max(n - 1, 0)] edges, all of weight [w]: an edge joins [a] and
    [b] exactly when they are consecutive integers of [0 .. n-1].  Any two of
    its vertices are joined by a chain of edges.  The field [num_vertices]
    repeats the argument, so it is the number of listed vertices only when
    [n >= 0]. *)
Theorem generate_path_graph_shape (n : Z) (w : Q) :
  let d := GraphGenerator.generate_path_graph n w in
  let g := GraphGenerator.graph_data d in
  NoDup (vertices g) ∧
  (∀ v, v ∈ vertices g ↔ 0 ≤ v < n) ∧
  (GraphGenerator.num_vertices d = Z.of_nat (length (vertices g)) ↔ 0 ≤ n) ∧
  GraphGenerator.num_edges d = Z.max 0 (n - 1) ∧
  Z.of_nat (length (edges g)) = GraphGenerator.num_edges d ∧
  (∀ a b w', arc g a b w' ↔
     w' = w ∧ ((0 ≤ a ∧ b = a + 1 ∧ b < n) ∨ (0 ≤ b ∧ a = b + 1 ∧ a < n))) ∧
  (∀ a b, a ∈ vertices g → b ∈ vertices g → connected g a b).
Proof.
  intros d g. split; [apply NoDup_seqZ|]. split; [intros v; apply range_elem|].
  split; [simpl; unfold GraphGenerator.range; rewrite length_seqZ; lia|].
  split; [simpl; unfold GraphGenerator.range; rewrite length_fmap, length_seqZ; lia|].
  split; [done|]. split; [apply path_graph_arc|].
  apply path_graph_connected.
Qed.

Lemma length_filter_fmap {A B : Type} (f : A → B) (P : B → Prop) `{∀ x, Decision (P x)}
    (l : list A) :
  length (filter P (f <$> l)) = length (filter (λ x, P (f x)) l).
Proof.
  induction l as [|x l IH]; [done|]. rewrite fmap_cons, !filter_cons.
  destruct (decide (P (f x))); simpl; by rewrite IH.
Qed.

Lemma cycle_graph_arc (n : Z) (w : Q) (a b : Z) (w' : Q) :
  arc (GraphGenerator.graph_data (GraphGenerator.generate_cycle_graph n w)) a b w' ↔
  w' = w ∧ ((0 ≤ a < n ∧ b = (a + 1) `mod` n) ∨ (0 ≤ b < n ∧ a = (b + 1) `mod` n)).
Proof.
  unfold arc. simpl. split.
  - intros (e & He & Hab). apply list_elem_of_fmap in He as (i & -> & Hi).
    apply range_elem in Hi. simpl in Hab.
    destruct Hab as [[= <- <- <-]|[= <- <- <-]]; (split; [done|]); [left|right]; done.
  - intros [-> [(Ha & ->)|(Hb & ->)]].
    + exists (E3 a ((a + 1) `mod` n) w). split; [|by left].
      apply list_elem_of_fmap. exists a. split; [done|]. by apply range_elem.
    + exists (E3 b ((b + 1) `mod` n) w). split; [|by right].
      apply list_elem_of_fmap. exists b. split; [done|]. by apply range_elem.
Qed.

Lemma succ_mod_small (n i : Z) : 0 ≤ i → i + 1 < n → (i + 1) `mod` n = i + 1.
Proof. intros Hi Hn. apply Z.mod_small. lia. Qed.

Lemma succ_mod_wrap (n : Z) : 0 < n → (n - 1 + 1) `mod` n = 0.
Proof. intros Hn. replace (n - 1 + 1) with n by lia. apply Z.mod_same. lia. Qed.

Lemma succ_mod_inj (n x y : Z) :
  0 ≤ x < n → 0 ≤ y < n → (x + 1) `mod` n = (y + 1) `mod` n → x = y.
Proof.
  intros Hx Hy. destruct (decide (x + 1 = n)) as [Hxn|Hxn], (decide (y + 1 = n)) as [Hyn|Hyn].
  - lia.
  - rewrite Hxn, Z.mod_same, (succ_mod_small n y) by lia. lia.
  - rewrite Hyn, Z.mod_same, (succ_mod_small n x) by lia. lia.
  - rewrite (succ_mod_small n x), (succ_mod_small n y) by lia. lia.
Qed.

Lemma cycle_graph_connected (n : Z) (w : Q) (a b : Z) :
  a ∈ GraphGenerator.range n → b ∈ GraphGenerator.range n →
  connected (GraphGenerator.graph_data (GraphGenerator.generate_cycle_graph n w)) a b.
Proof.
  intros Ha Hb. apply range_elem in Ha, Hb.
  apply (chain_connected _ n); [|done|done].
  intros i Hi Hn. apply (arc_adjacent _ i (i + 1) w), cycle_graph_arc.
  split; [done|]. left. split; [lia|]. by rewrite succ_mod_small.
Qed.

(** [X2] [generate_cycle_graph(n, w)] lists the vertices [0 .. n-1] once each
    and has [max(n, 0)] edges of weight [w]: an edge joins [a] and [b]
    exactly when one is the successor of the other modulo [n].  Every vertex
    is an end of an edge exactly twice, any two vertices are joined by a
    chain of edges, and an edge joins a vertex to itself exactly when
    [n = 1]. *)
Theorem generate_cycle_graph_shape (n : Z) (w : Q) :
  let d := GraphGenerator.generate_cycle_graph n w in
  let g := GraphGenerator.graph_data d in
  NoDup (vertices g) ∧
  (∀ v, v ∈ vertices g ↔ 0 ≤ v < n) ∧
  GraphGenerator.num_edges d = Z.max 0 n ∧
  Z.of_nat (length (edges g)) = GraphGenerator.num_edges d ∧
  (∀ a b w', arc g a b w' ↔
     w' = w ∧ ((0 ≤ a < n ∧ b = (a + 1) `mod` n) ∨ (0 ≤ b < n ∧ a = (b + 1) `mod` n))) ∧
  (∀ v, v ∈ vertices g → incidences (edges g) (λ x, x = v) = 2%nat) ∧
  (∀ a b, a ∈ vertices g → b ∈ vertices g → connected g a b) ∧
  (loop_free g ↔ n ≠ 1).
Proof.
  intros d g. split; [apply NoDup_seqZ|]. split; [intros v; apply range_elem|].
  split; [simpl; unfold GraphGenerator.range; rewrite length_fmap, length_seqZ; lia|].
  split; [done|]. split; [apply cycle_graph_arc|]. split; [|split].
  - intros v Hv. apply range_elem in Hv. unfold incidences. simpl.
    rewrite !length_filter_fmap. simpl.
    rewrite (filter_one (λ x, x = v)), (filter_one (λ x, (x + 1) `mod` n = v)); try done.
    + apply NoDup_seqZ.
    + exists ((v - 1) `mod` n). split.
      * apply range_elem. apply Z.mod_pos_bound. lia.
      * rewrite Z.add_mod_idemp_l by lia. replace (v - 1 + 1) with v by lia.
        apply Z.mod_small. lia.
    + intros x y Hx Hy Hxv Hyv. apply range_elem in Hx, Hy.
      apply (succ_mod_inj n); [done|done|congruence].
    + apply NoDup_seqZ.
    + exists v. split; [by apply range_elem|done].
    + intros x y _ _. congruence.
  - apply cycle_graph_connected.
  - split.
    + intros Hfree ->. apply (Hfree (E3 0 0 w)); [|done]. simpl. apply list_elem_of_here.
    + intros Hn e He. simpl in He. apply list_elem_of_fmap in He as (i & -> & Hi).
      apply range_elem in Hi. simpl. intros Heq.
      destruct (decide (i + 1 = n)) as [Hin|Hin].
      * rewrite Hin, Z.mod_same in Heq by lia. lia.
      * rewrite succ_mod_small in Heq by lia. lia.
Qed.

Lemma complete_graph_edge (n : Z) (w : Q) (e : edge) :
  e ∈ GraphGenerator.gen_edges (GraphGenerator.generate_complete_graph n w) ↔
  ∃ v1 v2, e = E3 v1 v2 w ∧ 0 ≤ v1 ∧ v1 < v2 ∧ v2 < n.
Proof.
  simpl. rewrite list_elem_of_bind. split.
  - intros (v1 & He & Hv1). apply list_elem_of_fmap in He as (v2 & -> & Hv2).
    apply range_elem in Hv1. apply range_from_elem in Hv2. exists v1, v2. split; [done|lia].
  - intros (v1 & v2 & -> & H1 & H12 & H2). exists v1. split.
    + apply list_elem_of_fmap. exists v2. split; [done|]. apply range_from_elem. lia.
    + apply range_elem. lia.
Qed.

Lemma complete_graph_arc (n : Z) (w : Q) (a b : Z) (w' : Q) :
  arc (GraphGenerator.graph_data (GraphGenerator.generate_complete_graph n w)) a b w' ↔
  w' = w ∧ 0 ≤ a < n ∧ 0 ≤ b < n ∧ a ≠ b.
Proof.
  unfold arc. split.
  - intros (e & He & Hab). apply complete_graph_edge in He as (v1 & v2 & -> & H1 & H12 & H2).
    simpl in Hab. destruct Hab as [[= <- <- <-]|[= <- <- <-]]; (split; [done|lia]).
  - intros (-> & Ha & Hb & Hne). destruct (decide (a < b)) as [Hlt|Hge].
    + exists (E3 a b w). split; [|by left]. apply complete_graph_edge. exists a, b. split; [done|lia].
    + exists (E3 b a w). split; [|by right]. apply complete_graph_edge. exists b, a. split; [done|lia].
Qed.

Lemma sum_list_cons (x : nat) (l : list nat) : sum_list (x :: l) = (x + sum_list l)%nat.
Proof. done. Qed.

Lemma length_bind {A B : Type} (f : A → list B) (l : list A) :
  length (l ≫= f) = sum_list ((λ x, length (f x)) <$> l).
Proof.
  induction l as [|x l IH]; [done|]. rewrite fmap_cons, sum_list_cons, <- IH, <- length_app.
  done.
Qed.

(** [sum(n - 1 - i for i in range(n - k, n))], doubled, is [k * (k - 1)]. *)
Lemma triangle_sum (n : Z) (k : nat) :
  (2 * Z.of_nat (sum_list ((λ v1, length (GraphGenerator.range_from (v1 + 1) n))
                             <$> seqZ (n - Z.of_nat k) (Z.of_nat k))))
  = Z.of_nat k * (Z.of_nat k - 1).
Proof.
  induction k as [|k IH]; [done|].
  rewrite seqZ_cons by lia. rewrite fmap_cons, sum_list_cons.
  replace (Z.succ (n - Z.of_nat (S k))) with (n - Z.of_nat k) by lia.
  replace (Z.pred (Z.of_nat (S k))) with (Z.of_nat k) by lia.
  set (s := sum_list _) in *.
  unfold GraphGenerator.range_from. rewrite length_seqZ.
  rewrite Nat2Z.inj_add, Z2Nat.id by lia. nia.
Qed.

Lemma complete_graph_connected (n : Z) (w : Q) (a b : Z) :
  a ∈ GraphGenerator.range n → b ∈ GraphGenerator.range n →
  connected (GraphGenerator.graph_data (GraphGenerator.generate_complete_graph n w)) a b.
Proof.
  intros Ha Hb. apply range_elem in Ha, Hb.
  apply (chain_connected _ n); [|done|done].
  intros i Hi Hn. apply (arc_adjacent _ i (i + 1) w), complete_graph_arc. split; [done|lia].
Qed.

(** [X3] [generate_complete_graph(n, w)] lists the vertices [0 .. n-1] once
    each and has [n * (n - 1) / 2] edges (none when [n <= 0]), all of weight
    [w] and written from the smaller to the larger end, no pair twice: an
    edge joins [a] and [b] exactly when they are distinct vertices. *)
Theorem generate_complete_graph_shape (n : Z) (w : Q) :
  let d := GraphGenerator.generate_complete_graph n w in
  let g := GraphGenerator.graph_data d in
  NoDup (vertices g) ∧
  (∀ v, v ∈ vertices g ↔ 0 ≤ v < n) ∧
  GraphGenerator.num_edges d = Z.max 0 n * (Z.max 0 n - 1) / 2 ∧
  Z.of_nat (length (edges g)) = GraphGenerator.num_edges d ∧
  (∀ e, e ∈ edges g ↔ ∃ v1 v2, e = E3 v1 v2 w ∧ 0 ≤ v1 ∧ v1 < v2 ∧ v2 < n) ∧
  NoDup (endpoints <$> edges g) ∧
  (∀ a b w', arc g a b w' ↔ w' = w ∧ 0 ≤ a < n ∧ 0 ≤ b < n ∧ a ≠ b) ∧
  (∀ a b, a ∈ vertices g → b ∈ vertices g → connected g a b).
Proof.
  intros d g. split; [apply NoDup_seqZ|]. split; [intros v; apply range_elem|].
  split; [|split; [done|]].
  { simpl. rewrite length_bind. unfold GraphGenerator.range.
    rewrite (list_fmap_ext _ (λ v1, length (GraphGenerator.range_from (v1 + 1) n)) (seqZ 0 n))
      by (intros i x _; apply length_fmap).
    pose proof (triangle_sum (Z.max 0 n) (Z.to_nat (Z.max 0 n))) as Hsum.
    replace (Z.max 0 n - Z.of_nat (Z.to_nat (Z.max 0 n))) with 0 in Hsum by lia.
    replace (Z.of_nat (Z.to_nat (Z.max 0 n))) with (Z.max 0 n) in Hsum by lia.
    destruct (decide (0 ≤ n)) as [Hn|Hn].
    - replace (Z.max 0 n) with n in * by lia. rewrite <- Hsum.
      rewrite Z.mul_comm, Z.div_mul by lia. done.
    - rewrite (seqZ_nil 0 n) by lia. replace (Z.max 0 n) with 0 by lia. done. }
  split; [apply complete_graph_edge|]. split; [|split].
  - apply NoDup_fmap_2_strong.
    + intros e1 e2 H1 H2. apply complete_graph_edge in H1 as (a1 & b1 & -> & _).
      apply complete_graph_edge in H2 as (a2 & b2 & -> & _). simpl. congruence.
    + simpl. apply NoDup_bind; [| |apply NoDup_seqZ].
      * intros x1 x2 y _ _ H1 H2.
        apply list_elem_of_fmap in H1 as (v & -> & _).
        apply list_elem_of_fmap in H2 as (v' & Heq & _). congruence.
      * intros x _. apply NoDup_fmap_2; [|apply NoDup_seqZ].
        intros v v'. congruence.
  - apply complete_graph_arc.
  - apply complete_graph_connected.
Qed.

Lemma grid_graph_edge (rows cols : Z) (w : Q) (e : edge) :
  e ∈ GraphGenerator.gen_edges (GraphGenerator.generate_grid_graph rows cols w) ↔
  ∃ a b, e = E3 a b w ∧ grid_step rows cols a b.
Proof.
  simpl. rewrite list_elem_of_bind. split.
  - intros (r & He & Hr). apply list_elem_of_bind in He as (c & He & Hc).
    apply range_elem in Hr, Hc. unfold GraphGenerator.grid_cell in He.
    apply elem_of_app in He as [He|He].
    + destruct (Z.ltb_spec c (cols - 1)) as [Hlt|Hge]; [|by apply elem_of_nil in He].
      apply list_elem_of_singleton in He as ->. eexists _, _. split; [done|].
      exists r, c. split; [done|]. split; [done|]. split; [done|]. left. split; [lia|done].
    + destruct (Z.ltb_spec r (rows - 1)) as [Hlt|Hge]; [|by apply elem_of_nil in He].
      apply list_elem_of_singleton in He as ->. eexists _, _. split; [done|].
      exists r, c. split; [done|]. split; [done|]. split; [done|]. right. split; [lia|done].
  - intros (a & b & -> & r & c & Hr & Hc & -> & Hstep). exists r. split; [|by apply range_elem].
    apply list_elem_of_bind. exists c. split; [|by apply range_elem].
    unfold GraphGenerator.grid_cell. apply elem_of_app.
    destruct Hstep as [[Hlt ->]|[Hlt ->]]; [left|right].
    + destruct (Z.ltb_spec c (cols - 1)) as [_|Hge]; [apply list_elem_of_here|lia].
    + destruct (Z.ltb_spec r (rows - 1)) as [_|Hge]; [apply list_elem_of_here|lia].
Qed.

Lemma grid_graph_arc (rows cols : Z) (w : Q) (a b : Z) (w' : Q) :
  arc (GraphGenerator.graph_data (GraphGenerator.generate_grid_graph rows cols w)) a b w' ↔
  w' = w ∧ (grid_step rows cols a b ∨ grid_step rows cols b a).
Proof.
  unfold arc. split.
  - intros (e & He & Hab). apply grid_graph_edge in He as (x & y & -> & Hstep).
    simpl in Hab. destruct Hab as [[= <- <- <-]|[= <- <- <-]]; (split; [done|]); [by left|by right].
  - intros [-> [Hstep|Hstep]].
    + exists (E3 a b w). split; [|by left]. apply grid_graph_edge. by exists a, b.
    + exists (E3 b a w). split; [|by right]. apply grid_graph_edge. by exists b, a.
Qed.

Lemma grid_step_bounds (rows cols a b : Z) :
  grid_step rows cols a b → 0 ≤ a < rows * cols ∧ 0 ≤ b < rows * cols.
Proof.
  intros (r & c & Hr & Hc & -> & Hstep). destruct Hstep as [[Hlt ->]|[Hlt ->]]; nia.
Qed.

Lemma sum_list_snoc (l : list nat) (x : nat) : sum_list (l ++ [x]) = (sum_list l + x)%nat.
Proof.
  induction l as [|y l IH]; [simpl; lia|]. rewrite <- app_comm_cons, !sum_list_cons, IH. lia.
Qed.

(** [sum(1 for c in range(n) if c < k)]. *)
Lemma sum_below (k : Z) (n : nat) :
  sum_list ((λ c, if c <? k then 1%nat else 0%nat) <$> seqZ 0 (Z.of_nat n))
  = Z.to_nat (Z.min k (Z.of_nat n)).
Proof.
  induction n as [|n IH]; [simpl; lia|].
  rewrite seqZ_S, fmap_app, fmap_cons, fmap_nil, sum_list_snoc, IH.
  destruct (Z.ltb_spec (0 + Z.of_nat n) k); lia.
Qed.

Lemma sum_below_Z (k n : Z) :
  sum_list ((λ c, if c <? k then 1%nat else 0%nat) <$> seqZ 0 n)
  = Z.to_nat (Z.min k (Z.max 0 n)).
Proof.
  destruct (decide (0 ≤ n)) as [Hn|Hn].
  - rewrite <- (Z2Nat.id n Hn) at 1. rewrite sum_below. f_equal. lia.
  - rewrite seqZ_nil by lia. simpl. lia.
Qed.

Lemma sum_list_const (x : nat) (l : list Z) :
  sum_list ((λ _, x) <$> l) = (length l * x)%nat.
Proof. induction l as [|y l IH]; [done|]. rewrite fmap_cons, sum_list_cons, IH. simpl. lia. Qed.

Lemma sum_list_plus (f h : Z → nat) (l : list Z) :
  sum_list ((λ x, f x + h x)%nat <$> l) = (sum_list (f <$> l) + sum_list (h <$> l))%nat.
Proof.
  induction l as [|y l IH]; [done|]. rewrite !fmap_cons, !sum_list_cons, IH. lia.
Qed.

Lemma grid_graph_count (rows cols : Z) (w : Q) :
  Z.of_nat (length (GraphGenerator.gen_edges (GraphGenerator.generate_grid_graph rows cols w)))
  = Z.max 0 rows * Z.max 0 (cols - 1) + Z.max 0 (rows - 1) * Z.max 0 cols.
Proof.
  simpl. rewrite length_bind.
  rewrite (list_fmap_ext _
             (λ r, (Z.to_nat (Z.min (cols - 1) (Z.max 0 cols)) +
                    (if (r <? rows - 1)%Z then 1 else 0) * Z.to_nat cols)%nat)
             (GraphGenerator.range rows)).
  2:{ intros i r _. simpl. rewrite length_bind.
      rewrite (list_fmap_ext _
                 (λ c, ((if (c <? cols - 1)%Z then 1 else 0) +
                        (if (r <? rows - 1)%Z then 1 else 0))%nat)
                 (GraphGenerator.range cols)).
      2:{ intros j c _. simpl. unfold GraphGenerator.grid_cell. rewrite length_app.
          by destruct (c <? cols - 1)%Z, (r <? rows - 1)%Z. }
      rewrite sum_list_plus, sum_list_const. unfold GraphGenerator.range.
      rewrite length_seqZ, sum_below_Z. destruct (r <? rows - 1)%Z; lia. }
  rewrite sum_list_plus, sum_list_const. unfold GraphGenerator.range. rewrite length_seqZ.
  assert (sum_list ((λ r, ((if (r <? rows - 1)%Z then 1 else 0) * Z.to_nat cols)%nat)
                      <$> seqZ 0 rows)
          = (Z.to_nat (Z.min (rows - 1) (Z.max 0 rows)) * Z.to_nat cols)%nat) as ->.
  { rewrite <- sum_below_Z. generalize (seqZ 0 rows). intros l.
    induction l as [|y l IH]; [done|]. rewrite !fmap_cons, !sum_list_cons, IH. lia. }
  nia.
Qed.

Lemma grid_graph_connected (rows cols : Z) (w : Q) :
  0 < rows → 0 < cols →
  ∀ a b, a ∈ GraphGenerator.range (rows * cols) → b ∈ GraphGenerator.range (rows * cols) →
  connected (GraphGenerator.graph_data (GraphGenerator.generate_grid_graph rows cols w)) a b.
Proof.
  intros Hrows Hcols.
  set (g := GraphGenerator.graph_data (GraphGenerator.generate_grid_graph rows cols w)).
  assert (∀ a b, grid_step rows cols a b → adjacent g a b) as Hadj.
  { intros a b Hstep. apply (arc_adjacent g a b w), grid_graph_arc. split; [done|by left]. }
  assert (∀ k : nat, Z.of_nat k < rows → connected g 0 (Z.of_nat k * cols)) as Hdown.
  { induction k as [|k IH]; intros Hk; [apply rtc_refl|].
    eapply rtc_r; [apply IH; lia|]. apply Hadj.
    exists (Z.of_nat k), 0. split; [lia|]. split; [lia|]. split; [lia|]. right. lia. }
  assert (∀ r (k : nat), 0 ≤ r < rows → Z.of_nat k < cols →
            connected g (r * cols) (r * cols + Z.of_nat k)) as Hright.
  { intros r k Hr. induction k as [|k IH]; intros Hk.
    - replace (r * cols + Z.of_nat 0) with (r * cols) by lia. apply rtc_refl.
    - eapply rtc_r; [apply IH; lia|]. apply Hadj.
      exists r, (Z.of_nat k). split; [lia|]. split; [lia|]. split; [lia|]. left. lia. }
  assert (∀ v, 0 ≤ v < rows * cols → connected g 0 v) as Hzero.
  { intros v Hv. pose proof (Z.div_mod v cols ltac:(lia)) as Hdm.
    pose proof (Z.mod_pos_bound v cols Hcols) as Hmod.
    assert (0 ≤ v `div` cols < rows) as Hdiv.
    { split; [apply Z.div_pos; lia|]. apply Z.div_lt_upper_bound; lia. }
    eapply connected_trans.
    - apply (Hdown (Z.to_nat (v `div` cols))). lia.
    - rewrite Z2Nat.id by lia.
      replace v with (v `div` cols * cols + Z.of_nat (Z.to_nat (v `mod` cols))) at 2 by lia.
      apply Hright; lia. }
  intros a b Ha Hb. apply range_elem in Ha, Hb.
  eapply connected_trans; [apply connected_sym, Hzero|apply Hzero]; done.
Qed.

(** [X4] [generate_grid_graph(rows, cols, w)] lists the vertices
    [0 .. rows*cols - 1] once each, numbered row by row, and reports their
    number.  An edge of weight [w] joins every cell to its right and to its
    lower neighbour, and there is no other edge; both ends of every edge are
    listed vertices.  The edge count is [rows*(cols-1) + (rows-1)*cols] for
    positive dimensions and [0] otherwise, although two negative dimensions
    still give [rows*cols] vertices.  With positive dimensions any two
    vertices are joined by a chain of edges. *)
Theorem generate_grid_graph_shape (rows cols : Z) (w : Q) :
  let d := GraphGenerator.generate_grid_graph rows cols w in
  let g := GraphGenerator.graph_data d in
  NoDup (vertices g) ∧
  (∀ v, v ∈ vertices g ↔ 0 ≤ v < rows * cols) ∧
  GraphGenerator.num_vertices d = Z.max 0 (rows * cols) ∧
  GraphGenerator.num_edges d =
    Z.max 0 rows * Z.max 0 (cols - 1) + Z.max 0 (rows - 1) * Z.max 0 cols ∧
  Z.of_nat (length (edges g)) = GraphGenerator.num_edges d ∧
  (∀ a b w', arc g a b w' ↔ w' = w ∧ (grid_step rows cols a b ∨ grid_step rows cols b a)) ∧
  endpoints_in g ∧
  (0 < rows → 0 < cols → ∀ a b, a ∈ vertices g → b ∈ vertices g → connected g a b).
Proof.
  intros d g. split; [apply NoDup_seqZ|]. split; [intros v; apply range_elem|].
  split; [simpl; unfold GraphGenerator.range; rewrite length_seqZ; lia|].
  split; [apply grid_graph_count|]. split; [done|]. split; [apply grid_graph_arc|].
  split.
  - intros e He. apply grid_graph_edge in He as (a & b & -> & Hstep).
    apply grid_step_bounds in Hstep. simpl. split; apply range_elem; lia.
  - apply grid_graph_connected.
Qed.

(** ** Dijkstra on arbitrary weights *)

Lemma dijkstra_reach_weaken (g : graph) (s : Z) (R R' : Z → Z → Q → Prop)
    (st : Dijkstra.state) :
  (∀ a b c, R' a b c → R a b c) → dijkstra_reach g s R st → dijkstra_reach g s R' st.
Proof.
  intros Hsub [H1 H2 H3 H4 H5 H6 H7 H8 H9 H10]. split; try done.
  - intros u v w HR. by apply (H9 u v w), Hsub.
  - intros u v w HR. by apply (H10 u v w), Hsub.
Qed.

Lemma relax_reach (g : graph) (s : Z) (R : Z → Z → Q → Prop) (u : Z) (du : Q) (v : Z) (w : Q)
    (st : Dijkstra.state) :
  endpoints_in g →
  dijkstra_reach g s R st →
  u ∈ Dijkstra.visited st → Dijkstra.dist st !! u = Some (Fin du) → arc g u v w →
  ∃ st', Dijkstra.relax u (v, w) st = Ok st' ∧
    dijkstra_reach g s (λ a b c, R a b c ∨ (a = u ∧ b = v ∧ c = w)) st' ∧
    Dijkstra.visited st' = Dijkstra.visited st ∧
    (∀ x, x ∈ Dijkstra.visited st → Dijkstra.dist st' !! x = Dijkstra.dist st !! x) ∧
    (length (Dijkstra.pq st') ≤ S (length (Dijkstra.pq st)))%nat.
Proof.
  intros Hg Hinv Hu Hdu Harc.
  destruct Hinv as [Hdd Hpd Hvis Hstart Hpath Hunr Hqueued Hkeys Hsrc Hrel].
  assert (v ∈ vertices g) as Hv.
  { apply (adjacent_vertices g u v Hg). by apply (arc_adjacent g u v w). }
  assert (s ∈ Dijkstra.visited st) as Hs.
  { destruct Hstart as (_ & _ & [Hs|[Hempty _]]); [done|]. rewrite Hempty in Hu.
    by apply not_elem_of_empty in Hu. }
  unfold Dijkstra.relax. destruct (decide (v ∈ Dijkstra.visited st)) as [HvV|HvV].
  - exists st. split; [done|]. split; [|by repeat split; auto].
    split; try done.
    + intros a b c [HR|(-> & _ & _)]; [by apply (Hsrc a b c)|done].
    + intros a b c [HR|(-> & -> & ->)]; [by apply (Hrel a b c)|by apply Hvis].
  - destruct (proj2 (Hdd v) Hv) as [dv Hdv].
    apply subscript_Ok in Hdu as Hsu. apply subscript_Ok in Hdv as Hsv.
    rewrite Hsu. simpl. rewrite Hsv. simpl.
    change (match dv with Fin y => Qltb (du + w) y | Inf => true end)
      with (num_ltb (Fin (du + w)) dv).
    destruct (num_ltb (Fin (du + w)) dv) eqn:Hlt.
    + assert (u ≠ v) as Huv by (intros ->; done).
      assert (v ≠ s) as Hvs by (intros ->; done).
      destruct (Hpath u du Hdu) as (steps & Hwalk & Hcost & Htraced).
      eexists. split; [done|]. split.
      2:{ split; [done|]. split; [|simpl; lia].
          intros x Hx. simpl. rewrite lookup_insert_ne; [done|]. by intros ->. }
      split; simpl.
      * intros x. rewrite lookup_insert_is_Some, Hdd.
        destruct (decide (v = x)) as [->|?]; naive_solver.
      * intros x. rewrite lookup_insert_is_Some, Hpd.
        destruct (decide (v = x)) as [->|?]; naive_solver.
      * intros x Hx. rewrite lookup_insert_ne by (intros ->; done). by apply Hvis.
      * rewrite !lookup_insert_ne by done. destruct Hstart as (H1 & H2 & _). auto.
      * intros x d. destruct (decide (v = x)) as [<-|Hne].
        -- rewrite lookup_insert_eq. intros [= <-].
           exists (steps ++ [(v, w)]). split; [by apply (walk_snoc g s steps u)|].
           split; [by rewrite walk_cost_snoc, Hcost|].
           apply (traced_snoc _ s _ steps u); [|done|by rewrite lookup_insert_eq|done].
           apply (traced_mono (Dijkstra.par st) _ s (Dijkstra.visited st));
             [done| |by rewrite lookup_insert_ne|done].
           intros y Hy. rewrite lookup_insert_ne; [done|]. by intros ->.
        -- rewrite lookup_insert_ne by done. intros Hx.
           destruct (Hpath x d Hx) as (steps' & Hwalk' & Hcost' & Htraced').
           exists steps'. split; [done|]. split; [done|].
           apply (traced_mono (Dijkstra.par st) _ s (Dijkstra.visited st));
             [done| |by rewrite lookup_insert_ne|done].
           intros y Hy. rewrite lookup_insert_ne; [done|]. by intros ->.
      * intros x. destruct (decide (v = x)) as [<-|Hne].
        -- by rewrite lookup_insert_eq.
        -- rewrite !lookup_insert_ne by done. apply Hunr.
      * intros x d Hx. destruct (decide (v = x)) as [<-|Hne].
        -- rewrite lookup_insert_eq. intros [= <-]. apply list_elem_of_here.
        -- rewrite lookup_insert_ne by done. intros Hd.
           apply list_elem_of_further. by apply Hqueued.
      * intros d x Hin. destruct (decide (v = x)) as [<-|Hne].
        -- rewrite lookup_insert_eq. eauto.
        -- rewrite lookup_insert_ne by done.
           apply elem_of_cons in Hin as [[= -> ->]|Hin]; [done|]. by apply (Hkeys d x).
      * intros a b c [HR|(-> & _ & _)]; [by apply (Hsrc a b c)|done].
      * intros a b c HR. destruct (decide (v = b)) as [<-|Hne].
        -- rewrite lookup_insert_eq. eauto.
        -- rewrite lookup_insert_ne by done. destruct HR as [HR|(_ & -> & _)]; [|done].
           by apply (Hrel a b c).
    + exists st. split; [done|]. split; [|by repeat split; auto].
      split; try done.
      * intros a b c [HR|(-> & _ & _)]; [by apply (Hsrc a b c)|done].
      * intros a b c [HR|(-> & -> & ->)]; [by apply (Hrel a b c)|].
        destruct dv as [q|]; [eauto|done].
Qed.

Lemma relax_all_reach (g : graph) (s : Z) (u : Z) (du : Q) (l : list (Z * Q)) :
  endpoints_in g →
  ∀ (R : Z → Z → Q → Prop) (st : Dijkstra.state),
  (∀ v w, (v, w) ∈ l → arc g u v w) →
  dijkstra_reach g s R st →
  u ∈ Dijkstra.visited st → Dijkstra.dist st !! u = Some (Fin du) →
  ∃ st', for_each (Dijkstra.relax u) l st = Ok st' ∧
    dijkstra_reach g s (λ a b c, R a b c ∨ (a = u ∧ (b, c) ∈ l)) st' ∧
    Dijkstra.visited st' = Dijkstra.visited st ∧
    (length (Dijkstra.pq st') ≤ length (Dijkstra.pq st) + length l)%nat.
Proof.
  intros Hg. induction l as [|[v w] l IH]; intros R st Harcs Hinv Hu Hdu.
  - exists st. split; [done|]. split; [|split; [done|simpl; lia]].
    apply (dijkstra_reach_weaken g s R); [|done].
    intros a b c [HR|[_ Hin]]; [done|]. by apply elem_of_nil in Hin.
  - destruct (relax_reach g s R u du v w st Hg Hinv Hu Hdu) as
      (st1 & Hstep & Hinv1 & Hvis1 & Hsame1 & Hlen1).
    { apply Harcs, list_elem_of_here. }
    destruct (IH (λ a b c, R a b c ∨ (a = u ∧ b = v ∧ c = w)) st1) as
      (st' & Hrun & Hinv' & Hvis' & Hlen'); [| |by rewrite Hvis1| |].
    + intros v' w' Hin. by apply Harcs, list_elem_of_further.
    + done.
    + rewrite Hsame1; done.
    + exists st'. cbn [for_each]. rewrite Hstep. simpl. split; [done|].
      split; [|split; [congruence|simpl; lia]].
      eapply dijkstra_reach_weaken; [|exact Hinv'].
      intros a b c [HR|[-> Hin]]; [by left; left|].
      apply elem_of_cons in Hin as [[= -> ->]|Hin]; [left; right; done|by right].
Qed.

(** The loop ends within its fuel whatever the weights are. *)
Lemma dijkstra_loop_reach (g : graph) (s : Z) (adj : gmap Z (list (Z * Q))) :
  endpoints_in g → weighted_adjacency_of g adj →
  ∀ (fuel : nat) (st : Dijkstra.state),
  dijkstra_reach g s (λ u v w, u ∈ Dijkstra.visited st ∧ arc g u v w) st →
  (length (Dijkstra.pq st) + incidences (edges g) (λ x, x ∉ Dijkstra.visited st) ≤ fuel)%nat →
  ∃ st', Dijkstra.loop fuel adj st = Ok st' ∧
    dijkstra_reach g s (λ u v w, u ∈ Dijkstra.visited st' ∧ arc g u v w) st' ∧
    Dijkstra.pq st' = [].
Proof.
  intros Hg Hadj fuel. induction fuel as [|fuel IH]; intros st Hinv Hfuel.
  - destruct (Dijkstra.pq st) as [|x q] eqn:Hpq; [|simpl in Hfuel; lia].
    exists st. simpl. rewrite Hpq. done.
  - cbn [Dijkstra.loop].
    destruct (Dijkstra.heappop (Dijkstra.pq st)) as [[[d u] pq']|] eqn:Hpop.
    2:{ exists st. split; [done|]. split; [done|]. by apply heappop_None. }
    apply heappop_spec in Hpop as [Hperm _].
    assert (length (Dijkstra.pq st) = S (length pq')) as Hlen by by rewrite Hperm.
    assert (∀ y, y ∈ pq' → y ∈ Dijkstra.pq st) as Hsub.
    { intros y Hy. rewrite Hperm. by apply list_elem_of_further. }
    assert ((d, u) ∈ Dijkstra.pq st) as Hhead by (rewrite Hperm; apply list_elem_of_here).
    destruct Hinv as [Hdd Hpd Hvis Hstart Hpath Hunr Hqueued Hkeys Hsrc Hrel].
    destruct (decide (u ∈ Dijkstra.visited st)) as [Hu|Hu].
    + apply IH; [|simpl; lia]. split; simpl; try done.
      * destruct Hstart as (H1 & H2 & [Hs|[Hempty _]]); [auto|].
        rewrite Hempty in Hu. by apply not_elem_of_empty in Hu.
      * intros v dv Hv Hdv. pose proof (Hqueued v dv Hv Hdv) as Hin.
        rewrite Hperm in Hin. apply elem_of_cons in Hin as [[= _ ->]|Hin]; done.
      * intros d' v Hin. by apply (Hkeys d' v), Hsub.
    + destruct (Hkeys d u Hhead) as (du & Hdu).
      assert (u ∈ vertices g) as Huv by (apply Hdd; eauto).
      assert (s ∈ ({[u]} ∪ Dijkstra.visited st : gset Z)) as Hs.
      { destruct Hstart as (_ & _ & [Hs|[_ Hpq]]); [by apply elem_of_union_r|].
        rewrite Hpq in Hhead. apply list_elem_of_singleton in Hhead as [= _ ->].
        by apply elem_of_union_l, elem_of_singleton. }
      destruct (proj2 (wa_dom g adj Hadj u) Huv) as [nbrs Hnbrs].
      apply subscript_Ok in Hnbrs as Hsub_adj. rewrite Hsub_adj. simpl.
      destruct (relax_all_reach g s u du nbrs Hg
                  (λ a b c, a ∈ Dijkstra.visited st ∧ arc g a b c)
                  (Dijkstra.State (Dijkstra.dist st) (Dijkstra.par st) pq'
                                  ({[u]} ∪ Dijkstra.visited st)))
        as (st' & Hrun & Hinv' & Hvis' & Hlen'); simpl.
      * intros v w Hin. by apply (wa_arc g adj Hadj u nbrs).
      * split; simpl; try done.
        -- intros v Hv. apply elem_of_union in Hv as [Hv|Hv]; [|by apply Hvis].
           apply elem_of_singleton in Hv as ->. eauto.
        -- destruct Hstart as (H1 & H2 & _). auto.
        -- intros v dv Hdv. destruct (Hpath v dv Hdv) as (steps & Hwalk & Hcost & Htr).
           exists steps. split; [done|]. split; [done|].
           apply (traced_mono (Dijkstra.par st) _ s (Dijkstra.visited st)); [|done|done|done].
           apply union_subseteq_r.
        -- intros v dv Hv Hdv. assert (v ≠ u) as Hne by set_solver.
           assert (v ∉ Dijkstra.visited st) as Hv' by set_solver.
           pose proof (Hqueued v dv Hv' Hdv) as Hin.
           rewrite Hperm in Hin. apply elem_of_cons in Hin as [[= _ ->]|Hin]; done.
        -- intros d' v Hin. by apply (Hkeys d' v), Hsub.
        -- intros a b c [Ha _]. by apply elem_of_union_r.
      * apply elem_of_union_l, elem_of_singleton. done.
      * done.
      * simpl in Hrun, Hvis', Hlen'. rewrite Hrun. simpl. apply IH.
        -- eapply dijkstra_reach_weaken; [|exact Hinv'].
           intros a b c [Ha Harc]. simpl. rewrite Hvis' in Ha.
           apply elem_of_union in Ha as [Ha|Ha]; [|by left].
           apply elem_of_singleton in Ha as ->. right. split; [done|].
           by apply (wa_arc g adj Hadj u nbrs).
        -- rewrite Hvis'.
           pose proof (incidences_visit (edges g) (Dijkstra.visited st) u Hu) as Hinc.
           rewrite (wa_length g adj Hadj u nbrs Hnbrs) in Hlen'. lia.
Qed.

Lemma dijkstra_init_reach (g : graph) (s : Z) :
  s ∈ vertices g →
  dijkstra_reach g s
    (λ u v w, u ∈ Dijkstra.visited (Dijkstra.init (vertices g) s) ∧ arc g u v w)
    (Dijkstra.init (vertices g) s).
Proof.
  intros Hs. unfold Dijkstra.init. split; simpl.
  - intros v. rewrite lookup_insert_is_Some, dict_of_lookup_id.
    destruct (decide (v ∈ vertices g)) as [Hv|Hv].
    + split; [done|]. intros _. destruct (decide (s = v)); [by left|right]. split; [done|eauto].
    + split; [|done]. intros [->|[_ [x Hx]]]; done.
  - intros v. rewrite dict_of_lookup_id.
    destruct (decide (v ∈ vertices g)) as [Hv|Hv]; [by split; eauto|].
    split; [by intros [x Hx]|done].
  - intros v Hv. by apply not_elem_of_empty in Hv.
  - rewrite lookup_insert_eq, dict_of_lookup_id, decide_True by done. auto.
  - intros v d. destruct (decide (s = v)) as [<-|Hne].
    + rewrite lookup_insert_eq. intros [= <-]. exists []. repeat split; constructor.
    + rewrite lookup_insert_ne, dict_of_lookup_id by done.
      by destruct (decide (v ∈ vertices g)).
  - intros v. destruct (decide (s = v)) as [<-|Hne].
    + by rewrite lookup_insert_eq.
    + rewrite lookup_insert_ne, !dict_of_lookup_id by done.
      by destruct (decide (v ∈ vertices g)).
  - intros v d _. destruct (decide (s = v)) as [<-|Hne].
    + rewrite lookup_insert_eq. intros [= <-]. apply list_elem_of_here.
    + rewrite lookup_insert_ne, dict_of_lookup_id by done.
      by destruct (decide (v ∈ vertices g)).
  - intros d v Hin. apply list_elem_of_singleton in Hin as [= -> ->].
    exists 0%Q. by rewrite lookup_insert_eq.
  - intros u v w [Hu _]. done.
  - intros u v w [Hu _]. by apply not_elem_of_empty in Hu.
Qed.

(** [run_dijkstra] on a graph that meets the input contract: the state its
    loop ends in and the maps it exports. *)
Lemma run_dijkstra_reach (g : graph) (start v0 : Z) (rest : list Z) :
  vertices g = v0 :: rest → endpoints_in g →
  ∃ st ds ps,
    Dijkstra.run_dijkstra g start =
      Ok (DijkstraResult "Dijkstra" ds ps (Dijkstra.choose_start (vertices g) start) true) ∧
    dijkstra_reach g (Dijkstra.choose_start (vertices g) start)
      (λ u v w, u ∈ Dijkstra.visited st ∧ arc g u v w) st ∧
    Dijkstra.pq st = [] ∧
    Dijkstra.export (Dijkstra.dist st) (vertices g) = Ok ds ∧
    Dijkstra.export (Dijkstra.par st) (vertices g) = Ok ps.
Proof.
  intros Hvs Hg. set (s := Dijkstra.choose_start (vertices g) start).
  assert (s ∈ vertices g) as Hs.
  { unfold s. rewrite Hvs. apply choose_start_in. }
  destruct (dijkstra_build_adj_spec g Hg) as (adj & Hbuild & Hadj).
  destruct (dijkstra_loop_reach g s adj Hg Hadj (Dijkstra.fuel_of g)
              (Dijkstra.init (vertices g) s) (dijkstra_init_reach g s Hs))
    as (st & Hloop & Hinv & Hempty).
  { unfold Dijkstra.fuel_of. simpl. rewrite incidences_all by done. lia. }
  destruct (export_total (Dijkstra.dist st) (vertices g)) as [ds Hds].
  { intros v Hv. by apply (dr_dist_dom _ _ _ _ Hinv). }
  destruct (export_total (Dijkstra.par st) (vertices g)) as [ps Hps].
  { intros v Hv. by apply (dr_par_dom _ _ _ _ Hinv). }
  exists st, ds, ps. split; [|done].
  unfold Dijkstra.run_dijkstra. fold s. rewrite Hbuild. cbn [mbind res_bind].
  rewrite Hloop. cbn [mbind res_bind]. rewrite Hds. cbn [mbind res_bind].
  by rewrite Hps.
Qed.

Section dijkstra_reach_final.
Context (g : graph) (s : Z) (st : Dijkstra.state).
Context (Hg : endpoints_in g).
Context (Hinv : dijkstra_reach g s (λ u v w, u ∈ Dijkstra.visited st ∧ arc g u v w) st).
Context (Hempty : Dijkstra.pq st = []).

Lemma reach_visited (v : Z) (d : Q) :
  Dijkstra.dist st !! v = Some (Fin d) → v ∈ Dijkstra.visited st.
Proof.
  intros Hd. destruct (decide (v ∈ Dijkstra.visited st)) as [|Hv]; [done|].
  pose proof (dr_queued _ _ _ _ Hinv v d Hv Hd) as Hin.
  rewrite Hempty in Hin. by apply elem_of_nil in Hin.
Qed.

(** Every vertex joined to the start by a chain of edges has a finite entry. *)
Lemma reach_finite (v : Z) :
  connected g s v → ∃ d, Dijkstra.dist st !! v = Some (Fin d).
Proof.
  intros Hsv. apply rtc_nsteps in Hsv as [n Hsv]. revert v Hsv.
  induction n as [|n IH]; intros v Hsv.
  - inversion Hsv; subst. exists 0%Q. apply (dr_start _ _ _ _ Hinv).
  - apply nsteps_inv_r in Hsv as (u & Hsu & Huv). destruct (IH u Hsu) as [du Hdu].
    destruct (adjacent_arc g u v Huv) as [w Hw].
    apply (dr_relaxed _ _ _ _ Hinv u v w). split; [|done]. by apply (reach_visited u du).
Qed.

Lemma reach_unreached (v : Z) :
  v ∈ vertices g → ¬ connected g s v →
  Dijkstra.dist st !! v = Some Inf ∧ Dijkstra.par st !! v = Some (-1).
Proof.
  intros Hv Hnot. apply (dr_dist_dom _ _ _ _ Hinv) in Hv as [[d|] Hd].
  - destruct (dr_path _ _ _ _ Hinv v d Hd) as (steps & Hwalk & _).
    destruct Hnot. by apply (walk_connected g s v steps).
  - split; [done|]. by apply (dr_unreached _ _ _ _ Hinv).
Qed.

Lemma traced_exported_reach (ps : gmap pykey Z) (steps : list (Z * Q)) (v : Z) :
  Dijkstra.export (Dijkstra.par st) (vertices g) = Ok ps →
  traced (Dijkstra.par st) s (Dijkstra.visited st) steps v → parent_trace ps s steps v.
Proof.
  intros Hexp. induction 1 as [|steps u v w Htr IH Hu Hpar Hne]; [constructor|].
  apply (parent_trace_snoc ps s steps u); [done| |done].
  assert (v ∈ vertices g) as Hv by (apply (dr_par_dom _ _ _ _ Hinv); eauto).
  destruct (export_lookup_str _ _ _ _ Hexp Hv) as [-> _]. done.
Qed.
End dijkstra_reach_final.



(** ** The routines on graphs that meet the input contract *)

Lemma run_tsp_state (g : graph) (start v0 : Z) (rest : list Z) :
  vertices g = v0 :: rest → endpoints_in g →
  ∃ adj st,
    Tsp.build_adj g = Ok adj ∧
    tsp_represents (vertices g) adj (edge_weight (edges g)) ∧
    Tsp.loop (length (vertices g)) adj (vertices g) (Tsp.State [v0] {[v0]} v0 (Fin 0)) = Ok st ∧
    tsp_inv g v0 st ∧
    Tsp.run_tsp g start =
      Ok (TspResult "TSP (Nearest Neighbor)"
            (closed_if_complete g v0 (Tsp.tour st))
            (round2 (walk_weight (edges g) (closed_if_complete g v0 (Tsp.tour st))))
            (Z.of_nat (length (closed_if_complete g v0 (Tsp.tour st))) - 1)
            true).
Proof.
  intros Hvs Hg.
  destruct (tsp_build_adj_represents g Hg) as (adj & Hbuild & Hrep).
  assert (tsp_inv g v0 (Tsp.State [v0] {[v0]} v0 (Fin 0))) as Hinit.
  { constructor; simpl; try done.
    - apply NoDup_singleton.
    - set_solver.
    - intros x Hx. apply list_elem_of_singleton in Hx as ->. rewrite Hvs. apply list_elem_of_here. }
  destruct (tsp_loop_result g adj v0 (length (vertices g)) _ Hrep Hinit) as (st & Hloop & Hinv);
    [simpl; lia|].
  exists adj, st. split; [done|]. split; [done|]. split; [done|]. split; [done|].
  destruct Hinv as [Hhead Hlast Hnodup Hseen Hin Htotal].
  unfold Tsp.run_tsp. rewrite Hvs. rewrite <- Hvs. rewrite Hbuild. simpl.
  rewrite Hloop. simpl. unfold closed_if_complete.
  destruct (Z.eqb_spec (Z.of_nat (length (Tsp.tour st))) (Z.of_nat (length (vertices g))))
    as [Heq|Hne].
  - rewrite bool_decide_eq_true_2 by lia.
    assert (Tsp.current st ∈ vertices g) as Hc.
    { apply Hin. apply last_Some in Hlast as [l' ->]. set_solver. }
    rewrite (Hrep (Tsp.current st) v0 Hc) by (rewrite Hvs; apply list_elem_of_here).
    simpl. rewrite (walk_weight_snoc _ _ _ _ Hlast). by rewrite Htotal.
  - rewrite bool_decide_eq_false_2 by lia. simpl. by rewrite Htotal.
Qed.

Lemma sorted_keys_elem (g : graph) (w : Q) (u v : Z) :
  (w, u, v) ∈ Mst.sort (Mst.key_of <$> edges g) ↔ ∃ e, e ∈ edges g ∧ unpack e = (u, v, w).
Proof.
  rewrite (sort_Permutation (Mst.key_of <$> edges g)), list_elem_of_fmap. split.
  - intros (e & He & Hin). exists e. split; [done|]. by apply key_of_unpack.
  - intros (e & Hin & He). exists e. split; [|done]. symmetry. by apply key_of_unpack.
Qed.

Lemma run_mst_kruskal (g : graph) (v0 : Z) (rest : list Z) :
  vertices g = v0 :: rest → endpoints_in g →
  ∃ a,
    for_each (Mst.step (Mst.fuel_of g)) (Mst.sort (Mst.key_of <$> edges g))
      (Mst.Acc (Mst.UF (dict_of id id (vertices g)) (dict_of id (λ _, 0) (vertices g))) [] 0%Q)
      = Ok a ∧
    kruskal_inv (vertices g) (Mst.sort (Mst.key_of <$> edges g)) a ∧
    Mst.run_mst g =
      Ok (MstResult "MST (Kruskal)" (Mst.mst_edges a) (round2Q (sum_weights (Mst.mst_edges a)))
            (length (Mst.mst_edges a))
            (bool_decide (Z.of_nat (length (Mst.mst_edges a)) =
                          Z.of_nat (length (vertices g)) - 1))
            true).
Proof.
  intros Hvs Hg.
  destruct (kruskal_all (vertices g) (Mst.fuel_of g) (Mst.sort (Mst.key_of <$> edges g)) [] _
              (kruskal_initial (vertices g))) as (a & Hrun & Hinv).
  { intros w u v Hin. apply sorted_keys_elem in Hin as (e & He & Hun).
    destruct (Hg e He) as [H1 H2]. rewrite endpoints_unpack, Hun in H1, H2. done. }
  { simpl. rewrite (sort_Permutation (Mst.key_of <$> edges g)), length_fmap. done. }
  exists a. split; [done|]. split; [done|].
  unfold Mst.run_mst. rewrite Hvs, <- Hvs. rewrite Hrun. simpl.
  by rewrite (ki_total _ _ _ Hinv).
Qed.

Lemma run_connectivity_components (g : graph) (v0 : Z) (rest : list Z) :
  vertices g = v0 :: rest → endpoints_in g →
  ∃ V comps,
    components_inv g (vertices g) (V, comps) ∧
    Connectivity.run_connectivity g =
      Ok (ConnectivityResult "Connectivity (DFS)" comps (length comps)
            (bool_decide (length comps = 1%nat)) (Connectivity.largest comps) true).
Proof.
  intros Hvs Hg.
  destruct (build_neighbours_spec g Hg) as (adj & Hbuild & Hadj).
  destruct (visit_all g adj Hg Hadj (vertices g) [] (∅, [])) as ([V comps] & Hrun & Hinv).
  { done. }
  { split; simpl.
    - by intros x y ?%elem_of_empty.
    - intros v. split; [by intros ?%elem_of_empty|by intros ?%elem_of_nil].
    - apply NoDup_nil_2.
    - by intros v ?%elem_of_empty.
    - by intros v ?%elem_of_nil.
    - by intros c ?%elem_of_nil.
    - by intros c x y ?%elem_of_nil. }
  exists V, comps. split; [done|].
  unfold Connectivity.run_connectivity. rewrite Hvs, <- Hvs, Hbuild. simpl. by rewrite Hrun.
Qed.

Lemma run_coloring_painted (g : graph) (v0 : Z) (rest : list Z) :
  vertices g = v0 :: rest → endpoints_in g →
  ∃ adj col,
    Coloring.build_adj g = Ok adj ∧ neighbour_sets_of g adj ∧
    for_each (Coloring.paint adj) (vertices g) (dict_of id (λ _, -1) (vertices g)) = Ok col ∧
    proper_inv g col ∧
    (NoDup (vertices g) ∨ loop_free g → saturated_inv g (vertices g) col) ∧
    Coloring.run_coloring g =
      Ok (ColoringResult "Graph Coloring (Greedy)" col
            (if decide (col = ∅) then 0 else Coloring.max_list ((map_to_list col).*2) + 1)
            (seqZ 0 (if decide (col = ∅) then 0
                     else Coloring.max_list ((map_to_list col).*2) + 1))
            true).
Proof.
  intros Hvs Hg.
  destruct (coloring_build_adj_spec g Hg) as (adj & Hbuild & Hadj).
  destruct (paint_all g adj (vertices g) [] _ Hg Hadj (λ v H, H) (initial_proper g))
    as (col & Hrun & Hcol & Hsat).
  exists adj, col. split; [done|]. split; [done|]. split; [done|]. split; [done|]. split.
  { intros Hnd. apply Hsat; [done|]. apply initial_saturated. }
  unfold Coloring.run_coloring. rewrite Hvs, <- Hvs, Hbuild. simpl. by rewrite Hrun.
Qed.

Lemma run_hotel_centers (g : graph) (v0 : Z) (rest : list Z) :
  vertices g = v0 :: rest → endpoints_in g →
  ∃ adj centers st,
    build_neighbours g = Ok adj ∧ neighbours_of g adj ∧
    for_each (Hotel.grow (Hotel.fuel_of g) adj (vertices g))
      (seq 0 (Z.to_nat (Z.min (Hotel.k_of (vertices g) - 1)
                              (Z.of_nat (length (vertices g)) - 1)))) [v0] = Ok centers ∧
    head centers = Some v0 ∧ (∀ c, c ∈ centers → c ∈ vertices g) ∧
    assigned (hops g) centers (vertices g) st ∧
    Hotel.run_hotel_optimization g =
      Ok (HotelResult "Hotel Optimization (K-Centers)" centers (length centers)
            st.1 st.2 true).
Proof.
  intros Hvs Hg.
  destruct (build_neighbours_spec g Hg) as (adj & Hbuild & Hadj).
  assert (∀ v c, v ∈ vertices g → c ∈ vertices g →
            Hotel.bfs_distance (Hotel.fuel_of g) adj v c = Ok (hops g v c)) as Hdist.
  { intros v c Hv _. by apply hops_computed. }
  destruct (centers_total g adj (Hotel.fuel_of g) (hops g) Hdist
              (seq 0 (Z.to_nat (Z.min (Hotel.k_of (vertices g) - 1)
                                      (Z.of_nat (length (vertices g)) - 1))))
              [v0] v0) as (centers & Hcenters & Hcs & Hhd).
  { intros c Hc. apply list_elem_of_singleton in Hc as ->. rewrite Hvs. apply list_elem_of_here. }
  { done. }
  destruct centers as [|c0 centers]; [done|].
  destruct (assign_total g adj (Hotel.fuel_of g) (hops g) Hdist c0 centers (vertices g) []
              (∅, Fin 0)) as (st & Hassign & Hst); [done..| |].
  { split; [by intros v ?%elem_of_nil|by left]. }
  exists adj, (c0 :: centers), st. split; [done|]. split; [done|]. split; [done|].
  split; [done|]. split; [done|]. split; [done|].
  unfold Hotel.run_hotel_optimization. rewrite Hvs, <- Hvs, Hbuild. simpl.
  rewrite Hcenters. simpl. by rewrite Hassign.
Qed.

Lemma run_algorithm_known (name : string) (g : graph) :
  name ∈ known_algorithms →
  run_algorithm name g = Dijkstra.run_dijkstra g 0 ∨
  run_algorithm name g = Tsp.run_tsp g 0 ∨
  run_algorithm name g = Mst.run_mst g ∨
  run_algorithm name g = Connectivity.run_connectivity g ∨
  run_algorithm name g = Coloring.run_coloring g ∨
  run_algorithm name g = Hotel.run_hotel_optimization g.
Proof.
  unfold known_algorithms. intros Hin.
  repeat (apply elem_of_cons in Hin as [->|Hin]; [tauto|]). by apply elem_of_nil in Hin.
Qed.

Lemma run_algorithm_unknown (name : string) (g : graph) :
  name ∉ known_algorithms →
  run_algorithm name g = Ok (ErrorResult ("Unknown algorithm: " +:+ name) None).
Proof.
  intros Hname. unfold run_algorithm, known_algorithms in *.
  repeat rewrite eqb_ne; [done|..]; intros ->; apply Hname; set_solver.
Qed.

(** A graph that meets the input contract gets a success result from every
    known algorithm. *)
Lemma run_algorithm_success (name : string) (g : graph) (v0 : Z) (rest : list Z) :
  vertices g = v0 :: rest → endpoints_in g → name ∈ known_algorithms →
  ∃ r, run_algorithm name g = Ok r ∧ is_error r = false.
Proof.
  intros Hvs Hg Hname.
  destruct (run_algorithm_known name g Hname) as [->|[->|[->|[->|[->| ->]]]]].
  - destruct (run_dijkstra_reach g 0 v0 rest Hvs Hg) as (st & ds & ps & -> & _). by eexists.
  - destruct (run_tsp_state g 0 v0 rest Hvs Hg) as (adj & st & _ & _ & _ & _ & ->). by eexists.
  - destruct (run_mst_kruskal g v0 rest Hvs Hg) as (a & _ & _ & ->). by eexists.
  - destruct (run_connectivity_components g v0 rest Hvs Hg) as (V & comps & _ & ->). by eexists.
  - destruct (run_coloring_painted g v0 rest Hvs Hg) as (adj & col & _ & _ & _ & _ & _ & ->).
    by eexists.
  - destruct (run_hotel_centers g v0 rest Hvs Hg) as (adj & cs & st & _ & _ & _ & _ & _ & _ & ->).
    by eexists.
Qed.



(** ** Edges that leave the vertex list *)

Lemma first_unlisted_None (vs : list Z) (ends : list (Z * Z)) :
  first_unlisted vs ends = None ↔ ∀ p, p ∈ ends → p.1 ∈ vs ∧ p.2 ∈ vs.
Proof.
  induction ends as [|[v1 v2] ends IH]; simpl.
  - split; [|done]. by intros _ p ?%elem_of_nil.
  - destruct (decide (v1 ∈ vs)) as [H1|H1]; [destruct (decide (v2 ∈ vs)) as [H2|H2]|].
    + rewrite IH. split.
      * intros Hall p Hp. apply elem_of_cons in Hp as [->|Hp]; [done|by apply Hall].
      * intros Hall p Hp. by apply Hall, list_elem_of_further.
    + split; [done|]. intros Hall. destruct (Hall (v1, v2)); [apply list_elem_of_here|done].
    + split; [done|]. intros Hall. destruct (Hall (v1, v2)); [apply list_elem_of_here|done].
Qed.

Lemma first_unlisted_Some (vs : list Z) (ends : list (Z * Z)) (k : Z) :
  first_unlisted vs ends = Some k → k ∉ vs ∧ ∃ p, p ∈ ends ∧ (k = p.1 ∨ k = p.2).
Proof.
  induction ends as [|[v1 v2] ends IH]; simpl; [done|].
  destruct (decide (v1 ∈ vs)) as [H1|H1]; [destruct (decide (v2 ∈ vs)) as [H2|H2]|].
  - intros Hk. destruct (IH Hk) as (Hnot & p & Hp & Hkp). split; [done|].
    exists p. split; [by apply list_elem_of_further|done].
  - intros [= <-]. split; [done|]. exists (v1, v2). split; [apply list_elem_of_here|by right].
  - intros [= <-]. split; [done|]. exists (v1, v2). split; [apply list_elem_of_here|by left].
Qed.

Lemma endpoints_in_first_unlisted (g : graph) :
  endpoints_in g ↔ first_unlisted (vertices g) (endpoints <$> edges g) = None.
Proof.
  rewrite first_unlisted_None. unfold endpoints_in. split.
  - intros Hg p Hp. apply list_elem_of_fmap in Hp as (e & -> & He). by apply Hg.
  - intros Hall e He. apply Hall, list_elem_of_fmap. by exists e.
Qed.

Section insert_both_raise.
Context {E V : Type} (ins : E → V → V).

Lemma insert_both_raise_first (v1 v2 : Z) (x1 x2 : E) (adj : gmap Z V) :
  adj !! v1 = None → insert_both ins v1 v2 x1 x2 adj = Raise (KeyError v1).
Proof. intros H1. unfold insert_both, subscript. by rewrite H1. Qed.

Lemma insert_both_raise_second (v1 v2 : Z) (x1 x2 : E) (adj : gmap Z V) :
  is_Some (adj !! v1) → adj !! v2 = None →
  insert_both ins v1 v2 x1 x2 adj = Raise (KeyError v2).
Proof.
  intros [l1 H1] H2. unfold insert_both. apply subscript_Ok in H1 as Hs1. rewrite Hs1. simpl.
  unfold subscript. rewrite lookup_insert_ne by (intros ->; congruence). by rewrite H2.
Qed.

Lemma insert_both_keys (v1 v2 : Z) (x1 x2 : E) (adj : gmap Z V) :
  is_Some (adj !! v1) → is_Some (adj !! v2) →
  ∃ adj', insert_both ins v1 v2 x1 x2 adj = Ok adj' ∧
          ∀ u, is_Some (adj' !! u) ↔ is_Some (adj !! u).
Proof.
  intros [l1 H1] H2. unfold insert_both. apply subscript_Ok in H1 as Hs1. rewrite Hs1. simpl.
  assert (is_Some (<[v1 := ins x1 l1]> adj !! v2)) as [l2 Hl2].
  { rewrite lookup_insert_is_Some. destruct (decide (v1 = v2)); auto. }
  apply subscript_Ok in Hl2 as ->. simpl. eexists. split; [done|].
  intros u. rewrite !lookup_insert_is_Some.
  destruct (decide (v2 = u)), (decide (v1 = u)); subst; naive_solver.
Qed.

(** A loop that adds the two ends of every edge to a dict keyed by the
    listed vertices raises [KeyError] at the first end that is not listed. *)
Lemma build_raises (body : edge → gmap Z V → res (gmap Z V)) (x1 x2 : edge → E)
    (vs : list Z) (k : Z) :
  (∀ e adj, body e adj =
            insert_both ins (endpoints e).1 (endpoints e).2 (x1 e) (x2 e) adj) →
  ∀ (es : list edge) (adj : gmap Z V),
  (∀ u, is_Some (adj !! u) ↔ u ∈ vs) →
  first_unlisted vs (endpoints <$> es) = Some k →
  for_each body es adj = Raise (KeyError k).
Proof.
  intros Hbody. induction es as [|e es IH]; intros adj Hdom; [done|].
  rewrite fmap_cons. cbn [first_unlisted for_each]. rewrite Hbody.
  destruct (endpoints e) as [v1 v2]. simpl.
  destruct (decide (v1 ∈ vs)) as [H1|H1]; [destruct (decide (v2 ∈ vs)) as [H2|H2]|].
  - intros Hk. apply Hdom in H1, H2.
    destruct (insert_both_keys v1 v2 (x1 e) (x2 e) adj H1 H2) as (adj' & -> & Hdom').
    simpl. apply IH; [|done]. intros u. by rewrite Hdom'.
  - intros [= <-]. rewrite insert_both_raise_second; [done|by apply Hdom|].
    apply eq_None_not_Some. by rewrite Hdom.
  - intros [= <-]. rewrite insert_both_raise_first; [done|].
    apply eq_None_not_Some. by rewrite Hdom.
Qed.
End insert_both_raise.

Lemma dict_of_keys {V : Type} (f : Z → V) (vs : list Z) (u : Z) :
  is_Some (dict_of id f vs !! u) ↔ u ∈ vs.
Proof.
  rewrite dict_of_lookup_id. destruct (decide (u ∈ vs)); [by split; eauto|].
  split; [by intros [? ?]|done].
Qed.

Lemma dijkstra_build_raises (g : graph) (k : Z) :
  first_unlisted (vertices g) (endpoints <$> edges g) = Some k →
  Dijkstra.build_adj g = Raise (KeyError k).
Proof.
  intros Hk. unfold Dijkstra.build_adj.
  apply (build_raises (λ x l, l ++ [x]) Dijkstra.add_edge
           (λ e, ((unpack e).1.2, (unpack e).2)) (λ e, ((unpack e).1.1, (unpack e).2))
           (vertices g)); [|apply dict_of_keys|done].
  intros e adj. rewrite dijkstra_add_edge_insert_both. by rewrite endpoints_unpack.
Qed.

Lemma tsp_build_raises (g : graph) (k : Z) :
  first_unlisted (vertices g) (endpoints <$> edges g) = Some k →
  Tsp.build_adj g = Raise (KeyError k).
Proof.
  intros Hk. unfold Tsp.build_adj.
  apply (build_raises (λ (x : Z * num) (r : gmap Z num), <[x.1 := x.2]> r) Tsp.add_edge
           (λ e, ((unpack e).1.2, Fin (unpack e).2)) (λ e, ((unpack e).1.1, Fin (unpack e).2))
           (vertices g)); [|apply dict_of_keys|done].
  intros e adj. rewrite endpoints_unpack. unfold Tsp.add_edge, insert_both.
  by destruct (unpack e) as [[v1 v2] w].
Qed.

Lemma build_neighbours_raises (g : graph) (k : Z) :
  first_unlisted (vertices g) (endpoints <$> edges g) = Some k →
  build_neighbours g = Raise (KeyError k).
Proof.
  intros Hk. unfold build_neighbours.
  apply (build_raises (λ (x : Z) l, l ++ [x]) add_neighbours
           (λ e, (endpoints e).2) (λ e, (endpoints e).1)
           (vertices g)); [|apply dict_of_keys|done].
  intros e adj. unfold add_neighbours, insert_both. by destruct (endpoints e).
Qed.

Lemma coloring_build_raises (g : graph) (k : Z) :
  first_unlisted (vertices g) (endpoints <$> edges g) = Some k →
  Coloring.build_adj g = Raise (KeyError k).
Proof.
  intros Hk. unfold Coloring.build_adj.
  apply (build_raises (λ (x : Z) (s : gset Z), {[x]} ∪ s) Coloring.add_edge
           (λ e, (endpoints e).2) (λ e, (endpoints e).1)
           (vertices g)); [|apply dict_of_keys|done].
  intros e adj. apply coloring_add_edge_insert_both.
Qed.

(** [X7] When some edge has an end that is not in the vertex list, the five
    routines that build an adjacency structure raise [KeyError] for the first
    such end, in edge order and first end before second: [run_dijkstra]
    always, [run_tsp], [run_connectivity], [run_coloring] and
    [run_hotel_optimization] whenever the vertex list is not empty (an empty
    one is answered with the error dict before any edge is read).  The key
    raised is an end of an edge and is not listed. *)
Theorem unlisted_endpoint_raises (g : graph) (start k : Z) :
  first_unlisted (vertices g) (endpoints <$> edges g) = Some k →
  k ∉ vertices g ∧
  (∃ e, e ∈ edges g ∧ (k = (endpoints e).1 ∨ k = (endpoints e).2)) ∧
  ¬ endpoints_in g ∧
  Dijkstra.run_dijkstra g start = Raise (KeyError k) ∧
  (vertices g ≠ [] →
   Tsp.run_tsp g start = Raise (KeyError k) ∧
   Connectivity.run_connectivity g = Raise (KeyError k) ∧
   Coloring.run_coloring g = Raise (KeyError k) ∧
   Hotel.run_hotel_optimization g = Raise (KeyError k)).
Proof.
  intros Hk. destruct (first_unlisted_Some _ _ _ Hk) as (Hnot & p & Hp & Hkp).
  split; [done|]. split.
  { apply list_elem_of_fmap in Hp as (e & -> & He). by exists e. }
  split.
  { rewrite endpoints_in_first_unlisted. congruence. }
  split.
  { unfold Dijkstra.run_dijkstra. by rewrite (dijkstra_build_raises g k Hk). }
  intros Hne. destruct (vertices g) as [|v0 rest] eqn:Hvs; [done|].
  unfold Tsp.run_tsp, Connectivity.run_connectivity, Coloring.run_coloring,
    Hotel.run_hotel_optimization.
  rewrite Hvs, <- Hvs. rewrite <- Hvs in Hk.
  rewrite (tsp_build_raises g k Hk), (build_neighbours_raises g k Hk),
    (coloring_build_raises g k Hk). done.
Qed.

Lemma unlisted_endpoint_raises_witness :
  Dijkstra.run_dijkstra (Graph [0; 1] [E3 0 1 1; E3 1 7 1]) 0 = Raise (KeyError 7) ∧
  Coloring.run_coloring (Graph [0; 1] [E3 0 1 1; E3 1 7 1]) = Raise (KeyError 7).
Proof.
  destruct (unlisted_endpoint_raises (Graph [0; 1] [E3 0 1 1; E3 1 7 1]) 0 7 eq_refl)
    as (_ & _ & _ & Hd & Hrest).
  split; [done|]. by apply Hrest.
Defined.

Lemma find_raises (fuel : nat) (p : gmap Z Z) (x : Z) :
  p !! x = None → Mst.find fuel p x = Raise (KeyError x).
Proof. intros Hx. destruct fuel; simpl; unfold subscript; by rewrite Hx. Qed.

Lemma kruskal_raises (vs : list Z) (fuel : nat) (k : Z) :
  ∀ (todo done_ : list (Q * Z * Z)) (a : Mst.acc),
  kruskal_inv vs done_ a →
  (∀ w u v, (w, u, v) ∈ done_ → u ∈ vs ∧ v ∈ vs) →
  (length (done_ ++ todo) ≤ fuel)%nat →
  first_unlisted vs (key_pairs todo) = Some k →
  for_each (Mst.step fuel) todo a = Raise (KeyError k).
Proof.
  induction todo as [|[[w u] v] todo IH]; intros done_ a Hinv Hdone Hfuel; [done|].
  unfold key_pairs. rewrite fmap_cons. fold (key_pairs todo). cbn [first_unlisted for_each fst snd].
  rewrite length_app in Hfuel. simpl in Hfuel.
  destruct (decide (u ∈ vs)) as [Hu|Hu]; [destruct (decide (v ∈ vs)) as [Hv|Hv]|].
  - intros Hk.
    destruct (kruskal_step vs done_ a fuel w u v Hinv Hu Hv Hdone) as (a1 & -> & Hinv1); [lia|].
    simpl. apply (IH (done_ ++ [(w, u, v)])); [done| | |done].
    + intros w' u' v' Hin. apply elem_of_app in Hin as [Hin|Hin]; [by apply (Hdone w')|].
      apply list_elem_of_singleton in Hin as [= -> -> ->]. done.
    + rewrite !length_app in *. simpl. lia.
  - intros [= <-]. destruct a as [[p rk] mst total].
    destruct Hinv as [Huf _ _ Hlen _ _ _]. simpl in *.
    destruct (uf_rank_of vs _ p rk Huf u Hu) as (ku & Hku & Hb).
    destruct (find_spec vs _ rk fuel p u ku Huf Hu Hku) as (r & p1 & Hfind & _ & Huf1 & _); [lia|].
    unfold Mst.step, Mst.union. simpl. rewrite Hfind. simpl.
    rewrite find_raises; [done|]. apply eq_None_not_Some.
    by rewrite (uf_dom_parent _ _ _ _ Huf1).
  - intros [= <-]. destruct a as [[p rk] mst total].
    destruct Hinv as [Huf _ _ _ _ _ _]. simpl in *.
    unfold Mst.step, Mst.union. simpl.
    rewrite find_raises; [done|]. apply eq_None_not_Some.
    by rewrite (uf_dom_parent _ _ _ _ Huf).
Qed.

(** [X8] When some edge has an end that is not in a non-empty vertex list,
    [run_mst] raises [KeyError] for the first such end in the order in which
    Kruskal's loop reads the edges: sorted by weight, then by ends, and [u]
    before [v] within an edge.  All edges before it are processed without
    an error. *)
Theorem run_mst_unlisted_raises (g : graph) (k : Z) :
  vertices g ≠ [] →
  first_unlisted (vertices g) (key_pairs (Mst.sort (Mst.key_of <$> edges g))) = Some k →
  Mst.run_mst g = Raise (KeyError k) ∧ k ∉ vertices g ∧ ¬ endpoints_in g.
Proof.
  intros Hne Hk. destruct (first_unlisted_Some _ _ _ Hk) as (Hnot & [a b] & Hp & Hkp).
  split; [|split; [done|]].
  - destruct (vertices g) as [|v0 rest] eqn:Hvs; [done|].
    unfold Mst.run_mst. rewrite Hvs, <- Hvs. rewrite <- Hvs in Hk.
    rewrite (kruskal_raises (vertices g) (Mst.fuel_of g) k _ [] _
               (kruskal_initial (vertices g))); [done| | |done].
    + by intros w u v ?%elem_of_nil.
    + simpl. rewrite (sort_Permutation (Mst.key_of <$> edges g)), length_fmap. done.
  - intros Hg. apply key_pairs_elem in Hp as (w & Hin).
    apply sorted_keys_elem in Hin as (e & He & Hun).
    destruct (Hg e He) as [H1 H2]. rewrite endpoints_unpack, Hun in H1, H2.
    simpl in *. destruct Hkp as [-> | ->]; done.
Qed.

Lemma run_mst_unlisted_raises_witness :
  Mst.run_mst (Graph [0; 1] [E3 0 1 5; E3 8 1 2; E3 1 9 1]) = Raise (KeyError 9).
Proof.
  apply (run_mst_unlisted_raises (Graph [0; 1] [E3 0 1 5; E3 8 1 2; E3 1 9 1]) 9); [done|].
  vm_compute. reflexivity.
Defined.

(** ** Generated graphs as inputs *)

Lemma path_graph_endpoints_in (n : Z) (w : Q) :
  endpoints_in (GraphGenerator.graph_data (GraphGenerator.generate_path_graph n w)).
Proof.
  intros e He. simpl in He. apply list_elem_of_fmap in He as (i & -> & Hi).
  apply range_elem in Hi. simpl. split; apply range_elem; lia.
Qed.

Lemma cycle_graph_endpoints_in (n : Z) (w : Q) :
  endpoints_in (GraphGenerator.graph_data (GraphGenerator.generate_cycle_graph n w)).
Proof.
  intros e He. simpl in He. apply list_elem_of_fmap in He as (i & -> & Hi).
  apply range_elem in Hi. simpl. split; apply range_elem; [lia|].
  apply Z.mod_pos_bound. lia.
Qed.

Lemma complete_graph_endpoints_in (n : Z) (w : Q) :
  endpoints_in (GraphGenerator.graph_data (GraphGenerator.generate_complete_graph n w)).
Proof.
  intros e He. apply complete_graph_edge in He as (v1 & v2 & -> & H1 & H12 & H2).
  simpl. split; apply range_elem; lia.
Qed.

Lemma grid_graph_endpoints_in (rows cols : Z) (w : Q) :
  endpoints_in (GraphGenerator.graph_data (GraphGenerator.generate_grid_graph rows cols w)).
Proof.
  intros e He. apply grid_graph_edge in He as (a & b & -> & Hstep).
  apply grid_step_bounds in Hstep. simpl. split; apply range_elem; lia.
Qed.

Lemma range_first (n : Z) : 0 < n → GraphGenerator.range n = 0 :: seqZ 1 (n - 1).
Proof. intros Hn. unfold GraphGenerator.range. by rewrite seqZ_cons. Qed.



(** ** Greedy colouring: colours and degrees *)

Lemma other_ends_length (es : list edge) (v : Z) :
  length (other_ends es v) = incidences es (λ x, x = v).
Proof.
  induction es as [|e es IH]; [done|].
  rewrite incidences_cons, <- IH. unfold other_ends. cbn [mbind list_bind].
  change (length (((if decide ((endpoints e).1 = v) then [(endpoints e).2] else []) ++
                   (if decide ((endpoints e).2 = v) then [(endpoints e).1] else [])) ++
                  other_ends es v) =
          ((if decide ((endpoints e).1 = v) then 1 else 0) +
           (if decide ((endpoints e).2 = v) then 1 else 0) + length (other_ends es v))%nat).
  rewrite !length_app.
  destruct (decide ((endpoints e).1 = v)), (decide ((endpoints e).2 = v)); simpl; lia.
Qed.

Lemma other_ends_adjacent (g : graph) (v u : Z) :
  u ∈ other_ends (edges g) v ↔ adjacent g v u.
Proof.
  unfold other_ends, adjacent. rewrite list_elem_of_bind. split.
  - intros (e & Hu & He). exists e. split; [done|]. destruct (endpoints e) as [a b]. simpl in *.
    apply elem_of_app in Hu as [Hu|Hu].
    + destruct (decide (a = v)) as [->|]; [|by apply elem_of_nil in Hu].
      apply list_elem_of_singleton in Hu as ->. by left.
    + destruct (decide (b = v)) as [->|]; [|by apply elem_of_nil in Hu].
      apply list_elem_of_singleton in Hu as ->. by right.
  - intros (e & He & Hab). exists e. split; [|done]. apply elem_of_app.
    destruct Hab as [-> | ->]; simpl; [left|right]; rewrite decide_True by done;
      apply list_elem_of_here.
Qed.

(** A vertex that sees each of the colours [0 .. c-1] on a neighbour has at
    least [c] edge ends. *)
Lemma colours_below_degree (g : graph) (col : gmap Z Z) (v c : Z) :
  (∀ j, 0 ≤ j < c → ∃ w, adjacent g v w ∧ col !! w = Some j) →
  c ≤ Z.of_nat (degree g v).
Proof.
  intros Hsat. unfold degree. rewrite <- other_ends_length.
  assert (seqZ 0 c ⊆+ omap (λ u, col !! u) (other_ends (edges g) v)) as Hsub.
  { apply NoDup_submseteq; [apply NoDup_seqZ|]. intros j Hj. apply elem_of_seqZ in Hj.
    destruct (Hsat j) as (w & Hw & Hcol); [lia|].
    apply list_elem_of_omap. exists w. split; [by apply other_ends_adjacent|done]. }
  apply submseteq_length in Hsub. rewrite length_seqZ in Hsub.
  assert (length (omap (λ u, col !! u) (other_ends (edges g) v))
          ≤ length (other_ends (edges g) v))%nat as Hle.
  { generalize (other_ends (edges g) v). intros l. induction l as [|x l IH]; [done|].
    simpl. change (list_omap Z Z (λ u, col !! u) l) with (omap (λ u, col !! u) l).
    destruct (col !! x); simpl; lia. }
  lia.
Qed.

Lemma paint_all_bounded (g : graph) (adj : gmap Z (gset Z)) (todo : list Z) (col col' : gmap Z Z) :
  endpoints_in g → neighbour_sets_of g adj →
  (∀ v, v ∈ todo → v ∈ vertices g) →
  proper_inv g col →
  (∀ v c, col !! v = Some c → c ≤ Z.of_nat (degree g v)) →
  for_each (Coloring.paint adj) todo col = Ok col' →
  ∀ v c, col' !! v = Some c → c ≤ Z.of_nat (degree g v).
Proof.
  intros Hg Hadj. revert col. induction todo as [|x todo IH]; intros col Htodo Hcol Hb Hrun.
  - simpl in Hrun. by injection Hrun as <-.
  - simpl in Hrun.
    assert (x ∈ vertices g) as Hx by apply Htodo, list_elem_of_here.
    destruct (paint_color g adj col x Hg Hadj Hcol Hx) as (c & Hpaint & Hc & Hfresh & Hleast).
    rewrite Hpaint in Hrun. simpl in Hrun.
    apply (IH (<[x := c]> col)); [| | |done].
    + intros u Hu. apply Htodo. by apply list_elem_of_further.
    + by apply paint_proper.
    + intros v cv. destruct (decide (x = v)) as [<-|Hne].
      * rewrite lookup_insert_eq. intros [= <-]. by apply (colours_below_degree g col).
      * rewrite lookup_insert_ne by done. apply Hb.
Qed.

(** [X10] On a graph with a first vertex and edges between listed vertices,
    the colour [run_coloring] gives a vertex is at most its degree (the
    number of edge ends at it), because a vertex is given the least colour
    that none of its painted neighbours wears.  So [chromatic_number] is at
    most the greatest degree plus one. *)
Theorem run_coloring_degree_bound (g : graph) (v0 : Z) (rest : list Z) :
  vertices g = v0 :: rest → endpoints_in g →
  ∃ coloring chromatic_number colors_used,
    Coloring.run_coloring g =
      Ok (ColoringResult "Graph Coloring (Greedy)" coloring chromatic_number
            colors_used true) ∧
    (∀ v c, coloring !! v = Some c → 0 ≤ c ≤ Z.of_nat (degree g v)) ∧
    (∀ Δ : nat, (∀ v, v ∈ vertices g → (degree g v ≤ Δ)%nat) →
       1 ≤ chromatic_number ≤ Z.of_nat Δ + 1).
Proof.
  intros Hvs Hg.
  destruct (run_coloring_painted g v0 rest Hvs Hg)
    as (adj & col & Hbuild & Hadj & Hrun & Hcol & _ & Hres).
  assert (∀ v c, col !! v = Some c → c ≤ Z.of_nat (degree g v)) as Hbound.
  { apply (paint_all_bounded g adj (vertices g) _ col Hg Hadj (λ v H, H) (initial_proper g));
      [|done].
    intros v c. rewrite dict_of_lookup_id. destruct (decide (v ∈ vertices g)); [|done].
    intros [= <-]. lia. }
  assert (∀ v, v ∈ vertices g → ∃ c, col !! v = Some c ∧ 0 ≤ c) as Hpainted.
  { assert (∀ todo col0, (∀ v, v ∈ todo → v ∈ vertices g) → proper_inv g col0 →
              for_each (Coloring.paint adj) todo col0 = Ok col →
              ∀ v, (v ∈ todo ∨ ∃ c, col0 !! v = Some c ∧ 0 ≤ c) →
                   ∃ c, col !! v = Some c ∧ 0 ≤ c) as Hgen.
    { induction todo as [|x todo IH]; intros col0 Htodo Hcol0 Hrun0 v Hv; simpl in Hrun0.
      - injection Hrun0 as <-. destruct Hv as [Hv|Hv]; [by apply elem_of_nil in Hv|done].
      - assert (x ∈ vertices g) as Hx by apply Htodo, list_elem_of_here.
        destruct (paint_color g adj col0 x Hg Hadj Hcol0 Hx) as (c & Hpaint & Hc & Hfresh & _).
        rewrite Hpaint in Hrun0. simpl in Hrun0.
        apply (IH (<[x := c]> col0)); [| |done|].
        + intros u Hu. apply Htodo. by apply list_elem_of_further.
        + by apply paint_proper.
        + destruct (decide (x = v)) as [->|Hne].
          * right. exists c. by rewrite lookup_insert_eq.
          * rewrite lookup_insert_ne by done. destruct Hv as [Hv|Hv]; [|by right].
            apply elem_of_cons in Hv as [->|Hv]; [done|by left]. }
    intros v Hv. apply (Hgen (vertices g) _ (λ v H, H) (initial_proper g) Hrun). by left. }
  assert (∀ v c, col !! v = Some c → 0 ≤ c) as Hpos.
  { intros v c Hc. assert (v ∈ vertices g) as Hv by (apply (pi_dom g col Hcol); eauto).
    destruct (Hpainted v Hv) as (c' & Hc' & Hle). congruence. }
  eexists _, _, _. split; [exact Hres|]. split.
  { intros v c Hc. split; [by apply (Hpos v)|by apply Hbound]. }
  intros Δ HΔ.
  destruct (Hpainted v0) as (c0 & Hc0 & Hc0'); [rewrite Hvs; apply list_elem_of_here|].
  destruct (decide (col = ∅)) as [->|Hne]; [by rewrite lookup_empty in Hc0|].
  assert ((map_to_list col).*2 ≠ []) as Hvals.
  { intros Hnil. assert (c0 ∈ (map_to_list col).*2) as Hin by (apply map_values_elem; eauto).
    rewrite Hnil in Hin. by apply elem_of_nil in Hin. }
  destruct (max_list_nonempty _ Hvals) as [Hin Hmax].
  apply map_values_elem in Hin as (v & Hv).
  assert (v ∈ vertices g) as Hvin by (apply (pi_dom g col Hcol); eauto).
  pose proof (Hbound v _ Hv) as Hb. pose proof (Hpos v _ Hv) as Hp.
  pose proof (HΔ v Hvin). lia.
Qed.

Lemma run_coloring_degree_bound_witness :
  ∃ coloring chromatic_number colors_used,
    Coloring.run_coloring path4 =
      Ok (ColoringResult "Graph Coloring (Greedy)" coloring chromatic_number
            colors_used true) ∧
    (∀ v c, coloring !! v = Some c → 0 ≤ c ≤ Z.of_nat (degree path4 v)).
Proof.
  destruct (run_coloring_degree_bound path4 0 [1; 2; 3] eq_refl path4_endpoints_in)
    as (col & chrom & used & Hrun & Hb & _).
  by exists col, chrom, used.
Defined.

(** ** Breadth-first distances are least *)

Lemma nsteps_snoc_Z (g : graph) (s u v : Z) (d : Z) :
  0 ≤ d → nsteps (adjacent g) (Z.to_nat d) s u → adjacent g u v →
  nsteps (adjacent g) (Z.to_nat (d + 1)) s v.
Proof.
  intros Hd Hsu Huv. replace (Z.to_nat (d + 1)) with (S (Z.to_nat d)) by lia.
  by eapply nsteps_r.
Qed.

(** A chain from [s] to [t] first reaches [t] from a vertex that a shorter
    chain avoiding [t] leads to. *)
Lemma first_hit (g : graph) (s t : Z) (m : nat) (x : Z) :
  s ≠ t → nsteps (adjacent g) m s x →
  (avoiding g t s m x ∧ x ≠ t) ∨
  ∃ j y, (j < m)%nat ∧ avoiding g t s j y ∧ adjacent g y t.
Proof.
  intros Hst. revert x. induction m as [|m IH]; intros x Hx.
  - inversion Hx; subst. left. split; [constructor|done].
  - apply nsteps_inv_r in Hx as (y & Hy & Hyx).
    destruct (IH y Hy) as [[Hav Hne]|(j & z & Hj & Hav & Hz)].
    + destruct (decide (x = t)) as [->|Hxt].
      * right. exists m, y. split; [lia|done].
      * left. split; [|done]. by apply (avoiding_snoc g t s m y x).
    + right. exists j, z. split; [lia|done].
Qed.

Section bfs_shortest.
Context (g : graph) (adj : neighbours).
Hypothesis Hg : endpoints_in g.
Hypothesis Hadj : neighbours_of g adj.
Context (s target : Z).
Hypothesis Hst : s ≠ target.

(** No chain avoiding the target is shorter than the recorded distance of
    its end, unless it is longer than the current level. *)
Lemma bfs_lower (D : gmap Z Z) (P : gset Z) (level : Z) (cur : option Z) (seen : gset Z)
    (q : list (Z * Z)) (j : nat) (x : Z) :
  bfs_inv g s target D P level cur seen q →
  avoiding g target s j x →
  (∃ d, D !! x = Some d ∧ d ≤ Z.of_nat j) ∨ level + 1 ≤ Z.of_nat j.
Proof.
  intros Hinv. induction 1 as [|j y x Hav IH Hyx Hx].
  - left. exists 0. split; [apply (b_start _ _ _ _ _ _ _ _ _ Hinv)|lia].
  - destruct IH as [(dy & Hdy & Hle)|Hlevel]; [|right; lia].
    destruct (decide (y ∈ P)) as [HyP|HyP].
    + destruct (b_processed _ _ _ _ _ _ _ _ _ Hinv y HyP) as (dp & Hdp & _ & Hnb).
      destruct (Hnb x Hyx) as (_ & dx & Hdx & Hle'). left. exists dx. split; [done|].
      assert (dp = dy) by congruence. lia.
    + right. destruct (b_queued _ _ _ _ _ _ _ _ _ Hinv y dy Hdy HyP) as [Hq|Hc].
      * destruct (b_queue _ _ _ _ _ _ _ _ _ Hinv y dy Hq) as (_ & _ & Hl). lia.
      * destruct (b_cur _ _ _ _ _ _ _ _ _ Hinv y Hc) as (Hl & _). assert (dy = level) by congruence.
        lia.
Qed.

(** Reading the adjacency list of the dequeued vertex [u]. *)
Lemma scan_shortest (P : gset Z) (u d : Z) (nbrs : list Z) :
  ∀ (D : gmap Z Z) (seen : gset Z) (q : list (Z * Z)),
  bfs_inv g s target D P d (Some u) seen q →
  (∀ v, v ∈ nbrs → adjacent g u v) →
  match Hotel.scan target d nbrs (seen, q) with
  | inl r => r = d + 1 ∧ adjacent g u target
  | inr (seen', q') =>
      ∃ D', bfs_inv g s target D' P d (Some u) seen' q' ∧
            (∀ x dx, D !! x = Some dx → D' !! x = Some dx) ∧
            (∀ v, v ∈ nbrs → v ≠ target ∧ ∃ dv, D' !! v = Some dv ∧ dv ≤ d + 1)
  end.
Proof.
  induction nbrs as [|v nbrs IH]; intros D seen q Hinv Hnb; simpl.
  - exists D. split; [done|]. split; [done|]. by intros v ?%elem_of_nil.
  - assert (∀ v', v' ∈ nbrs → adjacent g u v') as Hnb'.
    { intros v' Hv'. apply Hnb. by apply list_elem_of_further. }
    assert (adjacent g u v) as Huv by apply Hnb, list_elem_of_here.
    destruct (decide (v = target)) as [->|Hne]; [done|].
    destruct (decide (v ∈ seen)) as [Hin|Hnin].
    + specialize (IH D seen q Hinv Hnb').
      destruct (Hotel.scan target d nbrs (seen, q)) as [r|[seen' q']]; [done|].
      destruct IH as (D' & Hinv' & Hkeep & Hall). exists D'. split; [done|]. split; [done|].
      intros v' Hv'. apply elem_of_cons in Hv' as [->|Hv']; [|by apply Hall].
      split; [done|]. apply (b_dom _ _ _ _ _ _ _ _ _ Hinv) in Hin as [dv Hdv].
      exists dv. split; [by apply Hkeep|]. by apply (b_level _ _ _ _ _ _ _ _ _ Hinv v).
    + destruct Hinv as [Hdom Hsound Hstart Hlevel Hqueue Hqueued Hcur Hsorted Hnodup Hproc Htarget].
      destruct (Hcur u eq_refl) as (Hdu & HuP & Huq).
      assert (D !! v = None) as HDv by (apply eq_None_not_Some; by rewrite Hdom).
      assert (v ≠ u) as Hvu by (intros ->; congruence).
      assert (v ∉ P) as HvP.
      { intros HvP. destruct (Hproc v HvP) as (dp & Hdp & _). congruence. }
      assert (bfs_inv g s target (<[v := d + 1]> D) P d (Some u) ({[v]} ∪ seen)
                (q ++ [(v, d + 1)])) as Hinv1.
      { split.
        - intros x. rewrite lookup_insert_is_Some, Hdom, elem_of_union, elem_of_singleton.
          destruct (decide (v = x)); naive_solver.
        - intros x dx. destruct (decide (v = x)) as [<-|Hvx].
          + rewrite lookup_insert_eq. intros [= <-].
            destruct (Hsound u d Hdu) as [Hd Hsu]. split; [lia|].
            by apply (nsteps_snoc_Z g s u v d).
          + rewrite lookup_insert_ne by done. apply Hsound.
        - rewrite lookup_insert_ne; [done|]. intros ->. congruence.
        - intros x dx. destruct (decide (v = x)) as [<-|Hvx].
          + rewrite lookup_insert_eq. intros [= <-]. lia.
          + rewrite lookup_insert_ne by done. apply Hlevel.
        - intros x dx Hx. apply elem_of_app in Hx as [Hx|Hx].
          + destruct (Hqueue x dx Hx) as (Hdx & HxP & Hl).
            rewrite lookup_insert_ne; [done|]. intros <-. congruence.
          + apply list_elem_of_singleton in Hx as [= -> ->]. rewrite lookup_insert_eq.
            split; [done|]. split; [done|lia].
        - intros x dx. destruct (decide (v = x)) as [<-|Hvx].
          + rewrite lookup_insert_eq. intros [= <-] _. left. apply elem_of_app. right.
            apply list_elem_of_here.
          + rewrite lookup_insert_ne by done. intros Hdx HxP.
            destruct (Hqueued x dx Hdx HxP) as [Hq|Hc]; [left|by right].
            apply elem_of_app. by left.
        - intros u' [= <-]. rewrite lookup_insert_ne by done. split; [done|]. split; [done|].
          rewrite fmap_app. intros Hin. apply elem_of_app in Hin as [Hin|Hin]; [done|].
          simpl in Hin. apply list_elem_of_singleton in Hin. done.
        - rewrite fmap_app. simpl. apply StronglySorted_app_2; [|done|repeat constructor].
          intros a b Ha Hb. apply list_elem_of_singleton in Hb as ->.
          apply list_elem_of_fmap in Ha as ([x dx] & -> & Hx). simpl.
          destruct (Hqueue x dx Hx) as (Hdx & _). by apply (Hlevel x).
        - rewrite fmap_app. simpl. apply NoDup_app. split; [done|]. split; [|apply NoDup_singleton].
          intros x Hx Hx'. apply list_elem_of_singleton in Hx'. subst x.
          apply list_elem_of_fmap in Hx as ([x dx] & Heq & Hx). simpl in Heq. subst x.
          destruct (Hqueue v dx Hx) as (Hdx & _). congruence.
        - intros p Hp. destruct (Hproc p Hp) as (dp & Hdp & Hle & Hnbp).
          exists dp. split; [|split; [done|]].
          + rewrite lookup_insert_ne; [done|]. intros <-. congruence.
          + intros y Hy. destruct (Hnbp y Hy) as (Hyt & dy & Hdy & Hle'). split; [done|].
            exists dy. split; [|done]. rewrite lookup_insert_ne; [done|]. intros <-. congruence.
        - rewrite elem_of_union, elem_of_singleton. intros [Heq|Hin]; [congruence|done]. }
      specialize (IH _ _ _ Hinv1 Hnb').
      destruct (Hotel.scan target d nbrs ({[v]} ∪ seen, q ++ [(v, d + 1)])) as [r|[seen' q']];
        [done|].
      destruct IH as (D' & Hinv' & Hkeep & Hall). exists D'. split; [done|]. split.
      * intros x dx Hdx. apply Hkeep. rewrite lookup_insert_ne; [done|]. intros <-. congruence.
      * intros v' Hv'. apply elem_of_cons in Hv' as [->|Hv']; [|by apply Hall].
        split; [done|]. exists (d + 1). split; [|lia]. apply Hkeep. by rewrite lookup_insert_eq.
Qed.

Lemma bfs_pop (D : gmap Z Z) (P : gset Z) (level : Z) (seen : gset Z) (u d : Z)
    (q : list (Z * Z)) :
  bfs_inv g s target D P level None seen ((u, d) :: q) →
  bfs_inv g s target D P d (Some u) seen q.
Proof.
  intros [Hdom Hsound Hstart Hlevel Hqueue Hqueued Hcur Hsorted Hnodup Hproc Htarget].
  destruct (Hqueue u d (list_elem_of_here _ _)) as (Hdu & HuP & Hl).
  simpl in Hsorted, Hnodup. apply StronglySorted_inv in Hsorted as [Hsorted Hhd].
  apply NoDup_cons in Hnodup as [Hnotin Hnodup].
  split; try done.
  - intros x dx Hdx. pose proof (Hlevel x dx Hdx). lia.
  - intros x dx Hx. destruct (Hqueue x dx) as (Hdx & HxP & _); [by apply list_elem_of_further|].
    split; [done|]. split; [done|].
    rewrite Forall_forall in Hhd. apply Hhd. apply list_elem_of_fmap. by exists (x, dx).
  - intros x dx Hdx HxP. destruct (Hqueued x dx Hdx HxP) as [Hq|Hc]; [|done].
    apply elem_of_cons in Hq as [[= -> ->]|Hq]; [by right|by left].
  - intros u' [= <-]. done.
  - intros p Hp. destruct (Hproc p Hp) as (dp & Hdp & Hle & Hnb). exists dp.
    split; [done|]. split; [lia|done].
Qed.

Lemma bfs_finish (D : gmap Z Z) (P : gset Z) (seen : gset Z) (u d : Z) (q : list (Z * Z)) :
  bfs_inv g s target D P d (Some u) seen q →
  (∀ v, adjacent g u v → v ≠ target ∧ ∃ dv, D !! v = Some dv ∧ dv ≤ d + 1) →
  bfs_inv g s target D ({[u]} ∪ P) d None seen q.
Proof.
  intros [Hdom Hsound Hstart Hlevel Hqueue Hqueued Hcur Hsorted Hnodup Hproc Htarget] Hnb.
  destruct (Hcur u eq_refl) as (Hdu & HuP & Huq).
  split; try done.
  - intros x dx Hx. destruct (Hqueue x dx Hx) as (Hdx & HxP & Hl). split; [done|].
    split; [|done]. rewrite elem_of_union, elem_of_singleton. intros [->|HxP']; [|done].
    apply Huq. apply list_elem_of_fmap. by exists (u, dx).
  - intros x dx Hdx HxP. rewrite elem_of_union, elem_of_singleton in HxP.
    destruct (Hqueued x dx Hdx) as [Hq|[= <-]]; [tauto|by left|tauto].
  - intros p Hp. apply elem_of_union in Hp as [Hp|Hp].
    + apply elem_of_singleton in Hp as ->. exists d. split; [done|]. split; [lia|done].
    + by apply Hproc.
Qed.

(** When nothing is left to dequeue, no chain leads to the target. *)
Lemma bfs_exhausted (D : gmap Z Z) (P : gset Z) (level : Z) (seen : gset Z) :
  bfs_inv g s target D P level None seen [] → ¬ connected g s target.
Proof.
  intros Hinv Hconn.
  assert (∀ x d, D !! x = Some d → x ∈ P) as Hall.
  { intros x d Hd. destruct (decide (x ∈ P)) as [|HxP]; [done|].
    destruct (b_queued _ _ _ _ _ _ _ _ _ Hinv x d Hd HxP) as [Hq|Hc]; [|done].
    by apply elem_of_nil in Hq. }
  assert (∀ j x, avoiding g target s j x → x ∈ P) as Hav.
  { intros j x. induction 1 as [|j y x Hav IH Hyx Hx].
    - apply (Hall s 0), (b_start _ _ _ _ _ _ _ _ _ Hinv).
    - destruct (b_processed _ _ _ _ _ _ _ _ _ Hinv y IH) as (dp & _ & _ & Hnb).
      destruct (Hnb x Hyx) as (_ & dx & Hdx & _). by apply (Hall x dx). }
  apply rtc_nsteps in Hconn as [m Hm].
  destruct (first_hit g s target m target Hst Hm) as [[_ Hne]|(j & y & _ & Hy & Hyt)]; [done|].
  destruct (b_processed _ _ _ _ _ _ _ _ _ Hinv y (Hav j y Hy)) as (dp & _ & _ & Hnb).
  by destruct (Hnb target Hyt).
Qed.

Lemma bfs_loop_shortest (fuel : nat) :
  ∀ (D : gmap Z Z) (P : gset Z) (level : Z) (seen : gset Z) (q : list (Z * Z)) (r : num),
  bfs_inv g s target D P level None seen q →
  Hotel.bfs_loop fuel adj target seen q = Ok r →
  hop_answer g s target r.
Proof.
  induction fuel as [|fuel IH]; intros D P level seen q r Hinv Hrun.
  - destruct q as [|[u d] q]; simpl in Hrun; [|discriminate].
    injection Hrun as <-. by apply (bfs_exhausted D P level seen).
  - destruct q as [|[u d] q]; simpl in Hrun.
    { injection Hrun as <-. by apply (bfs_exhausted D P level seen). }
    apply bind_Ok in Hrun as (nbrs & Hnbrs & Hrun). apply subscript_Ok in Hnbrs.
    pose proof (bfs_pop D P level seen u d q Hinv) as Hpop.
    pose proof (scan_shortest P u d nbrs D seen q Hpop) as Hscan.
    destruct (Hotel.scan target d nbrs (seen, q)) as [r'|[seen' q']].
    + injection Hrun as <-. destruct Hscan as [-> Hut].
      { intros v Hv. by apply (nb_adjacent g adj Hadj u nbrs). }
      destruct (b_cur _ _ _ _ _ _ _ _ _ Hpop u eq_refl) as (Hdu & HuP & _).
      destruct (b_sound _ _ _ _ _ _ _ _ _ Hpop u d Hdu) as [Hd Hsu].
      exists (d + 1). split; [done|]. split; [lia|]. split; [by apply (nsteps_snoc_Z g s u)|].
      intros m Hm.
      destruct (first_hit g s target m target Hst Hm) as [[_ Hne]|(j & y & Hj & Hy & Hyt)];
        [done|].
      destruct (bfs_lower D P d (Some u) seen q j y Hpop Hy) as [(dy & Hdy & Hle)|Hl]; [|lia].
      destruct (decide (y ∈ P)) as [HyP|HyP].
      * destruct (b_processed _ _ _ _ _ _ _ _ _ Hpop y HyP) as (dp & _ & _ & Hnb).
        by destruct (Hnb target Hyt).
      * destruct (b_queued _ _ _ _ _ _ _ _ _ Hpop y dy Hdy HyP) as [Hq|[= <-]].
        -- destruct (b_queue _ _ _ _ _ _ _ _ _ Hpop y dy Hq) as (_ & _ & Hl). lia.
        -- assert (dy = d) by congruence. lia.
    + destruct Hscan as (D' & Hinv' & Hkeep & Hall).
      { intros v Hv. by apply (nb_adjacent g adj Hadj u nbrs). }
      apply (IH D' ({[u]} ∪ P) d seen' q' r); [|done].
      apply bfs_finish; [done|]. intros v Hv. apply Hall.
      by apply (nb_adjacent g adj Hadj u nbrs).
Qed.

Lemma bfs_initial : bfs_inv g s target {[s := 0]} ∅ 0 None {[s]} [(s, 0)].
Proof.
  split.
  - intros x. rewrite elem_of_singleton. destruct (decide (s = x)) as [<-|Hne].
    + rewrite lookup_singleton_eq. split; eauto.
    + rewrite lookup_singleton_ne by done. split; [by intros [? ?]|congruence].
  - intros x d Hx. apply lookup_singleton_Some in Hx as [<- <-]. split; [done|]. constructor.
  - apply lookup_singleton_eq.
  - intros x d Hx. apply lookup_singleton_Some in Hx as [<- <-]. lia.
  - intros x d Hx. apply list_elem_of_singleton in Hx as [= -> ->].
    rewrite lookup_singleton_eq. split; [done|]. split; [apply not_elem_of_empty|lia].
  - intros x d Hx _. apply lookup_singleton_Some in Hx as [<- <-]. left. apply list_elem_of_here.
  - done.
  - simpl. repeat constructor.
  - simpl. apply NoDup_singleton.
  - by intros p ?%elem_of_empty.
  - rewrite elem_of_singleton. congruence.
Qed.
End bfs_shortest.

Lemma shortest_refl (g : graph) (v : Z) : shortest g v v 0.
Proof. split; [done|]. split; [constructor|]. intros m _. lia. Qed.

Lemma bfs_distance_answer (g : graph) (adj : neighbours) (v c : Z) (r : num) :
  endpoints_in g → neighbours_of g adj →
  Hotel.bfs_distance (Hotel.fuel_of g) adj v c = Ok r → hop_answer g v c r.
Proof.
  intros Hg Hadj. unfold Hotel.bfs_distance. destruct (decide (v = c)) as [->|Hne].
  - intros [= <-]. exists 0. split; [done|]. apply shortest_refl.
  - apply (bfs_loop_shortest g adj Hadj v c Hne _ {[v := 0]} ∅ 0). by apply bfs_initial.
Qed.

(** [X11] Inside [run_hotel_optimization], on a graph whose edges join
    listed vertices, [bfs_distance(v, c)] from a listed vertex [v] returns
    the least number of edges of a chain from [v] to [c], and infinity
    exactly when no chain joins them; it returns for every pair, since a
    vertex enters the queue at most once. *)
Theorem bfs_distance_shortest (g : graph) (v c : Z) :
  endpoints_in g → v ∈ vertices g →
  ∃ adj r,
    build_neighbours g = Ok adj ∧
    Hotel.bfs_distance (Hotel.fuel_of g) adj v c = Ok r ∧
    r = hops g v c ∧
    match r with
    | Fin x => ∃ d, x = inject_Z d ∧ 0 ≤ d ∧
                    nsteps (adjacent g) (Z.to_nat d) v c ∧
                    ∀ m, nsteps (adjacent g) m v c → d ≤ Z.of_nat m
    | Inf => ¬ connected g v c
    end.
Proof.
  intros Hg Hv. destruct (build_neighbours_spec g Hg) as (adj & Hbuild & Hadj).
  pose proof (hops_computed g adj v c Hg Hbuild Hadj Hv) as Hd.
  exists adj, (hops g v c). split; [done|]. split; [done|]. split; [done|].
  apply (bfs_distance_answer g adj v c _ Hg Hadj Hd).
Qed.

Lemma bfs_distance_shortest_witness :
  ∃ adj r,
    build_neighbours path4 = Ok adj ∧
    Hotel.bfs_distance (Hotel.fuel_of path4) adj 0 3 = Ok r ∧
    r = hops path4 0 3 ∧
    match r with
    | Fin x => ∃ d, x = inject_Z d ∧ 0 ≤ d ∧
                    nsteps (adjacent path4) (Z.to_nat d) 0 3 ∧
                    ∀ m, nsteps (adjacent path4) m 0 3 → d ≤ Z.of_nat m
    | Inf => ¬ connected path4 0 3
    end.
Proof.
  apply (bfs_distance_shortest path4 0 3 path4_endpoints_in).
  unfold path4. simpl. apply list_elem_of_here.
Defined.

(** ** k-centres: the number and the spread of the centres *)

Lemma min_list_in (x : num) (xs : list num) : Hotel.min_list x xs ∈ x :: xs.
Proof.
  unfold Hotel.min_list. revert x. induction xs as [|y xs IH]; intros x; simpl.
  - apply list_elem_of_here.
  - destruct (num_ltb y x).
    + apply list_elem_of_further, IH.
    + specialize (IH x). apply elem_of_cons in IH as [->|IH]; [apply list_elem_of_here|].
      by do 2 apply list_elem_of_further.
Qed.

Lemma hops_nonneg (g : graph) (v c : Z) :
  endpoints_in g → v ∈ vertices g → num_le (Fin 0) (hops g v c).
Proof.
  intros Hg Hv. destruct (build_neighbours_spec g Hg) as (adj & Hbuild & Hadj).
  pose proof (hops_computed g adj v c Hg Hbuild Hadj Hv) as Hd.
  apply (bfs_distance_answer g adj v c _ Hg Hadj) in Hd.
  destruct (hops g v c) as [x|]; [|done]. destruct Hd as (d & -> & Hd & _).
  simpl. unfold Qle. simpl. lia.
Qed.

Lemma hops_self (g : graph) (v : Z) : endpoints_in g → v ∈ vertices g → hops g v v = Fin 0.
Proof.
  intros Hg Hv. destruct (build_neighbours_spec g Hg) as (adj & Hbuild & Hadj).
  pose proof (hops_computed g adj v v Hg Hbuild Hadj Hv) as Hd.
  unfold Hotel.bfs_distance in Hd. rewrite decide_True in Hd by done. congruence.
Qed.

Lemma hops_zero (g : graph) (v c : Z) :
  endpoints_in g → v ∈ vertices g → num_le (hops g v c) (Fin 0) → c = v.
Proof.
  intros Hg Hv Hle. destruct (build_neighbours_spec g Hg) as (adj & Hbuild & Hadj).
  pose proof (hops_computed g adj v c Hg Hbuild Hadj Hv) as Hd.
  apply (bfs_distance_answer g adj v c _ Hg Hadj) in Hd.
  destruct (hops g v c) as [x|]; [|done]. destruct Hd as (d & -> & Hd & Hsteps & _).
  simpl in Hle. unfold Qle in Hle. simpl in Hle.
  assert (d = 0) as -> by lia. simpl in Hsteps. by inversion Hsteps.
Qed.

Section hotel_centers.
Context (g : graph) (adj : neighbours) (fuel : nat) (dist : Z → Z → num).
Hypothesis Hdist : ∀ v c, v ∈ vertices g → c ∈ vertices g →
  Hotel.bfs_distance fuel adj v c = Ok (dist v c).
Hypothesis Hnonneg : ∀ v c, v ∈ vertices g → num_le (Fin 0) (dist v c).

Lemma nearest_dist_nonneg (v c0 : Z) (cs : list Z) :
  v ∈ vertices g → num_le (Fin 0) (nearest_dist (dist v) (c0 :: cs)).
Proof.
  intros Hv. simpl. pose proof (min_list_in (dist v c0) (dist v <$> cs)) as Hin.
  apply elem_of_cons in Hin as [->|Hin]; [by apply Hnonneg|].
  apply list_elem_of_fmap in Hin as (c & -> & _). by apply Hnonneg.
Qed.

Lemma consider_farthest (c0 : Z) (cs done_ : list Z) (v : Z) (acc : Z * num) :
  v ∈ vertices g → (∀ c, c ∈ c0 :: cs → c ∈ vertices g) →
  farthest_inv dist (c0 :: cs) done_ acc →
  ∃ acc', Hotel.consider fuel adj (c0 :: cs) v acc = Ok acc' ∧
          farthest_inv dist (c0 :: cs) (done_ ++ [v]) acc'.
Proof.
  intros Hv Hcs Hacc. unfold Hotel.consider.
  destruct (decide (v ∈ c0 :: cs)) as [Hin|Hnin].
  - exists acc. split; [done|]. destruct Hacc as [[-> Hall]|(H1 & H2 & H3 & H4)]; [left|right].
    + split; [done|]. intros u Hu. apply elem_of_app in Hu as [Hu|Hu]; [by apply Hall|].
      by apply list_elem_of_singleton in Hu as ->.
    + split; [apply elem_of_app; by left|]. split; [done|]. split; [done|].
      intros u Hu Hnot. apply elem_of_app in Hu as [Hu|Hu]; [by apply H4|].
      by apply list_elem_of_singleton in Hu as ->.
  - unfold Hotel.distances_to. rewrite (distances_to_total g adj fuel dist Hdist v (c0 :: cs) [] Hv Hcs).
    simpl.
    change (Hotel.min_list (dist v c0) (list_fmap Z num (dist v) cs))
      with (nearest_dist (dist v) (c0 :: cs)).
    pose proof (nearest_dist_nonneg v c0 cs Hv) as Hpos.
    destruct (num_ltb acc.2 (nearest_dist (dist v) (c0 :: cs))) eqn:Hlt.
    + eexists. split; [done|]. right. simpl. split; [apply elem_of_app; right; apply list_elem_of_here|].
      split; [done|]. split; [done|].
      intros u Hu Hnot. apply elem_of_app in Hu as [Hu|Hu].
      * destruct Hacc as [[_ Hall]|(_ & _ & _ & H4)]; [by destruct Hnot; apply Hall|].
        eapply num_le_trans; [by apply H4|]. by apply num_lt_le.
      * apply list_elem_of_singleton in Hu as ->. apply num_le_refl.
    + exists acc. split; [done|]. apply num_ltb_false in Hlt.
      destruct Hacc as [[-> Hall]|(H1 & H2 & H3 & H4)].
      * exfalso. destruct (nearest_dist (dist v) (c0 :: cs)) as [x|]; simpl in Hlt, Hpos; [|done].
        apply (Qle_not_lt _ _ (Qle_trans _ _ _ Hpos Hlt)). done.
      * right. split; [apply elem_of_app; by left|]. split; [done|]. split; [done|].
        intros u Hu Hnot. apply elem_of_app in Hu as [Hu|Hu]; [by apply H4|].
        by apply list_elem_of_singleton in Hu as ->.
Qed.

Lemma consider_all (c0 : Z) (cs : list Z) :
  (∀ c, c ∈ c0 :: cs → c ∈ vertices g) →
  ∀ (todo done_ : list Z) (acc : Z * num),
  (∀ v, v ∈ todo → v ∈ vertices g) →
  farthest_inv dist (c0 :: cs) done_ acc →
  ∃ acc', for_each (Hotel.consider fuel adj (c0 :: cs)) todo acc = Ok acc' ∧
          farthest_inv dist (c0 :: cs) (done_ ++ todo) acc'.
Proof.
  intros Hcs. induction todo as [|v todo IH]; intros done_ acc Htodo Hacc; simpl.
  - exists acc. by rewrite app_nil_r.
  - destruct (consider_farthest c0 cs done_ v acc) as (acc1 & -> & Hacc1);
      [apply Htodo, list_elem_of_here|done|done|].
    simpl. destruct (IH (done_ ++ [v]) acc1) as (acc' & Hrun & Hacc'); [|done|].
    + intros u Hu. apply Htodo. by apply list_elem_of_further.
    + exists acc'. split; [done|]. by rewrite <- app_assoc in Hacc'.
Qed.

Hypothesis Hnodup : NoDup (vertices g).
Hypothesis Hsentinel : -1 ∉ vertices g.

(** A round of the selection adds a centre as long as some vertex is not
    one. *)
Lemma grow_adds (c0 : Z) (cs : list Z) (i : nat) :
  (∀ c, c ∈ c0 :: cs → c ∈ vertices g) → NoDup (c0 :: cs) →
  (length (c0 :: cs) < length (vertices g))%nat →
  ∃ c, Hotel.grow fuel adj (vertices g) i (c0 :: cs) = Ok ((c0 :: cs) ++ [c]) ∧
       c ∈ vertices g ∧ c ∉ c0 :: cs ∧
       ∀ v, v ∈ vertices g → v ∉ c0 :: cs →
            num_le (nearest_dist (dist v) (c0 :: cs)) (nearest_dist (dist c) (c0 :: cs)).
Proof.
  intros Hcs Hnd Hlen. unfold Hotel.grow.
  destruct (consider_all c0 cs Hcs (vertices g) [] (-1, Fin (-1))) as ([far d] & -> & Hacc);
    [done|left; split; [done|by intros v ?%elem_of_nil]|].
  simpl in *. destruct Hacc as [[_ Hall]|(H1 & H2 & H3 & H4)].
  - exfalso. assert (vertices g ⊆+ c0 :: cs) as Hsub by by apply NoDup_submseteq.
    apply submseteq_length in Hsub. simpl in Hsub. lia.
  - simpl in *. destruct (Z.eqb_spec far (-1)) as [->|Hne]; [done|].
    exists far. split; [done|]. split; [done|]. split; [done|]. by rewrite <- H3.
Qed.

Lemma centers_grow (rounds : list nat) :
  ∀ (c0 : Z) (cs : list Z),
  (∀ c, c ∈ c0 :: cs → c ∈ vertices g) → NoDup (c0 :: cs) →
  (length (c0 :: cs) + length rounds ≤ length (vertices g))%nat →
  farthest_first dist (vertices g) (c0 :: cs) →
  ∃ centers, for_each (Hotel.grow fuel adj (vertices g)) rounds (c0 :: cs) = Ok centers ∧
    (∀ c, c ∈ centers → c ∈ vertices g) ∧ NoDup centers ∧ head centers = Some c0 ∧
    length centers = (length (c0 :: cs) + length rounds)%nat ∧
    farthest_first dist (vertices g) centers.
Proof.
  induction rounds as [|i rounds IH]; intros c0 cs Hcs Hnd Hlen Hff; cbn [for_each].
  - exists (c0 :: cs). split; [done|]. split; [done|]. split; [done|]. split; [done|].
    split; [simpl; lia|done].
  - destruct (grow_adds c0 cs i Hcs Hnd) as (c & -> & Hc & Hnew & Hfar); [simpl in *; lia|].
    cbn [mbind res_bind]. change ((c0 :: cs) ++ [c]) with (c0 :: (cs ++ [c])).
    destruct (IH c0 (cs ++ [c])) as (centers & Hrun & H1 & H2 & H3 & H4 & H5).
    + intros x Hx. change (c0 :: cs ++ [c]) with ((c0 :: cs) ++ [c]) in Hx.
      apply elem_of_app in Hx as [Hx|Hx]; [by apply Hcs|].
      by apply list_elem_of_singleton in Hx as ->.
    + change (c0 :: cs ++ [c]) with ((c0 :: cs) ++ [c]). apply NoDup_app.
      split; [done|]. split; [|apply NoDup_singleton].
      intros x Hx Hx'. by apply list_elem_of_singleton in Hx' as ->.
    + simpl in *. rewrite length_app. simpl. lia.
    + intros pre x post Heq Hpre.
      change (c0 :: cs ++ [c]) with ((c0 :: cs) ++ [c]) in Heq.
      destruct post as [|y post] using rev_ind.
      * apply (app_inj_tail (c0 :: cs) pre c x) in Heq as [<- <-]. done.
      * clear IHpost. rewrite app_comm_cons, app_assoc in Heq.
        apply app_inj_tail in Heq as [Heq <-]. by apply (Hff pre x post).
    + exists centers. split; [done|]. split; [done|]. split; [done|]. split; [done|].
      split; [|done]. rewrite H4. simpl. rewrite length_app. simpl. lia.
Qed.
End hotel_centers.

(** [X12] On a graph with a first vertex, edges between listed vertices, no
    vertex listed twice and no vertex labelled [-1], [run_hotel_optimization]
    chooses [len(vertices) // 3 + 1] distinct centres, starting with the
    first listed vertex.  Every later centre was, when chosen, a vertex that
    is not yet a centre and whose BFS distance to the nearest centre chosen
    before is greatest.  Every centre is assigned to itself. *)
Theorem run_hotel_centers_spread (g : graph) (v0 : Z) (rest : list Z) :
  vertices g = v0 :: rest → endpoints_in g → NoDup (vertices g) → -1 ∉ vertices g →
  ∃ centers assignment maxd,
    Hotel.run_hotel_optimization g =
      Ok (HotelResult "Hotel Optimization (K-Centers)" centers (length centers)
            assignment maxd true) ∧
    head centers = Some v0 ∧ NoDup centers ∧
    (∀ c, c ∈ centers → c ∈ vertices g) ∧
    Z.of_nat (length centers) = Z.of_nat (length (vertices g)) / 3 + 1 ∧
    farthest_first (hops g) (vertices g) centers ∧
    (∀ c, c ∈ centers → assignment !! c = Some c).
Proof.
  intros Hvs Hg Hnd Hneg.
  destruct (run_hotel_centers g v0 rest Hvs Hg)
    as (adj & centers & [assignment maxd] & Hbuild & Hadj & Hgrow & Hhd & Hcs & Hassigned & Hrun).
  assert (∀ v c, v ∈ vertices g → c ∈ vertices g →
            Hotel.bfs_distance (Hotel.fuel_of g) adj v c = Ok (hops g v c)) as Hdist.
  { intros v c Hv _. by apply hops_computed. }
  assert (v0 ∈ vertices g) as Hv0 by (rewrite Hvs; apply list_elem_of_here).
  assert (1 ≤ Z.of_nat (length (vertices g))) as Hn by (rewrite Hvs; simpl; lia).
  destruct (centers_grow g adj (Hotel.fuel_of g) (hops g) Hdist
              (λ v c Hv, hops_nonneg g v c Hg Hv) Hnd Hneg
              (seq 0 (Z.to_nat (Z.min (Hotel.k_of (vertices g) - 1)
                                      (Z.of_nat (length (vertices g)) - 1)))) v0 [])
    as (centers' & Hgrow' & _ & Hnd' & _ & Hlen & Hff).
  { intros c Hc. by apply list_elem_of_singleton in Hc as ->. }
  { apply NoDup_singleton. }
  { rewrite length_seq. simpl. unfold Hotel.k_of. lia. }
  { intros pre c post Heq Hpre. destruct pre as [|p [|p' pre]]; [done| |]; simpl in Heq.
    - destruct post; discriminate.
    - discriminate. }
  assert (centers' = centers) as -> by congruence.
  exists centers, assignment, maxd. split; [done|]. split; [done|]. split; [done|].
  split; [done|]. split.
  { rewrite Hlen, length_seq. simpl. unfold Hotel.k_of.
    pose proof (Z.div_pos (Z.of_nat (length (vertices g))) 3 ltac:(lia) ltac:(lia)) as Hlo.
    pose proof (Z.div_lt_upper_bound (Z.of_nat (length (vertices g))) 3
                  (Z.of_nat (length (vertices g))) ltac:(lia) ltac:(lia)) as Hhi.
    lia. }
  split; [done|].
  intros c Hc. assert (c ∈ vertices g) as Hcv by by apply Hcs.
  destruct Hassigned as [Hall _]. destruct (Hall c Hcv) as (c' & Hc' & Hfn & _).
  simpl in Hc'. rewrite Hc'. f_equal.
  destruct Hfn as (l1 & l2 & Heq & Hbefore & Hafter).
  apply (hops_zero g c c' Hg Hcv). rewrite <- (hops_self g c Hg Hcv).
  rewrite Heq in Hc. apply elem_of_app in Hc as [Hc|Hc].
  - exfalso. specialize (Hbefore c Hc). rewrite (hops_self g c Hg Hcv) in Hbefore.
    pose proof (hops_nonneg g c c' Hg Hcv) as Hpos.
    apply (num_lt_not_le _ _ Hbefore Hpos).
  - apply elem_of_cons in Hc as [->|Hc]; [apply num_le_refl|by apply Hafter].
Qed.

Lemma run_hotel_centers_spread_witness :
  ∃ centers assignment maxd,
    Hotel.run_hotel_optimization path4 =
      Ok (HotelResult "Hotel Optimization (K-Centers)" centers (length centers)
            assignment maxd true) ∧
    head centers = Some 0 ∧ NoDup centers ∧
    Z.of_nat (length centers) = Z.of_nat (length (vertices path4)) / 3 + 1.
Proof.
  destruct (run_hotel_centers_spread path4 0 [1; 2; 3] eq_refl path4_endpoints_in)
    as (centers & assignment & maxd & Hrun & Hhd & Hnd & _ & Hlen & _).
  - unfold path4. simpl. repeat constructor; set_solver.
  - unfold path4. simpl. set_solver.
  - by exists centers, assignment, maxd.
Defined.

(** ** Nearest-neighbour tour: each step is to a nearest unvisited vertex *)

Lemma edge_weight_joined (es : list edge) (a b : Z) :
  edge_weight es a b ≠ Inf ↔ ∃ e, e ∈ es ∧ joins e a b = true.
Proof.
  unfold edge_weight.
  assert (∀ acc, foldl (λ acc e, if joins e a b then Fin (unpack e).2 else acc) acc es ≠ Inf ↔
                 acc ≠ Inf ∨ ∃ e, e ∈ es ∧ joins e a b = true) as Hgen.
  { induction es as [|e es IH]; intros acc; simpl.
    - split; [by left|]. intros [?|(e & He & _)]; [done|by apply elem_of_nil in He].
    - rewrite IH. split.
      + intros [Hacc|(e' & He' & Hj)].
        * destruct (joins e a b) eqn:Hj; [right; exists e; split; [apply list_elem_of_here|done]|].
          by left.
        * right. exists e'. split; [by apply list_elem_of_further|done].
      + intros [Hacc|(e' & He' & Hj)].
        * left. by destruct (joins e a b).
        * apply elem_of_cons in He' as [->|He']; [left; by rewrite Hj|].
          right. by exists e'. }
  rewrite Hgen. split; [intros [?|?]; done|by right].
Qed.

Lemma edge_weight_adjacent (g : graph) (a b : Z) :
  edge_weight (edges g) a b ≠ Inf ↔ adjacent g a b.
Proof.
  rewrite edge_weight_joined. unfold adjacent. split.
  - intros (e & He & Hj). exists e. split; [done|]. apply joins_spec in Hj.
    rewrite endpoints_unpack. destruct Hj as [[<- <-]|[<- <-]]; auto.
  - intros (e & He & Hab). exists e. split; [done|]. apply joins_spec.
    rewrite endpoints_unpack in Hab. destruct Hab as [[= <- <-]|[= <- <-]]; auto.
Qed.

Lemma num_ltb_finite (a b : num) : num_ltb a b = true → a ≠ Inf.
Proof. by destruct a. Qed.

Section tsp_nearest.
Context (g : graph) (adj : Tsp.matrix).
Hypothesis Hrep : tsp_represents (vertices g) adj (edge_weight (edges g)).

Lemma tsp_scan_nearest (seen : gset Z) (c : Z) :
  c ∈ vertices g →
  ∀ (todo done_ : list Z) (acc : Z * num),
  (∀ v, v ∈ todo → v ∈ vertices g) →
  nearest_inv (edge_weight (edges g)) seen c done_ acc →
  ∃ acc', for_each (Tsp.scan adj seen c) todo acc = Ok acc' ∧
          nearest_inv (edge_weight (edges g)) seen c (done_ ++ todo) acc'.
Proof.
  intros Hc. induction todo as [|v todo IH]; intros done_ acc Htodo Hacc; simpl.
  - exists acc. by rewrite app_nil_r.
  - assert (v ∈ vertices g) as Hv by apply Htodo, list_elem_of_here.
    assert (∃ acc1, Tsp.scan adj seen c v acc = Ok acc1 ∧
                    nearest_inv (edge_weight (edges g)) seen c (done_ ++ [v]) acc1)
      as (acc1 & -> & Hacc1).
    { unfold Tsp.scan. destruct (decide (v ∈ seen)) as [Hin|Hnin].
      - exists acc. split; [done|]. destruct Hacc as [[-> Hall]|(H1 & H2 & H3 & H4 & H5)]; [left|right].
        + split; [done|]. intros u Hu Hnot. apply elem_of_app in Hu as [Hu|Hu]; [by apply Hall|].
          by apply list_elem_of_singleton in Hu as ->.
        + split; [apply elem_of_app; by left|]. repeat (split; [done|]).
          intros u Hu Hnot. apply elem_of_app in Hu as [Hu|Hu]; [by apply H5|].
          by apply list_elem_of_singleton in Hu as ->.
      - rewrite (Hrep c v Hc Hv). simpl.
        destruct (num_ltb (edge_weight (edges g) c v) acc.2) eqn:Hlt.
        + eexists. split; [done|]. right. simpl.
          split; [apply elem_of_app; right; apply list_elem_of_here|].
          split; [done|]. split; [done|]. split; [by apply (num_ltb_finite _ acc.2)|].
          intros u Hu Hnot. apply elem_of_app in Hu as [Hu|Hu].
          * destruct Hacc as [[_ Hall]|(_ & _ & _ & _ & H5)].
            -- rewrite (Hall u Hu Hnot). by destruct (edge_weight (edges g) c v).
            -- eapply num_le_trans; [|by apply H5]. by apply num_lt_le.
          * apply list_elem_of_singleton in Hu as ->. apply num_le_refl.
        + exists acc. split; [done|]. apply num_ltb_false in Hlt.
          destruct Hacc as [[-> Hall]|(H1 & H2 & H3 & H4 & H5)]; [left|right].
          * split; [done|]. intros u Hu Hnot. apply elem_of_app in Hu as [Hu|Hu]; [by apply Hall|].
            apply list_elem_of_singleton in Hu as ->. by apply num_le_Inf.
          * split; [apply elem_of_app; by left|]. repeat (split; [done|]).
            intros u Hu Hnot. apply elem_of_app in Hu as [Hu|Hu]; [by apply H5|].
            by apply list_elem_of_singleton in Hu as ->. }
    simpl. destruct (IH (done_ ++ [v]) acc1) as (acc' & Hrun & Hacc'); [|done|].
    + intros u Hu. apply Htodo. by apply list_elem_of_further.
    + exists acc'. split; [done|]. by rewrite <- app_assoc in Hacc'.
Qed.

Lemma tsp_loop_nearest (v0 : Z) (fuel : nat) (st : Tsp.state) :
  -1 ∉ vertices g →
  tsp_inv g v0 st →
  nearest_steps (edge_weight (edges g)) (vertices g) (Tsp.tour st) →
  (length (vertices g) - length (Tsp.tour st) ≤ fuel)%nat →
  ∃ st', Tsp.loop fuel adj (vertices g) st = Ok st' ∧ tsp_inv g v0 st' ∧
    nearest_steps (edge_weight (edges g)) (vertices g) (Tsp.tour st') ∧
    ((length (Tsp.tour st') < length (vertices g))%nat →
     ∀ v, v ∈ vertices g → v ∉ Tsp.tour st' →
          edge_weight (edges g) (Tsp.current st') v = Inf).
Proof.
  intros Hneg. revert st. induction fuel as [|fuel IH]; intros st Hinv Hnn Hfuel.
  - simpl. destruct Hinv as [Hhead Hlast Hnodup Hseen Hin Htotal] eqn:Hi.
    rewrite Hseen, size_list_to_set_NoDup by done.
    destruct (Z.ltb_spec (Z.of_nat (length (Tsp.tour st))) (Z.of_nat (length (vertices g))));
      [lia|].
    exists st. split; [done|]. split; [done|]. split; [done|]. lia.
  - simpl. pose proof Hinv as Hinv'. destruct Hinv as [Hhead Hlast Hnodup Hseen Hin Htotal].
    rewrite Hseen, size_list_to_set_NoDup by done.
    destruct (Z.ltb_spec (Z.of_nat (length (Tsp.tour st))) (Z.of_nat (length (vertices g))))
      as [Hlt|Hge].
    2:{ exists st. split; [done|]. split; [done|]. split; [done|]. lia. }
    assert (Tsp.current st ∈ vertices g) as Hc.
    { apply Hin. apply last_Some in Hlast as [l' ->]. set_solver. }
    destruct (tsp_scan_nearest (list_to_set (Tsp.tour st)) (Tsp.current st) Hc
                (vertices g) [] (-1, Inf) (λ v H, H))
      as ([n d] & Hscan & Hres).
    { left. split; [done|]. by intros v ?%elem_of_nil. }
    rewrite Hscan. simpl. simpl in Hres.
    destruct Hres as [[[= -> ->] Hall]|(Hn1 & Hn2 & Hd & Hfin & Hleast)]; simpl in *.
    + exists st. split; [done|]. split; [done|]. split; [done|].
      intros _ v Hv Hnot. apply Hall; [done|]. by rewrite elem_of_list_to_set.
    + destruct (Z.eqb_spec n (-1)) as [->|Hn]; [done|].
      rewrite elem_of_list_to_set in Hn2.
      apply IH.
      * constructor; simpl.
        -- destruct (Tsp.tour st); [done|]. done.
        -- by rewrite last_snoc.
        -- apply NoDup_app. split; [done|]. split; [|apply NoDup_singleton].
           intros x Hx Hx'. by apply list_elem_of_singleton in Hx' as ->.
        -- rewrite list_to_set_app_L. simpl. set_solver.
        -- intros x Hx. apply elem_of_app in Hx as [Hx|Hx]; [auto|].
           by apply list_elem_of_singleton in Hx as ->.
        -- rewrite (walk_weight_snoc _ _ _ _ Hlast). by rewrite Htotal, Hd.
      * simpl. intros pre a b post Heq.
        destruct post as [|y post] using rev_ind.
        -- change (pre ++ [a; b]) with (pre ++ [a] ++ [b]) in Heq. rewrite app_assoc in Heq.
           apply app_inj_tail in Heq as [Heq <-].
           assert (a = Tsp.current st) as ->.
           { rewrite Heq, last_snoc in Hlast. congruence. }
           rewrite <- Hd. split; [done|]. intros v Hv Hnot. apply Hleast; [done|].
           rewrite elem_of_list_to_set, Heq. done.
        -- clear IHpost. rewrite !app_comm_cons, app_assoc in Heq.
           apply app_inj_tail in Heq as [Heq <-]. by apply (Hnn pre a b post).
      * simpl. rewrite length_app. simpl. lia.
Qed.
End tsp_nearest.

(** [X13] On a graph with a first vertex, edges between listed vertices and
    no vertex labelled [-1], every step of the walk [run_tsp] builds follows
    an edge from the current vertex to an unvisited vertex of least weight
    (the weight the last edge between two vertices gives them).  The walk
    stops before all vertices are visited only when no edge joins its last
    vertex to an unvisited one.  So when no vertex is listed twice and every
    two distinct vertices are joined by an edge, the tour visits every vertex
    exactly once and returns to the start. *)
Theorem run_tsp_nearest_neighbour (g : graph) (start v0 : Z) (rest : list Z) :
  vertices g = v0 :: rest → endpoints_in g → -1 ∉ vertices g →
  ∃ t : list Z,
    head t = Some v0 ∧ NoDup t ∧ (∀ x, x ∈ t → x ∈ vertices g) ∧
    Tsp.run_tsp g start =
      Ok (TspResult "TSP (Nearest Neighbor)"
            (closed_if_complete g v0 t)
            (round2 (walk_weight (edges g) (closed_if_complete g v0 t)))
            (Z.of_nat (length (closed_if_complete g v0 t)) - 1)
            true) ∧
    nearest_steps (edge_weight (edges g)) (vertices g) t ∧
    ((length t < length (vertices g))%nat →
     ∀ c v, last t = Some c → v ∈ vertices g → v ∉ t → ¬ adjacent g c v) ∧
    (NoDup (vertices g) →
     (∀ a b, a ∈ vertices g → b ∈ vertices g → a ≠ b → adjacent g a b) →
     t ≡ₚ vertices g ∧ closed_if_complete g v0 t = t ++ [v0]).
Proof.
  intros Hvs Hg Hneg.
  destruct (run_tsp_state g start v0 rest Hvs Hg) as (adj & st & Hbuild & Hrep & Hloop & Hinv & Hrun).
  destruct (tsp_loop_nearest g adj Hrep v0 (length (vertices g))
              (Tsp.State [v0] {[v0]} v0 (Fin 0)) Hneg) as (st' & Hloop' & _ & Hnn & Hstop).
  { constructor; simpl; try done.
    - apply NoDup_singleton.
    - set_solver.
    - intros x Hx. apply list_elem_of_singleton in Hx as ->. rewrite Hvs. apply list_elem_of_here. }
  { intros pre a b post Heq. simpl in Heq. destruct pre as [|p [|p' pre]]; discriminate. }
  { simpl. lia. }
  assert (st' = st) as -> by congruence.
  destruct Hinv as [Hhead Hlast Hnodup Hseen Hin Htotal].
  exists (Tsp.tour st). split; [done|]. split; [done|]. split; [done|]. split; [done|].
  split; [done|].
  assert ((length (Tsp.tour st) < length (vertices g))%nat →
          ∀ c v, last (Tsp.tour st) = Some c → v ∈ vertices g → v ∉ Tsp.tour st →
                 ¬ adjacent g c v) as Hstop'.
  { intros Hlen c v Hc Hv Hnot Hadj. assert (c = Tsp.current st) as -> by congruence.
    apply edge_weight_adjacent in Hadj. apply Hadj. by apply Hstop. }
  split; [done|].
  intros Hnd Hcomplete.
  assert (length (vertices g) ≤ length (Tsp.tour st))%nat as Hlen.
  { destruct (decide (length (vertices g) ≤ length (Tsp.tour st))%nat) as [|Hlt]; [done|].
    exfalso.
    destruct (decide (Forall (λ v, v ∈ Tsp.tour st) (vertices g))) as [Hall|Hex].
    - rewrite Forall_forall in Hall.
      assert (vertices g ⊆+ Tsp.tour st) as Hsub by by apply NoDup_submseteq.
      apply submseteq_length in Hsub. lia.
    - apply not_Forall_Exists in Hex; [|apply _]. apply Exists_exists in Hex as (v & Hv & Hnot).
      apply (Hstop' ltac:(lia) (Tsp.current st) v Hlast Hv Hnot).
      apply Hcomplete; [|done|].
      + apply Hin. apply last_Some in Hlast as [l' ->]. set_solver.
      + intros <-. apply Hnot. apply last_Some in Hlast as [l' ->]. set_solver. }
  assert (Tsp.tour st ⊆+ vertices g) as Hsub by by apply NoDup_submseteq.
  pose proof (submseteq_length _ _ Hsub) as Hle.
  split; [by apply submseteq_length_Permutation|].
  unfold closed_if_complete. rewrite bool_decide_eq_true_2; [done|lia].
Qed.

Lemma run_tsp_nearest_neighbour_witness :
  ∃ t : list Z,
    head t = Some 0 ∧ NoDup t ∧
    Tsp.run_tsp triangle 0 =
      Ok (TspResult "TSP (Nearest Neighbor)"
            (closed_if_complete triangle 0 t)
            (round2 (walk_weight (edges triangle) (closed_if_complete triangle 0 t)))
            (Z.of_nat (length (closed_if_complete triangle 0 t)) - 1)
            true) ∧
    nearest_steps (edge_weight (edges triangle)) (vertices triangle) t.
Proof.
  destruct (run_tsp_nearest_neighbour triangle 0 0 [1; 2] eq_refl)
    as (t & Hhd & Hnd & _ & Hrun & Hnn & _).
  - intros e He. unfold triangle in *. simpl in *.
    repeat (apply elem_of_cons in He; destruct He as [->|He];
            [simpl; split; repeat (apply list_elem_of_here || apply list_elem_of_further)|]).
    by apply elem_of_nil in He.
  - unfold triangle. simpl. set_solver.
  - by exists t.
Defined.

(** ** Connected graphs have one component *)

Lemma seqZ_sorted (m n : Z) : StronglySorted Z.le (seqZ m n).
Proof.
  destruct (decide (0 ≤ n)) as [Hn|Hn]; [|rewrite seqZ_nil by lia; constructor].
  rewrite <- (Z2Nat.id n Hn). generalize (Z.to_nat n). clear n Hn. intros k. revert m.
  induction k as [|k IH]; intros m; [constructor|].
  rewrite seqZ_cons by lia. replace (Z.pred (Z.of_nat (S k))) with (Z.of_nat k) by lia.
  constructor; [apply IH|]. apply Forall_seqZ. lia.
Qed.

(** The components found when every two listed vertices are joined: one,
    holding every listed vertex once, in ascending order. *)
Lemma components_single (g : graph) (v0 : Z) (rest : list Z) (V : gset Z)
    (comps : list (list Z)) :
  vertices g = v0 :: rest →
  components_inv g (vertices g) (V, comps) →
  (length comps = 1%nat ↔ ∀ x y, x ∈ vertices g → y ∈ vertices g → connected g x y) ∧
  ∀ c, comps = [c] →
       c = merge_sort Z.le (remove_dups (vertices g)) ∧ NoDup c ∧
       ∀ v, v ∈ c ↔ v ∈ vertices g.
Proof.
  intros Hvs [Hclosed Hseen Hnd Hin Hdone Hsorted Hclass]. simpl in *.
  assert (∀ v, v ∈ concat comps ↔ v ∈ vertices g) as Hmem.
  { intros v. rewrite <- Hseen. split; [apply Hin|apply Hdone]. }
  assert (∀ c, comps = [c] → NoDup c ∧ ∀ v, v ∈ c ↔ v ∈ vertices g) as Hone.
  { intros c ->. simpl in *. rewrite app_nil_r in *. by split. }
  split; [split|].
  - intros Hlen x y Hx Hy. destruct comps as [|c [|c' comps]]; try done.
    destruct (Hone c eq_refl) as [_ Hc].
    apply (Hclass c x y); [apply list_elem_of_here|by apply Hc|by apply Hc].
  - intros Hconn. destruct comps as [|c [|c' comps]]; [|done|].
    + exfalso. assert (v0 ∈ concat []) as Hv0 by (apply Hmem; rewrite Hvs; apply list_elem_of_here).
      by apply elem_of_nil in Hv0.
    + exfalso.
      destruct (Hsorted c) as [Hc _]; [apply list_elem_of_here|].
      destruct (Hsorted c') as [Hc' _]; [apply list_elem_of_further, list_elem_of_here|].
      destruct c as [|x c]; [done|]. destruct c' as [|y c']; [done|].
      assert (x ∈ vertices g) as Hx by (apply Hmem; simpl; apply list_elem_of_here).
      assert (y ∈ vertices g) as Hy.
      { apply Hmem. simpl. apply list_elem_of_further, elem_of_app. right. apply list_elem_of_here. }
      assert (y ∈ x :: c) as Hyc.
      { apply (Hclass (x :: c) x y); [apply list_elem_of_here|apply list_elem_of_here|].
        by apply Hconn. }
      simpl in Hnd. rewrite app_comm_cons in Hnd. apply NoDup_app in Hnd as (_ & Hdisj & _).
      apply (Hdisj y Hyc). apply list_elem_of_here.
  - intros c Hc. destruct (Hone c Hc) as [Hndc Hcmem]. split; [|done].
    apply (StronglySorted_unique Z.le).
    + subst comps. apply (Hsorted c), list_elem_of_here.
    + apply StronglySorted_merge_sort; apply _.
    + rewrite merge_sort_Permutation. apply NoDup_Permutation; [done|apply NoDup_remove_dups|].
      intros v. by rewrite elem_of_remove_dups.
Qed.



Lemma connected_graph_result (g : graph) (n : Z) :
  0 < n → vertices g = seqZ 0 n → endpoints_in g →
  (∀ a b, a ∈ vertices g → b ∈ vertices g → connected g a b) →
  Connectivity.run_connectivity g =
    Ok (ConnectivityResult "Connectivity (DFS)" [seqZ 0 n] 1 true (Z.to_nat n) true).
Proof.
  intros Hn Hvs Hg Hconn.
  destruct (run_connectivity_components g 0 (seqZ 1 (n - 1))) as (V & comps & Hinv & Hrun);
    [by rewrite Hvs, seqZ_cons|done|].
  destruct (components_single g 0 (seqZ 1 (n - 1)) V comps) as [Hiff Hone];
    [by rewrite Hvs, seqZ_cons|done|].
  apply Hiff in Hconn. destruct comps as [|c [|c' comps]]; try done.
  destruct (Hone c eq_refl) as (_ & Hnd & Hmem).
  assert (c = seqZ 0 n) as ->.
  { apply (StronglySorted_unique Z.le).
    - apply (cv_sorted _ _ _ Hinv c), list_elem_of_here.
    - apply seqZ_sorted.
    - apply NoDup_Permutation; [done|apply NoDup_seqZ|]. intros v. by rewrite Hmem, Hvs. }
  rewrite Hrun. simpl. by rewrite length_seqZ.
Qed.



(** ** The path drawn for a Dijkstra result *)

(** [run_dijkstra] on a graph without negative weights that meets the input
    contract: the state its loop ends in and the maps it exports. *)
Lemma run_dijkstra_state (g : graph) (start v0 : Z) (rest : list Z) :
  vertices g = v0 :: rest → endpoints_in g → nonneg_weights g →
  ∃ st ds ps,
    Dijkstra.run_dijkstra g start =
      Ok (DijkstraResult "Dijkstra" ds ps (Dijkstra.choose_start (vertices g) start) true) ∧
    dijkstra_inv g (Dijkstra.choose_start (vertices g) start)
      (λ u v w, u ∈ Dijkstra.visited st ∧ arc g u v w) st ∧
    Dijkstra.pq st = [] ∧
    Dijkstra.export (Dijkstra.dist st) (vertices g) = Ok ds ∧
    Dijkstra.export (Dijkstra.par st) (vertices g) = Ok ps.
Proof.
  intros Hvs Hg Hnn. set (s := Dijkstra.choose_start (vertices g) start).
  assert (s ∈ vertices g) as Hs.
  { unfold s. rewrite Hvs. apply choose_start_in. }
  destruct (dijkstra_build_adj_spec g Hg) as (adj & Hbuild & Hadj).
  destruct (dijkstra_loop g s adj Hg Hnn Hadj (Dijkstra.fuel_of g)
              (Dijkstra.init (vertices g) s) (dijkstra_init_inv g s Hs))
    as (st & Hloop & Hinv & Hempty).
  { unfold Dijkstra.fuel_of. simpl. rewrite incidences_all by done. lia. }
  destruct (export_total (Dijkstra.dist st) (vertices g)) as [ds Hds].
  { intros v Hv. by apply (di_dist_dom _ _ _ _ Hinv). }
  destruct (export_total (Dijkstra.par st) (vertices g)) as [ps Hps].
  { intros v Hv. by apply (di_par_dom _ _ _ _ Hinv). }
  exists st, ds, ps. split; [|done].
  unfold Dijkstra.run_dijkstra. fold s. rewrite Hbuild. cbn [mbind res_bind].
  rewrite Hloop. cbn [mbind res_bind]. rewrite Hds. cbn [mbind res_bind].
  by rewrite Hps.
Qed.

Lemma walk_vertices (g : graph) (s v : Z) (steps : list (Z * Q)) :
  endpoints_in g → s ∈ vertices g → walk g s steps v →
  v ∈ vertices g ∧ ∀ x, x ∈ steps.*1 → x ∈ vertices g.
Proof.
  intros Hg Hs. induction 1 as [|steps u v w Hwalk [IHu IH] Harc].
  - split; [done|]. by intros x ?%elem_of_nil.
  - assert (v ∈ vertices g) as Hv.
    { apply (adjacent_vertices g u v Hg). by apply (arc_adjacent g u v w). }
    split; [done|]. intros x. rewrite fmap_app. intros Hx.
    apply elem_of_app in Hx as [Hx|Hx]; [by apply IH|].
    simpl in Hx. by apply list_elem_of_singleton in Hx as ->.
Qed.

(** Following the parent pointers from the end of a traced walk lists its
    vertices backwards and stops at the start. *)
Lemma follow_parents_trace (ps : gmap pykey Z) (s : Z) (steps : list (Z * Q)) (v : Z) :
  parent_trace ps s steps v →
  ps !! inr (str s) = Some (-1) → s ≠ -1 → (∀ x, x ∈ steps.*1 → x ≠ -1) →
  ∀ (fuel : nat) (acc : list Z), (length steps < fuel)%nat →
  Ui.follow_parents fuel ps v acc = Ok (acc ++ reverse (s :: steps.*1)).
Proof.
  intros Htr Hs Hs1. induction Htr as [|steps u v w Htr IH Hpar Hne]; intros Hall fuel acc Hfuel.
  - destruct fuel as [|fuel]; [simpl in Hfuel; lia|]. simpl.
    rewrite decide_True by done. rewrite Hs. simpl.
    by destruct fuel.
  - destruct fuel as [|fuel]; [simpl in Hfuel; lia|]. simpl.
    rewrite decide_True.
    2:{ apply Hall. rewrite fmap_app. apply elem_of_app. right. apply list_elem_of_here. }
    rewrite Hpar. simpl. rewrite IH.
    + rewrite fmap_app. simpl.
      change (s :: steps.*1 ++ [v]) with ((s :: steps.*1) ++ [v]).
      rewrite reverse_app, <- app_assoc. done.
    + intros x Hx. apply Hall. rewrite fmap_app. apply elem_of_app. by left.
    + rewrite length_app in Hfuel. simpl in Hfuel. lia.
Qed.

Lemma path_edges_snoc (l : list Z) (x v : Z) (e : Z * Z) :
  last l = Some x →
  e ∈ Ui.path_edges (l ++ [v]) → e ∈ Ui.path_edges l ∨ e = (x, v).
Proof.
  induction l as [|y [|z l] IH]; [done| |].
  - intros [= ->] He. right. by apply list_elem_of_singleton in He.
  - intros Hlast He. change ((y :: z :: l) ++ [v]) with (y :: z :: (l ++ [v])) in He.
    change (e ∈ (y, z) :: Ui.path_edges ((z :: l) ++ [v])) in He.
    change (Ui.path_edges (y :: z :: l)) with ((y, z) :: Ui.path_edges (z :: l)).
    apply elem_of_cons in He as [->|He]; [left; apply list_elem_of_here|].
    destruct (IH Hlast He) as [?|?]; [left; by apply list_elem_of_further|by right].
Qed.

Lemma walk_path_edges (g : graph) (s v : Z) (steps : list (Z * Q)) :
  walk g s steps v →
  last (s :: steps.*1) = Some v ∧
  ∀ a b, (a, b) ∈ Ui.path_edges (s :: steps.*1) → adjacent g a b.
Proof.
  induction 1 as [|steps u v w Hwalk [IHlast IH] Harc].
  - split; [done|]. by intros a b ?%elem_of_nil.
  - rewrite fmap_app. change (s :: steps.*1 ++ [(v, w)].*1) with ((s :: steps.*1) ++ [v]).
    split; [by rewrite last_snoc|].
    intros a b Hab. destruct (path_edges_snoc _ _ _ _ IHlast Hab) as [?|[= -> ->]].
    + by apply IH.
    + by apply (arc_adjacent g u v w).
Qed.



(** ** Forests and spanning sets *)

Lemma not_not_em (P : Prop) : ¬ ¬ (P ∨ ¬ P).
Proof. intros H. apply H. right. intros HP. apply H. by left. Qed.

Lemma conn_once (ps : list (Z * Z)) (a b : Z) : (a, b) ∈ ps → conn ps a b.
Proof. intros Hin. apply rtc_once. by left. Qed.

(** A chain through the pairs [e :: ps] either avoids [e] or crosses it. *)
Lemma conn_bridge (e : Z * Z) (ps : list (Z * Z)) (x y : Z) :
  conn (e :: ps) x y →
  conn ps x y ∨ (conn ps x e.1 ∧ conn ps e.2 y) ∨ (conn ps x e.2 ∧ conn ps e.1 y).
Proof.
  intros Hxy. induction Hxy as [x|x m y Hxm Hmy IH]; [left; apply rtc_refl|].
  assert (linked ps x m ∨ (x = e.1 ∧ m = e.2) ∨ (x = e.2 ∧ m = e.1)) as Hcase.
  { destruct e as [e1 e2]. destruct Hxm as [Hin|Hin]; apply elem_of_cons in Hin as [[= -> ->]|Hin].
    - right. by left.
    - left. by left.
    - right. by right.
    - left. by right. }
  destruct Hcase as [Hl|[[-> ->]|[-> ->]]].
  - destruct IH as [IH|[[IH1 IH2]|[IH1 IH2]]].
    + left. by eapply rtc_l.
    + right. left. split; [by eapply rtc_l|done].
    + right. right. split; [by eapply rtc_l|done].
  - destruct IH as [IH|[[IH1 IH2]|[IH1 IH2]]].
    + right. left. split; [apply rtc_refl|done].
    + right. left. split; [apply rtc_refl|done].
    + by left.
  - destruct IH as [IH|[[IH1 IH2]|[IH1 IH2]]].
    + right. right. split; [apply rtc_refl|done].
    + by left.
    + right. right. split; [apply rtc_refl|done].
Qed.

Lemma conn_trans (ps : list (Z * Z)) (x y z : Z) : conn ps x y → conn ps y z → conn ps x z.
Proof. apply rtc_trans. Qed.

Lemma indep_sublist (base ps ps' : list (Z * Z)) :
  sublist ps' ps → indep base ps → indep base ps'.
Proof.
  induction 1 as [|[a b] l1 l2 Hsub IH|[a b] l1 l2 Hsub IH]; simpl; [done| |].
  - intros [Hab Hind]. split; [|auto]. intros Hc. apply Hab.
    apply (conn_mono (base ++ l1)); [|done].
    intros q Hq. apply elem_of_app in Hq as [Hq|Hq]; apply elem_of_app; [by left|right].
    by apply (elem_of_sublist l1 l2).
  - intros [_ Hind]. auto.
Qed.

(** Adding a pair [c] to the base costs a forest at most one pair, and only
    when the forest already joined the two ends of [c]. *)
Lemma indep_drop (base ps : list (Z * Z)) (c : Z * Z) :
  indep base ps →
  ¬ ¬ ∃ ps', sublist ps' ps ∧ indep (c :: base) ps' ∧
             (ps' = ps ∨ (length ps = S (length ps') ∧ conn (base ++ ps) c.1 c.2)).
Proof.
  induction ps as [|[a b] ps IH]; simpl.
  - intros _ Hno. apply Hno. exists []. split; [done|]. split; [done|]. by left.
  - intros [Hab Hind] Hno. apply (IH Hind). intros (ps' & Hsub & Hind' & Hcase).
    assert (∀ x y, conn (base ++ ps') x y → conn (base ++ ps) x y) as Hup.
    { intros x y. apply conn_mono. intros q Hq.
      apply elem_of_app in Hq as [Hq|Hq]; apply elem_of_app; [by left|right].
      by apply (elem_of_sublist ps' ps). }
    assert (∀ x y, conn (base ++ ps) x y → conn (base ++ (a, b) :: ps) x y) as Hup'.
    { intros x y. apply conn_mono. intros q Hq.
      apply elem_of_app in Hq as [Hq|Hq]; apply elem_of_app; [by left|right].
      by apply list_elem_of_further. }
    assert (conn (base ++ (a, b) :: ps) a b) as Hnew.
    { apply conn_once, elem_of_app. right. apply list_elem_of_here. }
    apply (not_not_em (conn ((c :: base) ++ ps') a b)). intros [Hc|Hc].
    + apply (conn_bridge c (base ++ ps') a b) in Hc.
      destruct Hcase as [->|[Hlen Hends]].
      * apply Hno. exists ps. split; [by apply sublist_cons|]. split; [done|]. right.
        split; [done|].
        destruct Hc as [Hc|[[H1 H2]|[H1 H2]]]; [done| |].
        -- apply (conn_trans _ _ a); [apply conn_sym; auto|].
           apply (conn_trans _ _ b); [done|]. apply conn_sym; auto.
        -- apply (conn_trans _ _ b); [auto|].
           apply (conn_trans _ _ a); [by apply conn_sym|]. auto.
      * apply Hab. destruct Hc as [Hc|[[H1 H2]|[H1 H2]]]; [auto| |].
        -- apply (conn_trans _ _ c.1); [auto|]. apply (conn_trans _ _ c.2); auto.
        -- apply (conn_trans _ _ c.2); [auto|].
           apply (conn_trans _ _ c.1); [by apply conn_sym|auto].
    + apply Hno. exists ((a, b) :: ps'). split; [by apply sublist_skip|].
      split; [done|]. destruct Hcase as [->|[Hlen Hends]]; [by left|right].
      split; [by rewrite Hlen|]. auto.
Qed.

(** A forest has no more pairs than a set of pairs that joins the two ends
    of each of its pairs. *)
Lemma indep_le_spanning (cs base ps : list (Z * Z)) :
  indep base ps →
  (∀ a b, (a, b) ∈ ps → conn (base ++ cs) a b) →
  (length ps ≤ length cs)%nat.
Proof.
  revert base ps. induction cs as [|c cs IH]; intros base ps Hind Hspan.
  - destruct ps as [|[a b] ps]; [done|]. exfalso. destruct Hind as [Hab _]. apply Hab.
    apply (conn_mono (base ++ [])); [|apply Hspan, list_elem_of_here].
    intros q Hq. apply elem_of_app in Hq as [Hq|Hq]; [|by apply elem_of_nil in Hq].
    apply elem_of_app. by left.
  - destruct (decide (length ps ≤ length (c :: cs))%nat) as [|Hn]; [done|]. exfalso.
    apply (indep_drop base ps c Hind). intros (ps' & Hsub & Hind' & Hcase).
    assert (length ps' ≤ length cs)%nat as Hle.
    { apply (IH (c :: base)); [done|]. intros a b Hab.
      apply (conn_mono (base ++ c :: cs)).
      - intros q Hq. apply elem_of_app in Hq as [Hq|Hq].
        + apply list_elem_of_further, elem_of_app. by left.
        + apply elem_of_cons in Hq as [->|Hq]; [apply list_elem_of_here|].
          apply list_elem_of_further, elem_of_app. by right.
      - apply Hspan. by apply (elem_of_sublist ps' ps). }
    simpl in Hn. destruct Hcase as [->|[Hlen _]]; lia.
Qed.

Lemma forest_indep (ps : list (Z * Z)) : forest ps → indep [] ps.
Proof.
  induction ps as [|[a b] ps IH]; intros Hf; simpl; [done|]. split.
  - apply (Hf [] a b ps). done.
  - apply IH. intros l1 x y l2 -> Hc. apply (Hf ((a, b) :: l1) x y l2); [done|].
    apply (conn_mono (l1 ++ l2)); [|done]. intros q Hq. by apply list_elem_of_further.
Qed.

Lemma indep_forest (ps qs : list (Z * Z)) : indep [] ps → qs ≡ₚ ps → forest qs.
Proof.
  intros Hind Hperm l1 a b l2 -> Hc.
  assert (length ps ≤ length (l1 ++ l2))%nat as Hle.
  { apply (indep_le_spanning (l1 ++ l2) [] ps Hind). intros x y Hxy. simpl.
    rewrite <- Hperm in Hxy. apply elem_of_app in Hxy as [Hxy|Hxy].
    - apply conn_once, elem_of_app. by left.
    - apply elem_of_cons in Hxy as [[= -> ->]|Hxy]; [done|].
      apply conn_once, elem_of_app. by right. }
  apply Permutation_length in Hperm. rewrite !length_app in *. simpl in *. lia.
Qed.

(** ** The sorted edges *)

Lemma tuple_leb_le (a b : Q * Z * Z) : Mst.tuple_leb a b = true → lighter a b.
Proof.
  destruct a as [[wa ua] va], b as [[wb ub] vb]. unfold lighter. simpl.
  destruct (Qeq_bool wa wb) eqn:Heq.
  - intros _. apply Qeq_bool_iff in Heq. rewrite Heq. apply Qle_refl.
  - intros Hlt. apply Qltb_true in Hlt. by apply Qlt_le_weak.
Qed.

Lemma tuple_leb_ge (a b : Q * Z * Z) : Mst.tuple_leb a b = false → lighter b a.
Proof.
  destruct a as [[wa ua] va], b as [[wb ub] vb]. unfold lighter. simpl.
  destruct (Qeq_bool wa wb) eqn:Heq.
  - intros _. apply Qeq_bool_iff in Heq. rewrite Heq. apply Qle_refl.
  - intros Hlt. by apply Qltb_false in Hlt.
Qed.

Lemma lighter_trans (a b c : Q * Z * Z) : lighter a b → lighter b c → lighter a c.
Proof. unfold lighter. apply Qle_trans. Qed.

Lemma insert_sorted (x : Q * Z * Z) (l : list (Q * Z * Z)) :
  StronglySorted lighter l → StronglySorted lighter (Mst.insert x l).
Proof.
  induction l as [|y l IH]; intros Hs; simpl.
  - by repeat constructor.
  - apply StronglySorted_inv in Hs as [Hs Hall].
    destruct (Mst.tuple_leb x y) eqn:Hxy.
    + apply tuple_leb_le in Hxy. constructor; [by constructor|].
      constructor; [done|]. eapply Forall_impl; [exact Hall|].
      intros z Hz. by apply (lighter_trans x y z).
    + apply tuple_leb_ge in Hxy. constructor; [auto|].
      apply Forall_forall. intros z Hz. rewrite insert_Permutation in Hz.
      apply elem_of_cons in Hz as [->|Hz]; [done|].
      by apply (proj1 (Forall_forall _ _) Hall).
Qed.

Lemma sort_sorted (l : list (Q * Z * Z)) : StronglySorted lighter (Mst.sort l).
Proof.
  induction l as [|x l IH]; simpl; [constructor|]. by apply insert_sorted.
Qed.

(** ** Kruskal: the chosen edges are the lightest *)

(** An edge is taken exactly when the chosen edges do not yet join its ends. *)
Lemma kruskal_step_cases (vs : list Z) (done_ : list (Q * Z * Z)) (a a' : Mst.acc)
    (fuel : nat) (w : Q) (u v : Z) :
  kruskal_inv vs done_ a → u ∈ vs → v ∈ vs → (length done_ ≤ fuel)%nat →
  Mst.step fuel (w, u, v) a = Ok a' →
  (Mst.mst_edges a' = Mst.mst_edges a ∧ conn (chosen_pairs (Mst.mst_edges a)) u v) ∨
  (Mst.mst_edges a' = Mst.mst_edges a ++ [(u, v, w)] ∧
   ¬ conn (chosen_pairs (Mst.mst_edges a)) u v).
Proof.
  intros Hinv Hu Hv Hfuel. destruct a as [[p rk] mst total].
  destruct Hinv as [Huf _ _ Hlen Hsets _ _]. simpl in *.
  destruct (union_spec vs (Z.of_nat (length mst)) p rk fuel u v Huf Hu Hv)
    as (joined & p' & rk' & rx & ry & Hunion & Hrx & Hry & Hres); [lia|].
  unfold Mst.step. simpl. rewrite Hunion. simpl. destruct joined.
  - destruct Hres as (Hne & _). intros [= <-]. simpl. right. split; [done|].
    intros Hc. apply Hsets in Hc as (r & H1 & H2); [|done..]. apply Hne.
    by rewrite (root_of_fun p u rx r), (root_of_fun p v ry r).
  - destruct Hres as (Heq & _). intros [= <-]. simpl. left. split; [done|].
    apply Hsets; [done..|]. exists rx. split; [done|]. by rewrite Heq.
Qed.

Lemma kruskal_min_step (vs : list Z) (done_ : list (Q * Z * Z)) (a a' : Mst.acc)
    (fuel : nat) (w : Q) (u v : Z) :
  kruskal_inv vs done_ a → kruskal_min done_ (Mst.mst_edges a) →
  u ∈ vs → v ∈ vs → (length done_ ≤ fuel)%nat →
  (∀ t, t ∈ done_ → lighter t (w, u, v)) →
  Mst.step fuel (w, u, v) a = Ok a' →
  kruskal_min (done_ ++ [(w, u, v)]) (Mst.mst_edges a').
Proof.
  intros Hinv [Hind Hlight] Hu Hv Hfuel Hsorted Hstep.
  assert (∀ (i : nat) ui vi wi ps,
            Mst.mst_edges a !! i = Some (ui, vi, wi) → indep [] ps →
            (∀ x y, (x, y) ∈ ps → ∃ w', (w', x, y) ∈ done_ ++ [(w, u, v)] ∧ (w' < wi)%Q) →
            (length ps ≤ i)%nat) as Hold.
  { intros i ui vi wi ps Hi Hps Hin. apply (Hlight i ui vi wi ps Hi Hps).
    intros x y Hxy. destruct (Hin x y Hxy) as (w' & Hw' & Hlt). exists w'. split; [|done].
    apply elem_of_app in Hw' as [Hw'|Hw']; [done|].
    apply list_elem_of_singleton in Hw'. injection Hw' as -> -> ->.
    assert ((wi, ui, vi) ∈ done_) as Hdone.
    { apply (ki_chosen vs done_ a Hinv). by apply (list_elem_of_lookup_2 _ i). }
    apply Hsorted in Hdone. unfold lighter in Hdone. simpl in Hdone.
    exfalso. by apply (Qlt_not_le w wi). }
  destruct (kruskal_step_cases vs done_ a a' fuel w u v Hinv Hu Hv Hfuel Hstep)
    as [[-> Hc]|[-> Hc]].
  - by split.
  - split.
    + unfold chosen_pairs. rewrite fmap_app, reverse_app. simpl. split; [|done].
      intros Hc'. apply Hc. apply (conn_mono (reverse (chosen_pairs (Mst.mst_edges a)))); [|done].
      intros q Hq. by rewrite reverse_Permutation in Hq.
    + intros i ui vi wi ps Hi Hps Hin. apply lookup_snoc_Some in Hi as [[_ Hi]|[-> Heq]].
      { by apply (Hold i ui vi wi ps). }
      injection Heq as <- <- <-.
      rewrite <- (length_fmap (λ t : Z * Z * Q, t.1) (Mst.mst_edges a)).
      apply (indep_le_spanning _ [] ps Hps). intros x y Hxy. simpl.
      apply (ki_span vs done_ a Hinv). apply conn_once, key_pairs_elem.
      destruct (Hin x y Hxy) as (w' & Hw' & Hlt). exists w'.
      apply elem_of_app in Hw' as [Hw'|Hw']; [done|].
      apply list_elem_of_singleton in Hw'. injection Hw' as -> -> ->.
      exfalso. by apply (Qlt_irrefl w).
Qed.

Lemma kruskal_min_all (vs : list Z) (fuel : nat) (todo done_ : list (Q * Z * Z))
    (a : Mst.acc) :
  kruskal_inv vs done_ a → kruskal_min done_ (Mst.mst_edges a) →
  (∀ w u v, (w, u, v) ∈ done_ ++ todo → u ∈ vs ∧ v ∈ vs) →
  (length (done_ ++ todo) ≤ fuel)%nat →
  StronglySorted lighter (done_ ++ todo) →
  ∃ a', for_each (Mst.step fuel) todo a = Ok a' ∧
        kruskal_inv vs (done_ ++ todo) a' ∧
        kruskal_min (done_ ++ todo) (Mst.mst_edges a').
Proof.
  revert done_ a. induction todo as [|[[w u] v] todo IH]; intros done_ a Hinv Hmin Hin Hfuel Hs.
  - exists a. by rewrite app_nil_r.
  - destruct (Hin w u v) as [Hu Hv].
    { apply elem_of_app. right. apply list_elem_of_here. }
    assert (length done_ ≤ fuel)%nat as Hfuel' by (rewrite length_app in Hfuel; lia).
    destruct (kruskal_step vs done_ a fuel w u v Hinv Hu Hv) as (a1 & Hstep & Hinv1);
      [|done|].
    { intros w' u' v' H'. apply (Hin w' u' v'). apply elem_of_app. by left. }
    assert (kruskal_min (done_ ++ [(w, u, v)]) (Mst.mst_edges a1)) as Hmin1.
    { apply (kruskal_min_step vs done_ a a1 fuel w u v); try done.
      intros t Ht. apply (StronglySorted_app_1_elem_of _ _ _ _ _ Hs Ht), list_elem_of_here. }
    cbn [for_each]. rewrite Hstep. simpl.
    destruct (IH (done_ ++ [(w, u, v)]) a1 Hinv1 Hmin1) as (a' & Hrun & Hinv' & Hmin').
    + intros w' u' v' H'. apply (Hin w' u' v'). by rewrite <- app_assoc in H'.
    + by rewrite <- app_assoc.
    + by rewrite <- app_assoc.
    + exists a'. rewrite <- app_assoc in Hinv', Hmin'. done.
Qed.

(** ** Sums of weights *)

Lemma sum_weights_app (l1 l2 : list (Z * Z * Q)) :
  (sum_weights (l1 ++ l2) == sum_weights l1 + sum_weights l2)%Q.
Proof.
  induction l2 as [|t l2 IH] using rev_ind.
  - rewrite app_nil_r. unfold sum_weights at 3. simpl. lra.
  - rewrite app_assoc, !sum_weights_snoc. lra.
Qed.

Lemma sum_weights_middle (l1 l2 : list (Z * Z * Q)) (t : Z * Z * Q) :
  (sum_weights (l1 ++ t :: l2) == sum_weights (l1 ++ l2) + t.2)%Q.
Proof.
  change (t :: l2) with ([t] ++ l2).
  rewrite (sum_weights_app l1 ([t] ++ l2)), (sum_weights_app [t] l2), (sum_weights_app l1 l2).
  unfold sum_weights at 2. simpl. lra.
Qed.

(** If, for every [i], fewer than [i + 1] of the weights [ts] are below the
    [i]-th of the weights [ks], the [ks] sum to no more than the [ts]. *)
Lemma light_count_sum (ks ts : list (Z * Z * Q)) :
  length ts = length ks →
  (∀ (i : nat) k, ks !! i = Some k →
     (length (filter (λ t : Z * Z * Q, Qltb t.2 k.2 = true) ts) ≤ i)%nat) →
  (sum_weights ks <= sum_weights ts)%Q.
Proof.
  revert ts. induction ks as [|k ks IH] using rev_ind; intros ts Hlen Hcount.
  - apply nil_length_inv in Hlen as ->. apply Qle_refl.
  - rewrite length_app in Hlen. simpl in Hlen.
    pose proof (Hcount (length ks) k (list_lookup_middle ks [] k _ eq_refl)) as Hk.
    assert (∃ t, t ∈ ts ∧ Qltb t.2 k.2 = false) as (t & Ht & Hge).
    { clear -Hk Hlen. assert (length (filter (λ t : Z * Z * Q, Qltb t.2 k.2 = true) ts)
                              < length ts)%nat as Hlt by lia.
      clear Hk Hlen. induction ts as [|t ts IHts]; [simpl in Hlt; lia|].
      destruct (Qltb t.2 k.2) eqn:Hb.
      - rewrite filter_cons, decide_True in Hlt by done. simpl in Hlt.
        destruct IHts as (t' & Ht' & Hge); [lia|]. exists t'. split; [|done].
        by apply list_elem_of_further.
      - exists t. split; [apply list_elem_of_here|done]. }
    apply list_elem_of_split in Ht as (t1 & t2 & ->).
    apply Qltb_false in Hge.
    assert (sum_weights ks <= sum_weights (t1 ++ t2))%Q as Hle.
    { apply IH.
      - rewrite length_app in *. simpl in Hlen. lia.
      - intros i k' Hi.
        pose proof (Hcount i k' (lookup_app_l_Some _ _ _ _ Hi)) as Hc.
        rewrite filter_app, length_app in *. rewrite filter_cons in Hc.
        destruct (decide (Qltb t.2 k'.2 = true)); simpl in Hc; lia. }
    rewrite sum_weights_snoc, sum_weights_middle. lra.
Qed.

(** ** Kruskal: a spanning forest of least weight *)

Lemma run_mst_lightest (g : graph) (v0 : Z) (rest : list Z) :
  vertices g = v0 :: rest → endpoints_in g →
  ∃ mst,
    kruskal_min (Mst.sort (Mst.key_of <$> edges g)) mst ∧
    (∀ u v w, (u, v, w) ∈ mst → ∃ e, e ∈ edges g ∧ unpack e = (u, v, w)) ∧
    (∀ x y, connected g x y → conn (chosen_pairs mst) x y) ∧
    Mst.run_mst g =
      Ok (MstResult "MST (Kruskal)" mst (round2Q (sum_weights mst)) (length mst)
            (bool_decide (Z.of_nat (length mst) = Z.of_nat (length (vertices g)) - 1))
            true).
Proof.
  intros Hvs Hg.
  destruct (kruskal_min_all (vertices g) (Mst.fuel_of g) (Mst.sort (Mst.key_of <$> edges g)) [] _
              (kruskal_initial (vertices g))) as (a & Hrun & Hinv & Hmin).
  { split; [done|]. intros i u v w ps Hi. simpl in Hi. by rewrite lookup_nil in Hi. }
  { intros w u v Hin. apply sorted_keys_elem in Hin as (e & He & Hun).
    destruct (Hg e He) as [H1 H2]. rewrite endpoints_unpack, Hun in H1, H2. done. }
  { simpl. rewrite (sort_Permutation (Mst.key_of <$> edges g)), length_fmap. done. }
  { apply sort_sorted. }
  simpl in Hinv, Hmin. exists (Mst.mst_edges a). split; [done|]. split; [|split].
  - intros u v w Hin. by apply sorted_keys_elem, (ki_chosen _ _ _ Hinv).
  - intros x y Hxy. apply (ki_span _ _ _ Hinv).
    apply (conn_connected g); [|done].
    pose proof (sort_Permutation (Mst.key_of <$> edges g)) as Hperm.
    intros q. rewrite <- key_pairs_key_of. unfold key_pairs.
    rewrite !list_elem_of_fmap. split.
    + intros (t & -> & Ht). exists t. split; [done|]. by rewrite <- Hperm.
    + intros (t & -> & Ht). exists t. split; [done|]. by rewrite Hperm.
  - unfold Mst.run_mst. rewrite Hvs, <- Hvs. rewrite Hrun. simpl.
    by rewrite (ki_total _ _ _ Hinv).
Qed.

Lemma edge_connected (g : graph) (e : edge) (u v : Z) (w : Q) :
  e ∈ edges g → unpack e = (u, v, w) → connected g u v.
Proof.
  intros He Hun. apply rtc_once. exists e. split; [done|]. left.
  by rewrite endpoints_unpack, Hun.
Qed.

(** [X17] On a graph with a first vertex and edges between listed vertices,
    [run_mst] returns a spanning forest of least weight, whatever the signs
    of the weights: its edges form a forest, and every forest [ts] of edges
    of the graph that joins whatever the graph joins has the same number of
    edges and a sum of weights (before rounding) at least that of the edges
    returned. *)
Theorem run_mst_minimum (g : graph) (v0 : Z) (rest : list Z) (ts : list (Z * Z * Q)) :
  vertices g = v0 :: rest → endpoints_in g →
  (∀ u v w, (u, v, w) ∈ ts → ∃ e, e ∈ edges g ∧ unpack e = (u, v, w)) →
  forest (chosen_pairs ts) →
  (∀ x y, connected g x y → conn (chosen_pairs ts) x y) →
  ∃ mst,
    Mst.run_mst g =
      Ok (MstResult "MST (Kruskal)" mst (round2Q (sum_weights mst)) (length mst)
            (bool_decide (Z.of_nat (length mst) = Z.of_nat (length (vertices g)) - 1))
            true) ∧
    forest (chosen_pairs mst) ∧
    length mst = length ts ∧
    (sum_weights mst <= sum_weights ts)%Q.
Proof.
  intros Hvs Hg Hts Hforest Hspan.
  destruct (run_mst_lightest g v0 rest Hvs Hg) as (mst & [Hind Hlight] & Hedges & Hjoin & Hrun).
  apply forest_indep in Hforest as Hts_ind.
  assert (length ts ≤ length mst)%nat as Hle1.
  { rewrite <- (length_fmap (λ t : Z * Z * Q, t.1) ts),
      <- (length_fmap (λ t : Z * Z * Q, t.1) mst).
    apply (indep_le_spanning _ [] _ Hts_ind). intros a b Hab. simpl.
    apply chosen_pairs_elem in Hab as (w & Hin). destruct (Hts a b w Hin) as (e & He & Hun).
    apply Hjoin. by apply (edge_connected g e a b w). }
  assert (length mst ≤ length ts)%nat as Hle2.
  { rewrite <- (length_fmap (λ t : Z * Z * Q, t.1) ts),
      <- (length_fmap (λ t : Z * Z * Q, t.1) mst), <- (length_reverse (_ <$> mst)).
    apply (indep_le_spanning _ [] _ Hind). intros a b Hab. simpl.
    rewrite reverse_Permutation in Hab.
    apply chosen_pairs_elem in Hab as (w & Hin). destruct (Hedges a b w Hin) as (e & He & Hun).
    apply Hspan. by apply (edge_connected g e a b w). }
  exists mst. split; [done|]. split; [|split; [lia|]].
  - apply (indep_forest _ _ Hind). by rewrite reverse_Permutation.
  - apply light_count_sum; [lia|]. intros i [[u v] w] Hi. simpl.
    rewrite <- (length_fmap (λ t : Z * Z * Q, t.1)).
    apply (Hlight i u v w); [done| |].
    + apply (indep_sublist [] (chosen_pairs ts)); [|done].
      apply fmap_sublist, sublist_filter.
    + intros a b Hab. apply list_elem_of_fmap in Hab as ([[a' b'] w'] & [= <- <-] & Hin).
      apply list_elem_of_filter in Hin as [Hlt Hin]. simpl in Hlt.
      exists w'. split; [|by apply Qltb_true].
      apply sorted_keys_elem. by apply Hts.
Qed.

Lemma scalene_endpoints_in : endpoints_in scalene.
Proof.
  intros e He. unfold scalene in *. simpl in *.
  repeat (apply elem_of_cons in He as [->|He]); [| | |by apply elem_of_nil in He];
    simpl; split; set_solver.
Qed.

Lemma scalene_detour_forest : forest [(1, 2); (0, 2)].
Proof.
  apply (indep_forest [(1, 2); (0, 2)]); [|done]. simpl. split; [|split; [|done]].
  - intros Hc. apply conn_bridge in Hc. simpl in Hc. rewrite !conn_nil in Hc. lia.
  - rewrite conn_nil. lia.
Qed.

Lemma scalene_detour_spans (x y : Z) : connected scalene x y → conn [(1, 2); (0, 2)] x y.
Proof.
  intros Hxy. induction Hxy as [|x m y (e & He & Hends) _ IH]; [apply rtc_refl|].
  apply (conn_trans _ _ m); [|done]. clear IH.
  assert (conn [(1, 2); (0, 2)] 0 1) as H01.
  { apply (conn_trans _ _ 2); [apply conn_once; set_solver|].
    apply conn_sym, conn_once. set_solver. }
  unfold scalene in He. simpl in He.
  repeat (apply elem_of_cons in He as [->|He]); [| | |by apply elem_of_nil in He];
    simpl in Hends; destruct Hends as [[= <- <-]|[= <- <-]];
    first [exact H01 | by apply conn_sym | apply conn_once; set_solver
          | apply conn_sym, conn_once; set_solver].
Qed.

Lemma run_mst_minimum_witness :
  ∃ mst,
    Mst.run_mst scalene =
      Ok (MstResult "MST (Kruskal)" mst (round2Q (sum_weights mst)) (length mst)
            (bool_decide (Z.of_nat (length mst) = Z.of_nat (length (vertices scalene)) - 1))
            true) ∧
    length mst = 2%nat ∧
    (sum_weights mst <= sum_weights scalene_detour)%Q.
Proof.
  destruct (run_mst_minimum scalene 0 [1; 2] scalene_detour eq_refl
              scalene_endpoints_in) as (mst & Hrun & _ & Hlen & Hle).
  - intros u v w Hin. unfold scalene, scalene_detour in *. simpl.
    repeat (apply elem_of_cons in Hin as [[= -> -> ->]|Hin]); [| |by apply elem_of_nil in Hin].
    + exists (E3 1 2 2). split; [set_solver|done].
    + exists (E3 0 2 3). split; [set_solver|done].
  - exact scalene_detour_forest.
  - exact scalene_detour_spans.
  - by exists mst.
Defined.
